(** * Rectangular linear sum assignment: a model of rectangular_lsap.cpp

    The solver of [src/nanolsap/rectangular_lsap/rectangular_lsap.cpp]
    (shortest augmenting paths after Crouse, 2016) embedded as executable
    Rocq functions, followed by the properties of its specification.

    Conventions of the embedding:
    - [intptr_t] and [int64_t] values are [Z]; the sentinel [-1] is kept.
    - a finite [double] is a rational, the two infinities and NaN are kept
      with their IEEE behaviour under [+], [-], [<] and [==]; the two zeros
      are one value (the solver never divides and its comparisons do not
      tell them apart).  The result of [+] and [-] is the exact result
      rounded by the arithmetic in force, a parameter [Arith] of the
      model: [ieee_arith] rounds as the machine does (binary64 for
      [double], the 80-bit extended format for [long double], round to
      nearest even, overflow to an infinity), [exact_arith] does not round.
    - a [std::vector] is a [list]; [v[i]] is [zth v i d] and
      [v[i] = x] is [zset v i x].  C++ does not check bounds; the model
      reads a default and writes nothing out of range.
    - [for] loops over a counter are [fold_left] over [seq 0 n]; the two
      [while] loops take a fuel argument and are shown never to exhaust it. *)

From Stdlib Require Import List ZArith QArith Bool Lia Lqa Permutation Arith
  Sorted.
Import ListNotations.
Local Open Scope Z_scope.

(** ** Vectors indexed by [intptr_t] *)

Fixpoint upd {A : Type} (n : nat) (x : A) (l : list A) : list A :=
  match l, n with
  | [], _ => []
  | _ :: t, O => x :: t
  | h :: t, S n' => h :: upd n' x t
  end.

Definition zth {A : Type} (l : list A) (i : Z) (d : A) : A :=
  nth (Z.to_nat i) l d.

Definition zset {A : Type} (l : list A) (i : Z) (x : A) : list A :=
  upd (Z.to_nat i) x l.

(** ** The working type [double] *)

Inductive double : Type :=
| Fin (q : Q)
| PInf
| NInf
| NaN.

Definition INFINITY : double := PInf.

Definition Qlt_bool (a b : Q) : bool := negb (Qle_bool b a).

Definition dneg (x : double) : double :=
  match x with
  | Fin q => Fin (- q)
  | PInf => NInf
  | NInf => PInf
  | NaN => NaN
  end.

Definition dadd (x y : double) : double :=
  match x, y with
  | NaN, _ | _, NaN => NaN
  | Fin a, Fin b => Fin (a + b)
  | PInf, NInf | NInf, PInf => NaN
  | PInf, _ | _, PInf => PInf
  | NInf, _ | _, NInf => NInf
  end.

Definition dsub (x y : double) : double := dadd x (dneg y).
(* [dadd] and [dsub] are the exact sum and difference; the arithmetic of the
   program, [fadd] and [fsub] below, rounds them. *)

Definition dltb (x y : double) : bool :=
  match x, y with
  | NaN, _ | _, NaN => false
  | Fin a, Fin b => Qlt_bool a b
  | _, NInf => false
  | NInf, _ => true
  | PInf, _ => false
  | Fin _, PInf => true
  end.

Definition deqb (x y : double) : bool :=
  match x, y with
  | Fin a, Fin b => Qeq_bool a b
  | PInf, PInf => true
  | NInf, NInf => true
  | _, _ => false
  end.

Declare Scope double_scope.
Delimit Scope double_scope with D.
Bind Scope double_scope with double.
Infix "+" := dadd : double_scope.
Infix "-" := dsub : double_scope.
Notation "- x" := (dneg x) : double_scope.
Infix "<?" := dltb : double_scope.
Infix "==?" := deqb (at level 70) : double_scope.

(** ** Rounding

    A floating-point format has [precision] binary digits and exponents up
    to [max_exponent]; [double] is binary64, [long double] is the extended
    format of the x87 unit (the x86-64 ABI). *)

Inductive format : Type :=
| F_double
| F_long_double.

Definition precision (f : format) : Z :=
  match f with F_double => 53 | F_long_double => 64 end.

Definition max_exponent (f : format) : Z :=
  match f with F_double => 1023 | F_long_double => 16383 end.

(** The integer [e] with [2^e <= n / d < 2^(e+1)]. *)
Definition ilog2 (n d : positive) : Z :=
  let e := Z.log2 (Zpos n) - Z.log2 (Zpos d) in
  if (if 0 <=? e then Zpos d * 2 ^ e <=? Zpos n
      else Zpos d <=? Zpos n * 2 ^ (- e))
  then e else e - 1.

(** [n / d] rounded to the nearest integer, ties to the even one. *)
Definition nearest_even (n d : Z) : Z :=
  let q := n / d in
  match 2 * (n mod d) ?= d with
  | Lt => q
  | Gt => q + 1
  | Eq => if Z.even q then q else q + 1
  end.

(** The positive rational [n / d] rounded to [p] binary digits with the
    largest exponent [emax]: below [2^(1 - emax)] the last place stays that
    of the subnormal numbers, and a result of [2^(emax + 1)] or more is
    [+inf]. *)
Definition round_pos (p emax : Z) (n d : positive) : double :=
  let e := Z.max (ilog2 n d) (1 - emax) in
  let t := e - (p - 1) in
  let k := if 0 <=? t then nearest_even (Zpos n) (Zpos d * 2 ^ t)
           else nearest_even (Zpos n * 2 ^ (- t)) (Zpos d) in
  if ((emax <? e) || ((e =? emax) && (2 ^ p <=? k)))%bool then PInf
  else Fin (Qred (if 0 <=? t then inject_Z (k * 2 ^ t)
                  else k # Z.to_pos (2 ^ (- t)))).

Definition round_to (f : format) (x : double) : double :=
  match x with
  | Fin q =>
    let q := Qred q in
    match Qnum q with
    | Z0 => Fin 0
    | Zpos n => round_pos (precision f) (max_exponent f) n (Qden q)
    | Zneg n => dneg (round_pos (precision f) (max_exponent f) n (Qden q))
    end
  | _ => x
  end.

(** The arithmetic in force: [rnd f x] is what an operation carried out in
    the format [f] returns when its exact result is [x]; [narrow f x] is
    the conversion to [double] of a value [x] of the format [f]. *)
Class Arith : Type := {
  rnd : format -> double -> double;
  narrow : format -> double -> double
}.

Definition ieee_arith : Arith := {|
  rnd := round_to;
  narrow := fun f x =>
    match f with F_double => x | F_long_double => round_to F_double x end
|}.

Definition exact_arith : Arith := {|
  rnd := fun _ x => x;
  narrow := fun _ x => x
|}.

(** [x + y] and [x - y] carried out in the format [f]. *)
Definition fadd `{Arith} (f : format) (x y : double) : double :=
  rnd f (dadd x y).

Definition fsub `{Arith} (f : format) (x y : double) : double :=
  rnd f (dsub x y).

(** ** Element types of the template parameter [T]

    [solve<T>] reads a [T], negates it in [T] (in [matrix2d::get]) and
    converts it where it meets a [double] operand (line 136): to [double],
    unless [T] is [long double], in which case the [double] operands are
    converted to [long double] and the expression is evaluated there. *)

Class Elem (T : Type) : Type := {
  elem_neg : T -> T;        (* [r = -r] with [T r] *)
  to_double : T -> double;  (* the value of a [T] operand once converted *)
  elem_default : T;         (* what the model reads out of bounds *)
  elem_format : format      (* where [double + T] is evaluated *)
}.

(** [double], and [float], whose values are values of [double]. *)
#[export] Instance Elem_double : Elem double := {
  elem_neg := dneg;
  to_double := fun x => x;
  elem_default := Fin 0;
  elem_format := F_double
}.

(** [long double]: the matrix holds values of the extended format. *)
Definition Elem_long_double : Elem double := {|
  elem_neg := dneg;
  to_double := fun x => x;
  elem_default := Fin 0;
  elem_format := F_long_double
|}.

(** [-r] on a [bool] promotes [r] to [int], negates, and converts the [int]
    back to [bool]: every nonzero value becomes [true]. *)
Definition int_of_bool (b : bool) : Z := if b then 1 else 0.
Definition bool_of_int (z : Z) : bool := negb (z =? 0).

#[export] Instance Elem_bool : Elem bool := {
  elem_neg := fun r => bool_of_int (- int_of_bool r);
  to_double := fun r => Fin (inject_Z (int_of_bool r));
  elem_default := false;
  elem_format := F_double
}.

(** Integer element types: [w] bits, two's complement when signed; [-r] is
    computed after integer promotion and converted back to [w] bits.  The
    conversion to [double] rounds (an integer of more than 53 bits need not
    be a [double]). *)
Definition wrap (signed : bool) (w : Z) (z : Z) : Z :=
  if signed then (z + 2 ^ (w - 1)) mod 2 ^ w - 2 ^ (w - 1) else z mod 2 ^ w.

Definition Elem_int `{Arith} (signed : bool) (w : Z) : Elem Z := {|
  elem_neg := fun r => wrap signed w (- r);
  to_double := fun r => rnd F_double (Fin (inject_Z r));
  elem_default := 0;
  elem_format := F_double
|}.

(** ** The cost view [matrix2d<T>] *)

Record matrix2d (T : Type) : Type := Matrix2d {
  m_d : list T;
  m_nr : Z;
  m_nc : Z;
  m_transpose : bool;
  m_negative : bool;
  m_subrows : option (list Z);   (* [nullptr] is [None] *)
  m_subcols : option (list Z)
}.
Arguments Matrix2d {T}.
Arguments m_d {T}.
Arguments m_nr {T}.
Arguments m_nc {T}.
Arguments m_transpose {T}.
Arguments m_negative {T}.
Arguments m_subrows {T}.
Arguments m_subcols {T}.

Section CostView.
Context {T : Type} `{Elem T}.

Definition matrix2d_new (d : list T) (nr nc : Z) : matrix2d T :=
  Matrix2d d nr nc false false None None.

Definition get (m : matrix2d T) (i j : Z) : T :=
  let '(i, j) := if m_transpose m then (j, i) else (i, j) in
  let i := match m_subrows m with Some s => zth s i 0 | None => i end in
  let j := match m_subcols m with Some s => zth s j 0 | None => j end in
  let r := zth (m_d m) (i * m_nc m + j) elem_default in
  if m_negative m then elem_neg r else r.

Definition transpose (m : matrix2d T) : matrix2d T :=
  Matrix2d (m_d m) (m_nr m) (m_nc m) (negb (m_transpose m)) (m_negative m)
           (m_subrows m) (m_subcols m).

Definition negative (m : matrix2d T) : matrix2d T :=
  Matrix2d (m_d m) (m_nr m) (m_nc m) (m_transpose m) (negb (m_negative m))
           (m_subrows m) (m_subcols m).

Definition subscript (m : matrix2d T) (subrows subcols : option (list Z))
  : matrix2d T :=
  Matrix2d (m_d m) (m_nr m) (m_nc m) (m_transpose m) (m_negative m)
           subrows subcols.

(** The cost as it enters the arithmetic of the search. *)
Definition cost_at (m : matrix2d T) (i j : Z) : double :=
  to_double (get m i j).
End CostView.

(** ** Status codes and results

    A result [Ok x] stands for [return 0] with [x] written to the output
    buffers; [OutOfFuel] belongs to the model only (see [solve_total]). *)

(** Modelled from the spec: the header [rectangular_lsap.h], which gives the
    nonzero status codes their values, is not among the sources.  The
    specification lists four codes, stable nonzero integers that tell four
    categories of error apart; they are kept symbolic, under the names the
    source returns them by. *)
Inductive status : Type :=
| RECTANGULAR_LSAP_INFEASIBLE
| RECTANGULAR_LSAP_INVALID
| RECTANGULAR_LSAP_SUBSCRIPT_INVALID
| RECTANGULAR_LSAP_DTYPE_INVALID.

Inductive outcome (A : Type) : Type :=
| Ok (a : A)
| Fail (s : status)
| OutOfFuel.
Arguments Ok {A}.
Arguments Fail {A}.
Arguments OutOfFuel {A}.

Definition bind {A B : Type} (x : outcome A) (f : A -> outcome B) : outcome B :=
  match x with
  | Ok a => f a
  | Fail s => Fail s
  | OutOfFuel => OutOfFuel
  end.

Notation "x <- e ;; k" := (bind e (fun x => k))
  (at level 61, e at next level, right associativity).

(** ** [augmenting_path] *)

(** The vectors the search writes, with the cursor of its [while] loop. *)
Record search : Type := Search {
  s_path : list Z;
  s_spc : list double;          (* shortestPathCosts *)
  s_SR : list bool;
  s_SC : list bool;
  s_remaining : list Z
}.

(** What the inner [for] loop carries: [path], [shortestPathCosts],
    [lowest] and [index]. *)
Record scan : Type := Scan {
  sc_path : list Z;
  sc_spc : list double;
  sc_lowest : double;
  sc_index : Z
}.

Section AugmentingPath.
Context {A : Arith} {T : Type} `{Elem T}.
Variable cost : matrix2d T.
Variables u v : list double.
Variable row4col : list Z.

(** Body of [for (it = 0; it < num_remaining; it++)]. *)
Definition scan_body (remaining : list Z) (i : Z) (minVal : double)
           (s : scan) (it : nat) : scan :=
  let j := nth it remaining 0 in
  let f := elem_format in
  let r := narrow f (fsub f (fsub f (fadd f minVal (cost_at cost i j))
                                  (zth u i NaN))
                          (zth v j NaN)) in
  let '(path, spc) :=
    if (r <? zth (sc_spc s) j NaN)%D
    then (zset (sc_path s) j i, zset (sc_spc s) j r)
    else (sc_path s, sc_spc s) in
  if ((zth spc j NaN <? sc_lowest s)%D
      || ((zth spc j NaN ==? sc_lowest s)%D && (zth row4col j 0 =? -1)))%bool
  then Scan path spc (zth spc j NaN) (Z.of_nat it)
  else Scan path spc (sc_lowest s) (sc_index s).

Definition scan_loop (remaining : list Z) (num_remaining : nat) (i : Z)
           (minVal : double) (path : list Z) (spc : list double) : scan :=
  fold_left (scan_body remaining i minVal) (seq 0 num_remaining)
            (Scan path spc INFINITY (-1)).

(** [while (sink == -1)].  The result is the returned sink ([-1] when the
    search is infeasible), the local [minVal], and the vectors. *)
Fixpoint search_loop (fuel : nat) (num_remaining : nat) (i : Z)
         (minVal : double) (s : search) : option (Z * double * search) :=
  match fuel with
  | O => None
  | S fuel' =>
    let SR := zset (s_SR s) i true in
    let sc := scan_loop (s_remaining s) num_remaining i minVal
                        (s_path s) (s_spc s) in
    let minVal := sc_lowest sc in
    if (minVal ==? INFINITY)%D
    then Some (-1, minVal,
               Search (sc_path sc) (sc_spc sc) SR (s_SC s) (s_remaining s))
    else
      let j := zth (s_remaining s) (sc_index sc) 0 in
      let SC := zset (s_SC s) j true in
      let num_remaining := pred num_remaining in
      let remaining :=
        zset (s_remaining s) (sc_index sc)
             (nth num_remaining (s_remaining s) 0) in
      let s' := Search (sc_path sc) (sc_spc sc) SR SC remaining in
      if zth row4col j 0 =? -1
      then Some (j, minVal, s')
      else search_loop fuel' num_remaining (zth row4col j 0) minVal s'
  end.

Definition augmenting_path (nc : nat) (path : list Z) (spc : list double)
           (i : Z) (SR SC : list bool) (remaining : list Z)
  : option (Z * double * search) :=
  let remaining :=
    fold_left (fun rem it => zset rem (Z.of_nat it)
                                  (Z.of_nat nc - Z.of_nat it - 1))
              (seq 0 nc) remaining in
  let SR := map (fun _ => false) SR in
  let SC := map (fun _ => false) SC in
  let spc := map (fun _ => INFINITY) spc in
  search_loop (S nc) nc i (Fin 0) (Search path spc SR SC remaining).
End AugmentingPath.

(** ** [argsort_iter]

    [std::sort] of the indices by [v[i] < v[j]]; an insertion sort stands
    for it (the keys sorted by [solve] are pairwise distinct, so every
    sorting algorithm returns the same order). *)

Fixpoint insert_by (lt : Z -> Z -> bool) (x : Z) (l : list Z) : list Z :=
  match l with
  | [] => [x]
  | y :: t => if lt y x then y :: insert_by lt x t else x :: y :: t
  end.

Definition sort_by (lt : Z -> Z -> bool) (l : list Z) : list Z :=
  fold_right (insert_by lt) [] l.

Definition iota (n : nat) : list Z := map Z.of_nat (seq 0 n).

Definition argsort_iter (v : list Z) : list Z :=
  sort_by (fun i j => zth v i 0 <? zth v j 0) (iota (length v)).

(** ** [solve] *)

(** The vectors of [solve] that live across iterations of its main loop. *)
Record lsap : Type := Lsap {
  l_u : list double;
  l_v : list double;
  l_spc : list double;
  l_path : list Z;
  l_col4row : list Z;
  l_row4col : list Z;
  l_SR : list bool;
  l_SC : list bool;
  l_remaining : list Z
}.

Section Solve.
Context {A : Arith} {T : Type} `{Elem T}.

(** The test of the validation loop on one element. *)
Definition invalid_entry (maximize : bool) (c : T) : bool :=
  let x := to_double c in
  (negb (x ==? x)%D
   || ((x ==? - INFINITY)%D && negb maximize)
   || ((x ==? INFINITY)%D && maximize))%bool.

(** [for (i = 0; i < n; i++) { v = sub[i]; if (v < 0 || v >= bound) ... }] *)
Definition subscript_out_of_bound (sub : list Z) (n : Z) (bound : Z) : bool :=
  existsb (fun i => let v := nth i sub 0 in (v <? 0) || (v >=? bound))%bool
          (seq 0 (Z.to_nat n)).

(** [while (1)] of the augmentation. *)
Fixpoint augment (fuel : nat) (curRow : Z) (path : list Z) (j : Z)
         (row4col col4row : list Z) : option (list Z * list Z) :=
  match fuel with
  | O => None
  | S fuel' =>
    let i := zth path j 0 in
    let row4col := zset row4col j i in
    let j' := zth col4row i 0 in
    let col4row := zset col4row i j in
    if i =? curRow then Some (row4col, col4row)
    else augment fuel' curRow path j' row4col col4row
  end.

Definition update_u (nr : nat) (curRow : nat) (minVal : double)
           (spc : list double) (col4row : list Z) (SR : list bool)
           (u : list double) : list double :=
  fold_left
    (fun u i =>
       if (nth i SR false && negb (i =? curRow)%nat)%bool
       then upd i (fadd F_double (nth i u NaN)
                         (fsub F_double minVal
                               (zth spc (nth i col4row 0) NaN))) u
       else u)
    (seq 0 nr)
    (upd curRow (fadd F_double (nth curRow u NaN) minVal) u).

Definition update_v (nc : nat) (minVal : double) (spc : list double)
           (SC : list bool) (v : list double) : list double :=
  fold_left
    (fun v j =>
       if nth j SC false
       then upd j (fsub F_double (nth j v NaN)
                         (fsub F_double minVal (nth j spc NaN))) v
       else v)
    (seq 0 nc) v.

(** One iteration of [for (curRow = 0; curRow < nr; curRow++)]. *)
Definition solve_row (cost : matrix2d T) (nr nc : nat) (st : lsap)
           (curRow : nat) : outcome lsap :=
  match augmenting_path cost (l_u st) (l_v st) (l_row4col st) nc
                        (l_path st) (l_spc st) (Z.of_nat curRow)
                        (l_SR st) (l_SC st) (l_remaining st) with
  | None => OutOfFuel
  | Some (sink, minVal, s) =>
    if sink <? 0 then Fail RECTANGULAR_LSAP_INFEASIBLE
    else
      let u := update_u nr curRow minVal (s_spc s) (l_col4row st) (s_SR s)
                        (l_u st) in
      let v := update_v nc minVal (s_spc s) (s_SC s) (l_v st) in
      match augment (S nc) (Z.of_nat curRow) (s_path s) sink
                    (l_row4col st) (l_col4row st) with
      | None => OutOfFuel
      | Some (row4col, col4row) =>
        Ok (Lsap u v (s_spc s) (s_path s) col4row row4col
                 (s_SR s) (s_SC s) (s_remaining s))
      end
  end.

Fixpoint solve_rows (cost : matrix2d T) (nr nc : nat) (rows : list nat)
         (st : lsap) : outcome lsap :=
  match rows with
  | [] => Ok st
  | curRow :: rows' =>
    st' <- solve_row cost nr nc st curRow ;;
    solve_rows cost nr nc rows' st'
  end.

Definition lsap_init (nr nc : nat) : lsap :=
  Lsap (repeat (Fin 0) nr) (repeat (Fin 0) nc) (repeat (Fin 0) nc)
       (repeat (-1) nc) (repeat (-1) nr) (repeat (-1) nc)
       (repeat false nr) (repeat false nc) (repeat 0 nc).

(** Lines 189-218, one axis: a length of zero clears the pointer, a
    negative length or an entry outside [0, bound) is rejected. *)
Definition check_subscript (sub : option (list Z)) (n bound : Z)
  : outcome (option (list Z)) :=
  if n =? 0 then Ok None
  else if n <? 0 then Fail RECTANGULAR_LSAP_SUBSCRIPT_INVALID
  else if subscript_out_of_bound
            (match sub with Some s => s | None => [] end) n bound
  then Fail RECTANGULAR_LSAP_SUBSCRIPT_INVALID
  else Ok sub.

(** [bool subscript = (subrows != nullptr) || (subcols != nullptr)] *)
Definition is_subscript (subrows subcols : option (list Z)) : bool :=
  match subrows, subcols with
  | None, None => false
  | _, _ => true
  end.

(** Lines 220-237: the cost view, the working shape and [transpose]. *)
Definition orient (nr nc : Z) (cost : list T) (maximize : bool)
           (subrows : option (list Z)) (n_subrows : Z)
           (subcols : option (list Z)) (n_subcols : Z)
  : matrix2d T * Z * Z * bool :=
  let costmat := matrix2d_new cost nr nc in
  let '(costmat, nr, nc) :=
    if is_subscript subrows subcols
    then (subscript costmat subrows subcols, n_subrows, n_subcols)
    else (costmat, nr, nc) in
  (* tall rectangular cost matrix must be transposed *)
  let is_transpose := nc <? nr in
  let '(costmat, nr, nc) :=
    if is_transpose then (transpose costmat, nc, nr)
    else (costmat, nr, nc) in
  let costmat := if maximize then negative costmat else costmat in
  (costmat, nr, nc, is_transpose).

(** Lines 287-311: what is written to [a] and [b]; [nr] is the working
    number of rows. *)
Definition emit (is_transpose : bool) (subrows subcols : option (list Z))
           (nr : nat) (col4row : list Z) : list Z * list Z :=
  let '(a, b) :=
    if is_transpose
    then let idx := argsort_iter col4row in
         (map (fun v => zth col4row v 0) idx, idx)
    else (iota nr, map (fun i => nth i col4row 0) (seq 0 nr)) in
  if is_subscript subrows subcols
  then (match subrows with
        | Some s => map (fun x => zth s x 0) a | None => a end,
        match subcols with
        | Some s => map (fun x => zth s x 0) b | None => b end)
  else (a, b).

(** [solve<T>].  The pointers [subrows], [subcols] are [option]s, their
    announced lengths [n_subrows], [n_subcols] are separate arguments as
    in the source.  The result [Ok (a, b)] lists the values written to
    [a[0..)] and [b[0..)]. *)
Definition solve (nr nc : Z) (cost : list T) (maximize : bool)
           (subrows : option (list Z)) (n_subrows : Z)
           (subcols : option (list Z)) (n_subcols : Z)
  : outcome (list Z * list Z) :=
  (* handle trivial inputs *)
  if ((nr =? 0) || (nc =? 0))%bool then Ok ([], [])
  (* test for NaN and -inf entries *)
  else if existsb (fun i => invalid_entry maximize (nth i cost elem_default))
                  (seq 0 (Z.to_nat (nr * nc)))
  then Fail RECTANGULAR_LSAP_INVALID
  else
    (* check subrows and subcols in bound *)
    subrows <- check_subscript subrows n_subrows nr ;;
    subcols <- check_subscript subcols n_subcols nc ;;
    let '(costmat, nr, nc, is_transpose) :=
      orient nr nc cost maximize subrows n_subrows subcols n_subcols in
    let nr := Z.to_nat nr in
    let nc := Z.to_nat nc in
    (* iteratively build the solution *)
    st <- solve_rows costmat nr nc (seq 0 nr) (lsap_init nr nc) ;;
    Ok (emit is_transpose subrows subcols nr (l_col4row st)).
End Solve.

(** ** The C entry points *)

Definition solve_rectangular_linear_sum_assignment `{Arith}
           (nr nc : Z) (input_cost : list double) (maximize : bool)
  : outcome (list Z * list Z) :=
  solve nr nc input_cost maximize None 0 None 0.

(** Modelled from the spec: the element-type tags of
    [solve_rectangular_linear_sum_assignment_dtype] are declared in the
    header [rectangular_lsap.h], which is not among the sources.  The tags
    are an enumerated set (boolean, signed and unsigned integers of 8 to 64
    bits, three floating-point widths), one per [case] of the source; a tag
    outside the enumeration (the [default:] branch) is [LSAP_OTHER]. *)
Inductive dtype : Type :=
| LSAP_BOOL | LSAP_BYTE | LSAP_UBYTE | LSAP_SHORT | LSAP_USHORT
| LSAP_INT | LSAP_UINT | LSAP_LONG | LSAP_ULONG
| LSAP_LONGLONG | LSAP_ULONGLONG
| LSAP_FLOAT | LSAP_DOUBLE | LSAP_LONGDOUBLE
| LSAP_OTHER (tag : Z).

(** What the cast of [void* input_cost] reads under each tag (LP64, signed
    [char]); the values of the three floating types are of the type
    [double] of the model. *)
Definition elem_of (d : dtype) : Type :=
  match d with
  | LSAP_BOOL => bool
  | LSAP_FLOAT | LSAP_DOUBLE | LSAP_LONGDOUBLE => double
  | LSAP_OTHER _ => unit
  | _ => Z
  end.

Definition solve_rectangular_linear_sum_assignment_dtype `{Arith}
           (nr nc : Z) (dt : dtype) (input_cost : list (elem_of dt))
           (maximize : bool)
           (subrows : option (list Z)) (n_subrows : Z)
           (subcols : option (list Z)) (n_subcols : Z)
  : outcome (list Z * list Z) :=
  let run {T} (E : Elem T) (c : list T) :=
    @solve _ T E nr nc c maximize subrows n_subrows subcols n_subcols in
  match dt return list (elem_of dt) -> outcome (list Z * list Z) with
  | LSAP_BOOL => run Elem_bool
  | LSAP_BYTE => run (Elem_int true 8)
  | LSAP_UBYTE => run (Elem_int false 8)
  | LSAP_SHORT => run (Elem_int true 16)
  | LSAP_USHORT => run (Elem_int false 16)
  | LSAP_INT => run (Elem_int true 32)
  | LSAP_UINT => run (Elem_int false 32)
  | LSAP_LONG => run (Elem_int true 64)
  | LSAP_ULONG => run (Elem_int false 64)
  | LSAP_LONGLONG => run (Elem_int true 64)
  | LSAP_ULONGLONG => run (Elem_int false 64)
  | LSAP_FLOAT => run Elem_double
  | LSAP_DOUBLE => run Elem_double
  | LSAP_LONGDOUBLE => run Elem_long_double
  | LSAP_OTHER _ => fun _ => Fail RECTANGULAR_LSAP_DTYPE_INVALID
  end input_cost.

(** * Properties

    A statement that binds an arithmetic [A : Arith] holds for every
    rounding, that of the machine, [ieee_arith], included; some ask the
    arithmetic to be [Regular], as the machine's is, or name the values
    that line 136 must keep.  Every other statement is about exact
    arithmetic, [exact_arith], and says so: it describes the algorithm, and
    the program as far as no operation of a run rounds or overflows.  The
    last section shows inputs on which the machine departs from it. *)

#[export] Existing Instance exact_arith.

(** ** Vectors *)

Lemma upd_length {A} (n : nat) (x : A) (l : list A) :
  length (upd n x l) = length l.
Proof.
  revert n; induction l as [|h t IH]; intros [|n]; simpl; auto.
Qed.

Lemma nth_upd_eq {A} (n : nat) (x d : A) (l : list A) :
  (n < length l)%nat -> nth n (upd n x l) d = x.
Proof.
  revert n; induction l as [|h t IH]; intros [|n] Hn; simpl in *;
    try lia; auto.
  apply IH; lia.
Qed.

Lemma nth_upd_neq {A} (n m : nat) (x d : A) (l : list A) :
  n <> m -> nth m (upd n x l) d = nth m l d.
Proof.
  revert n m; induction l as [|h t IH]; intros [|n] [|m] Hn; simpl;
    try congruence; auto.
Qed.

Lemma upd_out {A} (n : nat) (x : A) (l : list A) :
  (length l <= n)%nat -> upd n x l = l.
Proof.
  revert n; induction l as [|h t IH]; intros [|n] Hn; simpl in *;
    try lia; auto.
  f_equal; apply IH; lia.
Qed.

Lemma zth_nat {A} (l : list A) (n : nat) (d : A) :
  zth l (Z.of_nat n) d = nth n l d.
Proof. unfold zth; now rewrite Nat2Z.id. Qed.

Lemma zset_nat {A} (l : list A) (n : nat) (x : A) :
  zset l (Z.of_nat n) x = upd n x l.
Proof. unfold zset; now rewrite Nat2Z.id. Qed.

Lemma zset_length {A} (l : list A) (i : Z) (x : A) :
  length (zset l i x) = length l.
Proof. apply upd_length. Qed.

Lemma fold_left_seq_S {A} (f : A -> nat -> A) (n : nat) (a : A) :
  fold_left f (seq 0 (S n)) a = f (fold_left f (seq 0 n) a) n.
Proof. now rewrite seq_S, fold_left_app. Qed.

Lemma nth_repeat_any {A} (x d : A) (n k : nat) :
  (k < n)%nat -> nth k (repeat x n) d = x.
Proof.
  revert k; induction n as [|n IH]; intros [|k] Hk; simpl; try lia; auto.
  apply IH; lia.
Qed.

Lemma nth_map_const {A B} (y d : B) (l : list A) (k : nat) :
  (k < length l)%nat -> nth k (map (fun _ => y) l) d = y.
Proof.
  revert k; induction l as [|h t IH]; intros [|k] Hk; simpl in *;
    try lia; auto.
  apply IH; lia.
Qed.

(** ** Arithmetic of [double] *)

Lemma Qlt_bool_iff (a b : Q) : Qlt_bool a b = true <-> (a < b)%Q.
Proof.
  unfold Qlt_bool. rewrite negb_true_iff.
  split; intro Hab.
  - apply Qnot_le_lt. intro Hle. apply Qle_bool_iff in Hle. congruence.
  - destruct (Qle_bool b a) eqn:E; auto.
    apply Qle_bool_iff in E. exfalso. apply (Qlt_not_le _ _ Hab E).
Qed.

Lemma Qlt_bool_false_iff (a b : Q) : Qlt_bool a b = false <-> (b <= a)%Q.
Proof.
  unfold Qlt_bool. rewrite negb_false_iff. apply Qle_bool_iff.
Qed.

Lemma Qeq_bool_false_iff (a b : Q) : Qeq_bool a b = false <-> ~ (a == b)%Q.
Proof.
  split; intro Hab.
  - intro E. apply Qeq_bool_iff in E. congruence.
  - destruct (Qeq_bool a b) eqn:E; auto.
    apply Qeq_bool_iff in E. contradiction.
Qed.

Lemma dltb_irrefl (x : double) : (x <? x)%D = false.
Proof.
  destruct x; simpl; auto. apply Qlt_bool_false_iff. apply Qle_refl.
Qed.

(** The order and the equality of [double] as propositions. *)
Definition dle (x y : double) : Prop :=
  match x, y with
  | NaN, _ | _, NaN => False
  | Fin a, Fin b => (a <= b)%Q
  | NInf, _ => True
  | _, PInf => True
  | _, _ => False
  end.

Definition deq (x y : double) : Prop :=
  match x, y with
  | Fin a, Fin b => (a == b)%Q
  | PInf, PInf => True
  | NInf, NInf => True
  | _, _ => False
  end.

Definition is_nan (x : double) : bool :=
  match x with NaN => true | _ => false end.

Lemma deqb_iff (x y : double) : (x ==? y)%D = true <-> deq x y.
Proof.
  destruct x, y; simpl; try tauto; try (split; [discriminate | tauto]).
  apply Qeq_bool_iff.
Qed.

Lemma deqb_refl_nan (x : double) : negb (x ==? x)%D = is_nan x.
Proof.
  destruct x; simpl; auto.
  rewrite negb_false_iff. apply Qeq_bool_iff. reflexivity.
Qed.

(** ** Input validation *)

(** An entry the validation loop rejects. *)
Definition ill_valued (maximize : bool) (x : double) : Prop :=
  x = NaN \/ (x = NInf /\ maximize = false) \/ (x = PInf /\ maximize = true).

Section Validation.
Context {A : Arith} {T : Type} `{Elem T}.

Lemma invalid_entry_iff (maximize : bool) (c : T) :
  invalid_entry maximize c = true <-> ill_valued maximize (to_double c).
Proof.
  unfold invalid_entry, ill_valued.
  destruct (to_double c) as [q| | |], maximize; simpl;
    rewrite ?orb_false_r, ?andb_false_r, ?andb_true_r, ?orb_true_r;
    try (split; [discriminate | intros [E|[[E E']|[E E']]]; discriminate]);
    try (split; auto; fail).
  - assert (Hq : Qeq_bool q q = true) by (apply Qeq_bool_iff; reflexivity).
    rewrite Hq; simpl.
    split; [discriminate | intros [E|[[E E']|[E E']]]; discriminate].
  - assert (Hq : Qeq_bool q q = true) by (apply Qeq_bool_iff; reflexivity).
    rewrite Hq; simpl.
    split; [discriminate | intros [E|[[E E']|[E E']]]; discriminate].
Qed.

Lemma solve_row_fail cost nr nc st curRow s :
  solve_row cost nr nc st curRow = Fail s -> s = RECTANGULAR_LSAP_INFEASIBLE.
Proof.
  unfold solve_row.
  destruct augmenting_path as [[[sink minVal] sr]|]; try discriminate.
  destruct (sink <? 0); [congruence|].
  destruct augment as [[r c]|]; discriminate.
Qed.

Lemma solve_rows_fail cost nr nc rows st s :
  solve_rows cost nr nc rows st = Fail s -> s = RECTANGULAR_LSAP_INFEASIBLE.
Proof.
  revert st; induction rows as [|r rows IH]; intros st; simpl.
  - discriminate.
  - destruct (solve_row cost nr nc st r) as [st'| s' |] eqn:E; simpl.
    + apply IH.
    + intros E'. inversion E'; subst. eapply solve_row_fail; eauto.
    + discriminate.
Qed.

Lemma existsb_seq_iff (f : nat -> bool) (n : nat) :
  existsb f (seq 0 n) = true <-> exists k, (k < n)%nat /\ f k = true.
Proof.
  rewrite existsb_exists. split.
  - intros (k & Hin & Hk). apply in_seq in Hin. exists k. split; [lia|auto].
  - intros (k & Hlt & Hk). exists k. split; auto. apply in_seq. lia.
Qed.
End Validation.

(** C8.  With [nr > 0] and [nc > 0], [solve] returns
    [RECTANGULAR_LSAP_INVALID] exactly when one of the [nr * nc] elements of
    the cost array is NaN, or is [-inf] while minimizing, or is [+inf] while
    maximizing.  The subscript arguments are arbitrary: elements that no
    subscript selects are scanned too, and the answer is
    [RECTANGULAR_LSAP_INVALID] even when a subscript is out of bounds,
    because the scan precedes the bounds check. *)
Theorem solve_invalid_iff {A : Arith} {T : Type} `{Elem T}
        (nr nc : Z) (cost : list T) (maximize : bool)
        (subrows : option (list Z)) (n_subrows : Z)
        (subcols : option (list Z)) (n_subcols : Z) :
  0 < nr -> 0 < nc ->
  (solve nr nc cost maximize subrows n_subrows subcols n_subcols
   = Fail RECTANGULAR_LSAP_INVALID
   <-> exists k, 0 <= k < nr * nc
                 /\ ill_valued maximize (to_double (zth cost k elem_default))).
Proof.
  intros Hnr Hnc. unfold solve.
  replace ((nr =? 0) || (nc =? 0))%bool with false
    by (symmetry; apply orb_false_iff; split; apply Z.eqb_neq; lia).
  destruct (existsb _ _) eqn:Escan.
  - split; auto. intros _.
    apply existsb_seq_iff in Escan. destruct Escan as (k & Hk & Hbad).
    exists (Z.of_nat k). split; [lia|].
    rewrite zth_nat. now apply invalid_entry_iff.
  - split.
    + intros Hret. exfalso.
      unfold check_subscript in Hret.
      destruct (n_subrows =? 0); simpl in Hret;
        [| destruct (n_subrows <? 0); simpl in Hret; [discriminate|];
           destruct (subscript_out_of_bound _ n_subrows nr); simpl in Hret;
           [discriminate|] ];
        (destruct (n_subcols =? 0); simpl in Hret;
         [| destruct (n_subcols <? 0); simpl in Hret; [discriminate|];
            destruct (subscript_out_of_bound _ n_subcols nc); simpl in Hret;
            [discriminate|] ]);
        match type of Hret with
        | context [orient ?a ?b ?c ?d ?e ?f ?g ?h] =>
          destruct (orient a b c d e f g h) as [[[cm nr'] nc'] tr]
        end;
        match type of Hret with
        | context [solve_rows ?c ?a ?b ?r ?s] =>
          destruct (solve_rows c a b r s) as [st|s'|] eqn:Erows;
            simpl in Hret;
            [ discriminate
            | apply solve_rows_fail in Erows; congruence
            | discriminate ]
        end.
    + intros (k & Hk & Hbad). exfalso.
      assert (Hex : existsb (fun i => invalid_entry maximize
                                        (nth i cost elem_default))
                            (seq 0 (Z.to_nat (nr * nc))) = true).
      { apply existsb_seq_iff. exists (Z.to_nat k). split; [lia|].
        apply invalid_entry_iff. unfold zth in Hbad. exact Hbad. }
      congruence.
Qed.

Lemma solve_invalid_iff_witness :
  solve (A := ieee_arith) 2 2 [Fin 1; NaN; Fin 2; Fin 3] false None 0 None 0
  = Fail RECTANGULAR_LSAP_INVALID
  <-> exists k, 0 <= k < 2 * 2
                /\ ill_valued false
                     (to_double (zth [Fin 1; NaN; Fin 2; Fin 3] k
                                     elem_default)).
Proof.
  apply (solve_invalid_iff (A := ieee_arith) 2 2 [Fin 1; NaN; Fin 2; Fin 3]
                           false None 0 None 0); lia.
Defined.

(** ** The search reads the cost view inside the working shape only *)

Lemma Forall_zth {A} (P : A -> Prop) (l : list A) (i : Z) (d : A) :
  Forall P l -> P d -> P (zth l i d).
Proof.
  intros Hl Hd. unfold zth.
  destruct (Nat.lt_ge_cases (Z.to_nat i) (length l)) as [Hlt|Hge].
  - rewrite Forall_forall in Hl. apply Hl. now apply nth_In.
  - now rewrite nth_overflow.
Qed.

Lemma Forall_upd {A} (P : A -> Prop) (l : list A) (n : nat) (x : A) :
  Forall P l -> P x -> Forall P (upd n x l).
Proof.
  intros Hl Hx. revert n.
  induction Hl as [|h t Hh Ht IH]; intros [|n]; simpl; auto.
Qed.

Lemma Forall_zset {A} (P : A -> Prop) (l : list A) (i : Z) (x : A) :
  Forall P l -> P x -> Forall P (zset l i x).
Proof. apply Forall_upd. Qed.

(** A stored row index: [-1] or a row of the working shape. *)
Definition row_or_none (nr : nat) (x : Z) : Prop :=
  x = -1 \/ 0 <= x < Z.of_nat nr.

Lemma remaining_init_nth (nc : nat) (rem : list Z) (k it : nat) :
  length rem = nc -> (k <= nc)%nat -> (it < k)%nat ->
  nth it (fold_left (fun rem it => zset rem (Z.of_nat it)
                                        (Z.of_nat nc - Z.of_nat it - 1))
                    (seq 0 k) rem) 0
  = Z.of_nat nc - Z.of_nat it - 1.
Proof.
  intros Hlen. revert it.
  assert (Hl : forall k, length (fold_left
             (fun rem it => zset rem (Z.of_nat it)
                                 (Z.of_nat nc - Z.of_nat it - 1))
             (seq 0 k) rem) = nc).
  { intros k'. induction k' as [|k' IH]; [exact Hlen|].
    rewrite fold_left_seq_S, zset_length. exact IH. }
  induction k as [|k IH]; intros it Hk Hit; [lia|].
  rewrite fold_left_seq_S, zset_nat.
  destruct (Nat.eq_dec it k) as [->|Hne].
  - apply nth_upd_eq. rewrite Hl. lia.
  - rewrite nth_upd_neq by lia. apply IH; lia.
Qed.

Lemma remaining_init_length (nc : nat) (rem : list Z) (k : nat) :
  length (fold_left (fun rem it => zset rem (Z.of_nat it)
                                        (Z.of_nat nc - Z.of_nat it - 1))
                    (seq 0 k) rem) = length rem.
Proof.
  induction k as [|k IH]; [reflexivity|].
  rewrite fold_left_seq_S, zset_length. exact IH.
Qed.

Section ViewExtensionality.
Context {A : Arith} {T : Type} `{Elem T}.
Variables m1 m2 : matrix2d T.
Variables nr nc : nat.
Hypothesis Hview : forall i j,
    0 <= i < Z.of_nat nr -> 0 <= j < Z.of_nat nc ->
    cost_at m1 i j = cost_at m2 i j.

Let col_ok (x : Z) : Prop := 0 <= x < Z.of_nat nc.
Let row_ok (x : Z) : Prop := 0 <= x < Z.of_nat nr.

Lemma scan_body_ext u v row4col remaining i minVal s it :
  row_ok i -> col_ok (nth it remaining 0) ->
  scan_body m1 u v row4col remaining i minVal s it
  = scan_body m2 u v row4col remaining i minVal s it.
Proof.
  intros Hi Hj. unfold scan_body. now rewrite Hview.
Qed.

Lemma scan_loop_ext u v row4col remaining num i minVal path spc :
  row_ok i -> (forall it, (it < num)%nat -> col_ok (nth it remaining 0)) ->
  scan_loop m1 u v row4col remaining num i minVal path spc
  = scan_loop m2 u v row4col remaining num i minVal path spc.
Proof.
  intros Hi Hrem. unfold scan_loop.
  generalize (Scan path spc INFINITY (-1)).
  induction num as [|num IH]; intros s0; [reflexivity|].
  rewrite !fold_left_seq_S. rewrite IH by (intros; apply Hrem; lia).
  apply scan_body_ext; auto.
Qed.

Lemma scan_loop_path u v row4col remaining num i minVal path spc :
  row_ok i -> Forall (row_or_none nr) path ->
  Forall (row_or_none nr)
         (sc_path (scan_loop m1 u v row4col remaining num i minVal path spc)).
Proof.
  intros Hi Hp. unfold scan_loop.
  assert (Hgen : forall s0, Forall (row_or_none nr) (sc_path s0) ->
            Forall (row_or_none nr)
              (sc_path (fold_left (scan_body m1 u v row4col remaining i minVal)
                                  (seq 0 num) s0))).
  { induction num as [|n IH]; intros s0 Hs0; [exact Hs0|].
    rewrite fold_left_seq_S. specialize (IH s0 Hs0).
    unfold scan_body at 1.
    destruct (dltb _ _); destruct (orb _ _); simpl; auto;
      apply Forall_zset; auto; right; exact Hi. }
  apply Hgen. exact Hp.
Qed.

Lemma scan_loop_remaining_ok (P : Z -> Prop) (rem : list Z) (num : nat) idx :
  (forall it, (it < num)%nat -> P (nth it rem 0)) ->
  forall it, (it < pred num)%nat ->
             P (nth it (zset rem idx (nth (pred num) rem 0)) 0).
Proof.
  intros Hrem it Hit. unfold zset.
  destruct (Nat.eq_dec (Z.to_nat idx) it) as [E|E].
  - destruct (Nat.lt_ge_cases it (length rem)) as [Hl|Hl].
    + subst it. rewrite nth_upd_eq by auto. apply Hrem; lia.
    + rewrite upd_out by lia. apply Hrem; lia.
  - rewrite nth_upd_neq by auto. apply Hrem; lia.
Qed.

Lemma search_loop_ext u v row4col fuel num i minVal s :
  row_ok i -> Forall (row_or_none nr) row4col ->
  (forall it, (it < num)%nat -> col_ok (nth it (s_remaining s) 0)) ->
  search_loop m1 u v row4col fuel num i minVal s
  = search_loop m2 u v row4col fuel num i minVal s.
Proof.
  revert num i minVal s.
  induction fuel as [|fuel IH]; intros num i minVal s Hi Hr4c Hrem;
    simpl; auto.
  rewrite (scan_loop_ext _ _ _ _ _ _ _ _ _ Hi Hrem).
  destruct (deqb _ _); auto.
  destruct (Z.eqb_spec (zth row4col
     (zth (s_remaining s)
          (sc_index (scan_loop m2 u v row4col (s_remaining s) num i minVal
                               (s_path s) (s_spc s))) 0) 0) (-1))
    as [E|E]; auto.
  apply IH; auto.
  - assert (Hx : row_or_none nr (zth row4col
     (zth (s_remaining s)
          (sc_index (scan_loop m2 u v row4col (s_remaining s) num i minVal
                               (s_path s) (s_spc s))) 0) 0)).
    { apply Forall_zth; auto. right. unfold row_ok in Hi. lia. }
    destruct Hx as [Hx|Hx]; [contradiction|exact Hx].
  - simpl. apply scan_loop_remaining_ok. exact Hrem.
Qed.

Lemma search_loop_path u v row4col fuel num i minVal s sink mv s' :
  row_ok i -> Forall (row_or_none nr) row4col ->
  Forall (row_or_none nr) (s_path s) ->
  search_loop m1 u v row4col fuel num i minVal s = Some (sink, mv, s') ->
  Forall (row_or_none nr) (s_path s')
  /\ length (s_remaining s') = length (s_remaining s).
Proof.
  revert num i minVal s.
  induction fuel as [|fuel IH]; intros num i minVal s Hi Hr4c Hp;
    simpl; [discriminate|].
  pose proof (scan_loop_path u v row4col (s_remaining s) num i minVal
                             (s_path s) (s_spc s) Hi Hp) as Hp'.
  destruct (deqb _ _).
  - intros E; inversion E; subst; simpl. auto.
  - match goal with
    | |- context [zth row4col ?j 0 =? -1] =>
      destruct (Z.eqb_spec (zth row4col j 0) (-1)) as [E|E];
        [| assert (Hx : row_or_none nr (zth row4col j 0))
             by (apply Forall_zth; auto; right; unfold row_ok in Hi; lia) ]
    end.
    + intros E'; inversion E'; subst; simpl. split; auto.
      apply zset_length.
    + intros E'. apply IH in E'; simpl; auto.
      * simpl in E'. rewrite zset_length in E'. exact E'.
      * destruct Hx as [Hx|Hx]; [contradiction|exact Hx].
Qed.
End ViewExtensionality.

Section SolveRowsExtensionality.
Context {A : Arith} {T : Type} `{Elem T}.
Variables nr nc : nat.

(** What the extensionality argument needs of the state of [solve]. *)
Definition ranged (st : lsap) : Prop :=
  length (l_remaining st) = nc
  /\ Forall (row_or_none nr) (l_row4col st)
  /\ Forall (row_or_none nr) (l_path st).

Lemma ranged_init : ranged (lsap_init nr nc).
Proof.
  unfold ranged, lsap_init; simpl. rewrite repeat_length.
  repeat split; apply Forall_forall; intros x Hx;
    apply repeat_spec in Hx; subst; now left.
Qed.

Lemma augment_ranged fuel curRow path j row4col col4row r c :
  (0 < nr)%nat ->
  Forall (row_or_none nr) path -> Forall (row_or_none nr) row4col ->
  augment fuel curRow path j row4col col4row = Some (r, c) ->
  Forall (row_or_none nr) r.
Proof.
  intros Hnr Hp. revert j row4col col4row.
  induction fuel as [|fuel IH]; intros j row4col col4row Hr; simpl;
    [discriminate|].
  assert (Hw : Forall (row_or_none nr) (zset row4col j (zth path j 0))).
  { apply Forall_zset; auto. apply Forall_zth; auto. right. lia. }
  destruct (zth path j 0 =? curRow).
  - intros E; inversion E; subst; auto.
  - apply IH; auto.
Qed.

Section TwoViews.
Variables m1 m2 : matrix2d T.
Hypothesis Hview : forall i j,
    0 <= i < Z.of_nat nr -> 0 <= j < Z.of_nat nc ->
    cost_at m1 i j = cost_at m2 i j.

Lemma augmenting_path_ext u v row4col path spc curRow SR SC remaining :
  (curRow < nr)%nat -> length remaining = nc ->
  Forall (row_or_none nr) row4col ->
  augmenting_path m1 u v row4col nc path spc (Z.of_nat curRow) SR SC
                  remaining
  = augmenting_path m2 u v row4col nc path spc (Z.of_nat curRow) SR SC
                    remaining.
Proof.
  intros Hcur Hlen Hr. unfold augmenting_path.
  apply (search_loop_ext m1 m2 nr nc Hview); auto; [lia|].
  simpl. intros it Hit.
  rewrite (remaining_init_nth nc remaining nc it) by (auto; lia). lia.
Qed.

Lemma solve_row_ext st curRow :
  (curRow < nr)%nat -> ranged st ->
  solve_row m1 nr nc st curRow = solve_row m2 nr nc st curRow.
Proof.
  intros Hcur (Hlen & Hr & Hp). unfold solve_row.
  now rewrite augmenting_path_ext.
Qed.
End TwoViews.

Lemma solve_row_ranged (m : matrix2d T) st curRow st' :
  (curRow < nr)%nat -> ranged st ->
  solve_row m nr nc st curRow = Ok st' -> ranged st'.
Proof.
  intros Hcur (Hlen & Hr & Hp). unfold solve_row, augmenting_path.
  destruct (search_loop _ _ _ _ _ _ _ _ _) as [[[sink minVal] s]|] eqn:Es;
    [|discriminate].
  destruct (sink <? 0); [discriminate|].
  destruct (augment _ _ _ _ _ _) as [[r c]|] eqn:Ea; [|discriminate].
  intros E; inversion E; subst; clear E.
  apply (search_loop_path m nr) in Es; simpl; auto; [|lia].
  destruct Es as [Hp' Hlen']. simpl in Hlen'.
  rewrite remaining_init_length in Hlen'.
  unfold ranged; simpl. split; [congruence|]. split; auto.
  refine (augment_ranged _ _ _ _ _ _ _ _ _ Hp' Hr Ea). lia.
Qed.

Lemma solve_rows_ext (m1 m2 : matrix2d T) rows st :
  (forall i j, 0 <= i < Z.of_nat nr -> 0 <= j < Z.of_nat nc ->
               cost_at m1 i j = cost_at m2 i j) ->
  (forall r, In r rows -> (r < nr)%nat) -> ranged st ->
  solve_rows m1 nr nc rows st = solve_rows m2 nr nc rows st.
Proof.
  intros Hview. revert st.
  induction rows as [|r rows IH]; intros st Hrows Hst; simpl; auto.
  rewrite (solve_row_ext m1 m2 Hview) by (auto; apply Hrows; now left).
  destruct (solve_row m2 nr nc st r) as [st'|s|] eqn:E; simpl; auto.
  apply IH.
  - intros r' Hr'. apply Hrows. now right.
  - rewrite <- (solve_row_ext m1 m2 Hview) in E
      by (auto; apply Hrows; now left).
    eapply solve_row_ranged; eauto. apply Hrows. now left.
Qed.

Lemma solve_rows_seq_ext (m1 m2 : matrix2d T) :
  (forall i j, 0 <= i < Z.of_nat nr -> 0 <= j < Z.of_nat nc ->
               cost_at m1 i j = cost_at m2 i j) ->
  solve_rows m1 nr nc (seq 0 nr) (lsap_init nr nc)
  = solve_rows m2 nr nc (seq 0 nr) (lsap_init nr nc).
Proof.
  intros Hview. apply solve_rows_ext; auto.
  - intros r Hr. apply in_seq in Hr. lia.
  - apply ranged_init.
Qed.
End SolveRowsExtensionality.

(** ** Negation in the element type [bool] *)

Lemma elem_neg_bool (r : bool) : bool_of_int (- int_of_bool r) = r.
Proof. destruct r; reflexivity. Qed.

Lemma get_negative_bool (m : matrix2d bool) (i j : Z) :
  get (negative m) i j = get m i j.
Proof.
  unfold get, negative; simpl.
  destruct (m_transpose m), (m_subrows m), (m_subcols m), (m_negative m);
    simpl; rewrite ?elem_neg_bool; reflexivity.
Qed.

Lemma invalid_entry_bool (maximize : bool) (c : bool) :
  invalid_entry maximize c = false.
Proof.
  unfold invalid_entry; simpl.
  assert (Hq : Qeq_bool (inject_Z (int_of_bool c)) (inject_Z (int_of_bool c))
               = true) by (apply Qeq_bool_iff; reflexivity).
  rewrite Hq. reflexivity.
Qed.

Lemma existsb_all_false {A} (f : A -> bool) (l : list A) :
  (forall x, f x = false) -> existsb f l = false.
Proof.
  intros Hf. induction l as [|h t IH]; simpl; auto. now rewrite Hf.
Qed.

(** C10.  On a [bool] cost matrix, [maximize = true] and [maximize = false]
    give the same status and the same pairs: [-r] is computed in the element
    type [bool], where it is [r] again, so the Negate flag changes no value
    the cost view returns. *)
Theorem solve_dtype_bool_maximize_irrelevant {A : Arith}
        (nr nc : Z) (input_cost : list bool)
        (subrows : option (list Z)) (n_subrows : Z)
        (subcols : option (list Z)) (n_subcols : Z) :
  (forall (m : matrix2d bool) i j, get (negative m) i j = get m i j)
  /\ solve_rectangular_linear_sum_assignment_dtype
       nr nc LSAP_BOOL input_cost true subrows n_subrows subcols n_subcols
     = solve_rectangular_linear_sum_assignment_dtype
         nr nc LSAP_BOOL input_cost false subrows n_subrows subcols n_subcols.
Proof.
  split; [exact get_negative_bool|].
  unfold solve_rectangular_linear_sum_assignment_dtype, solve.
  destruct ((nr =? 0) || (nc =? 0))%bool; auto.
  rewrite !existsb_all_false by (intros; apply invalid_entry_bool).
  destruct (check_subscript subrows n_subrows nr) as [sr| |]; simpl; auto.
  destruct (check_subscript subcols n_subcols nc) as [sc| |]; simpl; auto.
  unfold orient.
  destruct (is_subscript sr sc);
    match goal with
    | |- context [if ?a <? ?b then (transpose _, _, _) else _] =>
      destruct (a <? b)
    end;
    match goal with
    | |- (_ <- solve_rows (negative ?m) ?a ?b _ _ ;; _) = _ =>
      rewrite (solve_rows_seq_ext a b (negative m) m); auto;
        intros; unfold cost_at; now rewrite get_negative_bool
    end.
Qed.

(** ** Subscripts against the materialized submatrix *)

(** [C[P][:, Q]], row-major, read from a matrix with [nc] columns. *)
Definition submatrix {T} `{Elem T} (nc : Z) (C : list T) (P Q : list Z)
  : list T :=
  flat_map (fun p => map (fun q => zth C (p * nc + q) elem_default) Q) P.

(** The pairs of the submatrix solve, mapped back through [P] and [Q]. *)
Definition remap_result (P Q : list Z) (o : outcome (list Z * list Z))
  : outcome (list Z * list Z) :=
  match o with
  | Ok (a, b) => Ok (map (fun x => zth P x 0) a, map (fun x => zth Q x 0) b)
  | Fail s => Fail s
  | OutOfFuel => OutOfFuel
  end.

Lemma flat_map_rows_length {A B D} (f : A -> B -> D) (P : list A)
      (Q : list B) :
  length (flat_map (fun p => map (f p) Q) P) = (length P * length Q)%nat.
Proof.
  induction P as [|p P IH]; simpl; auto.
  now rewrite length_app, length_map, IH.
Qed.

Lemma flat_map_rows_nth {A B D} (f : A -> B -> D) (P : list A) (Q : list B)
      (i j : nat) (da : A) (db : B) (d : D) :
  (i < length P)%nat -> (j < length Q)%nat ->
  nth (i * length Q + j) (flat_map (fun p => map (f p) Q) P) d
  = f (nth i P da) (nth j Q db).
Proof.
  revert i. induction P as [|p P IH]; intros [|i] Hi Hj; simpl in *; try lia.
  - rewrite app_nth1 by (rewrite length_map; lia).
    rewrite (nth_indep _ d (f p db)) by (rewrite length_map; lia).
    apply (map_nth (f p)).
  - rewrite app_nth2 by (rewrite length_map; lia).
    rewrite length_map.
    replace (length Q + i * length Q + j - length Q)%nat
      with (i * length Q + j)%nat by lia.
    apply IH; auto; lia.
Qed.

Section Submatrix.
Context {T : Type} `{Elem T}.
Variables (nr nc : Z) (C : list T) (P Q : list Z).
Hypothesis HP : forall p, In p P -> 0 <= p < nr.
Hypothesis HQ : forall q, In q Q -> 0 <= q < nc.

Lemma submatrix_nth (i j : nat) :
  (i < length P)%nat -> (j < length Q)%nat ->
  nth (i * length Q + j) (submatrix nc C P Q) elem_default
  = zth C (nth i P 0 * nc + nth j Q 0) elem_default.
Proof.
  intros Hi Hj. unfold submatrix.
  apply (flat_map_rows_nth
           (fun p q => zth C (p * nc + q) elem_default) P Q i j 0 0);
    auto.
Qed.

Lemma submatrix_valid (maximize : bool) :
  existsb (fun i => invalid_entry maximize (nth i C elem_default))
          (seq 0 (Z.to_nat (nr * nc))) = false ->
  existsb (fun i => invalid_entry maximize
                      (nth i (submatrix nc C P Q) elem_default))
          (seq 0 (Z.to_nat (Z.of_nat (length P) * Z.of_nat (length Q))))
  = false.
Proof.
  intros Hfull.
  match goal with |- ?x = false => destruct x eqn:E; auto end.
  apply existsb_seq_iff in E. destruct E as (k & Hk & Hbad).
  assert (HQpos : (0 < length Q)%nat) by (destruct Q; simpl in *; lia).
  assert (Hkk : (k < length P * length Q)%nat) by lia.
  pose proof (Nat.div_mod_eq k (length Q)) as Hdm.
  assert (Hj : (k mod length Q < length Q)%nat)
    by (apply Nat.mod_upper_bound; lia).
  assert (Hi : (k / length Q < length P)%nat)
    by (apply Nat.Div0.div_lt_upper_bound; lia).
  remember (k / length Q)%nat as i eqn:Ei.
  remember (k mod length Q)%nat as j eqn:Ej.
  assert (Ek : k = (i * length Q + j)%nat) by lia.
  rewrite Ek, submatrix_nth in Hbad by auto.
  pose proof (HP _ (nth_In P 0 Hi)) as Hp.
  pose proof (HQ _ (nth_In Q 0 Hj)) as Hq.
  assert (Hex : existsb (fun i => invalid_entry maximize
                                    (nth i C elem_default))
                        (seq 0 (Z.to_nat (nr * nc))) = true).
  { apply existsb_seq_iff.
    exists (Z.to_nat (nth i P 0 * nc + nth j Q 0)).
    split; [nia | exact Hbad]. }
  congruence.
Qed.

Lemma subscript_in_bound (sub : list Z) (bound : Z) :
  (forall x, In x sub -> 0 <= x < bound) ->
  subscript_out_of_bound sub (Z.of_nat (length sub)) bound = false.
Proof.
  intros Hsub. unfold subscript_out_of_bound.
  destruct (existsb _ _) eqn:E; auto.
  apply existsb_seq_iff in E. destruct E as (k & Hk & Hbad).
  rewrite Nat2Z.id in Hk.
  pose proof (Hsub _ (nth_In sub 0 Hk)) as Hx. simpl in Hbad.
  apply orb_true_iff in Hbad. destruct Hbad as [Hb|Hb]; lia.
Qed.

Lemma subscript_view_agrees (tr neg : bool) (i j : Z) :
  let nr' := if tr then length Q else length P in
  let nc' := if tr then length P else length Q in
  0 <= i < Z.of_nat nr' -> 0 <= j < Z.of_nat nc' ->
  cost_at (Matrix2d C nr nc tr neg (Some P) (Some Q)) i j
  = cost_at (Matrix2d (submatrix nc C P Q) (Z.of_nat (length P))
                      (Z.of_nat (length Q)) tr neg None None) i j.
Proof.
  intros nr' nc' Hi Hj. unfold cost_at, get; simpl.
  assert (Hrd : forall a b : Z,
             0 <= a < Z.of_nat (length P) -> 0 <= b < Z.of_nat (length Q) ->
             zth C (zth P a 0 * nc + zth Q b 0) elem_default
             = zth (submatrix nc C P Q) (a * Z.of_nat (length Q) + b)
                   elem_default).
  { intros a b Ha Hb.
    unfold zth at 1. unfold zth at 1 2 3.
    replace (Z.to_nat (a * Z.of_nat (length Q) + b))
      with (Z.to_nat a * length Q + Z.to_nat b)%nat by nia.
    rewrite submatrix_nth by lia. reflexivity. }
  destruct tr; subst nr' nc'; simpl; rewrite Hrd by lia; reflexivity.
Qed.
End Submatrix.

Lemma emit_subscripted (tr : bool) (P Q : list Z) (nr : nat) (c : list Z) :
  emit tr (Some P) (Some Q) nr c
  = (map (fun x => zth P x 0) (fst (emit tr None None nr c)),
     map (fun x => zth Q x 0) (snd (emit tr None None nr c))).
Proof. unfold emit; destruct tr; reflexivity. Qed.

(** C4, as the specification states it, at a matrix with a NaN outside the
    selected submatrix: the subscripted solve rejects the matrix while the
    solve of the materialized 1 x 1 submatrix succeeds, in machine
    arithmetic as in exact arithmetic. *)
Lemma subscript_status_differs_on_unselected_nan :
  let C := [Fin 1; NaN; Fin 2; Fin 3] in
  let differs (A : Arith) :=
    solve 2 2 C false (Some [0]) 1 (Some [0]) 1
    = Fail RECTANGULAR_LSAP_INVALID
    /\ remap_result [0] [0]
         (solve 1 1 (submatrix 2 C [0] [0]) false None 0 None 0)
       = Ok ([0], [0]) in
  differs ieee_arith /\ differs exact_arith.
Proof. split; split; vm_compute; reflexivity. Qed.

Lemma subscript_as_submatrix {A : Arith} {T : Type} `{Elem T}
        (nr nc : Z) (C : list T) (maximize : bool) (P Q : list Z) :
  P <> [] -> Q <> [] ->
  (forall p, In p P -> 0 <= p < nr) ->
  (forall q, In q Q -> 0 <= q < nc) ->
  (forall k, 0 <= k < nr * nc ->
             ~ ill_valued maximize (to_double (zth C k elem_default))) ->
  solve nr nc C maximize (Some P) (Z.of_nat (length P))
        (Some Q) (Z.of_nat (length Q))
  = remap_result P Q
      (solve (Z.of_nat (length P)) (Z.of_nat (length Q))
             (submatrix nc C P Q) maximize None 0 None 0).
Proof.
  intros HPne HQne HP HQ Hvalid.
  assert (HlP : (0 < length P)%nat) by (destruct P; simpl; [congruence|lia]).
  assert (HlQ : (0 < length Q)%nat) by (destruct Q; simpl; [congruence|lia]).
  assert (Hnr : 0 < nr).
  { destruct P as [|p P']; [congruence|].
    specialize (HP p (or_introl eq_refl)). lia. }
  assert (Hnc : 0 < nc).
  { destruct Q as [|q Q']; [congruence|].
    specialize (HQ q (or_introl eq_refl)). lia. }
  assert (Hscan : existsb (fun i => invalid_entry maximize
                                      (nth i C elem_default))
                          (seq 0 (Z.to_nat (nr * nc))) = false).
  { match goal with |- ?x = false => destruct x eqn:E; auto end.
    apply existsb_seq_iff in E. destruct E as (k & Hk & Hbad).
    exfalso. apply (Hvalid (Z.of_nat k)); [lia|].
    rewrite zth_nat. now apply invalid_entry_iff. }
  unfold solve.
  replace ((nr =? 0) || (nc =? 0))%bool with false
    by (symmetry; apply orb_false_iff; split; apply Z.eqb_neq; lia).
  replace ((Z.of_nat (length P) =? 0) || (Z.of_nat (length Q) =? 0))%bool
    with false
    by (symmetry; apply orb_false_iff; split; apply Z.eqb_neq; lia).
  rewrite Hscan, (submatrix_valid nr nc C P Q HP HQ maximize Hscan).
  unfold check_subscript.
  replace (Z.of_nat (length P) =? 0) with false
    by (symmetry; apply Z.eqb_neq; lia).
  replace (Z.of_nat (length Q) =? 0) with false
    by (symmetry; apply Z.eqb_neq; lia).
  replace (Z.of_nat (length P) <? 0) with false
    by (symmetry; apply Z.ltb_ge; lia).
  replace (Z.of_nat (length Q) <? 0) with false
    by (symmetry; apply Z.ltb_ge; lia).
  rewrite !subscript_in_bound by auto.
  simpl bind. unfold orient, is_subscript, matrix2d_new, subscript,
              transpose, negative; simpl.
  set (tr := Z.of_nat (length Q) <? Z.of_nat (length P)).
  assert (Hgo : forall neg,
    solve_rows (Matrix2d C nr nc tr neg (Some P) (Some Q))
               (if tr then length Q else length P)
               (if tr then length P else length Q)
               (seq 0 (if tr then length Q else length P))
               (lsap_init (if tr then length Q else length P)
                          (if tr then length P else length Q))
    = solve_rows (Matrix2d (submatrix nc C P Q) (Z.of_nat (length P))
                           (Z.of_nat (length Q)) tr neg None None)
               (if tr then length Q else length P)
               (if tr then length P else length Q)
               (seq 0 (if tr then length Q else length P))
               (lsap_init (if tr then length Q else length P)
                          (if tr then length P else length Q))).
  { intros neg. apply solve_rows_seq_ext. intros i j Hi Hj.
    apply (subscript_view_agrees nr nc C P Q tr neg i j); auto. }
  destruct tr, maximize; simpl; rewrite ?Nat2Z.id;
    first [rewrite (Hgo true) | rewrite (Hgo false)]; simpl;
    match goal with
    | |- context [solve_rows ?m ?a ?b ?r ?s] =>
      destruct (solve_rows m a b r s) as [st|s'|]; simpl; auto
    end;
    rewrite emit_subscripted;
    match goal with
    | |- context [emit ?t None None ?n ?c] =>
      destruct (emit t None None n c); reflexivity
    end.
Qed.

(** C4, amended.  When no element of the full cost matrix is ill-valued,
    solving with in-bounds, non-empty subscripts [P] and [Q] returns the
    status of solving the materialized submatrix [C[P][:, Q]] without
    subscript, and on success exactly its pairs mapped through [P] and
    [Q]. *)
Theorem solve_subscript_submatrix {A : Arith} {T : Type} `{Elem T}
        (nr nc : Z) (C : list T) (maximize : bool) (P Q : list Z) :
  P <> [] -> Q <> [] ->
  (forall p, In p P -> 0 <= p < nr) ->
  (forall q, In q Q -> 0 <= q < nc) ->
  (forall k, 0 <= k < nr * nc ->
             ~ ill_valued maximize (to_double (zth C k elem_default))) ->
  solve nr nc C maximize (Some P) (Z.of_nat (length P))
        (Some Q) (Z.of_nat (length Q))
  = remap_result P Q
      (solve (Z.of_nat (length P)) (Z.of_nat (length Q))
             (submatrix nc C P Q) maximize None 0 None 0).
Proof. exact (subscript_as_submatrix nr nc C maximize P Q). Qed.

Lemma solve_subscript_submatrix_witness :
  let C := [Fin 4; Fin 1; Fin 3; Fin 2; Fin 0; Fin 5; Fin 3; Fin 2; Fin 2] in
  solve (A := ieee_arith) 3 3 C false (Some [0; 2]) 2 (Some [1; 2]) 2
  = remap_result [0; 2] [1; 2]
      (solve (A := ieee_arith) 2 2 (submatrix 3 C [0; 2] [1; 2]) false None 0 None 0).
Proof.
  intros C.
  apply (solve_subscript_submatrix (A := ieee_arith) 3 3 C false [0; 2] [1; 2]).
  - discriminate.
  - discriminate.
  - simpl. intros p [<-|[<-|[]]]; lia.
  - simpl. intros q [<-|[<-|[]]]; lia.
  - intros k Hk.
    assert (Hcase : k = 0 \/ k = 1 \/ k = 2 \/ k = 3 \/ k = 4 \/ k = 5
                    \/ k = 6 \/ k = 7 \/ k = 8) by lia.
    unfold ill_valued.
    repeat (destruct Hcase as [->|Hcase]); try subst k;
      simpl; intros [E|[[E _]|[E _]]]; discriminate.
Defined.


(** ** The inner scan of [augmenting_path] *)

Lemma zth_zset_eq {A} (l : list A) (j : Z) (x d : A) :
  0 <= j < Z.of_nat (length l) -> zth (zset l j x) j d = x.
Proof. intros Hj. unfold zth, zset. apply nth_upd_eq. lia. Qed.

Lemma zth_zset_neq {A} (l : list A) (j j' : Z) (x d : A) :
  0 <= j -> 0 <= j' -> j <> j' -> zth (zset l j x) j' d = zth l j' d.
Proof. intros Hj Hj' Hne. unfold zth, zset. apply nth_upd_neq. lia. Qed.

Lemma dltb_trans_le (a b c : double) :
  (a <? b)%D = true -> (c <? b)%D = false -> (c <? a)%D = false.
Proof.
  destruct a as [a| | |], b as [b| | |], c as [c| | |]; simpl; auto;
    try discriminate.
  rewrite Qlt_bool_iff, !Qlt_bool_false_iff. intros Hab Hbc. lra.
Qed.

Lemma dltb_eq_le (a b c : double) :
  (a ==? b)%D = true -> (c <? b)%D = false -> (c <? a)%D = false.
Proof.
  destruct a as [a| | |], b as [b| | |], c as [c| | |]; simpl; auto;
    try discriminate.
  rewrite Qeq_bool_iff, !Qlt_bool_false_iff. intros Hab Hbc. lra.
Qed.

Lemma dltb_eq_lt (a b c : double) :
  (c ==? a)%D = true -> (a <? b)%D = true -> (c <? b)%D = true.
Proof.
  destruct a as [a| | |], b as [b| | |], c as [c| | |]; simpl; auto;
    try discriminate.
  rewrite Qeq_bool_iff, !Qlt_bool_iff. intros Hab Hbc. lra.
Qed.

(** The selection of the scan on its own: what [lowest] and [index] become
    once position [it] has shown the value [w] on a column that is
    unmatched ([free = true]) or matched. *)
Definition select (li : double * Z) (it : nat) (w : double) (free : bool)
  : double * Z :=
  if ((w <? fst li)%D || ((w ==? fst li)%D && free))%bool
  then (w, Z.of_nat it) else li.

Section Selection.
Variable val : nat -> double.
Variable free : nat -> bool.

Definition select_upto (k : nat) : double * Z :=
  fold_left (fun li it => select li it (val it) (free it)) (seq 0 k)
            (INFINITY, -1).

Lemma select_upto_S (k : nat) :
  select_upto (S k) = select (select_upto k) k (val k) (free k).
Proof. unfold select_upto. now rewrite fold_left_seq_S. Qed.

Lemma select_lowest (k : nat) :
  forall it, (it < k)%nat -> (val it <? fst (select_upto k))%D = false.
Proof.
  induction k as [|k IH]; intros it Hit; [lia|].
  rewrite select_upto_S. unfold select.
  destruct (orb _ _) eqn:Efire; simpl.
  - destruct (Nat.eq_dec it k) as [->|Hne]; [apply dltb_irrefl|].
    apply orb_true_iff in Efire. destruct Efire as [Elt|Eeq].
    + eapply dltb_trans_le; eauto. apply IH; lia.
    + apply andb_true_iff in Eeq. destruct Eeq as [Eeq _].
      eapply dltb_eq_le; eauto. apply IH; lia.
  - apply orb_false_iff in Efire. destruct Efire as [Elt _].
    destruct (Nat.eq_dec it k) as [->|Hne]; auto. apply IH; lia.
Qed.

Lemma select_index (k : nat) :
  (snd (select_upto k) = -1 /\ fst (select_upto k) = INFINITY)
  \/ exists p, (p < k)%nat /\ snd (select_upto k) = Z.of_nat p
               /\ fst (select_upto k) = val p.
Proof.
  induction k as [|k IH]; [left; split; reflexivity|].
  rewrite select_upto_S. unfold select.
  destruct (orb _ _); simpl.
  - right. exists k. repeat split; auto.
  - destruct IH as [IH|(p & Hp & Hs & Hf)]; [now left|].
    right. exists p. repeat split; auto.
Qed.

Lemma dltb_defined (a b : double) : (a <? b)%D = true -> (a ==? a)%D = true.
Proof.
  destruct a as [a| | |], b; simpl; try discriminate; auto;
    intros _; apply Qeq_bool_iff; reflexivity.
Qed.

Lemma deqb_defined (a b : double) : (a ==? b)%D = true -> (a ==? a)%D = true.
Proof.
  destruct a as [a| | |], b; simpl; try discriminate; auto;
    intros _; apply Qeq_bool_iff; reflexivity.
Qed.

(** Nothing is selected only when no position is below [+inf] and the
    positions at [+inf] are all matched; a selected position holds the
    minimum. *)
Lemma select_index_tied (k : nat) :
  (snd (select_upto k) = -1 /\ fst (select_upto k) = INFINITY
   /\ forall it, (it < k)%nat ->
        (val it ==? INFINITY)%D = true -> free it = false)
  \/ exists p, (p < k)%nat /\ snd (select_upto k) = Z.of_nat p
               /\ (val p ==? fst (select_upto k))%D = true.
Proof.
  induction k as [|k IH].
  - left. split; [reflexivity|]. split; [reflexivity|]. intros; lia.
  - rewrite select_upto_S. unfold select.
    destruct (orb _ _) eqn:Efire; simpl.
    + right. exists k. split; [lia|]. split; [reflexivity|].
      apply orb_true_iff in Efire. destruct Efire as [Elt|Eeq].
      * exact (dltb_defined _ _ Elt).
      * apply andb_true_iff in Eeq. exact (deqb_defined _ _ (proj1 Eeq)).
    + destruct IH as [(Hs & Hf & Hnone)|(p & Hp & Hs & Hf)].
      * left. split; [exact Hs|]. split; [exact Hf|].
        intros it Hit Einf.
        destruct (Nat.eq_dec it k) as [->|Hne]; [|apply Hnone; auto; lia].
        apply orb_false_iff in Efire. destruct Efire as [_ Eeq].
        rewrite Hf, Einf in Eeq. exact Eeq.
      * right. exists p. split; [lia|]. auto.
Qed.

(** Among the positions tied for the minimum, an unmatched one wins, and
    the last unmatched one wins over the earlier ones. *)
Lemma select_last_free (k : nat) :
  forall it, (it < k)%nat ->
    (val it ==? fst (select_upto k))%D = true -> free it = true ->
    exists p, snd (select_upto k) = Z.of_nat p /\ (it <= p < k)%nat
              /\ free p = true.
Proof.
  induction k as [|k IH]; intros it Hit Htie Hfree; [lia|].
  rewrite select_upto_S in *. unfold select in *.
  destruct (orb _ _) eqn:Efire; simpl in *.
  - exists k. split; auto. split; [lia|].
    apply orb_true_iff in Efire. destruct Efire as [Elt|Eeq].
    + destruct (Nat.eq_dec it k) as [->|Hne]; auto.
      exfalso.
      pose proof (dltb_eq_lt _ _ _ Htie Elt) as Hc.
      rewrite select_lowest in Hc by lia. discriminate.
    + apply andb_true_iff in Eeq. tauto.
  - apply orb_false_iff in Efire. destruct Efire as [_ Eeq].
    destruct (Nat.eq_dec it k) as [->|Hne].
    + rewrite Htie, Hfree in Eeq. discriminate.
    + destruct (IH it ltac:(lia) Htie Hfree) as (p & Hp & Hle & Hfp).
      exists p. repeat split; auto; lia.
Qed.

(** When the selected position is a matched column, it is the first of
    the positions tied for the minimum. *)
Lemma select_first_tied (k : nat) (p : nat) :
  snd (select_upto k) = Z.of_nat p -> free p = false ->
  forall it, (it < k)%nat ->
    (val it ==? fst (select_upto k))%D = true -> (p <= it)%nat.
Proof.
  induction k as [|k IH]; intros Hp Hfp it Hit Htie; [lia|].
  rewrite select_upto_S in *. unfold select in *.
  destruct (orb _ _) eqn:Efire; simpl in *.
  - assert (p = k) by lia. subst p.
    destruct (Nat.eq_dec it k) as [->|Hne]; [lia|]. exfalso.
    apply orb_true_iff in Efire. destruct Efire as [Elt|Eeq].
    + pose proof (dltb_eq_lt _ _ _ Htie Elt) as Hc.
      rewrite select_lowest in Hc by lia. discriminate.
    + apply andb_true_iff in Eeq. destruct Eeq as [_ Eeq]. congruence.
  - destruct (select_index k) as [[Hs _]|(p' & Hp' & Hs & _)]; [lia|].
    assert (p' = p) by lia. subst p'.
    destruct (Nat.eq_dec it k) as [->|Hne]; [lia|].
    apply IH; auto. lia.
Qed.
End Selection.

Section ScanSpec.
Context {A : Arith} {T : Type} `{Elem T}.
Variable cost : matrix2d T.
Variables u v : list double.
Variable row4col : list Z.
Variable remaining : list Z.
Variable i : Z.
Variable minVal : double.
Variable path : list Z.
Variable spc : list double.

(** The candidate distance [r] of column [j]. *)
Definition scan_r (j : Z) : double :=
  let f := elem_format in
  narrow f (fsub f (fsub f (fadd f minVal (cost_at cost i j)) (zth u i NaN))
                 (zth v j NaN)).

(** [shortestPathCosts[j]] once column [j] has been scanned. *)
Definition relaxed (j : Z) : double :=
  if (scan_r j <? zth spc j NaN)%D then scan_r j else zth spc j NaN.

Definition relaxed_path (j : Z) : Z :=
  if (scan_r j <? zth spc j NaN)%D then i else zth path j 0.

Definition scan_val (it : nat) : double := relaxed (nth it remaining 0).
Definition scan_free (it : nat) : bool :=
  zth row4col (nth it remaining 0) 0 =? -1.

Definition scan_upto (k : nat) : scan :=
  fold_left (scan_body cost u v row4col remaining i minVal) (seq 0 k)
            (Scan path spc INFINITY (-1)).

Lemma scan_loop_upto (num : nat) :
  scan_loop cost u v row4col remaining num i minVal path spc
  = scan_upto num.
Proof. reflexivity. Qed.

Lemma relaxed_stable (j : Z) : (scan_r j <? relaxed j)%D = false.
Proof.
  unfold relaxed. destruct (scan_r j <? zth spc j NaN)%D eqn:E; auto.
  apply dltb_irrefl.
Qed.

Lemma visited_dec (k : nat) (j : Z) :
  (exists it, (it < k)%nat /\ nth it remaining 0 = j)
  \/ (forall it, (it < k)%nat -> nth it remaining 0 <> j).
Proof.
  induction k as [|k [(it & Hit & E)|IH]].
  - right; intros; lia.
  - left; exists it; split; auto.
  - destruct (Z.eq_dec (nth k remaining 0) j) as [E|E].
    + left; exists k; split; auto.
    + right; intros it Hit. destruct (Nat.eq_dec it k) as [->|Hne]; auto.
      apply IH; lia.
Qed.

Variable num : nat.
Hypothesis Hlen : length path = length spc.
Hypothesis Hrem : forall it, (it < num)%nat ->
                             0 <= nth it remaining 0 < Z.of_nat (length spc).

Lemma scan_upto_spec (k : nat) :
  (k <= num)%nat ->
  length (sc_spc (scan_upto k)) = length spc
  /\ length (sc_path (scan_upto k)) = length path
  /\ (forall it, (it < k)%nat ->
        zth (sc_spc (scan_upto k)) (nth it remaining 0) NaN
        = relaxed (nth it remaining 0)
        /\ zth (sc_path (scan_upto k)) (nth it remaining 0) 0
           = relaxed_path (nth it remaining 0))
  /\ (forall j, 0 <= j -> (forall it, (it < k)%nat -> nth it remaining 0 <> j) ->
        zth (sc_spc (scan_upto k)) j NaN = zth spc j NaN
        /\ zth (sc_path (scan_upto k)) j 0 = zth path j 0)
  /\ (sc_lowest (scan_upto k), sc_index (scan_upto k))
     = select_upto scan_val scan_free k.
Proof.
  induction k as [|k IH]; intros Hk.
  - repeat split; auto; intros; lia.
  - destruct (IH ltac:(lia)) as (Hls & Hlp & Hvis & Hunv & Hsel); clear IH.
    unfold scan_upto in *. rewrite fold_left_seq_S.
    set (s := fold_left (scan_body cost u v row4col remaining i minVal)
                        (seq 0 k) (Scan path spc INFINITY (-1))) in *.
    set (j := nth k remaining 0).
    assert (Hj : 0 <= j < Z.of_nat (length spc)) by (apply Hrem; lia).
    (* the value and the predecessor of [j] before this step *)
    assert (Hbefore :
              (zth (sc_spc s) j NaN = relaxed j
               /\ zth (sc_path s) j 0 = relaxed_path j)
              \/ ((forall it, (it < k)%nat -> nth it remaining 0 <> j)
                  /\ zth (sc_spc s) j NaN = zth spc j NaN
                  /\ zth (sc_path s) j 0 = zth path j 0)).
    { destruct (visited_dec k j) as [(it & Hit & E)|Hnot].
      - left. rewrite <- E. apply Hvis; auto.
      - right. split; auto. apply Hunv; auto. lia. }
    unfold scan_body. fold j. fold (scan_r j).
    assert (Hstep :
      exists p' s',
        (if (scan_r j <? zth (sc_spc s) j NaN)%D
         then (zset (sc_path s) j i, zset (sc_spc s) j (scan_r j))
         else (sc_path s, sc_spc s)) = (p', s')
        /\ length s' = length spc /\ length p' = length path
        /\ zth s' j NaN = relaxed j /\ zth p' j 0 = relaxed_path j
        /\ (forall j', 0 <= j' -> j' <> j ->
              zth s' j' NaN = zth (sc_spc s) j' NaN
              /\ zth p' j' 0 = zth (sc_path s) j' 0)).
    { destruct Hbefore as [[Hs Hp]|(Hnot & Hs & Hp)].
      - rewrite Hs, relaxed_stable.
        exists (sc_path s), (sc_spc s). repeat split; auto.
      - rewrite Hs. unfold relaxed, relaxed_path.
        destruct (scan_r j <? zth spc j NaN)%D eqn:E.
        + exists (zset (sc_path s) j i), (zset (sc_spc s) j (scan_r j)).
          rewrite !zset_length, !zth_zset_eq by lia.
          repeat split; auto; apply zth_zset_neq; lia.
        + exists (sc_path s), (sc_spc s). repeat split; auto. }
    destruct Hstep as (p' & s' & -> & Hls' & Hlp' & Hsj & Hpj & Hoth).
    assert (Hsel' :
      (if ((zth s' j NaN <? sc_lowest s)%D
           || ((zth s' j NaN ==? sc_lowest s)%D && (zth row4col j 0 =? -1)))%bool
       then (zth s' j NaN, Z.of_nat k) else (sc_lowest s, sc_index s))
      = select_upto scan_val scan_free (S k)).
    { rewrite select_upto_S, <- Hsel. unfold select, scan_val, scan_free.
      fold j. rewrite Hsj. reflexivity. }
    assert (Hfin : forall p0 s0 l0 i0,
               (l0, i0) = select_upto scan_val scan_free (S k) ->
               p0 = p' -> s0 = s' ->
               length s0 = length spc
               /\ length p0 = length path
               /\ (forall it, (it < S k)%nat ->
                     zth s0 (nth it remaining 0) NaN
                     = relaxed (nth it remaining 0)
                     /\ zth p0 (nth it remaining 0) 0
                        = relaxed_path (nth it remaining 0))
               /\ (forall j0, 0 <= j0 ->
                     (forall it, (it < S k)%nat -> nth it remaining 0 <> j0) ->
                     zth s0 j0 NaN = zth spc j0 NaN
                     /\ zth p0 j0 0 = zth path j0 0)
               /\ (l0, i0) = select_upto scan_val scan_free (S k)).
    { intros p0 s0 l0 i0 Hli -> ->.
      split; [auto|]. split; [auto|]. split; [|split; [|auto]].
      - intros it Hit. split.
        + destruct (Z.eq_dec (nth it remaining 0) j) as [E|E].
          * rewrite E. exact Hsj.
          * assert (Hge : 0 <= nth it remaining 0) by (apply Hrem; lia).
            assert (it <> k) by (intro; subst it; apply E; reflexivity).
            rewrite (proj1 (Hoth _ Hge E)). apply Hvis. lia.
        + destruct (Z.eq_dec (nth it remaining 0) j) as [E|E].
          * rewrite E. exact Hpj.
          * assert (Hge : 0 <= nth it remaining 0) by (apply Hrem; lia).
            assert (it <> k) by (intro; subst it; apply E; reflexivity).
            rewrite (proj2 (Hoth _ Hge E)). apply Hvis. lia.
      - intros j0 Hj0 Hnot.
        assert (Hne : j0 <> j) by (intro; subst j0; apply (Hnot k); auto).
        rewrite (proj1 (Hoth _ Hj0 Hne)), (proj2 (Hoth _ Hj0 Hne)).
        apply Hunv; auto. }
    destruct (orb _ _); simpl; apply Hfin; auto;
      rewrite <- Hsel'; reflexivity.
Qed.
End ScanSpec.

(** ** Tie-break of the selection *)

(** Position [it] of [remaining] holds a column whose [shortestPathCosts]
    equals [lowest] after the scan, resp. a column that is unmatched. *)
Definition tied (sc : scan) (remaining : list Z) (it : nat) : Prop :=
  (zth (sc_spc sc) (nth it remaining 0) NaN ==? sc_lowest sc)%D = true.

Definition unmatched (row4col remaining : list Z) (it : nat) : Prop :=
  zth row4col (nth it remaining 0) 0 = -1.

(** C2, as the specification states it, on the first scan of the 1 x 2
    matrix [5 5]: positions 0 and 1 of [remaining] (columns 1 and 0) are
    both tied for the minimum and unmatched, and the scan selects
    position 1, not the first one; in the arithmetic of the machine and in
    exact arithmetic alike. *)
Lemma tie_break_selects_last_unmatched :
  let remaining := [1; 0] in
  let row4col := [-1; -1] in
  let first_unmatched_wins (A : Arith) :=
    let sc := scan_loop (matrix2d_new [Fin 5; Fin 5] 1 2) [Fin 0]
                        [Fin 0; Fin 0] row4col remaining 2 0 (Fin 0)
                        [-1; -1] [PInf; PInf] in
    tied sc remaining 0 /\ unmatched row4col remaining 0
    /\ tied sc remaining 1 /\ unmatched row4col remaining 1
    /\ sc_index sc = 1
    /\ ~ (forall it, (it < 2)%nat -> tied sc remaining it ->
                     unmatched row4col remaining it ->
                     sc_index sc <= Z.of_nat it) in
  first_unmatched_wins ieee_arith /\ first_unmatched_wins exact_arith.
Proof.
  split.
  - repeat split; try (vm_compute; reflexivity).
    intros Hfirst.
    specialize (Hfirst 0%nat ltac:(lia)).
    assert (Hle : 1 <= 0); [|lia].
    apply Hfirst; vm_compute; reflexivity.
  - repeat split; try (vm_compute; reflexivity).
    intros Hfirst.
    specialize (Hfirst 0%nat ltac:(lia)).
    assert (Hle : 1 <= 0); [|lia].
    apply Hfirst; vm_compute; reflexivity.
Qed.

(** C2, amended.  In every scan of the search (over [num] positions holding
    in-range columns), whatever the arithmetic: no scanned column has a
    [shortestPathCosts] below [lowest].  Nothing is selected
    ([index = -1]) only when [lowest] is [+inf] and every column tied for
    it is matched.  Otherwise [index] is a position of the scan whose
    column is tied for the minimum: if some tied column is unmatched, the
    selected column is unmatched and is the last unmatched tied column of
    the forward scan; if the selected column is matched, it is the first
    tied column of the forward scan. *)
Theorem scan_tie_break {A : Arith} {T : Type} `{Elem T}
        (cost : matrix2d T) (u v : list double) (row4col remaining : list Z)
        (num : nat) (i : Z) (minVal : double) (path : list Z)
        (spc : list double) :
  length path = length spc ->
  (forall it, (it < num)%nat ->
              0 <= nth it remaining 0 < Z.of_nat (length spc)) ->
  let sc := scan_loop cost u v row4col remaining num i minVal path spc in
  (forall it, (it < num)%nat ->
     (zth (sc_spc sc) (nth it remaining 0) NaN <? sc_lowest sc)%D = false)
  /\ ((sc_index sc = -1 /\ sc_lowest sc = INFINITY
       /\ forall it, (it < num)%nat -> tied sc remaining it ->
                     ~ unmatched row4col remaining it)
      \/ exists p,
          (p < num)%nat /\ sc_index sc = Z.of_nat p
          /\ tied sc remaining p
          /\ (forall it, (it < num)%nat -> tied sc remaining it ->
                 unmatched row4col remaining it ->
                 unmatched row4col remaining p /\ (it <= p)%nat)
          /\ (~ unmatched row4col remaining p ->
              forall it, (it < num)%nat -> tied sc remaining it ->
                         (p <= it)%nat)).
Proof.
  intros Hlen Hrem sc. subst sc. rewrite scan_loop_upto.
  destruct (scan_upto_spec cost u v row4col remaining i minVal path spc
                           num Hlen Hrem num (Nat.le_refl _))
    as (_ & _ & Hvis & _ & Hsel).
  set (sc := scan_upto cost u v row4col remaining i minVal path spc num) in *.
  set (val := scan_val cost u v remaining i minVal spc) in *.
  set (free := scan_free row4col remaining) in *.
  assert (Hlow : sc_lowest sc = fst (select_upto val free num))
    by (now rewrite <- Hsel).
  assert (Hidx : sc_index sc = snd (select_upto val free num))
    by (now rewrite <- Hsel).
  assert (Hval : forall k, (k < num)%nat ->
                           zth (sc_spc sc) (nth k remaining 0) NaN = val k)
    by (intros k Hk; apply Hvis; auto).
  assert (Hfree : forall k, free k = true <-> unmatched row4col remaining k).
  { intros k. unfold free, scan_free, unmatched. apply Z.eqb_eq. }
  assert (Htied : forall k, (k < num)%nat ->
            (tied sc remaining k
             <-> (val k ==? fst (select_upto val free num))%D = true)).
  { intros k Hk. unfold tied. rewrite Hval, Hlow by exact Hk. tauto. }
  split.
  - intros it Hit. rewrite Hval, Hlow by exact Hit.
    apply select_lowest; auto.
  - destruct (select_index_tied val free num)
      as [(Hs & Hf & Hnone)|(p & Hp & Hs & Hf)].
    + left. split; [now rewrite Hidx|]. split; [now rewrite Hlow|].
      intros it Hit Ht Hun. apply (Htied it Hit) in Ht.
      rewrite Hf in Ht. apply Hfree in Hun.
      rewrite (Hnone it Hit Ht) in Hun. discriminate.
    + right. exists p. split; [exact Hp|]. split; [now rewrite Hidx|].
      split; [now apply Htied|]. split.
      * intros it Hit Ht Hun. apply (Htied it Hit) in Ht.
        apply Hfree in Hun.
        destruct (select_last_free val free num it Hit Ht Hun)
          as (p' & Hp' & Hle & Hfp).
        assert (p' = p) by (rewrite Hs in Hp'; lia). subst p'.
        split; [now apply Hfree | lia].
      * intros Hnun it Hit Ht. apply (Htied it Hit) in Ht.
        apply (select_first_tied val free num p Hs); auto.
        destruct (free p) eqn:E; auto. exfalso. apply Hnun. now apply Hfree.
Qed.

Lemma scan_tie_break_witness :
  let remaining := [2; 1; 0] in
  let row4col := [-1; 0; -1] in
  let sc := scan_loop (A := ieee_arith)
                      (matrix2d_new [Fin 5; Fin 5; Fin 5] 2 3) [Fin 0; Fin 0]
                      [Fin 0; Fin 0; Fin 0] row4col remaining 3 1 (Fin 0)
                      [-1; -1; -1] [PInf; PInf; PInf] in
  sc_index sc = 2
  /\ tied sc remaining 0 /\ unmatched row4col remaining 0
  /\ tied sc remaining 1 /\ ~ unmatched row4col remaining 1
  /\ tied sc remaining 2 /\ unmatched row4col remaining 2.
Proof.
  intros remaining row4col sc.
  assert (Hlen : length [-1; -1; -1] = length [PInf; PInf; PInf])
    by reflexivity.
  assert (Hrem : forall it, (it < 3)%nat ->
             0 <= nth it remaining 0
             < Z.of_nat (length [PInf; PInf; PInf])).
  { intros [|[|[|it]]] Hit; simpl; lia. }
  destruct (scan_tie_break (A := ieee_arith)
                           (matrix2d_new [Fin 5; Fin 5; Fin 5] 2 3)
                           [Fin 0; Fin 0] [Fin 0; Fin 0; Fin 0] row4col
                           remaining 3 1 (Fin 0) [-1; -1; -1]
                           [PInf; PInf; PInf] Hlen Hrem)
    as [_ [(E & _)|(p & Hp & Ei & Ht & Hlast & _)]].
  - vm_compute in E. discriminate.
  - fold sc in Ei, Ht, Hlast.
    assert (Ht2 : tied sc remaining 2) by (vm_compute; reflexivity).
    assert (Hu2 : unmatched row4col remaining 2) by reflexivity.
    destruct (Hlast 2%nat ltac:(lia) Ht2 Hu2) as [_ Hle].
    assert (p = 2%nat) by lia. subst p.
    split; [exact Ei|].
    split; [vm_compute; reflexivity|]. split; [reflexivity|].
    split; [vm_compute; reflexivity|].
    split; [vm_compute; discriminate|].
    split; [exact Ht2 | exact Hu2].
Defined.

(** ** Loops that update a vector entry by entry *)

Lemma fold_upd_pointwise {A} (c : nat -> bool) (f : nat -> A -> A) (d : A)
      (n : nat) (l : list A) :
  let body := fun (l : list A) (i : nat) =>
                if c i then upd i (f i (nth i l d)) l else l in
  length (fold_left body (seq 0 n) l) = length l
  /\ forall k, nth k (fold_left body (seq 0 n) l) d
               = if (c k && (k <? n)%nat && (k <? length l)%nat)%bool
                 then f k (nth k l d) else nth k l d.
Proof.
  intros body. induction n as [|n [IHl IHn]].
  - split; auto. intros k. simpl. now rewrite andb_false_r.
  - rewrite fold_left_seq_S.
    set (l' := fold_left body (seq 0 n) l) in *.
    assert (Hb : body l' n = if c n then upd n (f n (nth n l' d)) l' else l')
      by reflexivity.
    rewrite Hb. clear Hb.
    split.
    + destruct (c n); auto. now rewrite upd_length.
    + intros k. destruct (c n) eqn:Ecn.
      * destruct (Nat.eq_dec k n) as [->|Hne].
        -- rewrite Ecn. simpl.
           replace (n <? S n)%nat with true by (symmetry; apply Nat.ltb_lt; lia).
           simpl. destruct (Nat.ltb_spec n (length l)) as [Hl|Hl].
           ++ rewrite nth_upd_eq by lia. f_equal.
              rewrite IHn. rewrite Nat.ltb_irrefl, andb_false_r. reflexivity.
           ++ rewrite upd_out by lia. rewrite IHn.
              rewrite Nat.ltb_irrefl, andb_false_r. reflexivity.
        -- rewrite nth_upd_neq by lia. rewrite IHn.
           destruct (Nat.ltb_spec k n), (Nat.ltb_spec k (S n)); try lia;
             reflexivity.
      * rewrite IHn.
        destruct (Nat.eq_dec k n) as [->|Hne].
        -- rewrite Ecn. simpl. reflexivity.
        -- destruct (Nat.ltb_spec k n), (Nat.ltb_spec k (S n)); try lia;
             reflexivity.
Qed.

(** ** Finite values *)

Definition finite (x : double) : Prop := exists q, x = Fin q.

(** The rational a finite [double] stands for. *)
Definition qv (x : double) : Q :=
  match x with Fin q => q | _ => 0%Q end.

Lemma finite_qv (x : double) : finite x -> x = Fin (qv x).
Proof. intros [q ->]. reflexivity. Qed.

Lemma deq_refl (x : double) : x <> NaN -> deq x x.
Proof.
  destruct x as [q| | |]; simpl; intros Hx;
    [reflexivity | exact I | exact I | congruence].
Qed.

Lemma deq_trans (x y z : double) : deq x y -> deq y z -> deq x z.
Proof.
  destruct x, y, z; simpl; try contradiction; auto.
  intros E1 E2. now rewrite E1.
Qed.

Lemma deq_finite (x : double) (q : Q) :
  deq x (Fin q) -> exists q', x = Fin q' /\ (q' == q)%Q.
Proof. destruct x as [q'| | |]; simpl; try contradiction. eauto. Qed.

(** ** Arithmetics that respect values

    What the properties that hold beyond exact arithmetic ask of the
    arithmetic, where they ask anything: rounding and narrowing leave the
    infinities and NaN alone, send equal values to equal values, and keep
    zero.  Both arithmetics of the model do. *)

Class Regular (A : Arith) : Prop := {
  rnd_special : forall f x, (forall q, x <> Fin q) -> rnd f x = x;
  narrow_special : forall f x, (forall q, x <> Fin q) -> narrow f x = x;
  rnd_deq : forall f x y, deq x y -> deq (rnd f x) (rnd f y);
  narrow_deq : forall f x y, deq x y -> deq (narrow f x) (narrow f y);
  rnd_zero : forall f, rnd f (Fin 0) = Fin 0
}.

#[export] Instance exact_regular : Regular exact_arith.
Proof. constructor; simpl; auto. Qed.

Lemma round_pos_not_nan (p emax : Z) (n d : positive) :
  round_pos p emax n d <> NaN.
Proof. unfold round_pos. destruct (orb _ _); discriminate. Qed.

Lemma round_to_not_nan (f : format) (q : Q) : round_to f (Fin q) <> NaN.
Proof.
  unfold round_to. destruct (Qnum (Qred q)); try discriminate.
  - apply round_pos_not_nan.
  - pose proof (round_pos_not_nan (precision f) (max_exponent f) p
                                  (Qden (Qred q))).
    destruct (round_pos _ _ _ _); simpl; congruence.
Qed.

(** Rounding depends on the value only, not on the fraction that
    denotes it. *)
Lemma round_to_Qeq (f : format) (q q' : Q) :
  (q == q')%Q -> round_to f (Fin q) = round_to f (Fin q').
Proof. intros E. unfold round_to. now rewrite (Qred_complete _ _ E). Qed.

Lemma round_to_deq (f : format) (x y : double) :
  deq x y -> deq (round_to f x) (round_to f y).
Proof.
  destruct x as [q| | |], y as [q'| | |]; simpl; try contradiction; auto.
  intros E. change (deq (round_to f (Fin q)) (round_to f (Fin q'))).
  rewrite (round_to_Qeq f q q' E). apply deq_refl. apply round_to_not_nan.
Qed.

Lemma round_to_special (f : format) (x : double) :
  (forall q, x <> Fin q) -> round_to f x = x.
Proof. destruct x as [q| | |]; auto. intros Hx. now destruct (Hx q). Qed.

#[export] Instance ieee_regular : Regular ieee_arith.
Proof.
  constructor; simpl.
  - exact round_to_special.
  - intros [|] x Hx; [reflexivity | now apply round_to_special].
  - exact round_to_deq.
  - intros [|] x y E; [exact E | now apply round_to_deq].
  - reflexivity.
Qed.

(** The exact sum and difference respect the equality of values. *)
Lemma dadd_deq (x x' y y' : double) :
  deq x x' -> deq y y' -> dadd x y <> NaN -> deq (dadd x y) (dadd x' y').
Proof.
  destruct x, x', y, y'; simpl; try contradiction; auto; try congruence.
  intros E1 E2 _. now rewrite E1, E2.
Qed.

Lemma dneg_deq (x y : double) : deq x y -> deq (dneg x) (dneg y).
Proof.
  destruct x, y; simpl; try contradiction; auto.
  intros E. now rewrite E.
Qed.

Lemma dsub_deq (x x' y y' : double) :
  deq x x' -> deq y y' -> dsub x y <> NaN -> deq (dsub x y) (dsub x' y').
Proof.
  intros E1 E2. unfold dsub. apply dadd_deq; auto. now apply dneg_deq.
Qed.

(** Line 136 with [minVal = 0] on zero duals: [(double)(0 + x - 0 - 0)],
    evaluated in the format [f]. *)
Definition first_distance {A : Arith} (f : format) (x : double) : double :=
  narrow f (fsub f (fsub f (fadd f (Fin 0) x) (Fin 0)) (Fin 0)).

(** In exact arithmetic it is [x]. *)
Lemma first_distance_exact (f : format) (x : double) :
  x <> NaN -> deq (first_distance (A := exact_arith) f x) x.
Proof.
  intros Hx. unfold first_distance, fadd, fsub.
  destruct x as [q| | |]; simpl; auto. lra.
Qed.

(** In the arithmetic of the machine it is [x] when [x] is a [double]. *)
Lemma first_distance_double (q : Q) :
  round_to F_double (Fin q) = Fin q ->
  first_distance (A := ieee_arith) F_double (Fin q) = Fin q.
Proof.
  intros Hq. unfold first_distance, fadd, fsub. cbn [rnd narrow ieee_arith].
  cbn [dadd dsub dneg].
  assert (E1 : round_to F_double (Fin (0 + q)) = Fin q).
  { rewrite <- Hq. apply round_to_Qeq. lra. }
  rewrite E1.
  change (dsub (Fin q) (Fin 0)) with (Fin (q + - 0)).
  assert (E2 : round_to F_double (Fin (q + - 0)) = Fin q).
  { rewrite <- Hq. apply round_to_Qeq. lra. }
  rewrite E2. exact E2.
Qed.

(** A value that is not finite stays what it is. *)
Lemma first_distance_special {A : Arith} `{!Regular A} (f : format)
      (x : double) :
  (forall q, x <> Fin q) ->
  forall q, first_distance f x <> Fin q.
Proof.
  intros Hx.
  assert (Hadd : dadd (Fin 0) x = x).
  { destruct x as [q0| | |]; try reflexivity. now destruct (Hx q0). }
  assert (Hsub : dsub x (Fin 0) = x).
  { destruct x as [q0| | |]; try reflexivity. now destruct (Hx q0). }
  unfold first_distance, fadd, fsub.
  rewrite Hadd, (rnd_special f x Hx), Hsub, (rnd_special f x Hx), Hsub,
    (rnd_special f x Hx), (narrow_special f x Hx).
  exact Hx.
Qed.

Lemma update_u_any {A : Arith} nr curRow minVal spc col4row SR u :
  length (update_u nr curRow minVal spc col4row SR u) = length u
  /\ forall k,
      nth k (update_u nr curRow minVal spc col4row SR u) NaN
      = if (k =? curRow)%nat
        then (if (k <? length u)%nat then fadd F_double (nth k u NaN) minVal
              else nth k u NaN)
        else if (nth k SR false && (k <? nr)%nat && (k <? length u)%nat)%bool
             then fadd F_double (nth k u NaN)
                       (fsub F_double minVal (zth spc (nth k col4row 0) NaN))
             else nth k u NaN.
Proof.
  unfold update_u.
  destruct (fold_upd_pointwise
              (fun i => (nth i SR false && negb (i =? curRow)%nat)%bool)
              (fun i x => fadd F_double x
                            (fsub F_double minVal
                                  (zth spc (nth i col4row 0) NaN)))
              NaN nr (upd curRow (fadd F_double (nth curRow u NaN) minVal) u))
    as [Hl Hn].
  cbv zeta in Hl, Hn. split.
  - rewrite Hl. apply upd_length.
  - intros k. rewrite Hn, upd_length.
    destruct (Nat.eqb_spec k curRow) as [->|Hne].
    + rewrite andb_false_r. simpl.
      destruct (Nat.ltb_spec curRow (length u)).
      * now rewrite nth_upd_eq.
      * now rewrite upd_out by lia.
    + rewrite andb_true_r. rewrite nth_upd_neq by lia. reflexivity.
Qed.

Lemma update_v_any {A : Arith} nc minVal spc SC v :
  length (update_v nc minVal spc SC v) = length v
  /\ forall k,
      nth k (update_v nc minVal spc SC v) NaN
      = if (nth k SC false && (k <? nc)%nat && (k <? length v)%nat)%bool
        then fsub F_double (nth k v NaN) (fsub F_double minVal (nth k spc NaN))
        else nth k v NaN.
Proof.
  unfold update_v.
  apply (fold_upd_pointwise
           (fun j => nth j SC false)
           (fun j x => fsub F_double x (fsub F_double minVal (nth j spc NaN)))
           NaN nc v).
Qed.

(** In exact arithmetic. *)
Lemma update_u_spec nr curRow minVal spc col4row SR u :
  length (update_u nr curRow minVal spc col4row SR u) = length u
  /\ forall k,
      nth k (update_u nr curRow minVal spc col4row SR u) NaN
      = if (k =? curRow)%nat
        then (if (k <? length u)%nat then (nth k u NaN + minVal)%D
              else nth k u NaN)
        else if (nth k SR false && (k <? nr)%nat && (k <? length u)%nat)%bool
             then (nth k u NaN + (minVal - zth spc (nth k col4row 0) NaN))%D
             else nth k u NaN.
Proof. exact (update_u_any nr curRow minVal spc col4row SR u). Qed.

Lemma update_v_spec nc minVal spc SC v :
  length (update_v nc minVal spc SC v) = length v
  /\ forall k,
      nth k (update_v nc minVal spc SC v) NaN
      = if (nth k SC false && (k <? nc)%nat && (k <? length v)%nat)%bool
        then (nth k v NaN - (minVal - nth k spc NaN))%D
        else nth k v NaN.
Proof. exact (update_v_any nc minVal spc SC v). Qed.

Lemma NoDup_map_in {A B} (f : A -> B) (l : list A) :
  NoDup l ->
  (forall x y, In x l -> In y l -> f x = f y -> x = y) ->
  NoDup (map f l).
Proof.
  induction l as [|a l IH]; intros Hnd Hinj; simpl; [constructor|].
  inversion Hnd as [|a0 l0 Hnin Hnd']; subst. constructor.
  - intros Hin. apply in_map_iff in Hin. destruct Hin as (y & Ey & Hy).
    assert (y = a) by (apply Hinj; simpl; auto). subst y. contradiction.
  - apply IH; auto. intros x y Hx Hy. apply Hinj; simpl; auto.
Qed.

Lemma NoDup_map_eq {A B} (f : A -> B) (l : list A) (x y : A) :
  NoDup (map f l) -> In x l -> In y l -> f x = f y -> x = y.
Proof.
  induction l as [|a l IH]; intros Hnd Hx Hy E; [destruct Hx|].
  simpl in Hnd. inversion Hnd as [|b l0 Hnin Hnd']; subst.
  destruct Hx as [->|Hx]; destruct Hy as [->|Hy]; auto.
  - exfalso. apply Hnin. rewrite E. now apply in_map.
  - exfalso. apply Hnin. rewrite <- E. now apply in_map.
Qed.

(** ** The invariant of the main loop *)

Section Hungarian.
Context {T : Type} `{Elem T}.
Variable cost : matrix2d T.
Variables nr nc : nat.

(** The cost view over the working shape. *)
Definition view (i j : nat) : double :=
  cost_at cost (Z.of_nat i) (Z.of_nat j).

(** What the validation leaves: no NaN and no [-inf] in the view. *)
Definition view_ok : Prop :=
  forall i j, (i < nr)%nat -> (j < nc)%nat ->
              view i j = PInf \/ finite (view i j).

Definition uq (st : lsap) (i : nat) : Q := qv (nth i (l_u st) NaN).
Definition vq (st : lsap) (j : nat) : Q := qv (nth j (l_v st) NaN).
Definition c4r (st : lsap) (i : nat) : Z := nth i (l_col4row st) 0.
Definition r4c (st : lsap) (j : nat) : Z := nth j (l_row4col st) 0.

(** Rows [0 .. m) are matched, the others are not; [col4row] and
    [row4col] are inverse of each other. *)
Record matching (m : nat) (st : lsap) : Prop := {
  mt_len_c4r : length (l_col4row st) = nr;
  mt_len_r4c : length (l_row4col st) = nc;
  mt_rows : forall i, (i < m)%nat -> (i < nr)%nat ->
      exists j, (j < nc)%nat /\ c4r st i = Z.of_nat j
                /\ r4c st j = Z.of_nat i;
  mt_rest : forall i, (m <= i)%nat -> (i < nr)%nat -> c4r st i = -1;
  mt_cols : forall j, (j < nc)%nat ->
      r4c st j = -1
      \/ exists i, (i < m)%nat /\ (i < nr)%nat /\ r4c st j = Z.of_nat i
                   /\ c4r st i = Z.of_nat j
}.

(** Feasibility of the duals over the rows processed so far, with
    equality on the matched pairs. *)
Record dual_feasible (m : nat) (st : lsap) : Prop := {
  df_fin_u : forall i, (i < nr)%nat -> finite (nth i (l_u st) NaN);
  df_fin_v : forall j, (j < nc)%nat -> finite (nth j (l_v st) NaN);
  df_le : forall i j c, (i < m)%nat -> (i < nr)%nat -> (j < nc)%nat ->
      view i j = Fin c -> (uq st i + vq st j <= c)%Q;
  df_tight : forall i j, (i < nr)%nat -> (j < nc)%nat ->
      c4r st i = Z.of_nat j ->
      exists c, view i j = Fin c /\ (uq st i + vq st j == c)%Q
}.

Record Inv (m : nat) (st : lsap) : Prop := {
  inv_len_u : length (l_u st) = nr;
  inv_len_v : length (l_v st) = nc;
  inv_len_path : length (l_path st) = nc;
  inv_len_spc : length (l_spc st) = nc;
  inv_len_SR : length (l_SR st) = nr;
  inv_len_SC : length (l_SC st) = nc;
  inv_len_rem : length (l_remaining st) = nc;
  inv_matching : matching m st;
  inv_dual : dual_feasible m st;
  inv_v_nonpos : forall j, (j < nc)%nat -> (vq st j <= 0)%Q;
  inv_v_free : forall j, (j < nc)%nat -> r4c st j = -1 -> (vq st j == 0)%Q
}.

Lemma Inv_init : Inv 0 (lsap_init nr nc).
Proof.
  unfold lsap_init.
  constructor; simpl; try apply repeat_length.
  - constructor; unfold c4r, r4c; simpl; try apply repeat_length.
    + intros; lia.
    + intros i _ Hi. now apply nth_repeat_any.
    + intros j Hj. left. now apply nth_repeat_any.
  - constructor; unfold c4r, uq, vq; simpl.
    + intros i Hi. rewrite nth_repeat_any by auto. now exists 0%Q.
    + intros j Hj. rewrite nth_repeat_any by auto. now exists 0%Q.
    + intros; lia.
    + intros i j Hi Hj E. rewrite nth_repeat_any in E by auto. lia.
  - intros j Hj. unfold vq; simpl. rewrite nth_repeat_any by auto.
    simpl. lra.
  - intros j Hj _. unfold vq; simpl. rewrite nth_repeat_any by auto.
    simpl. lra.
Qed.

(** *** The invariant of the search *)

Hypothesis Hview : view_ok.

Section SearchInvariant.
Variable m : nat.
Variable st : lsap.
Hypothesis HInv : Inv m st.
Hypothesis Hm : (m < nr)%nat.

Definition inSR (s : search) (i : nat) : Prop :=
  nth i (s_SR s) false = true.
Definition inSC (s : search) (j : nat) : Prop :=
  nth j (s_SC s) false = true.
Definition spc_at (s : search) (j : nat) : double := nth j (s_spc s) NaN.
Definition path_at (s : search) (j : nat) : Z := nth j (s_path s) 0.
Definition rem_at (s : search) (p : nat) : Z := nth p (s_remaining s) 0.

(** The value of [minVal] when row [i] was scanned. *)
Definition dq (s : search) (i : nat) : Q :=
  if (i =? m)%nat then 0%Q else qv (zth (s_spc s) (c4r st i) NaN).

(** Where the [while] loop stands: at its head with a row to scan, after
    the scan of that row, or past its exit with the sink. *)
Inductive front : Type :=
| Pending (i : nat)
| Scanned
| Sink (j : nat).

Record SInv (num : nat) (mv : Q) (s : search) (fr : front)
       (rk : nat -> nat) : Prop := {
  si_len_path : length (s_path s) = nc;
  si_len_spc : length (s_spc s) = nc;
  si_len_SR : length (s_SR s) = nr;
  si_len_SC : length (s_SC s) = nc;
  si_len_rem : length (s_remaining s) = nc;
  si_num : (num <= nc)%nat;
  si_rem_range : forall p, (p < num)%nat ->
      0 <= rem_at s p < Z.of_nat nc;
  si_rem_inj : forall p p', (p < num)%nat -> (p' < num)%nat ->
      rem_at s p = rem_at s p' -> p = p';
  si_rem_notSC : forall p j, (p < num)%nat ->
      rem_at s p = Z.of_nat j -> ~ inSC s j;
  si_rem_all : forall j, (j < nc)%nat -> ~ inSC s j ->
      exists p, (p < num)%nat /\ rem_at s p = Z.of_nat j;
  si_spc_val : forall j, (j < nc)%nat ->
      spc_at s j = PInf \/ finite (spc_at s j);
  si_SC_le : forall j, (j < nc)%nat -> inSC s j ->
      exists q, spc_at s j = Fin q /\ (q <= mv)%Q;
  si_rem_ge :
      (forall j, (j < nc)%nat -> ~ inSC s j)
      \/ (forall j q, (j < nc)%nat -> ~ inSC s j ->
                      spc_at s j = Fin q -> (mv <= q)%Q);
  si_SR : forall i, (i < nr)%nat -> inSR s i ->
      i = m
      \/ ((i < m)%nat
          /\ exists j, (j < nc)%nat /\ c4r st i = Z.of_nat j /\ inSC s j);
  si_SC : forall j, (j < nc)%nat -> inSC s j ->
      (fr = Sink j /\ r4c st j = -1)
      \/ exists i, (i < m)%nat /\ (i < nr)%nat /\ r4c st j = Z.of_nat i
                   /\ (inSR s i \/ fr = Pending i);
  si_bound : forall i j c, (i < nr)%nat -> (j < nc)%nat -> inSR s i ->
      view i j = Fin c ->
      exists q, spc_at s j = Fin q
                /\ (q <= dq s i + c - uq st i - vq st j)%Q;
  si_path : forall j q, (j < nc)%nat -> spc_at s j = Fin q ->
      exists i c, (i < nr)%nat /\ path_at s j = Z.of_nat i /\ inSR s i
                  /\ view i j = Fin c
                  /\ (q == dq s i + c - uq st i - vq st j)%Q;
  si_rank : forall j, (j < nc)%nat -> inSC s j -> (rk j < nc - num)%nat;
  si_rank_dec : forall j i, (j < nc)%nat -> inSC s j ->
      path_at s j = Z.of_nat i -> i <> m ->
      exists j', (j' < nc)%nat /\ c4r st i = Z.of_nat j' /\ inSC s j'
                 /\ (rk j' < rk j)%nat;
  si_front :
    match fr with
    | Pending i =>
      (i < nr)%nat /\ ~ inSR s i
      /\ ((i = m /\ mv = 0%Q
           /\ (forall i', (i' < nr)%nat -> ~ inSR s i')
           /\ (forall j, (j < nc)%nat -> ~ inSC s j))
          \/ ((i < m)%nat /\ inSR s m
              /\ exists j, (j < nc)%nat /\ c4r st i = Z.of_nat j
                           /\ inSC s j /\ spc_at s j = Fin mv))
    | Scanned => inSR s m
    | Sink j =>
      (j < nc)%nat /\ inSC s j /\ r4c st j = -1
      /\ spc_at s j = Fin mv /\ inSR s m
    end
}.

(** The state in which [augmenting_path] enters its [while] loop. *)
Definition search_init : search :=
  Search (l_path st)
         (map (fun _ => INFINITY) (l_spc st))
         (map (fun _ => false) (l_SR st))
         (map (fun _ => false) (l_SC st))
         (fold_left (fun rem it => zset rem (Z.of_nat it)
                                        (Z.of_nat nc - Z.of_nat it - 1))
                    (seq 0 nc) (l_remaining st)).

Lemma SInv_init : SInv nc 0 search_init (Pending m) (fun _ => O).
Proof.
  pose proof (inv_len_spc _ _ HInv) as Hls.
  pose proof (inv_len_SR _ _ HInv) as HlR.
  pose proof (inv_len_SC _ _ HInv) as HlC.
  pose proof (inv_len_rem _ _ HInv) as Hlr.
  assert (HnoSR : forall i, (i < nr)%nat -> ~ inSR search_init i).
  { intros i Hi. unfold inSR; simpl.
    rewrite nth_map_const by lia. discriminate. }
  assert (HnoSC : forall j, (j < nc)%nat -> ~ inSC search_init j).
  { intros j Hj. unfold inSC; simpl.
    rewrite nth_map_const by lia. discriminate. }
  assert (Hinf : forall j, (j < nc)%nat -> spc_at search_init j = PInf).
  { intros j Hj. unfold spc_at; simpl. now rewrite nth_map_const by lia. }
  assert (Hrem : forall p, (p < nc)%nat ->
             rem_at search_init p = Z.of_nat nc - Z.of_nat p - 1).
  { intros p Hp. unfold rem_at; simpl.
    apply remaining_init_nth; auto. }
  constructor.
  - apply (inv_len_path _ _ HInv).
  - simpl. now rewrite length_map.
  - simpl. now rewrite length_map.
  - simpl. now rewrite length_map.
  - simpl. now rewrite remaining_init_length.
  - lia.
  - intros p Hp. rewrite Hrem by auto. lia.
  - intros p p' Hp Hp'. rewrite !Hrem by auto. lia.
  - intros p j Hp E. apply HnoSC. rewrite Hrem in E by auto. lia.
  - intros j Hj _. exists (nc - 1 - j)%nat. split; [lia|].
    rewrite Hrem by lia. lia.
  - intros j Hj. left. auto.
  - intros j Hj HSC. exfalso. eapply HnoSC; eauto.
  - left. exact HnoSC.
  - intros i Hi HSR. exfalso. eapply HnoSR; eauto.
  - intros j Hj HSC. exfalso. eapply HnoSC; eauto.
  - intros i j c Hi Hj HSR. exfalso. eapply HnoSR; eauto.
  - intros j q Hj E. rewrite Hinf in E by auto. discriminate.
  - intros j Hj HSC. exfalso. eapply HnoSC; eauto.
  - intros j i Hj HSC. exfalso. eapply HnoSC; eauto.
  - split; [exact Hm|]. split; [apply HnoSR; exact Hm|].
    left. split; [reflexivity|]. split; [reflexivity|].
    split; [exact HnoSR | exact HnoSC].
Qed.

Lemma u_fin (i : nat) : (i < nr)%nat -> nth i (l_u st) NaN = Fin (uq st i).
Proof.
  intros Hi. apply finite_qv. apply (df_fin_u _ _ (inv_dual _ _ HInv)); auto.
Qed.

Lemma v_fin (j : nat) : (j < nc)%nat -> nth j (l_v st) NaN = Fin (vq st j).
Proof.
  intros Hj. apply finite_qv. apply (df_fin_v _ _ (inv_dual _ _ HInv)); auto.
Qed.

Lemma scan_r_view (mv : Q) (i j : nat) :
  (i < nr)%nat -> (j < nc)%nat ->
  scan_r cost (l_u st) (l_v st) (Z.of_nat i) (Fin mv) (Z.of_nat j)
  = match view i j with
    | Fin c => Fin (mv + c + - uq st i + - vq st j)
    | _ => PInf
    end.
Proof.
  intros Hi Hj. unfold scan_r. rewrite !zth_nat, u_fin, v_fin by auto.
  fold (view i j).
  destruct (Hview i j Hi Hj) as [->|[c ->]]; reflexivity.
Qed.

(** What the scan of row [i] does to a column that is still remaining. *)
Lemma relax_cases (mv : Q) (s : search) (i j : nat) :
  (i < nr)%nat -> (j < nc)%nat ->
  (spc_at s j = PInf \/ finite (spc_at s j)) ->
  let rx := relaxed cost (l_u st) (l_v st) (Z.of_nat i) (Fin mv)
                    (s_spc s) (Z.of_nat j) in
  let rp := relaxed_path cost (l_u st) (l_v st) (Z.of_nat i) (Fin mv)
                         (s_path s) (s_spc s) (Z.of_nat j) in
  (rx = spc_at s j /\ rp = path_at s j
   /\ forall c, view i j = Fin c ->
                exists q, spc_at s j = Fin q
                          /\ (q <= mv + c - uq st i - vq st j)%Q)
  \/ (exists c, view i j = Fin c
                /\ rx = Fin (mv + c + - uq st i + - vq st j)
                /\ rp = Z.of_nat i
                /\ forall q, spc_at s j = Fin q ->
                             (mv + c - uq st i - vq st j < q)%Q).
Proof.
  intros Hi Hj Hs rx rp. subst rx rp.
  unfold relaxed, relaxed_path. rewrite scan_r_view by auto.
  rewrite !zth_nat. fold (spc_at s j). fold (path_at s j).
  destruct (Hview i j Hi Hj) as [E|[c E]]; rewrite E.
  - left. assert (Hf : (PInf <? spc_at s j)%D = false)
      by (destruct (spc_at s j); reflexivity).
    rewrite Hf. repeat split; auto. intros c Hc. discriminate.
  - destruct (Fin (mv + c + - uq st i + - vq st j) <? spc_at s j)%D eqn:Elt.
    + right. exists c. repeat split; auto.
      intros q Eq. rewrite Eq in Elt. simpl in Elt.
      apply Qlt_bool_iff in Elt. lra.
    + left. repeat split; auto.
      intros c' Hc'. inversion Hc'; subst c'.
      destruct Hs as [Es|[q Es]]; rewrite Es in Elt; simpl in Elt;
        [discriminate|].
      exists q. split; auto. apply Qlt_bool_false_iff in Elt. lra.
Qed.

Lemma dq_matched (s : search) (i j : nat) :
  i <> m -> c4r st i = Z.of_nat j -> dq s i = qv (spc_at s j).
Proof.
  intros Hne E. unfold dq.
  destruct (Nat.eqb_spec i m) as [->|_]; [congruence|].
  now rewrite E, zth_nat.
Qed.

Lemma dq_root (s : search) : dq s m = 0%Q.
Proof. unfold dq. now rewrite Nat.eqb_refl. Qed.

Lemma scan_step (num : nat) (mv : Q) (s : search) (i : nat)
      (rk : nat -> nat) :
  SInv num mv s (Pending i) rk ->
  let sc := scan_loop cost (l_u st) (l_v st) (l_row4col st)
                      (s_remaining s) num (Z.of_nat i) (Fin mv)
                      (s_path s) (s_spc s) in
  let s1 := Search (sc_path sc) (sc_spc sc)
                   (zset (s_SR s) (Z.of_nat i) true) (s_SC s)
                   (s_remaining s) in
  SInv num mv s1 Scanned rk
  /\ (forall p, (p < num)%nat ->
        (zth (sc_spc sc) (rem_at s p) NaN <? sc_lowest sc)%D = false)
  /\ ((sc_index sc = -1 /\ sc_lowest sc = INFINITY)
      \/ exists p, (p < num)%nat /\ sc_index sc = Z.of_nat p
                   /\ sc_lowest sc = zth (sc_spc sc) (rem_at s p) NaN).
Proof.
  intros HS sc s1.
  destruct (si_front _ _ _ _ _ HS) as (Hi & HnSRi & Hfr).
  pose proof (si_len_path _ _ _ _ _ HS) as Hlp0.
  pose proof (si_len_spc _ _ _ _ _ HS) as Hls0.
  pose proof (si_len_SR _ _ _ _ _ HS) as HlR0.
  assert (Hlen : length (s_path s) = length (s_spc s)) by congruence.
  assert (Hrem : forall it, (it < num)%nat ->
             0 <= nth it (s_remaining s) 0 < Z.of_nat (length (s_spc s))).
  { intros it Hit. rewrite Hls0. apply (si_rem_range _ _ _ _ _ HS); auto. }
  destruct (scan_upto_spec cost (l_u st) (l_v st) (l_row4col st)
              (s_remaining s) (Z.of_nat i) (Fin mv) (s_path s) (s_spc s)
              num Hlen Hrem num (Nat.le_refl _))
    as (Hls & Hlp & Hvis & Hunv & Hsel).
  change (scan_upto cost (l_u st) (l_v st) (l_row4col st) (s_remaining s)
                    (Z.of_nat i) (Fin mv) (s_path s) (s_spc s) num)
    with sc in *.
  (* columns *)
  assert (Hcol_SC : forall j, (j < nc)%nat -> inSC s j ->
            spc_at s1 j = spc_at s j /\ path_at s1 j = path_at s j).
  { intros j Hj HSC. unfold spc_at, path_at; simpl.
    rewrite <- !zth_nat. apply Hunv; [lia|].
    intros it Hit E.
    apply (si_rem_notSC _ _ _ _ _ HS it j Hit E HSC). }
  assert (Hcol_rem : forall j, (j < nc)%nat -> ~ inSC s j ->
            spc_at s1 j
            = relaxed cost (l_u st) (l_v st) (Z.of_nat i) (Fin mv)
                      (s_spc s) (Z.of_nat j)
            /\ path_at s1 j
               = relaxed_path cost (l_u st) (l_v st) (Z.of_nat i) (Fin mv)
                              (s_path s) (s_spc s) (Z.of_nat j)).
  { intros j Hj HSC.
    destruct (si_rem_all _ _ _ _ _ HS j Hj HSC) as (p & Hp & E).
    unfold spc_at, path_at; simpl. rewrite <- !zth_nat, <- E.
    apply Hvis; auto. }
  assert (Hcases : forall j, (j < nc)%nat ->
            (spc_at s1 j = spc_at s j /\ path_at s1 j = path_at s j
             /\ (~ inSC s j -> forall c, view i j = Fin c ->
                   exists q, spc_at s j = Fin q
                             /\ (q <= mv + c - uq st i - vq st j)%Q))
            \/ (~ inSC s j
                /\ exists c, view i j = Fin c
                   /\ spc_at s1 j = Fin (mv + c + - uq st i + - vq st j)
                   /\ path_at s1 j = Z.of_nat i
                   /\ forall q, spc_at s j = Fin q ->
                                (mv + c - uq st i - vq st j < q)%Q)).
  { intros j Hj.
    destruct (nth j (s_SC s) false) eqn:ESC.
    - left. destruct (Hcol_SC j Hj ESC) as [E1 E2].
      repeat split; auto. intros Hn. exfalso. apply Hn. exact ESC.
    - assert (HnSC : ~ inSC s j) by (unfold inSC; congruence).
      destruct (Hcol_rem j Hj HnSC) as [E1 E2].
      destruct (relax_cases mv s i j Hi Hj (si_spc_val _ _ _ _ _ HS j Hj))
        as [(R1 & R2 & R3)|(c & R1 & R2 & R3 & R4)].
      + left. rewrite E1, E2. repeat split; auto.
      + right. split; auto. exists c. rewrite E1, E2. repeat split; auto. }
  (* rows *)
  assert (HSR1 : forall i', (i' < nr)%nat ->
            (inSR s1 i' <-> i' = i \/ inSR s i')).
  { intros i' Hi'. unfold inSR; simpl. rewrite zset_nat.
    destruct (Nat.eq_dec i i') as [->|Hne].
    - rewrite nth_upd_eq by lia. tauto.
    - rewrite nth_upd_neq by auto.
      split; [intros E; right; exact E|].
      intros [E|E]; [congruence|exact E]. }
  assert (HiSC : forall j, (j < nc)%nat -> inSC s j -> (i < m)%nat).
  { intros j Hj HSC.
    destruct Hfr as [(_ & _ & _ & HnoSC)|(Him & _)]; auto.
    exfalso. eapply HnoSC; eauto. }
  assert (Hdqi : dq s1 i = mv).
  { destruct Hfr as [(-> & -> & _)|(Him & _ & j & Hj & Ec & HSC & Es)].
    - apply dq_root.
    - rewrite (dq_matched s1 i j) by (auto; lia).
      rewrite (proj1 (Hcol_SC j Hj HSC)), Es. reflexivity. }
  assert (Hdq : forall i', (i' < nr)%nat -> inSR s i' ->
                           dq s1 i' = dq s i').
  { intros i' Hi' HSR.
    destruct (si_SR _ _ _ _ _ HS i' Hi' HSR)
      as [->|(Him & j & Hj & Ec & HSC)].
    - now rewrite !dq_root.
    - rewrite (dq_matched s1 i' j), (dq_matched s i' j) by (auto; lia).
      now rewrite (proj1 (Hcol_SC j Hj HSC)). }
  assert (Hdq1 : forall i', (i' < nr)%nat -> inSR s1 i' ->
               (i' = i /\ dq s1 i' = mv)
               \/ (inSR s i' /\ dq s1 i' = dq s i')).
  { intros i' Hi' HSR. apply HSR1 in HSR; auto.
    destruct HSR as [->|HSR]; [left; auto|right; auto]. }
  split; [|split].
  - constructor.
    + simpl. congruence.
    + simpl. congruence.
    + simpl. now rewrite zset_length.
    + apply (si_len_SC _ _ _ _ _ HS).
    + apply (si_len_rem _ _ _ _ _ HS).
    + apply (si_num _ _ _ _ _ HS).
    + apply (si_rem_range _ _ _ _ _ HS).
    + apply (si_rem_inj _ _ _ _ _ HS).
    + apply (si_rem_notSC _ _ _ _ _ HS).
    + apply (si_rem_all _ _ _ _ _ HS).
    + (* si_spc_val *)
      intros j Hj.
      destruct (Hcases j Hj) as [(E & _)|(_ & c & _ & E & _)].
      * rewrite E. apply (si_spc_val _ _ _ _ _ HS); auto.
      * right. rewrite E. eexists; reflexivity.
    + (* si_SC_le *)
      intros j Hj HSC. change (inSC s j) in HSC.
      rewrite (proj1 (Hcol_SC j Hj HSC)).
      apply (si_SC_le _ _ _ _ _ HS); auto.
    + (* si_rem_ge *)
      destruct (si_rem_ge _ _ _ _ _ HS) as [Hno|Hge]; [left; exact Hno|].
      destruct Hfr as [(_ & _ & _ & HnoSC)|(Him & _)];
        [left; exact HnoSC|].
      right. intros j q Hj HnSC Eq. change (~ inSC s j) in HnSC.
      destruct (Hcases j Hj) as [(E & _)|(_ & c & Ev & E & _)].
      * rewrite E in Eq. eapply Hge; eauto.
      * rewrite E in Eq. inversion Eq; subst q.
        pose proof (df_le _ _ (inv_dual _ _ HInv) i j c Him Hi Hj Ev). lra.
    + (* si_SR *)
      intros i' Hi' HSR. apply HSR1 in HSR; auto.
      destruct HSR as [->|HSR].
      * destruct Hfr as [(-> & _)|(Him & _ & j & Hj & Ec & HSC & _)];
          [left; reflexivity|].
        right. split; auto. exists j. repeat split; auto.
      * apply (si_SR _ _ _ _ _ HS); auto.
    + (* si_SC *)
      intros j Hj HSC. change (inSC s j) in HSC.
      destruct (si_SC _ _ _ _ _ HS j Hj HSC)
        as [[E _]|(i' & Him & Hi' & Er & Hor)]; [discriminate|].
      right. exists i'. repeat split; auto. left.
      apply HSR1; auto.
      destruct Hor as [HSR|E]; [right; auto|left; congruence].
    + (* si_bound *)
      intros i' j c Hi' Hj HSR Ev.
      destruct (Hdq1 i' Hi' HSR) as [[-> Ed]|[HSR0 Ed]]; rewrite Ed.
      * destruct (Hcases j Hj) as [(E & _ & Hle)|(_ & c' & Ev' & E & _)].
        -- rewrite E.
           destruct (nth j (s_SC s) false) eqn:ESC.
           ++ destruct (si_SC_le _ _ _ _ _ HS j Hj ESC) as (q & Eq & Hq).
              exists q. split; auto.
              pose proof (HiSC j Hj ESC) as Him.
              pose proof (df_le _ _ (inv_dual _ _ HInv) i j c Him Hi Hj Ev).
              lra.
           ++ apply Hle; auto. unfold inSC. congruence.
        -- rewrite E. eexists; split; [reflexivity|].
           rewrite Ev in Ev'. inversion Ev'; subst c'. lra.
      * destruct (si_bound _ _ _ _ _ HS i' j c Hi' Hj HSR0 Ev)
          as (q & Eq & Hq).
        destruct (Hcases j Hj) as [(E & _)|(_ & c' & Ev' & E & _ & Hlt)].
        -- rewrite E. exists q. split; auto.
        -- rewrite E. eexists; split; [reflexivity|].
           specialize (Hlt q Eq). lra.
    + (* si_path *)
      intros j q Hj Eq.
      destruct (Hcases j Hj) as [(E & Ep & _)|(_ & c & Ev & E & Ep & _)].
      * rewrite E in Eq.
        destruct (si_path _ _ _ _ _ HS j q Hj Eq)
          as (i' & c & Hi' & Epi & HSR & Ev & Hq).
        exists i', c. rewrite Ep, (Hdq i' Hi' HSR).
        repeat split; auto. apply HSR1; auto.
      * rewrite E in Eq. inversion Eq; subst q.
        exists i, c. rewrite Hdqi.
        repeat split; auto; try (apply HSR1; auto); try lra.
    + apply (si_rank _ _ _ _ _ HS).
    + (* si_rank_dec *)
      intros j i' Hj HSC Ep Hne. change (inSC s j) in HSC.
      rewrite (proj2 (Hcol_SC j Hj HSC)) in Ep.
      apply (si_rank_dec _ _ _ _ _ HS j i'); auto.
    + (* si_front *)
      apply HSR1; auto.
      destruct Hfr as [(-> & _)|(_ & HSRm & _)]; auto.
  - intros p Hp.
    assert (Hlow : sc_lowest sc = fst (select_upto
              (scan_val cost (l_u st) (l_v st) (s_remaining s)
                        (Z.of_nat i) (Fin mv) (s_spc s))
              (scan_free (l_row4col st) (s_remaining s)) num))
      by (now rewrite <- Hsel).
    rewrite Hlow. unfold rem_at. rewrite (proj1 (Hvis p Hp)).
    apply (select_lowest
             (scan_val cost (l_u st) (l_v st) (s_remaining s)
                       (Z.of_nat i) (Fin mv) (s_spc s))); auto.
  - destruct (select_index
                (scan_val cost (l_u st) (l_v st) (s_remaining s)
                          (Z.of_nat i) (Fin mv) (s_spc s))
                (scan_free (l_row4col st) (s_remaining s)) num)
      as [[E1 E2]|(p & Hp & E1 & E2)];
      rewrite <- Hsel in E1, E2; simpl in E1, E2.
    + left. auto.
    + right. exists p. repeat split; auto.
      unfold rem_at. rewrite (proj1 (Hvis p Hp)). exact E2.
Qed.

Lemma select_step (num : nat) (mv lq : Q) (s1 : search) (rk : nat -> nat)
      (p : nat) :
  SInv num mv s1 Scanned rk -> (p < num)%nat ->
  zth (s_spc s1) (rem_at s1 p) NaN = Fin lq ->
  (forall p', (p' < num)%nat ->
              (zth (s_spc s1) (rem_at s1 p') NaN <? Fin lq)%D = false) ->
  let s' := Search (s_path s1) (s_spc s1) (s_SR s1)
                   (zset (s_SC s1) (rem_at s1 p) true)
                   (zset (s_remaining s1) (Z.of_nat p)
                         (nth (pred num) (s_remaining s1) 0)) in
  exists jn, (jn < nc)%nat /\ rem_at s1 p = Z.of_nat jn
    /\ let rk' := fun x => if (x =? jn)%nat then (nc - num)%nat
                           else rk x in
       ((r4c st jn = -1 /\ SInv (pred num) lq s' (Sink jn) rk')
        \/ (exists i', (i' < nr)%nat /\ r4c st jn = Z.of_nat i'
                       /\ SInv (pred num) lq s' (Pending i') rk')).
Proof.
  intros HS Hp Elq Hmin s'.
  pose proof (si_rem_range _ _ _ _ _ HS p Hp) as Hrange.
  pose proof (si_num _ _ _ _ _ HS) as Hnum.
  pose proof (si_len_rem _ _ _ _ _ HS) as Hlrem.
  pose proof (si_len_SC _ _ _ _ _ HS) as HlSC.
  exists (Z.to_nat (rem_at s1 p)).
  set (jn := Z.to_nat (rem_at s1 p)).
  assert (Hjn : (jn < nc)%nat) by (subst jn; lia).
  assert (Ejn : rem_at s1 p = Z.of_nat jn) by (subst jn; lia).
  split; [exact Hjn|]. split; [exact Ejn|].
  intros rk'.
  assert (HnSCjn : ~ inSC s1 jn)
    by (apply (si_rem_notSC _ _ _ _ _ HS p jn Hp Ejn)).
  assert (Espc : spc_at s1 jn = Fin lq).
  { unfold spc_at. rewrite <- zth_nat, <- Ejn. exact Elq. }
  assert (HSC' : forall x, (x < nc)%nat ->
                           (inSC s' x <-> x = jn \/ inSC s1 x)).
  { intros x Hx. unfold inSC; simpl. rewrite Ejn, zset_nat.
    destruct (Nat.eq_dec jn x) as [->|Hne].
    - rewrite nth_upd_eq by lia. tauto.
    - rewrite nth_upd_neq by auto.
      split; [intros E; right; exact E|].
      intros [E|E]; [congruence|exact E]. }
  assert (Hrem' : forall q, (q < pred num)%nat ->
            rem_at s' q = if (q =? p)%nat then rem_at s1 (pred num)
                          else rem_at s1 q).
  { intros q Hq. unfold rem_at; simpl. rewrite zset_nat.
    destruct (Nat.eqb_spec q p) as [->|Hne].
    - rewrite nth_upd_eq by lia. reflexivity.
    - rewrite nth_upd_neq by auto. reflexivity. }
  assert (Hrem_src : forall q, (q < pred num)%nat ->
            exists q0, (q0 < num)%nat /\ q0 <> p
                       /\ rem_at s' q = rem_at s1 q0).
  { intros q Hq. rewrite Hrem' by auto.
    destruct (Nat.eqb_spec q p) as [->|Hne].
    - exists (pred num). repeat split; auto; lia.
    - exists q. repeat split; auto; lia. }
  assert (Hmvlq : forall x, (x < nc)%nat -> inSC s1 x -> (mv <= lq)%Q).
  { intros x Hx HSCx.
    destruct (si_rem_ge _ _ _ _ _ HS) as [Hno|Hge].
    - exfalso. eapply Hno; eauto.
    - apply (Hge jn lq Hjn HnSCjn Espc). }
  assert (Hge' : forall j0 q, (j0 < nc)%nat -> ~ inSC s1 j0 ->
                              spc_at s1 j0 = Fin q -> (lq <= q)%Q).
  { intros j0 q Hj0 HnSC Eq.
    destruct (si_rem_all _ _ _ _ _ HS j0 Hj0 HnSC) as (q0 & Hq0 & E0).
    specialize (Hmin q0 Hq0). rewrite E0, zth_nat in Hmin.
    change (nth j0 (s_spc s1) NaN) with (spc_at s1 j0) in Hmin.
    rewrite Eq in Hmin. simpl in Hmin.
    now apply Qlt_bool_false_iff in Hmin. }
  assert (Hcore : forall fr,
    match fr with
    | Pending i =>
      (i < m)%nat /\ (i < nr)%nat /\ r4c st jn = Z.of_nat i
      /\ c4r st i = Z.of_nat jn
    | Scanned => False
    | Sink j => j = jn /\ r4c st jn = -1
    end ->
    SInv (pred num) lq s' fr rk').
  { intros fr Hfr. constructor.
    - apply (si_len_path _ _ _ _ _ HS).
    - apply (si_len_spc _ _ _ _ _ HS).
    - apply (si_len_SR _ _ _ _ _ HS).
    - simpl. now rewrite zset_length.
    - simpl. now rewrite zset_length.
    - lia.
    - intros q Hq. destruct (Hrem_src q Hq) as (q0 & Hq0 & _ & ->).
      apply (si_rem_range _ _ _ _ _ HS); auto.
    - intros q q' Hq Hq'. rewrite !Hrem' by auto. intros E.
      destruct (Nat.eqb_spec q p) as [->|Hne],
               (Nat.eqb_spec q' p) as [->|Hne']; auto;
        apply (si_rem_inj _ _ _ _ _ HS) in E; lia.
    - intros q j0 Hq E0 HSC0.
      destruct (Hrem_src q Hq) as (q0 & Hq0 & Hne & E1).
      rewrite E1 in E0.
      assert (Hj0 : (j0 < nc)%nat).
      { pose proof (si_rem_range _ _ _ _ _ HS q0 Hq0). lia. }
      apply HSC' in HSC0; auto. destruct HSC0 as [->|HSC0].
      + rewrite <- Ejn in E0.
        apply (si_rem_inj _ _ _ _ _ HS) in E0; auto.
      + apply (si_rem_notSC _ _ _ _ _ HS q0 j0 Hq0 E0 HSC0).
    - intros j0 Hj0 HnSC.
      assert (Hne : j0 <> jn)
        by (intros ->; apply HnSC; apply HSC'; auto).
      assert (HnSC1 : ~ inSC s1 j0)
        by (intros HSC0; apply HnSC; apply HSC'; auto).
      destruct (si_rem_all _ _ _ _ _ HS j0 Hj0 HnSC1) as (q0 & Hq0 & E0).
      assert (Hq0p : q0 <> p) by (intros ->; rewrite Ejn in E0; lia).
      destruct (Nat.eq_dec q0 (pred num)) as [Epn|Hnpn].
      + exists p. split; [lia|]. rewrite Hrem' by lia.
        rewrite Nat.eqb_refl. congruence.
      + exists q0. split; [lia|]. rewrite Hrem' by lia.
        destruct (Nat.eqb_spec q0 p); [contradiction|exact E0].
    - apply (si_spc_val _ _ _ _ _ HS).
    - intros x Hx HSCx. apply HSC' in HSCx; auto.
      destruct HSCx as [->|HSCx].
      + exists lq. split; [exact Espc|lra].
      + destruct (si_SC_le _ _ _ _ _ HS x Hx HSCx) as (q & Eq & Hq).
        exists q. split; [exact Eq|].
        pose proof (Hmvlq x Hx HSCx). lra.
    - right. intros j0 q Hj0 HnSC Eq. apply (Hge' j0 q); auto.
      intros HSC0; apply HnSC; apply HSC'; auto.
    - intros i Hi HSR.
      destruct (si_SR _ _ _ _ _ HS i Hi HSR)
        as [->|(Him & j0 & Hj0 & Ec & HSC0)]; [left; reflexivity|].
      right. split; auto. exists j0. repeat split; auto.
      apply HSC'; auto.
    - intros x Hx HSCx. apply HSC' in HSCx; auto.
      destruct HSCx as [->|HSCx].
      + destruct fr as [i| |j]; [|contradiction|].
        * destruct Hfr as (Him & Hi & Er & Ec).
          right. exists i. repeat split; auto.
        * destruct Hfr as [-> Er]. left. split; auto.
      + destruct (si_SC _ _ _ _ _ HS x Hx HSCx)
          as [[E _]|(i & Him & Hi & Er & [HSR|E])]; try discriminate.
        right. exists i. repeat split; auto.
    - apply (si_bound _ _ _ _ _ HS).
    - apply (si_path _ _ _ _ _ HS).
    - intros x Hx HSCx. apply HSC' in HSCx; auto. unfold rk'.
      destruct (Nat.eqb_spec x jn) as [->|Hne]; [lia|].
      destruct HSCx as [->|HSCx]; [congruence|].
      pose proof (si_rank _ _ _ _ _ HS x Hx HSCx). lia.
    - intros x i Hx HSCx Ep Hne. apply HSC' in HSCx; auto.
      assert (Hold : forall j', (j' < nc)%nat -> inSC s1 j' ->
                                rk' j' = rk j').
      { intros j' Hj' HSC0. unfold rk'.
        destruct (Nat.eqb_spec j' jn) as [->|]; [contradiction|auto]. }
      destruct HSCx as [->|HSCx].
      + destruct (si_path _ _ _ _ _ HS jn lq Hjn Espc)
          as (i0 & c & Hi0 & Ep0 & HSR0 & _).
        change (path_at s' jn) with (path_at s1 jn) in Ep.
        assert (i0 = i) by lia. subst i0.
        destruct (si_SR _ _ _ _ _ HS i Hi0 HSR0)
          as [->|(Him & j' & Hj' & Ec & HSC0)]; [contradiction|].
        exists j'. repeat split; auto.
        * apply HSC'; auto.
        * rewrite (Hold j' Hj' HSC0). unfold rk'.
          rewrite Nat.eqb_refl.
          pose proof (si_rank _ _ _ _ _ HS j' Hj' HSC0). lia.
      + destruct (si_rank_dec _ _ _ _ _ HS x i Hx HSCx Ep Hne)
          as (j' & Hj' & Ec & HSC0 & Hlt).
        exists j'. repeat split; auto.
        * apply HSC'; auto.
        * rewrite (Hold j' Hj' HSC0), (Hold x Hx HSCx). exact Hlt.
    - pose proof (si_front _ _ _ _ _ HS) as HSRm. simpl in HSRm.
      destruct fr as [i| |j]; [|contradiction|].
      + destruct Hfr as (Him & Hi & Er & Ec).
        split; [exact Hi|]. split.
        * intros HSR.
          destruct (si_SR _ _ _ _ _ HS i Hi HSR)
            as [->|(_ & j0 & Hj0 & Ec0 & HSC0)]; [lia|].
          assert (j0 = jn) by lia. subst j0. contradiction.
        * right. split; [exact Him|]. split; [exact HSRm|].
          exists jn. repeat split; auto. apply HSC'; auto.
      + destruct Hfr as [-> Er].
        repeat split; auto. apply HSC'; auto. }
  destruct (mt_cols _ _ (inv_matching _ _ HInv) jn Hjn)
    as [Er|(i & Him & Hi & Er & Ec)].
  - left. split; [exact Er|]. apply Hcore. split; auto.
  - right. exists i. split; [exact Hi|]. split; [exact Er|].
    apply Hcore. repeat split; auto.
Qed.

(** The [while] loop returns, with [-1] or with a sink that satisfies
    the invariant. *)
Lemma search_loop_sound (fuel : nat) :
  forall num mv s i rk,
    SInv num mv s (Pending i) rk -> (num < fuel)%nat ->
    exists sink mv' s',
      search_loop cost (l_u st) (l_v st) (l_row4col st) fuel num
                  (Z.of_nat i) (Fin mv) s = Some (sink, mv', s')
      /\ (sink = -1
          \/ exists jn lq num' rk',
              sink = Z.of_nat jn /\ mv' = Fin lq
              /\ SInv num' lq s' (Sink jn) rk').
Proof.
  induction fuel as [|fuel IH]; intros num mv s i rk HS Hfuel; [lia|].
  destruct (scan_step num mv s i rk HS) as (HS1 & Hmin & Hidx).
  cbn [search_loop].
  set (sc := scan_loop cost (l_u st) (l_v st) (l_row4col st)
                       (s_remaining s) num (Z.of_nat i) (Fin mv)
                       (s_path s) (s_spc s)) in *.
  set (s1 := Search (sc_path sc) (sc_spc sc)
                    (zset (s_SR s) (Z.of_nat i) true) (s_SC s)
                    (s_remaining s)) in *.
  destruct (sc_lowest sc ==? INFINITY)%D eqn:Einf.
  - eexists _, _, _. split; [reflexivity|]. left. reflexivity.
  - destruct Hidx as [[_ E]|(p & Hp & Eidx & Elow)];
      [rewrite E in Einf; discriminate|].
    assert (Hlq : exists lq, sc_lowest sc = Fin lq).
    { pose proof (si_rem_range _ _ _ _ _ HS1 p Hp) as Hr.
      change (rem_at s1 p) with (rem_at s p) in Hr.
      assert (Hlt : (Z.to_nat (rem_at s p) < nc)%nat) by lia.
      pose proof (si_spc_val _ _ _ _ _ HS1 (Z.to_nat (rem_at s p)) Hlt)
        as Hv.
      unfold spc_at in Hv. simpl in Hv.
      unfold zth in Elow. rewrite <- Elow in Hv.
      destruct Hv as [Hv|Hv]; [|exact Hv].
      rewrite Hv in Einf. discriminate. }
    destruct Hlq as [lq Elq].
    assert (Hmin' : forall p', (p' < num)%nat ->
              (zth (s_spc s1) (rem_at s1 p') NaN <? Fin lq)%D = false).
    { intros p' Hp'. rewrite <- Elq. apply Hmin; auto. }
    assert (Espc : zth (s_spc s1) (rem_at s1 p) NaN = Fin lq).
    { rewrite <- Elq, Elow. reflexivity. }
    destruct (select_step num mv lq s1 rk p HS1 Hp Espc Hmin')
      as (jn & Hjn & Ejn & Hsel).
    rewrite Eidx, zth_nat.
    change (nth p (s_remaining s) 0) with (rem_at s1 p).
    rewrite Ejn, zth_nat. change (nth jn (l_row4col st) 0) with (r4c st jn).
    rewrite Elq.
    cbv zeta in Hsel. rewrite Ejn in Hsel.
    destruct Hsel as [[Er HS']|(i' & Hi' & Er & HS')].
    + rewrite Er. simpl (-1 =? -1).  cbv iota.
      eexists _, _, _. split; [reflexivity|]. right.
      eexists jn, lq, _, _.
      split; [reflexivity|]. split; [reflexivity|]. exact HS'.
    + rewrite Er.
      replace (Z.of_nat i' =? -1) with false
        by (symmetry; apply Z.eqb_neq; lia).
      apply (IH _ _ _ _ _ HS'). lia.
Qed.

Lemma augmenting_path_sound :
  exists sink mv' s',
    augmenting_path cost (l_u st) (l_v st) (l_row4col st) nc
                    (l_path st) (l_spc st) (Z.of_nat m)
                    (l_SR st) (l_SC st) (l_remaining st)
    = Some (sink, mv', s')
    /\ (sink = -1
        \/ exists jn lq num' rk',
            sink = Z.of_nat jn /\ mv' = Fin lq
            /\ SInv num' lq s' (Sink jn) rk').
Proof.
  unfold augmenting_path.
  apply (search_loop_sound (S nc) nc 0 search_init m (fun _ => O)).
  - apply SInv_init.
  - lia.
Qed.

(** *** A search without sink

    When the search gives up, the rows it reached have finite entries in
    the columns it reached only, and these columns are matched to the
    reached rows other than the root. *)

Record blocked (s : search) : Prop := {
  bl_root : inSR s m;
  bl_SR : forall i, (i < nr)%nat -> inSR s i ->
      i = m
      \/ ((i < m)%nat
          /\ exists j, (j < nc)%nat /\ c4r st i = Z.of_nat j /\ inSC s j);
  bl_SC : forall j, (j < nc)%nat -> inSC s j ->
      exists i, (i < m)%nat /\ r4c st j = Z.of_nat i /\ inSR s i;
  bl_inf : forall i j, (i < nr)%nat -> (j < nc)%nat ->
      inSR s i -> ~ inSC s j -> view i j = PInf
}.

Lemma scanned_blocked (num : nat) (mv : Q) (s : search) (rk : nat -> nat) :
  SInv num mv s Scanned rk ->
  (forall p, (p < num)%nat ->
             (zth (s_spc s) (rem_at s p) NaN <? INFINITY)%D = false) ->
  blocked s.
Proof.
  intros HS Hmin. constructor.
  - exact (si_front _ _ _ _ _ HS).
  - exact (si_SR _ _ _ _ _ HS).
  - intros j Hj HSC.
    destruct (si_SC _ _ _ _ _ HS j Hj HSC)
      as [[E _]|(i & Hi & _ & Er & [HSR|E])]; try discriminate.
    exists i. auto.
  - intros i j Hi Hj HSR HnSC.
    destruct (Hview i j Hi Hj) as [E|[c Ec]]; [exact E|exfalso].
    destruct (si_bound _ _ _ _ _ HS i j c Hi Hj HSR Ec) as (q & Eq & _).
    destruct (si_rem_all _ _ _ _ _ HS j Hj HnSC) as (p & Hp & Ep).
    specialize (Hmin p Hp). rewrite Ep, zth_nat in Hmin.
    unfold spc_at in Eq. rewrite Eq in Hmin. discriminate.
Qed.

Lemma search_loop_blocked (fuel : nat) :
  forall num mv s i rk,
    SInv num mv s (Pending i) rk -> (num < fuel)%nat ->
    forall mv' s',
      search_loop cost (l_u st) (l_v st) (l_row4col st) fuel num
                  (Z.of_nat i) (Fin mv) s = Some (-1, mv', s') ->
      blocked s'.
Proof.
  induction fuel as [|fuel IH]; intros num mv s i rk HS Hfuel mv' s';
    [lia|].
  destruct (scan_step num mv s i rk HS) as (HS1 & Hmin & Hidx).
  cbn [search_loop].
  set (sc := scan_loop cost (l_u st) (l_v st) (l_row4col st)
                       (s_remaining s) num (Z.of_nat i) (Fin mv)
                       (s_path s) (s_spc s)) in *.
  set (s1 := Search (sc_path sc) (sc_spc sc)
                    (zset (s_SR s) (Z.of_nat i) true) (s_SC s)
                    (s_remaining s)) in *.
  destruct (sc_lowest sc ==? INFINITY)%D eqn:Einf.
  - intros E. inversion E; subst s'. fold s1.
    apply (scanned_blocked num mv s1 rk HS1).
    intros p Hp. specialize (Hmin p Hp).
    apply deqb_iff in Einf.
    destruct (sc_lowest sc); simpl in Einf; try contradiction.
    exact Hmin.
  - destruct Hidx as [[_ E]|(p & Hp & Eidx & Elow)];
      [rewrite E in Einf; discriminate|].
    assert (Hlq : exists lq, sc_lowest sc = Fin lq).
    { pose proof (si_rem_range _ _ _ _ _ HS1 p Hp) as Hr.
      change (rem_at s1 p) with (rem_at s p) in Hr.
      assert (Hlt : (Z.to_nat (rem_at s p) < nc)%nat) by lia.
      pose proof (si_spc_val _ _ _ _ _ HS1 (Z.to_nat (rem_at s p)) Hlt)
        as Hv.
      unfold spc_at in Hv. simpl in Hv.
      unfold zth in Elow. rewrite <- Elow in Hv.
      destruct Hv as [Hv|Hv]; [|exact Hv].
      rewrite Hv in Einf. discriminate. }
    destruct Hlq as [lq Elq].
    assert (Hmin' : forall p', (p' < num)%nat ->
              (zth (s_spc s1) (rem_at s1 p') NaN <? Fin lq)%D = false).
    { intros p' Hp'. rewrite <- Elq. apply Hmin; auto. }
    assert (Espc : zth (s_spc s1) (rem_at s1 p) NaN = Fin lq).
    { rewrite <- Elq, Elow. reflexivity. }
    destruct (select_step num mv lq s1 rk p HS1 Hp Espc Hmin')
      as (jn & Hjn & Ejn & Hsel).
    rewrite Eidx, zth_nat.
    change (nth p (s_remaining s) 0) with (rem_at s1 p).
    rewrite Ejn, zth_nat. change (nth jn (l_row4col st) 0) with (r4c st jn).
    rewrite Elq.
    cbv zeta in Hsel. rewrite Ejn in Hsel.
    destruct Hsel as [[Er HS']|(i' & Hi' & Er & HS')].
    + rewrite Er. simpl (-1 =? -1). cbv iota.
      intros E. inversion E. lia.
    + rewrite Er.
      replace (Z.of_nat i' =? -1) with false
        by (symmetry; apply Z.eqb_neq; lia).
      apply (IH _ _ _ _ _ HS'). lia.
Qed.

Lemma augmenting_path_blocked (mv' : double) (s' : search) :
  augmenting_path cost (l_u st) (l_v st) (l_row4col st) nc
                  (l_path st) (l_spc st) (Z.of_nat m)
                  (l_SR st) (l_SC st) (l_remaining st)
  = Some (-1, mv', s') ->
  blocked s'.
Proof.
  unfold augmenting_path.
  apply (search_loop_blocked (S nc) nc 0 search_init m (fun _ => O)).
  - apply SInv_init.
  - lia.
Qed.

(** No assignment of the rows [0 .. m] to distinct columns has finite
    entries only: the rows reached by a search without sink are one more
    than the columns they can use. *)
Lemma blocked_no_finite_cover (s : search) (ps : list (nat * nat)) :
  blocked s ->
  NoDup (map fst ps) -> NoDup (map snd ps) ->
  (forall i, (i <= m)%nat -> In i (map fst ps)) ->
  (forall p, In p ps -> (fst p < nr)%nat /\ (snd p < nc)%nat) ->
  (forall p, In p ps -> finite (view (fst p) (snd p))) ->
  False.
Proof.
  intros HB Hnd1 Hnd2 Hcover Hrange Hfin.
  pose (SRl := filter (fun i => nth i (s_SR s) false) (seq 0 nr)).
  pose (L := filter (fun p : nat * nat => nth (fst p) (s_SR s) false) ps).
  pose (g := fun p : nat * nat => Z.to_nat (r4c st (snd p))).
  assert (HSRl : forall i, In i SRl <-> (i < nr)%nat /\ inSR s i).
  { intros i. unfold SRl. rewrite filter_In, in_seq. unfold inSR.
    split; intros [H1 H2]; split; auto; lia. }
  assert (HL : forall p, In p L <-> In p ps /\ inSR s (fst p)).
  { intros p. unfold L. rewrite filter_In. unfold inSR. tauto. }
  assert (Hg : forall p, In p L ->
             exists i, (i < m)%nat /\ r4c st (snd p) = Z.of_nat i
                       /\ inSR s i /\ g p = i).
  { intros p Hp. apply HL in Hp. destruct Hp as [Hp HSR].
    destruct (Hrange p Hp) as [Hi Hj].
    assert (HSC : inSC s (snd p)).
    { unfold inSC. destruct (nth (snd p) (s_SC s) false) eqn:E; auto.
      exfalso.
      assert (Hn : ~ inSC s (snd p)) by (unfold inSC; congruence).
      pose proof (bl_inf _ HB (fst p) (snd p) Hi Hj HSR Hn) as Einf.
      destruct (Hfin p Hp) as [c Ec]. congruence. }
    destruct (bl_SC _ HB (snd p) Hj HSC) as (i & Him & Er & HSRi).
    exists i. repeat split; auto. unfold g. rewrite Er. apply Nat2Z.id. }
  assert (Hle1 : (length SRl <= length L)%nat).
  { rewrite <- (length_map fst L). apply NoDup_incl_length.
    - apply NoDup_filter, seq_NoDup.
    - intros i Hi. apply HSRl in Hi. destruct Hi as [Hi HSR].
      assert (Him : (i <= m)%nat).
      { destruct (bl_SR _ HB i Hi HSR) as [->|[Hlt _]]; lia. }
      specialize (Hcover i Him). apply in_map_iff in Hcover.
      destruct Hcover as (p & <- & Hp).
      apply in_map. apply HL. auto. }
  assert (Hinj : forall p p', In p L -> In p' L -> g p = g p' -> p = p').
  { intros p p' Hp Hp' E.
    destruct (Hg p Hp) as (i & _ & Er & _ & Egi).
    destruct (Hg p' Hp') as (i' & _ & Er' & _ & Egi').
    assert (Hii : i' = i) by congruence. subst i'.
    apply HL in Hp. apply HL in Hp'.
    destruct Hp as [Hp _]. destruct Hp' as [Hp' _].
    destruct (Hrange p Hp) as [_ Hj].
    destruct (Hrange p' Hp') as [_ Hj'].
    destruct (mt_cols _ _ (inv_matching _ _ HInv) (snd p) Hj)
      as [Ex|(x & _ & _ & Ex & Ec)]; [lia|].
    destruct (mt_cols _ _ (inv_matching _ _ HInv) (snd p') Hj')
      as [Ex'|(x' & _ & _ & Ex' & Ec')]; [lia|].
    assert (x = i) by lia. assert (x' = i) by lia. subst x x'.
    apply (NoDup_map_eq snd ps p p' Hnd2 Hp Hp').
    rewrite Ec in Ec'. lia. }
  assert (Hle2 : (S (length L) <= length SRl)%nat).
  { rewrite <- (length_map g L).
    change (S (length (map g L))) with (length (m :: map g L)).
    apply NoDup_incl_length.
    - constructor.
      + intros Hin. apply in_map_iff in Hin. destruct Hin as (p & Ep & Hp).
        destruct (Hg p Hp) as (i & Him & _ & _ & Egi). lia.
      + apply NoDup_map_in; [|exact Hinj].
        apply NoDup_filter. apply (NoDup_map_inv fst). exact Hnd1.
    - intros i [<-|Hin].
      + apply HSRl. split; [exact Hm | exact (bl_root _ HB)].
      + apply in_map_iff in Hin. destruct Hin as (p & <- & Hp).
        destruct (Hg p Hp) as (i & Him & _ & HSRi & ->).
        apply HSRl. split; [lia | exact HSRi]. }
  lia.
Qed.

(** *** The dual update and the augmentation *)

Section AfterSearch.
Variables (num : nat) (lq : Q) (s : search) (snk : nat)
          (rk : nat -> nat).
Hypothesis HSk : SInv num lq s (Sink snk) rk.

Let u' := update_u nr m (Fin lq) (s_spc s) (l_col4row st) (s_SR s)
                   (l_u st).
Let v' := update_v nc (Fin lq) (s_spc s) (s_SC s) (l_v st).

Lemma sink_facts :
  (snk < nc)%nat /\ inSC s snk /\ r4c st snk = -1
  /\ spc_at s snk = Fin lq /\ inSR s m.
Proof. exact (si_front _ _ _ _ _ HSk). Qed.

Lemma SR_dec (i : nat) : {inSR s i} + {~ inSR s i}.
Proof.
  unfold inSR. destruct (nth i (s_SR s) false); [left|right]; congruence.
Qed.

Lemma SC_dec (j : nat) : {inSC s j} + {~ inSC s j}.
Proof.
  unfold inSC. destruct (nth j (s_SC s) false); [left|right]; congruence.
Qed.

Lemma update_u_val (i : nat) :
  (i < nr)%nat ->
  exists x, nth i u' NaN = Fin x
            /\ (inSR s i -> (x == uq st i + lq - dq s i)%Q)
            /\ (~ inSR s i -> x = uq st i).
Proof.
  intros Hi. subst u'.
  destruct (update_u_spec nr m (Fin lq) (s_spc s) (l_col4row st)
                          (s_SR s) (l_u st)) as [_ Hn].
  rewrite Hn, (inv_len_u _ _ HInv).
  replace (i <? nr)%nat with true by (symmetry; apply Nat.ltb_lt; lia).
  rewrite andb_true_r, u_fin by auto.
  destruct (Nat.eqb_spec i m) as [->|Hne].
  - simpl. eexists; split; [reflexivity|]. split.
    + intros _. rewrite dq_root. lra.
    + intros Hn'. exfalso. apply Hn'. apply sink_facts.
  - destruct (SR_dec i) as [HSR|HnSR].
    + unfold inSR in HSR. rewrite HSR.
      destruct (si_SR _ _ _ _ _ HSk i Hi HSR)
        as [->|(Him & j & Hj & Ec & HSC)]; [contradiction|].
      destruct (si_SC_le _ _ _ _ _ HSk j Hj HSC) as (q & Eq & _).
      change (nth i (l_col4row st) 0) with (c4r st i).
      rewrite Ec, zth_nat. change (nth j (s_spc s) NaN) with (spc_at s j).
      rewrite Eq. simpl. eexists; split; [reflexivity|]. split.
      * intros _. rewrite (dq_matched s i j) by auto. rewrite Eq.
        simpl. lra.
      * intros Hn'. contradiction.
    + assert (E : nth i (s_SR s) false = false).
      { unfold inSR in HnSR. destruct (nth i (s_SR s) false); congruence. }
      rewrite E. simpl. eexists; split; [reflexivity|]. split; auto.
      intros HSR. contradiction.
Qed.

Lemma update_v_val (j : nat) :
  (j < nc)%nat ->
  exists y, nth j v' NaN = Fin y
            /\ (inSC s j -> (y == vq st j - (lq - qv (spc_at s j)))%Q
                            /\ (qv (spc_at s j) <= lq)%Q)
            /\ (~ inSC s j -> y = vq st j).
Proof.
  intros Hj. subst v'.
  destruct (update_v_spec nc (Fin lq) (s_spc s) (s_SC s) (l_v st))
    as [_ Hn].
  rewrite Hn, (inv_len_v _ _ HInv).
  replace (j <? nc)%nat with true by (symmetry; apply Nat.ltb_lt; lia).
  rewrite andb_true_r, v_fin by auto.
  destruct (SC_dec j) as [HSC|HnSC].
  - unfold inSC in HSC. rewrite HSC.
    destruct (si_SC_le _ _ _ _ _ HSk j Hj HSC) as (q & Eq & Hq).
    change (nth j (s_spc s) NaN) with (spc_at s j). rewrite Eq. simpl.
    eexists; split; [reflexivity|]. split.
    + intros _. split; lra.
    + intros Hn'. contradiction.
  - assert (E : nth j (s_SC s) false = false).
    { unfold inSC in HnSC. destruct (nth j (s_SC s) false); congruence. }
    rewrite E. simpl. eexists; split; [reflexivity|]. split; auto.
    intros HSC. contradiction.
Qed.

Definition uq' (i : nat) : Q := qv (nth i u' NaN).
Definition vq' (j : nat) : Q := qv (nth j v' NaN).

Lemma uq'_SR (i : nat) :
  (i < nr)%nat -> inSR s i -> (uq' i == uq st i + lq - dq s i)%Q.
Proof.
  intros Hi HSR. unfold uq'.
  destruct (update_u_val i Hi) as (x & -> & Hx & _). simpl. auto.
Qed.

Lemma uq'_nSR (i : nat) :
  (i < nr)%nat -> ~ inSR s i -> uq' i = uq st i.
Proof.
  intros Hi HSR. unfold uq'.
  destruct (update_u_val i Hi) as (x & -> & _ & Hx). simpl. auto.
Qed.

Lemma vq'_SC (j : nat) :
  (j < nc)%nat -> inSC s j ->
  (vq' j == vq st j - (lq - qv (spc_at s j)))%Q
  /\ (qv (spc_at s j) <= lq)%Q.
Proof.
  intros Hj HSC. unfold vq'.
  destruct (update_v_val j Hj) as (x & -> & Hx & _). simpl. auto.
Qed.

Lemma vq'_nSC (j : nat) :
  (j < nc)%nat -> ~ inSC s j -> vq' j = vq st j.
Proof.
  intros Hj HSC. unfold vq'.
  destruct (update_v_val j Hj) as (x & -> & _ & Hx). simpl. auto.
Qed.

Lemma SC_nonempty_ge (j : nat) (q : Q) :
  (j < nc)%nat -> ~ inSC s j -> spc_at s j = Fin q -> (lq <= q)%Q.
Proof.
  intros Hj HnSC Eq.
  destruct (si_rem_ge _ _ _ _ _ HSk) as [Hno|Hge].
  - exfalso. apply (Hno snk); apply sink_facts.
  - eapply Hge; eauto.
Qed.

(** Feasibility over the rows [0 .. m]. *)
Lemma updated_le (i j : nat) (c : Q) :
  (i < S m)%nat -> (i < nr)%nat -> (j < nc)%nat -> view i j = Fin c ->
  (uq' i + vq' j <= c)%Q.
Proof.
  intros Him Hi Hj Ev.
  destruct (SR_dec i) as [HSR|HnSR].
  - rewrite (uq'_SR i Hi HSR).
    destruct (si_bound _ _ _ _ _ HSk i j c Hi Hj HSR Ev) as (q & Eq & Hq).
    destruct (SC_dec j) as [HSC|HnSC].
    + destruct (vq'_SC j Hj HSC) as [-> _]. rewrite Eq. simpl. lra.
    + rewrite (vq'_nSC j Hj HnSC).
      pose proof (SC_nonempty_ge j q Hj HnSC Eq). lra.
  - rewrite (uq'_nSR i Hi HnSR).
    assert (Hlt : (i < m)%nat).
    { destruct (Nat.eq_dec i m) as [->|]; [|lia].
      exfalso. apply HnSR. apply sink_facts. }
    pose proof (df_le _ _ (inv_dual _ _ HInv) i j c Hlt Hi Hj Ev) as Hle.
    destruct (SC_dec j) as [HSC|HnSC].
    + destruct (vq'_SC j Hj HSC) as [-> Hq]. lra.
    + rewrite (vq'_nSC j Hj HnSC). exact Hle.
Qed.

(** Equality on the pairs matched before the augmentation. *)
Lemma updated_tight_old (i j : nat) :
  (i < nr)%nat -> (j < nc)%nat -> c4r st i = Z.of_nat j ->
  exists c, view i j = Fin c /\ (uq' i + vq' j == c)%Q.
Proof.
  intros Hi Hj Ec.
  destruct (df_tight _ _ (inv_dual _ _ HInv) i j Hi Hj Ec)
    as (c & Ev & Hc).
  exists c. split; [exact Ev|].
  assert (Him : (i < m)%nat).
  { destruct (Nat.lt_ge_cases i m) as [|Hge]; auto.
    pose proof (mt_rest _ _ (inv_matching _ _ HInv) i Hge Hi). lia. }
  destruct (mt_rows _ _ (inv_matching _ _ HInv) i Him Hi)
    as (j0 & _ & Ec0 & Er0).
  assert (j0 = j) by lia. subst j0.
  destruct (SR_dec i) as [HSR|HnSR].
  - rewrite (uq'_SR i Hi HSR).
    destruct (si_SR _ _ _ _ _ HSk i Hi HSR)
      as [->|(_ & j1 & Hj1 & Ec1 & HSC)]; [lia|].
    assert (j1 = j) by lia. subst j1.
    destruct (vq'_SC j Hj HSC) as [-> _].
    rewrite (dq_matched s i j) by (auto; lia). lra.
  - rewrite (uq'_nSR i Hi HnSR).
    assert (HnSC : ~ inSC s j).
    { intros HSC.
      destruct (si_SC _ _ _ _ _ HSk j Hj HSC)
        as [[_ E]|(i0 & _ & _ & E & [HSR|D])];
        [lia| |discriminate].
      assert (i0 = i) by lia. subst i0. contradiction. }
    rewrite (vq'_nSC j Hj HnSC). exact Hc.
Qed.

(** Equality on the edges of the shortest-path tree. *)
Lemma updated_tight_path (i j : nat) :
  (i < nr)%nat -> (j < nc)%nat -> inSC s j ->
  path_at s j = Z.of_nat i ->
  exists c, view i j = Fin c /\ (uq' i + vq' j == c)%Q.
Proof.
  intros Hi Hj HSC Ep.
  destruct (si_SC_le _ _ _ _ _ HSk j Hj HSC) as (q & Eq & _).
  destruct (si_path _ _ _ _ _ HSk j q Hj Eq)
    as (i0 & c & Hi0 & Ep0 & HSR & Ev & Hq).
  assert (i0 = i) by lia. subst i0.
  exists c. split; [exact Ev|].
  rewrite (uq'_SR i Hi HSR).
  destruct (vq'_SC j Hj HSC) as [-> _]. rewrite Eq. simpl. lra.
Qed.

Lemma updated_v_nonpos (j : nat) : (j < nc)%nat -> (vq' j <= 0)%Q.
Proof.
  intros Hj. pose proof (inv_v_nonpos _ _ HInv j Hj) as Hle.
  destruct (SC_dec j) as [HSC|HnSC].
  - destruct (vq'_SC j Hj HSC) as [-> Hq]. lra.
  - rewrite (vq'_nSC j Hj HnSC). exact Hle.
Qed.

Lemma updated_v_free (j : nat) :
  (j < nc)%nat -> r4c st j = -1 -> j <> snk -> (vq' j == 0)%Q.
Proof.
  intros Hj Er Hne.
  assert (HnSC : ~ inSC s j).
  { intros HSC.
    destruct (si_SC _ _ _ _ _ HSk j Hj HSC)
      as [[E _]|(i0 & _ & _ & E & _)]; [congruence|lia]. }
  rewrite (vq'_nSC j Hj HnSC). apply (inv_v_free _ _ HInv); auto.
Qed.

(** The augmentation at the head of its loop, about to rewire
    column [jn]: the matching is intact except that no row points
    to [jn]. *)
Record AInv (jn : nat) (r c : list Z) : Prop := {
  ai_len_r : length r = nc;
  ai_len_c : length c = nr;
  ai_jn : (jn < nc)%nat /\ inSC s jn;
  ai_rows : forall i, (i < m)%nat -> (i < nr)%nat ->
      exists j, (j < nc)%nat /\ nth i c 0 = Z.of_nat j
                /\ nth j r 0 = Z.of_nat i;
  ai_rest : forall i, (m <= i)%nat -> (i < nr)%nat -> nth i c 0 = -1;
  ai_cols : forall j, (j < nc)%nat -> j <> jn ->
      nth j r 0 = -1
      \/ exists i, (i < m)%nat /\ (i < nr)%nat
                   /\ nth j r 0 = Z.of_nat i /\ nth i c 0 = Z.of_nat j;
  ai_free : forall i, (i < nr)%nat -> nth i c 0 <> Z.of_nat jn;
  ai_prov : forall i, (i < nr)%nat ->
      nth i c 0 = c4r st i
      \/ exists j, (j < nc)%nat /\ nth i c 0 = Z.of_nat j /\ inSC s j
                   /\ path_at s j = Z.of_nat i;
  ai_untouched : forall i, (i < nr)%nat -> nth i c 0 <> c4r st i ->
      exists j, (j < nc)%nat /\ c4r st i = Z.of_nat j
                /\ (rk jn <= rk j)%nat;
  ai_unmatched : forall j, (j < nc)%nat -> nth j r 0 = -1 ->
      r4c st j = -1;
  ai_sink : jn = snk \/ nth snk r 0 <> -1
}.

(** The matching when the augmentation has left its loop. *)
Record AFinal (r c : list Z) : Prop := {
  af_len_r : length r = nc;
  af_len_c : length c = nr;
  af_rows : forall i, (i < S m)%nat -> (i < nr)%nat ->
      exists j, (j < nc)%nat /\ nth i c 0 = Z.of_nat j
                /\ nth j r 0 = Z.of_nat i;
  af_rest : forall i, (S m <= i)%nat -> (i < nr)%nat -> nth i c 0 = -1;
  af_cols : forall j, (j < nc)%nat ->
      nth j r 0 = -1
      \/ exists i, (i < S m)%nat /\ (i < nr)%nat
                   /\ nth j r 0 = Z.of_nat i /\ nth i c 0 = Z.of_nat j;
  af_prov : forall i, (i < nr)%nat ->
      nth i c 0 = c4r st i
      \/ exists j, (j < nc)%nat /\ nth i c 0 = Z.of_nat j /\ inSC s j
                   /\ path_at s j = Z.of_nat i;
  af_unmatched : forall j, (j < nc)%nat -> nth j r 0 = -1 ->
      r4c st j = -1 /\ j <> snk
}.

Lemma AInv_init : AInv snk (l_row4col st) (l_col4row st).
Proof.
  destruct sink_facts as (Hsnk & HSC & Er & _).
  pose proof (inv_matching _ _ HInv) as HM.
  constructor.
  - apply (mt_len_r4c _ _ HM).
  - apply (mt_len_c4r _ _ HM).
  - split; auto.
  - apply (mt_rows _ _ HM).
  - apply (mt_rest _ _ HM).
  - intros j Hj _. apply (mt_cols _ _ HM); auto.
  - intros i Hi E.
    destruct (Nat.lt_ge_cases i m) as [Hlt|Hge].
    + destruct (mt_rows _ _ HM i Hlt Hi) as (j & _ & Ec & Erj).
      unfold c4r in Ec. assert (j = snk) by lia. subst j.
      unfold r4c in *. lia.
    + pose proof (mt_rest _ _ HM i Hge Hi) as E'. unfold c4r in E'. lia.
  - intros i Hi. left. reflexivity.
  - intros i Hi Hne. exfalso. apply Hne. reflexivity.
  - intros j Hj E. exact E.
  - left. reflexivity.
Qed.

Lemma augment_sound (fuel : nat) :
  forall jn r c,
    AInv jn r c -> (rk jn < fuel)%nat ->
    exists r'' c'',
      augment fuel (Z.of_nat m) (s_path s) (Z.of_nat jn) r c
      = Some (r'', c'')
      /\ AFinal r'' c''.
Proof.
  induction fuel as [|fuel IH]; intros jn r c HA Hfuel; [lia|].
  destruct (ai_jn _ _ _ HA) as [Hjn HSCjn].
  pose proof (ai_len_r _ _ _ HA) as Hlr.
  pose proof (ai_len_c _ _ _ HA) as Hlc.
  destruct (si_SC_le _ _ _ _ _ HSk jn Hjn HSCjn) as (q & Eq & _).
  destruct (si_path _ _ _ _ _ HSk jn q Hjn Eq)
    as (i & cv & Hi & Ep & HSR & _).
  cbn [augment]. rewrite zth_nat.
  change (nth jn (s_path s) 0) with (path_at s jn).
  rewrite Ep, zth_nat, !zset_nat.
  set (r2 := upd jn (Z.of_nat i) r).
  set (c2 := upd i (Z.of_nat jn) c).
  assert (Hr2jn : nth jn r2 0 = Z.of_nat i)
    by (subst r2; apply nth_upd_eq; lia).
  assert (Hr2 : forall j, j <> jn -> nth j r2 0 = nth j r 0)
    by (intros j Hne; subst r2; apply nth_upd_neq; auto).
  assert (Hc2i : nth i c2 0 = Z.of_nat jn)
    by (subst c2; apply nth_upd_eq; lia).
  assert (Hc2 : forall i', i' <> i -> nth i' c2 0 = nth i' c 0)
    by (intros i' Hne; subst c2; apply nth_upd_neq; auto).
  assert (Hprov2 : forall i', (i' < nr)%nat ->
            nth i' c2 0 = c4r st i'
            \/ exists j, (j < nc)%nat /\ nth i' c2 0 = Z.of_nat j
                         /\ inSC s j /\ path_at s j = Z.of_nat i').
  { intros i' Hi'. destruct (Nat.eq_dec i' i) as [->|Hne].
    - right. exists jn. repeat split; auto.
    - rewrite Hc2 by auto. apply (ai_prov _ _ _ HA); auto. }
  assert (Hrows2 : forall i', (i' < m)%nat -> (i' < nr)%nat -> i' <> i ->
            exists j, (j < nc)%nat /\ nth i' c2 0 = Z.of_nat j
                      /\ nth j r2 0 = Z.of_nat i').
  { intros i' Him' Hi' Hne.
    destruct (ai_rows _ _ _ HA i' Him' Hi') as (j & Hj & Ec & Er).
    exists j. rewrite Hc2 by auto. repeat split; auto.
    rewrite Hr2; auto. intros ->.
    apply (ai_free _ _ _ HA i' Hi'). exact Ec. }
  assert (Hunm2 : forall j, (j < nc)%nat -> nth j r2 0 = -1 ->
                            j <> jn /\ r4c st j = -1).
  { intros j Hj E. destruct (Nat.eq_dec j jn) as [->|Hne].
    - rewrite Hr2jn in E. lia.
    - split; auto. rewrite Hr2 in E by auto.
      apply (ai_unmatched _ _ _ HA); auto. }
  assert (Hsnk2 : nth snk r2 0 <> -1).
  { destruct (Nat.eq_dec snk jn) as [->|Hne].
    - rewrite Hr2jn. lia.
    - rewrite Hr2 by auto.
      destruct (ai_sink _ _ _ HA) as [E|E]; [congruence|exact E]. }
  destruct (Z.eqb_spec (Z.of_nat i) (Z.of_nat m)) as [Eim|Hnim].
  - (* the path has reached [curRow] *)
    assert (i = m) by lia. subst i. clear Eim.
    exists r2, c2. split; [reflexivity|].
    constructor.
    + subst r2. now rewrite upd_length.
    + subst c2. now rewrite upd_length.
    + intros i' Him' Hi'. destruct (Nat.eq_dec i' m) as [->|Hne].
      * exists jn. repeat split; auto.
      * apply Hrows2; auto. lia.
    + intros i' Hge Hi'. rewrite Hc2 by lia.
      apply (ai_rest _ _ _ HA); auto. lia.
    + intros j Hj. destruct (Nat.eq_dec j jn) as [->|Hne].
      * right. exists m. repeat split; auto.
      * rewrite Hr2 by auto.
        destruct (ai_cols _ _ _ HA j Hj Hne)
          as [E|(i' & Him' & Hi' & Er & Ec)]; [left; exact E|].
        right. exists i'. repeat split; auto.
        rewrite Hc2 by lia. exact Ec.
    + exact Hprov2.
    + intros j Hj E. destruct (Hunm2 j Hj E) as [Hne Er].
      split; auto. intros ->. contradiction.
  - (* one more edge *)
    assert (Hne : i <> m) by lia.
    destruct (si_rank_dec _ _ _ _ _ HSk jn i Hjn HSCjn Ep Hne)
      as (j' & Hj' & Ec & HSC' & Hrk).
    assert (Eci : nth i c 0 = Z.of_nat j').
    { destruct (Z.eq_dec (nth i c 0) (c4r st i)) as [E|E];
        [congruence|].
      destruct (ai_untouched _ _ _ HA i Hi E) as (j0 & _ & Ec0 & Hle).
      assert (j0 = j') by lia. subst j0. lia. }
    assert (Him : (i < m)%nat).
    { destruct (Nat.lt_ge_cases i m) as [|Hge]; auto.
      pose proof (ai_rest _ _ _ HA i Hge Hi). lia. }
    assert (Hjj' : jn <> j').
    { intros <-. apply (ai_free _ _ _ HA i Hi). exact Eci. }
    rewrite Eci.
    apply IH; [|lia].
    constructor.
    + subst r2. now rewrite upd_length.
    + subst c2. now rewrite upd_length.
    + split; auto.
    + intros i' Him' Hi'. destruct (Nat.eq_dec i' i) as [->|Hne'].
      * exists jn. repeat split; auto.
      * apply Hrows2; auto.
    + intros i' Hge Hi'. rewrite Hc2 by lia.
      apply (ai_rest _ _ _ HA); auto.
    + intros j Hj Hnej. destruct (Nat.eq_dec j jn) as [->|Hnejn].
      * right. exists i. repeat split; auto.
      * rewrite Hr2 by auto.
        destruct (ai_cols _ _ _ HA j Hj Hnejn)
          as [E|(i' & Him' & Hi' & Er & Ec')]; [left; exact E|].
        right. exists i'. repeat split; auto.
        rewrite Hc2; auto. intros ->. lia.
    + intros i' Hi' E. destruct (Nat.eq_dec i' i) as [->|Hne'].
      * rewrite Hc2i in E. lia.
      * rewrite Hc2 in E by auto.
        assert (Him' : (i' < m)%nat).
        { destruct (Nat.lt_ge_cases i' m) as [|Hge]; auto.
          pose proof (ai_rest _ _ _ HA i' Hge Hi'). lia. }
        destruct (ai_rows _ _ _ HA i' Him' Hi') as (j1 & _ & E1 & R1).
        destruct (ai_rows _ _ _ HA i Him Hi) as (j2 & _ & E2 & R2).
        assert (j1 = j') by lia. assert (j2 = j') by lia.
        subst j1 j2. lia.
    + exact Hprov2.
    + intros i' Hi' E. destruct (Nat.eq_dec i' i) as [->|Hne'].
      * exists j'. repeat split; auto.
      * rewrite Hc2 in E by auto.
        destruct (ai_untouched _ _ _ HA i' Hi' E) as (j0 & Hj0 & E0 & Hle).
        exists j0. repeat split; auto. lia.
    + intros j Hj E. apply (Hunm2 j Hj E).
    + right. exact Hsnk2.
Qed.
End AfterSearch.

(** The state of [solve] between the dual update and the augmentation
    of iteration [m]. *)
Definition after_update (minVal : double) (s : search) : lsap :=
  Lsap (update_u nr m minVal (s_spc s) (l_col4row st) (s_SR s) (l_u st))
       (update_v nc minVal (s_spc s) (s_SC s) (l_v st))
       (s_spc s) (s_path s) (l_col4row st) (l_row4col st)
       (s_SR s) (s_SC s) (s_remaining s).

Lemma after_update_feasible num lq s snk rk :
  SInv num lq s (Sink snk) rk ->
  dual_feasible (S m) (after_update (Fin lq) s).
Proof.
  intros HSk. constructor.
  - intros i Hi. simpl.
    destruct (update_u_val num lq s snk rk HSk i Hi) as (x & -> & _).
    now exists x.
  - intros j Hj. simpl.
    destruct (update_v_val num lq s snk rk HSk j Hj) as (x & -> & _).
    now exists x.
  - intros i j c Him Hi Hj Ev.
    apply (updated_le num lq s snk rk HSk i j c); auto.
  - intros i j Hi Hj Ec.
    apply (updated_tight_old num lq s snk rk HSk i j); auto.
Qed.

(** One iteration of the main loop: it fails as infeasible, or it
    re-establishes the invariant for one more row. *)
Lemma solve_row_sound :
  exists sink mv s,
    augmenting_path cost (l_u st) (l_v st) (l_row4col st) nc
                    (l_path st) (l_spc st) (Z.of_nat m)
                    (l_SR st) (l_SC st) (l_remaining st)
    = Some (sink, mv, s)
    /\ ((sink = -1
         /\ solve_row cost nr nc st m = Fail RECTANGULAR_LSAP_INFEASIBLE)
        \/ (0 <= sink
            /\ dual_feasible (S m) (after_update mv s)
            /\ exists st', solve_row cost nr nc st m = Ok st'
                           /\ Inv (S m) st')).
Proof.
  unfold solve_row.
  destruct augmenting_path_sound
    as (sink & mv' & s & -> & [->|(jn & lq & num & rk & -> & -> & HSk)]).
  - exists (-1), mv', s. split; [reflexivity|]. left. split; reflexivity.
  - exists (Z.of_nat jn), (Fin lq), s. split; [reflexivity|]. right.
    replace (Z.of_nat jn <? 0) with false
      by (symmetry; apply Z.ltb_ge; lia).
    destruct (si_front _ _ _ _ _ HSk) as (Hjn & HSCjn & _).
    pose proof (si_rank _ _ _ _ _ HSk jn Hjn HSCjn) as Hrk.
    destruct (augment_sound num lq s jn rk HSk (S nc) jn
                            (l_row4col st) (l_col4row st)
                            (AInv_init num lq s jn rk HSk)
                            ltac:(lia))
      as (r'' & c'' & -> & HF).
    split; [lia|].
    split; [apply (after_update_feasible num lq s jn rk HSk)|].
    eexists. split; [reflexivity|].
    destruct (update_u_spec nr m (Fin lq) (s_spc s) (l_col4row st)
                            (s_SR s) (l_u st)) as [Hlu _].
    destruct (update_v_spec nc (Fin lq) (s_spc s) (s_SC s) (l_v st))
      as [Hlv _].
    constructor; simpl.
    + rewrite Hlu. apply (inv_len_u _ _ HInv).
    + rewrite Hlv. apply (inv_len_v _ _ HInv).
    + apply (si_len_path _ _ _ _ _ HSk).
    + apply (si_len_spc _ _ _ _ _ HSk).
    + apply (si_len_SR _ _ _ _ _ HSk).
    + apply (si_len_SC _ _ _ _ _ HSk).
    + apply (si_len_rem _ _ _ _ _ HSk).
    + constructor; unfold c4r, r4c; simpl.
      * apply (af_len_c _ _ _ _ HF).
      * apply (af_len_r _ _ _ _ HF).
      * apply (af_rows _ _ _ _ HF).
      * apply (af_rest _ _ _ _ HF).
      * apply (af_cols _ _ _ _ HF).
    + constructor; unfold c4r, uq, vq; simpl.
      * intros i Hi.
        destruct (update_u_val num lq s jn rk HSk i Hi) as (x & -> & _).
        now exists x.
      * intros j Hj.
        destruct (update_v_val num lq s jn rk HSk j Hj) as (x & -> & _).
        now exists x.
      * intros i j c Him Hi Hj Ev.
        apply (updated_le num lq s jn rk HSk i j c); auto.
      * intros i j Hi Hj Ec.
        destruct (af_prov _ _ _ _ HF i Hi)
          as [E|(j0 & Hj0 & E & HSC0 & Ep)].
        -- apply (updated_tight_old num lq s jn rk HSk i j); auto.
           congruence.
        -- assert (j0 = j) by lia. subst j0.
           apply (updated_tight_path num lq s jn rk HSk i j); auto.
    + intros j Hj. apply (updated_v_nonpos num lq s jn rk HSk j Hj).
    + intros j Hj Er. unfold r4c in Er. simpl in Er.
      destruct (af_unmatched _ _ _ _ HF j Hj Er) as [Er0 Hne].
      apply (updated_v_free num lq s jn rk HSk j Hj Er0 Hne).
Qed.

End SearchInvariant.

(** *** The main loop *)

Lemma solve_rows_sound (k : nat) :
  forall m st,
    Inv m st -> (m + k <= nr)%nat ->
    solve_rows cost nr nc (seq m k) st = Fail RECTANGULAR_LSAP_INFEASIBLE
    \/ exists st', solve_rows cost nr nc (seq m k) st = Ok st'
                   /\ Inv (m + k) st'.
Proof.
  induction k as [|k IH]; intros m st HInv Hk.
  - right. exists st. split; [reflexivity|]. now rewrite Nat.add_0_r.
  - cbn [seq solve_rows].
    destruct (solve_row_sound m st HInv ltac:(lia))
      as (sink & mv & s & _ & [[_ ->]|(_ & _ & st' & -> & HInv')]).
    + left. reflexivity.
    + simpl. replace (m + S k)%nat with (S m + k)%nat by lia.
      apply IH; auto. lia.
Qed.

Lemma solve_rows_prefix_Inv (k : nat) (st : lsap) :
  (k <= nr)%nat ->
  solve_rows cost nr nc (seq 0 k) (lsap_init nr nc) = Ok st -> Inv k st.
Proof.
  intros Hk E.
  destruct (solve_rows_sound k 0 (lsap_init nr nc) Inv_init ltac:(lia))
    as [E'|(st' & E' & HInv)]; rewrite E' in E; [discriminate|].
  inversion E; subst. exact HInv.
Qed.

(** A main loop that fails does so in a search without sink, entered with
    the invariant. *)
Lemma solve_rows_fail_at (k : nat) :
  forall m st,
    Inv m st -> (m + k <= nr)%nat ->
    solve_rows cost nr nc (seq m k) st = Fail RECTANGULAR_LSAP_INFEASIBLE ->
    exists m' st' mv s',
      (m <= m' < m + k)%nat /\ Inv m' st'
      /\ augmenting_path cost (l_u st') (l_v st') (l_row4col st') nc
                          (l_path st') (l_spc st') (Z.of_nat m')
                          (l_SR st') (l_SC st') (l_remaining st')
         = Some (-1, mv, s').
Proof.
  induction k as [|k IH]; intros m st HInv Hk; [discriminate|].
  cbn [seq solve_rows].
  destruct (solve_row_sound m st HInv ltac:(lia))
    as (sink & mv & s & Epath & [[-> _]|(_ & _ & st' & -> & HInv')]).
  - intros _. exists m, st, mv, s. split; [lia|]. split; auto.
  - simpl. intros Hfail.
    destruct (IH (S m) st' HInv' ltac:(lia) Hfail)
      as (m' & st'' & mv' & s' & Hm' & HI & E).
    exists m', st'', mv', s'. split; [lia|]. split; auto.
Qed.

(** When the main loop returns [RECTANGULAR_LSAP_INFEASIBLE], no
    assignment of all the rows to distinct columns has finite entries
    only. *)
Lemma solve_rows_infeasible_cover (ps : list (nat * nat)) :
  solve_rows cost nr nc (seq 0 nr) (lsap_init nr nc)
  = Fail RECTANGULAR_LSAP_INFEASIBLE ->
  NoDup (map fst ps) -> NoDup (map snd ps) ->
  (forall i, (i < nr)%nat -> In i (map fst ps)) ->
  (forall p, In p ps -> (fst p < nr)%nat /\ (snd p < nc)%nat) ->
  (forall p, In p ps -> finite (view (fst p) (snd p))) ->
  False.
Proof.
  intros Hfail Hnd1 Hnd2 Hcover Hrange Hfin.
  destruct (solve_rows_fail_at nr 0 (lsap_init nr nc) Inv_init
                               ltac:(lia) Hfail)
    as (m & st & mv & s & Hm & HInv & Epath).
  pose proof (augmenting_path_blocked m st HInv ltac:(lia) mv s Epath) as HB.
  apply (blocked_no_finite_cover m st HInv ltac:(lia) s ps HB); auto.
  intros i Hi. apply Hcover. lia.
Qed.
End Hungarian.

(** ** The structure of a run, whatever the arithmetic

    The matching, the sets [SR] and [SC] and the predecessors [path] are
    driven by comparisons only: what follows holds for every rounding of
    the sums and differences, that of the machine included. *)

Lemma dltb_not_inf (x y : double) : (x <? y)%D = true -> x <> PInf.
Proof. intros E ->. destruct y; discriminate. Qed.

Lemma deqb_inf_false (x : double) : (x ==? INFINITY)%D = false -> x <> PInf.
Proof. intros E ->. discriminate. Qed.

(** A distance below [+inf]: finite or [-inf]. *)
Definition below_inf (x : double) : Prop := (x <? PInf)%D = true.

Lemma dltb_below (x y : double) : (x <? y)%D = true -> below_inf x.
Proof.
  unfold below_inf. destruct x, y; simpl; intros E; try discriminate E;
    reflexivity.
Qed.

Lemma finite_below (x : double) : finite x -> below_inf x.
Proof. intros [q ->]. reflexivity. Qed.

Lemma relaxed_below {A : Arith} {T : Type} `{Elem T} (cost : matrix2d T)
      (u v : list double) (i : Z) (mv : double) (spc : list double) (j : Z) :
  below_inf (zth spc j NaN) -> below_inf (relaxed cost u v i mv spc j).
Proof.
  intros Hb. unfold relaxed.
  destruct (_ <? _)%D eqn:E; [eapply dltb_below; eauto | exact Hb].
Qed.

Section Structure.
Context {A : Arith} {T : Type} `{Elem T}.
Variable cost : matrix2d T.
Variables nr nc : nat.

(** The lengths of the vectors of [solve]. *)
Record shaped (st : lsap) : Prop := {
  sh_len_u : length (l_u st) = nr;
  sh_len_v : length (l_v st) = nc;
  sh_len_path : length (l_path st) = nc;
  sh_len_spc : length (l_spc st) = nc;
  sh_len_SR : length (l_SR st) = nr;
  sh_len_SC : length (l_SC st) = nc;
  sh_len_rem : length (l_remaining st) = nc
}.

Lemma shaped_init : shaped (lsap_init nr nc).
Proof. unfold lsap_init. constructor; simpl; apply repeat_length. Qed.

Lemma matching_init : matching nr nc 0 (lsap_init nr nc).
Proof.
  unfold lsap_init.
  constructor; unfold c4r, r4c; simpl; try apply repeat_length.
  - intros; lia.
  - intros i _ Hi. now apply nth_repeat_any.
  - intros j Hj. left. now apply nth_repeat_any.
Qed.

Section Search.
Variable m : nat.
Variable st : lsap.
Hypothesis Hshape : shaped st.
Hypothesis HM : matching nr nc m st.
Hypothesis Hm : (m < nr)%nat.

(** The part of the invariant of the search that does not speak of
    costs: [remaining] lists the columns outside [SC], the rows of [SR]
    are the root and the rows matched to [SC], every column whose distance
    is not [+inf] has its predecessor in [SR], and the columns of [SC]
    are ranked in the order in which they were selected. *)
Record TInv (num : nat) (s : search) (fr : front) (rk : nat -> nat)
  : Prop := {
  ti_len_path : length (s_path s) = nc;
  ti_len_spc : length (s_spc s) = nc;
  ti_len_SR : length (s_SR s) = nr;
  ti_len_SC : length (s_SC s) = nc;
  ti_len_rem : length (s_remaining s) = nc;
  ti_num : (num <= nc)%nat;
  ti_rem_range : forall p, (p < num)%nat ->
      0 <= rem_at s p < Z.of_nat nc;
  ti_rem_inj : forall p p', (p < num)%nat -> (p' < num)%nat ->
      rem_at s p = rem_at s p' -> p = p';
  ti_rem_notSC : forall p j, (p < num)%nat ->
      rem_at s p = Z.of_nat j -> ~ inSC s j;
  ti_rem_all : forall j, (j < nc)%nat -> ~ inSC s j ->
      exists p, (p < num)%nat /\ rem_at s p = Z.of_nat j;
  ti_SR : forall i, (i < nr)%nat -> inSR s i ->
      i = m
      \/ ((i < m)%nat
          /\ exists j, (j < nc)%nat /\ c4r st i = Z.of_nat j /\ inSC s j);
  ti_SC : forall j, (j < nc)%nat -> inSC s j ->
      (fr = Sink j /\ r4c st j = -1)
      \/ exists i, (i < m)%nat /\ (i < nr)%nat /\ r4c st j = Z.of_nat i
                   /\ (inSR s i \/ fr = Pending i);
  ti_SC_reached : forall j, (j < nc)%nat -> inSC s j -> spc_at s j <> PInf;
  ti_path : forall j, (j < nc)%nat -> spc_at s j <> PInf ->
      exists i, (i < nr)%nat /\ path_at s j = Z.of_nat i /\ inSR s i;
  ti_rank : forall j, (j < nc)%nat -> inSC s j -> (rk j < nc - num)%nat;
  ti_rank_dec : forall j i, (j < nc)%nat -> inSC s j ->
      path_at s j = Z.of_nat i -> i <> m ->
      exists j', (j' < nc)%nat /\ c4r st i = Z.of_nat j' /\ inSC s j'
                 /\ (rk j' < rk j)%nat;
  ti_front :
    match fr with
    | Pending i =>
      (i < nr)%nat /\ ~ inSR s i
      /\ ((i = m
           /\ (forall i', (i' < nr)%nat -> ~ inSR s i')
           /\ (forall j, (j < nc)%nat -> ~ inSC s j))
          \/ ((i < m)%nat /\ inSR s m
              /\ exists j, (j < nc)%nat /\ c4r st i = Z.of_nat j
                           /\ inSC s j))
    | Scanned => inSR s m
    | Sink j =>
      (j < nc)%nat /\ inSC s j /\ r4c st j = -1 /\ inSR s m
    end
}.

Lemma TInv_init : TInv nc (search_init nc st) (Pending m) (fun _ => O).
Proof.
  pose proof (sh_len_spc _ Hshape) as Hls.
  pose proof (sh_len_SR _ Hshape) as HlR.
  pose proof (sh_len_SC _ Hshape) as HlC.
  pose proof (sh_len_rem _ Hshape) as Hlr.
  assert (HnoSR : forall i, (i < nr)%nat -> ~ inSR (search_init nc st) i).
  { intros i Hi. unfold inSR; simpl.
    rewrite nth_map_const by lia. discriminate. }
  assert (HnoSC : forall j, (j < nc)%nat -> ~ inSC (search_init nc st) j).
  { intros j Hj. unfold inSC; simpl.
    rewrite nth_map_const by lia. discriminate. }
  assert (Hinf : forall j, (j < nc)%nat ->
                           spc_at (search_init nc st) j = PInf).
  { intros j Hj. unfold spc_at; simpl. now rewrite nth_map_const by lia. }
  assert (Hrem : forall p, (p < nc)%nat ->
             rem_at (search_init nc st) p = Z.of_nat nc - Z.of_nat p - 1).
  { intros p Hp. unfold rem_at; simpl.
    apply remaining_init_nth; auto. }
  constructor.
  - apply (sh_len_path _ Hshape).
  - simpl. now rewrite length_map.
  - simpl. now rewrite length_map.
  - simpl. now rewrite length_map.
  - simpl. now rewrite remaining_init_length.
  - lia.
  - intros p Hp. rewrite Hrem by auto. lia.
  - intros p p' Hp Hp'. rewrite !Hrem by auto. lia.
  - intros p j Hp E. apply HnoSC. rewrite Hrem in E by auto. lia.
  - intros j Hj _. exists (nc - 1 - j)%nat. split; [lia|].
    rewrite Hrem by lia. lia.
  - intros i Hi HSR. exfalso. eapply HnoSR; eauto.
  - intros j Hj HSC. exfalso. eapply HnoSC; eauto.
  - intros j Hj HSC. exfalso. eapply HnoSC; eauto.
  - intros j Hj E. exfalso. apply E. now apply Hinf.
  - intros j Hj HSC. exfalso. eapply HnoSC; eauto.
  - intros j i Hj HSC. exfalso. eapply HnoSC; eauto.
  - split; [exact Hm|]. split; [apply HnoSR; exact Hm|].
    left. split; [reflexivity|]. split; [exact HnoSR | exact HnoSC].
Qed.

(** One scan: the row is added to [SR], the columns it improves get it
    as predecessor, and a position is selected unless every remaining
    column is at [+inf]. *)
Lemma scan_structure (num : nat) (mv : double) (s : search) (i : nat)
      (rk : nat -> nat) :
  TInv num s (Pending i) rk ->
  let sc := scan_loop cost (l_u st) (l_v st) (l_row4col st)
                      (s_remaining s) num (Z.of_nat i) mv
                      (s_path s) (s_spc s) in
  let s1 := Search (sc_path sc) (sc_spc sc)
                   (zset (s_SR s) (Z.of_nat i) true) (s_SC s)
                   (s_remaining s) in
  TInv num s1 Scanned rk
  /\ ((sc_index sc = -1 /\ sc_lowest sc = INFINITY)
      \/ exists p, (p < num)%nat /\ sc_index sc = Z.of_nat p
                   /\ sc_lowest sc = zth (sc_spc sc) (rem_at s p) NaN).
Proof.
  intros HS sc s1.
  destruct (ti_front _ _ _ _ HS) as (Hi & HnSRi & Hfr).
  pose proof (ti_len_path _ _ _ _ HS) as Hlp0.
  pose proof (ti_len_spc _ _ _ _ HS) as Hls0.
  pose proof (ti_len_SR _ _ _ _ HS) as HlR0.
  assert (Hlen : length (s_path s) = length (s_spc s)) by congruence.
  assert (Hrem : forall it, (it < num)%nat ->
             0 <= nth it (s_remaining s) 0 < Z.of_nat (length (s_spc s))).
  { intros it Hit. rewrite Hls0. apply (ti_rem_range _ _ _ _ HS); auto. }
  destruct (scan_upto_spec cost (l_u st) (l_v st) (l_row4col st)
              (s_remaining s) (Z.of_nat i) mv (s_path s) (s_spc s)
              num Hlen Hrem num (Nat.le_refl _))
    as (Hls & Hlp & Hvis & Hunv & Hsel).
  change (scan_upto cost (l_u st) (l_v st) (l_row4col st) (s_remaining s)
                    (Z.of_nat i) mv (s_path s) (s_spc s) num)
    with sc in *.
  assert (Hcol_SC : forall j, (j < nc)%nat -> inSC s j ->
            spc_at s1 j = spc_at s j /\ path_at s1 j = path_at s j).
  { intros j Hj HSC. unfold spc_at, path_at; simpl.
    rewrite <- !zth_nat. apply Hunv; [lia|].
    intros it Hit E.
    apply (ti_rem_notSC _ _ _ _ HS it j Hit E HSC). }
  assert (Hcol_rem : forall j, (j < nc)%nat -> ~ inSC s j ->
            spc_at s1 j
            = relaxed cost (l_u st) (l_v st) (Z.of_nat i) mv
                      (s_spc s) (Z.of_nat j)
            /\ path_at s1 j
               = relaxed_path cost (l_u st) (l_v st) (Z.of_nat i) mv
                              (s_path s) (s_spc s) (Z.of_nat j)).
  { intros j Hj HSC.
    destruct (ti_rem_all _ _ _ _ HS j Hj HSC) as (p & Hp & E).
    unfold spc_at, path_at; simpl. rewrite <- !zth_nat, <- E.
    apply Hvis; auto. }
  (* a column keeps its distance and predecessor, or is improved by [i] *)
  assert (Hcases : forall j, (j < nc)%nat ->
            (spc_at s1 j = spc_at s j /\ path_at s1 j = path_at s j)
            \/ (~ inSC s j /\ spc_at s1 j <> PInf
                /\ path_at s1 j = Z.of_nat i)).
  { intros j Hj.
    destruct (nth j (s_SC s) false) eqn:ESC.
    - left. apply Hcol_SC; auto.
    - assert (HnSC : ~ inSC s j) by (unfold inSC; congruence).
      destruct (Hcol_rem j Hj HnSC) as [E1 E2].
      unfold relaxed in E1. unfold relaxed_path in E2.
      rewrite !zth_nat in E1, E2.
      fold (spc_at s j) in E1, E2. fold (path_at s j) in E2.
      match type of E1 with
      | _ = (if ?c then _ else _) => destruct c eqn:Elt
      end.
      + right. split; [exact HnSC|]. split; [|exact E2].
        rewrite E1. exact (dltb_not_inf _ _ Elt).
      + left. split; [exact E1|]. rewrite E2. apply zth_nat. }
  assert (HSR1 : forall i', (i' < nr)%nat ->
            (inSR s1 i' <-> i' = i \/ inSR s i')).
  { intros i' Hi'. unfold inSR; simpl. rewrite zset_nat.
    destruct (Nat.eq_dec i i') as [->|Hne].
    - rewrite nth_upd_eq by lia. tauto.
    - rewrite nth_upd_neq by auto.
      split; [intros E; right; exact E|].
      intros [E|E]; [congruence|exact E]. }
  split.
  - constructor.
    + simpl. congruence.
    + simpl. congruence.
    + simpl. now rewrite zset_length.
    + apply (ti_len_SC _ _ _ _ HS).
    + apply (ti_len_rem _ _ _ _ HS).
    + apply (ti_num _ _ _ _ HS).
    + apply (ti_rem_range _ _ _ _ HS).
    + apply (ti_rem_inj _ _ _ _ HS).
    + apply (ti_rem_notSC _ _ _ _ HS).
    + apply (ti_rem_all _ _ _ _ HS).
    + (* ti_SR *)
      intros i' Hi' HSR. apply HSR1 in HSR; auto.
      destruct HSR as [->|HSR].
      * destruct Hfr as [(-> & _)|(Him & _ & j & Hj & Ec & HSC)];
          [left; reflexivity|].
        right. split; auto. exists j. repeat split; auto.
      * apply (ti_SR _ _ _ _ HS); auto.
    + (* ti_SC *)
      intros j Hj HSC. change (inSC s j) in HSC.
      destruct (ti_SC _ _ _ _ HS j Hj HSC)
        as [[E _]|(i' & Him & Hi' & Er & Hor)]; [discriminate|].
      right. exists i'. repeat split; auto. left.
      apply HSR1; auto.
      destruct Hor as [HSR|E]; [right; auto|left; congruence].
    + (* ti_SC_reached *)
      intros j Hj HSC. change (inSC s j) in HSC.
      rewrite (proj1 (Hcol_SC j Hj HSC)).
      apply (ti_SC_reached _ _ _ _ HS); auto.
    + (* ti_path *)
      intros j Hj Hfin.
      destruct (Hcases j Hj) as [(E & Ep)|(_ & _ & Ep)].
      * rewrite E in Hfin.
        destruct (ti_path _ _ _ _ HS j Hj Hfin) as (i' & Hi' & Epi & HSR).
        exists i'. rewrite Ep. repeat split; auto. apply HSR1; auto.
      * exists i. repeat split; auto. apply HSR1; auto.
    + apply (ti_rank _ _ _ _ HS).
    + (* ti_rank_dec *)
      intros j i' Hj HSC Ep Hne. change (inSC s j) in HSC.
      rewrite (proj2 (Hcol_SC j Hj HSC)) in Ep.
      apply (ti_rank_dec _ _ _ _ HS j i'); auto.
    + (* ti_front *)
      apply HSR1; auto.
      destruct Hfr as [(-> & _)|(_ & HSRm & _)]; auto.
  - destruct (select_index
                (scan_val cost (l_u st) (l_v st) (s_remaining s)
                          (Z.of_nat i) mv (s_spc s))
                (scan_free (l_row4col st) (s_remaining s)) num)
      as [[E1 E2]|(p & Hp & E1 & E2)];
      rewrite <- Hsel in E1, E2; simpl in E1, E2.
    + left. auto.
    + right. exists p. repeat split; auto.
      unfold rem_at. rewrite (proj1 (Hvis p Hp)). exact E2.
Qed.

(** The selected column leaves [remaining] and enters [SC]: it is the
    sink, or the row it is matched to is scanned next. *)
Lemma select_structure (num : nat) (s1 : search) (rk : nat -> nat)
      (p : nat) :
  TInv num s1 Scanned rk -> (p < num)%nat ->
  zth (s_spc s1) (rem_at s1 p) NaN <> PInf ->
  let s' := Search (s_path s1) (s_spc s1) (s_SR s1)
                   (zset (s_SC s1) (rem_at s1 p) true)
                   (zset (s_remaining s1) (Z.of_nat p)
                         (nth (pred num) (s_remaining s1) 0)) in
  exists jn, (jn < nc)%nat /\ rem_at s1 p = Z.of_nat jn
    /\ let rk' := fun x => if (x =? jn)%nat then (nc - num)%nat
                           else rk x in
       ((r4c st jn = -1 /\ TInv (pred num) s' (Sink jn) rk')
        \/ (exists i', (i' < nr)%nat /\ r4c st jn = Z.of_nat i'
                       /\ TInv (pred num) s' (Pending i') rk')).
Proof.
  intros HS Hp Hreached s'.
  pose proof (ti_rem_range _ _ _ _ HS p Hp) as Hrange.
  pose proof (ti_num _ _ _ _ HS) as Hnum.
  pose proof (ti_len_rem _ _ _ _ HS) as Hlrem.
  pose proof (ti_len_SC _ _ _ _ HS) as HlSC.
  exists (Z.to_nat (rem_at s1 p)).
  set (jn := Z.to_nat (rem_at s1 p)).
  assert (Hjn : (jn < nc)%nat) by (subst jn; lia).
  assert (Ejn : rem_at s1 p = Z.of_nat jn) by (subst jn; lia).
  split; [exact Hjn|]. split; [exact Ejn|].
  intros rk'.
  assert (HnSCjn : ~ inSC s1 jn)
    by (apply (ti_rem_notSC _ _ _ _ HS p jn Hp Ejn)).
  assert (Espc : spc_at s1 jn <> PInf).
  { unfold spc_at. rewrite <- zth_nat, <- Ejn. exact Hreached. }
  assert (HSC' : forall x, (x < nc)%nat ->
                           (inSC s' x <-> x = jn \/ inSC s1 x)).
  { intros x Hx. unfold inSC; simpl. rewrite Ejn, zset_nat.
    destruct (Nat.eq_dec jn x) as [->|Hne].
    - rewrite nth_upd_eq by lia. tauto.
    - rewrite nth_upd_neq by auto.
      split; [intros E; right; exact E|].
      intros [E|E]; [congruence|exact E]. }
  assert (Hrem' : forall q, (q < pred num)%nat ->
            rem_at s' q = if (q =? p)%nat then rem_at s1 (pred num)
                          else rem_at s1 q).
  { intros q Hq. unfold rem_at; simpl. rewrite zset_nat.
    destruct (Nat.eqb_spec q p) as [->|Hne].
    - rewrite nth_upd_eq by lia. reflexivity.
    - rewrite nth_upd_neq by auto. reflexivity. }
  assert (Hrem_src : forall q, (q < pred num)%nat ->
            exists q0, (q0 < num)%nat /\ q0 <> p
                       /\ rem_at s' q = rem_at s1 q0).
  { intros q Hq. rewrite Hrem' by auto.
    destruct (Nat.eqb_spec q p) as [->|Hne].
    - exists (pred num). repeat split; auto; lia.
    - exists q. repeat split; auto; lia. }
  assert (Hcore : forall fr,
    match fr with
    | Pending i =>
      (i < m)%nat /\ (i < nr)%nat /\ r4c st jn = Z.of_nat i
      /\ c4r st i = Z.of_nat jn
    | Scanned => False
    | Sink j => j = jn /\ r4c st jn = -1
    end ->
    TInv (pred num) s' fr rk').
  { intros fr Hfr. constructor.
    - apply (ti_len_path _ _ _ _ HS).
    - apply (ti_len_spc _ _ _ _ HS).
    - apply (ti_len_SR _ _ _ _ HS).
    - simpl. now rewrite zset_length.
    - simpl. now rewrite zset_length.
    - lia.
    - intros q Hq. destruct (Hrem_src q Hq) as (q0 & Hq0 & _ & ->).
      apply (ti_rem_range _ _ _ _ HS); auto.
    - intros q q' Hq Hq'. rewrite !Hrem' by auto. intros E.
      destruct (Nat.eqb_spec q p) as [->|Hne],
               (Nat.eqb_spec q' p) as [->|Hne']; auto;
        apply (ti_rem_inj _ _ _ _ HS) in E; lia.
    - intros q j0 Hq E0 HSC0.
      destruct (Hrem_src q Hq) as (q0 & Hq0 & Hne & E1).
      rewrite E1 in E0.
      assert (Hj0 : (j0 < nc)%nat).
      { pose proof (ti_rem_range _ _ _ _ HS q0 Hq0). lia. }
      apply HSC' in HSC0; auto. destruct HSC0 as [->|HSC0].
      + rewrite <- Ejn in E0.
        apply (ti_rem_inj _ _ _ _ HS) in E0; auto.
      + apply (ti_rem_notSC _ _ _ _ HS q0 j0 Hq0 E0 HSC0).
    - intros j0 Hj0 HnSC.
      assert (Hne : j0 <> jn)
        by (intros ->; apply HnSC; apply HSC'; auto).
      assert (HnSC1 : ~ inSC s1 j0)
        by (intros HSC0; apply HnSC; apply HSC'; auto).
      destruct (ti_rem_all _ _ _ _ HS j0 Hj0 HnSC1) as (q0 & Hq0 & E0).
      assert (Hq0p : q0 <> p) by (intros ->; rewrite Ejn in E0; lia).
      destruct (Nat.eq_dec q0 (pred num)) as [Epn|Hnpn].
      + exists p. split; [lia|]. rewrite Hrem' by lia.
        rewrite Nat.eqb_refl. congruence.
      + exists q0. split; [lia|]. rewrite Hrem' by lia.
        destruct (Nat.eqb_spec q0 p); [contradiction|exact E0].
    - intros i Hi HSR.
      destruct (ti_SR _ _ _ _ HS i Hi HSR)
        as [->|(Him & j0 & Hj0 & Ec & HSC0)]; [left; reflexivity|].
      right. split; auto. exists j0. repeat split; auto.
      apply HSC'; auto.
    - intros x Hx HSCx. apply HSC' in HSCx; auto.
      destruct HSCx as [->|HSCx].
      + destruct fr as [i| |j]; [|contradiction|].
        * destruct Hfr as (Him & Hi & Er & Ec).
          right. exists i. repeat split; auto.
        * destruct Hfr as [-> Er]. left. split; auto.
      + destruct (ti_SC _ _ _ _ HS x Hx HSCx)
          as [[E _]|(i & Him & Hi & Er & [HSR|E])]; try discriminate.
        right. exists i. repeat split; auto.
    - intros x Hx HSCx. apply HSC' in HSCx; auto.
      destruct HSCx as [->|HSCx]; [exact Espc|].
      apply (ti_SC_reached _ _ _ _ HS); auto.
    - apply (ti_path _ _ _ _ HS).
    - intros x Hx HSCx. apply HSC' in HSCx; auto. unfold rk'.
      destruct (Nat.eqb_spec x jn) as [->|Hne]; [lia|].
      destruct HSCx as [->|HSCx]; [congruence|].
      pose proof (ti_rank _ _ _ _ HS x Hx HSCx). lia.
    - intros x i Hx HSCx Ep Hne. apply HSC' in HSCx; auto.
      assert (Hold : forall j', (j' < nc)%nat -> inSC s1 j' ->
                                rk' j' = rk j').
      { intros j' Hj' HSC0. unfold rk'.
        destruct (Nat.eqb_spec j' jn) as [->|]; [contradiction|auto]. }
      destruct HSCx as [->|HSCx].
      + destruct (ti_path _ _ _ _ HS jn Hjn Espc) as (i0 & Hi0 & Ep0 & HSR0).
        change (path_at s' jn) with (path_at s1 jn) in Ep.
        assert (i0 = i) by lia. subst i0.
        destruct (ti_SR _ _ _ _ HS i Hi0 HSR0)
          as [->|(Him & j' & Hj' & Ec & HSC0)]; [contradiction|].
        exists j'. repeat split; auto.
        * apply HSC'; auto.
        * rewrite (Hold j' Hj' HSC0). unfold rk'.
          rewrite Nat.eqb_refl.
          pose proof (ti_rank _ _ _ _ HS j' Hj' HSC0). lia.
      + destruct (ti_rank_dec _ _ _ _ HS x i Hx HSCx Ep Hne)
          as (j' & Hj' & Ec & HSC0 & Hlt).
        exists j'. repeat split; auto.
        * apply HSC'; auto.
        * rewrite (Hold j' Hj' HSC0), (Hold x Hx HSCx). exact Hlt.
    - pose proof (ti_front _ _ _ _ HS) as HSRm. simpl in HSRm.
      destruct fr as [i| |j]; [|contradiction|].
      + destruct Hfr as (Him & Hi & Er & Ec).
        split; [exact Hi|]. split.
        * intros HSR.
          destruct (ti_SR _ _ _ _ HS i Hi HSR)
            as [->|(_ & j0 & Hj0 & Ec0 & HSC0)]; [lia|].
          assert (j0 = jn) by lia. subst j0. contradiction.
        * right. split; [exact Him|]. split; [exact HSRm|].
          exists jn. repeat split; auto. apply HSC'; auto.
      + destruct Hfr as [-> Er].
        repeat split; auto. apply HSC'; auto. }
  destruct (mt_cols _ _ _ _ HM jn Hjn) as [Er|(i & Him & Hi & Er & Ec)].
  - left. split; [exact Er|]. apply Hcore. split; auto.
  - right. exists i. split; [exact Hi|]. split; [exact Er|].
    apply Hcore. repeat split; auto.
Qed.

(** The [while] loop returns within its fuel: [-1], or an unmatched
    column reached from the root, with the distance it was selected at. *)
Lemma search_loop_structure (fuel : nat) :
  forall num mv s i rk,
    TInv num s (Pending i) rk -> (num < fuel)%nat ->
    exists sink mv' s',
      search_loop cost (l_u st) (l_v st) (l_row4col st) fuel num
                  (Z.of_nat i) mv s = Some (sink, mv', s')
      /\ ((sink = -1 /\ mv' = INFINITY)
          \/ exists jn num' rk',
              sink = Z.of_nat jn /\ TInv num' s' (Sink jn) rk'
              /\ mv' = spc_at s' jn /\ mv' <> PInf).
Proof.
  induction fuel as [|fuel IH]; intros num mv s i rk HS Hfuel; [lia|].
  destruct (scan_structure num mv s i rk HS) as (HS1 & Hidx).
  cbn [search_loop].
  set (sc := scan_loop cost (l_u st) (l_v st) (l_row4col st)
                       (s_remaining s) num (Z.of_nat i) mv
                       (s_path s) (s_spc s)) in *.
  set (s1 := Search (sc_path sc) (sc_spc sc)
                    (zset (s_SR s) (Z.of_nat i) true) (s_SC s)
                    (s_remaining s)) in *.
  destruct (sc_lowest sc ==? INFINITY)%D eqn:Einf.
  - eexists _, _, _. split; [reflexivity|]. left. split; [reflexivity|].
    apply deqb_iff in Einf. destruct (sc_lowest sc); simpl in Einf;
      try contradiction. reflexivity.
  - destruct Hidx as [[_ E]|(p & Hp & Eidx & Elow)];
      [rewrite E in Einf; discriminate|].
    pose proof (deqb_inf_false _ Einf) as Hlow.
    assert (Hreached : zth (s_spc s1) (rem_at s1 p) NaN <> PInf).
    { change (zth (sc_spc sc) (rem_at s p) NaN <> PInf).
      rewrite <- Elow. exact Hlow. }
    destruct (select_structure num s1 rk p HS1 Hp Hreached)
      as (jn & Hjn & Ejn & Hsel).
    rewrite Eidx, zth_nat.
    change (nth p (s_remaining s) 0) with (rem_at s1 p).
    rewrite Ejn, zth_nat. change (nth jn (l_row4col st) 0) with (r4c st jn).
    cbv zeta in Hsel. rewrite Ejn in Hsel.
    destruct Hsel as [[Er HS']|(i' & Hi' & Er & HS')].
    + rewrite Er. simpl (-1 =? -1). cbv iota.
      eexists _, _, _. split; [reflexivity|]. right.
      eexists jn, _, _.
      split; [reflexivity|]. split; [exact HS'|].
      split; [|exact Hlow].
      rewrite Elow. change (rem_at s p) with (rem_at s1 p).
      rewrite Ejn, zth_nat. reflexivity.
    + rewrite Er.
      replace (Z.of_nat i' =? -1) with false
        by (symmetry; apply Z.eqb_neq; lia).
      apply (IH _ _ _ _ _ HS'). lia.
Qed.

(** *** A column within reach *)

(** What a scan leaves in [shortestPathCosts] at a column outside [SC],
    and how it compares with [lowest]. *)
Lemma scan_values (num : nat) (mv : double) (s : search) (i : nat)
      (rk : nat -> nat) :
  TInv num s (Pending i) rk ->
  let sc := scan_loop cost (l_u st) (l_v st) (l_row4col st)
                      (s_remaining s) num (Z.of_nat i) mv
                      (s_path s) (s_spc s) in
  forall j, (j < nc)%nat -> ~ inSC s j ->
    zth (sc_spc sc) (Z.of_nat j) NaN
    = relaxed cost (l_u st) (l_v st) (Z.of_nat i) mv (s_spc s) (Z.of_nat j)
    /\ (zth (sc_spc sc) (Z.of_nat j) NaN <? sc_lowest sc)%D = false.
Proof.
  intros HS sc j Hj HSC.
  pose proof (ti_len_path _ _ _ _ HS) as Hlp0.
  pose proof (ti_len_spc _ _ _ _ HS) as Hls0.
  assert (Hlen : length (s_path s) = length (s_spc s)) by congruence.
  assert (Hrem : forall it, (it < num)%nat ->
             0 <= nth it (s_remaining s) 0 < Z.of_nat (length (s_spc s))).
  { intros it Hit. rewrite Hls0. apply (ti_rem_range _ _ _ _ HS); auto. }
  destruct (scan_upto_spec cost (l_u st) (l_v st) (l_row4col st)
              (s_remaining s) (Z.of_nat i) mv (s_path s) (s_spc s)
              num Hlen Hrem num (Nat.le_refl _))
    as (_ & _ & Hvis & _ & Hsel).
  change (scan_upto cost (l_u st) (l_v st) (l_row4col st) (s_remaining s)
                    (Z.of_nat i) mv (s_path s) (s_spc s) num)
    with sc in *.
  destruct (ti_rem_all _ _ _ _ HS j Hj HSC) as (p & Hp & Ep).
  unfold rem_at in Ep.
  destruct (Hvis p Hp) as [Ev _]. rewrite Ep in Ev.
  split; [exact Ev|].
  set (val := scan_val cost (l_u st) (l_v st) (s_remaining s) (Z.of_nat i)
                       mv (s_spc s)) in *.
  set (free := scan_free (l_row4col st) (s_remaining s)) in *.
  assert (Hlow : sc_lowest sc = fst (select_upto val free num))
    by (now rewrite <- Hsel).
  rewrite Hlow, Ev.
  pose proof (select_lowest val free num p Hp) as Hl.
  subst val. unfold scan_val in Hl. rewrite Ep in Hl. exact Hl.
Qed.

(** When an unmatched column outside [SC] is about to receive a distance
    below [+inf], the search ends at a sink. *)
Lemma search_loop_reaches (j1 : nat) :
  (j1 < nc)%nat -> r4c st j1 = -1 ->
  forall fuel num mv s i rk,
    TInv num s (Pending i) rk -> (num < fuel)%nat ->
    ~ inSC s j1 ->
    below_inf (relaxed cost (l_u st) (l_v st) (Z.of_nat i) mv (s_spc s)
                       (Z.of_nat j1)) ->
    forall sink mv' s',
      search_loop cost (l_u st) (l_v st) (l_row4col st) fuel num
                  (Z.of_nat i) mv s = Some (sink, mv', s') ->
      sink <> -1.
Proof.
  intros Hj1 Hfree1.
  induction fuel as [|fuel IH]; intros num mv s i rk HS Hfuel HnSC Hopen;
    [lia|].
  destruct (scan_structure num mv s i rk HS) as (HS1 & Hidx).
  destruct (scan_values num mv s i rk HS j1 Hj1 HnSC) as [Ev1 Hl1].
  cbn [search_loop].
  set (sc := scan_loop cost (l_u st) (l_v st) (l_row4col st)
                       (s_remaining s) num (Z.of_nat i) mv
                       (s_path s) (s_spc s)) in *.
  set (s1 := Search (sc_path sc) (sc_spc sc)
                    (zset (s_SR s) (Z.of_nat i) true) (s_SC s)
                    (s_remaining s)) in *.
  assert (Hb1 : below_inf (zth (sc_spc sc) (Z.of_nat j1) NaN))
    by (rewrite Ev1; exact Hopen).
  destruct (sc_lowest sc ==? INFINITY)%D eqn:Einf.
  - exfalso. apply deqb_iff in Einf.
    assert (El : sc_lowest sc = PInf).
    { destruct (sc_lowest sc); simpl in Einf; try contradiction.
      reflexivity. }
    rewrite El in Hl1. unfold below_inf in Hb1. congruence.
  - destruct Hidx as [[_ E]|(p & Hp & Eidx & Elow)];
      [rewrite E in Einf; discriminate|].
    pose proof (deqb_inf_false _ Einf) as Hlow.
    assert (Hreached : zth (s_spc s1) (rem_at s1 p) NaN <> PInf).
    { change (zth (sc_spc sc) (rem_at s p) NaN <> PInf).
      rewrite <- Elow. exact Hlow. }
    destruct (select_structure num s1 rk p HS1 Hp Hreached)
      as (jn & Hjn & Ejn & Hsel).
    rewrite Eidx, zth_nat.
    change (nth p (s_remaining s) 0) with (rem_at s1 p).
    rewrite Ejn, zth_nat. change (nth jn (l_row4col st) 0) with (r4c st jn).
    cbv zeta in Hsel. rewrite Ejn in Hsel.
    destruct Hsel as [[Er HS']|(i' & Hi' & Er & HS')].
    + rewrite Er. simpl (-1 =? -1). cbv iota.
      intros sink mv' s' E. inversion E; subst. lia.
    + rewrite Er.
      replace (Z.of_nat i' =? -1) with false
        by (symmetry; apply Z.eqb_neq; lia).
      assert (Hne : j1 <> jn) by (intros ->; lia).
      apply (IH _ _ _ _ _ HS'); [lia| |].
      * unfold inSC. cbn [s_SC s1]. rewrite zset_nat, nth_upd_neq by auto.
        exact HnSC.
      * cbn [s_spc s1]. apply relaxed_below. exact Hb1.
Qed.

Lemma augmenting_path_reaches (j1 : nat) :
  (j1 < nc)%nat -> r4c st j1 = -1 ->
  below_inf (scan_r cost (l_u st) (l_v st) (Z.of_nat m) (Fin 0)
                    (Z.of_nat j1)) ->
  forall sink mv' s',
    augmenting_path cost (l_u st) (l_v st) (l_row4col st) nc
                    (l_path st) (l_spc st) (Z.of_nat m)
                    (l_SR st) (l_SC st) (l_remaining st)
    = Some (sink, mv', s') ->
    sink <> -1.
Proof.
  intros Hj1 Hfree1 Hopen. unfold augmenting_path.
  apply (search_loop_reaches j1 Hj1 Hfree1 (S nc) nc (Fin 0)
                             (search_init nc st) m (fun _ => O)).
  - apply TInv_init.
  - lia.
  - destruct (ti_front _ _ _ _ TInv_init) as (_ & _ & [(_ & _ & Hno)|(Hlt & _)]);
      [apply Hno; exact Hj1 | lia].
  - unfold relaxed.
    destruct (_ <? _)%D eqn:E; [exact Hopen|].
    exfalso. unfold below_inf in Hopen.
    assert (Es : zth (s_spc (search_init nc st)) (Z.of_nat j1) NaN = PInf).
    { rewrite zth_nat. unfold search_init; simpl. apply nth_map_const.
      rewrite (sh_len_spc _ Hshape). exact Hj1. }
    rewrite Es in E. congruence.
Qed.

Lemma augmenting_path_structure :
  exists sink mv' s',
    augmenting_path cost (l_u st) (l_v st) (l_row4col st) nc
                    (l_path st) (l_spc st) (Z.of_nat m)
                    (l_SR st) (l_SC st) (l_remaining st)
    = Some (sink, mv', s')
    /\ ((sink = -1 /\ mv' = INFINITY)
        \/ exists jn num' rk',
            sink = Z.of_nat jn /\ TInv num' s' (Sink jn) rk'
            /\ mv' = spc_at s' jn /\ mv' <> PInf).
Proof.
  unfold augmenting_path.
  apply (search_loop_structure (S nc) nc (Fin 0) (search_init nc st) m
                               (fun _ => O)).
  - apply TInv_init.
  - lia.
Qed.

(** *** The augmentation *)

Section Augmentation.
Variables (num : nat) (s : search) (snk : nat) (rk : nat -> nat).
Hypothesis HSk : TInv num s (Sink snk) rk.

(** The augmentation at the head of its loop, about to rewire column
    [jn]: the matching is intact except that no row points to [jn]. *)
Record PInv (jn : nat) (r c : list Z) : Prop := {
  pi_len_r : length r = nc;
  pi_len_c : length c = nr;
  pi_jn : (jn < nc)%nat /\ inSC s jn;
  pi_rows : forall i, (i < m)%nat -> (i < nr)%nat ->
      exists j, (j < nc)%nat /\ nth i c 0 = Z.of_nat j
                /\ nth j r 0 = Z.of_nat i;
  pi_rest : forall i, (m <= i)%nat -> (i < nr)%nat -> nth i c 0 = -1;
  pi_cols : forall j, (j < nc)%nat -> j <> jn ->
      nth j r 0 = -1
      \/ exists i, (i < m)%nat /\ (i < nr)%nat
                   /\ nth j r 0 = Z.of_nat i /\ nth i c 0 = Z.of_nat j;
  pi_free : forall i, (i < nr)%nat -> nth i c 0 <> Z.of_nat jn;
  pi_prov : forall i, (i < nr)%nat ->
      nth i c 0 = c4r st i
      \/ exists j, (j < nc)%nat /\ nth i c 0 = Z.of_nat j /\ inSC s j
                   /\ path_at s j = Z.of_nat i;
  pi_untouched : forall i, (i < nr)%nat -> nth i c 0 <> c4r st i ->
      exists j, (j < nc)%nat /\ c4r st i = Z.of_nat j
                /\ (rk jn <= rk j)%nat;
  pi_unmatched : forall j, (j < nc)%nat -> nth j r 0 = -1 ->
      r4c st j = -1;
  pi_sink : jn = snk \/ nth snk r 0 <> -1
}.

(** The matching when the augmentation has left its loop. *)
Record PFinal (r c : list Z) : Prop := {
  pf_len_r : length r = nc;
  pf_len_c : length c = nr;
  pf_rows : forall i, (i < S m)%nat -> (i < nr)%nat ->
      exists j, (j < nc)%nat /\ nth i c 0 = Z.of_nat j
                /\ nth j r 0 = Z.of_nat i;
  pf_rest : forall i, (S m <= i)%nat -> (i < nr)%nat -> nth i c 0 = -1;
  pf_cols : forall j, (j < nc)%nat ->
      nth j r 0 = -1
      \/ exists i, (i < S m)%nat /\ (i < nr)%nat
                   /\ nth j r 0 = Z.of_nat i /\ nth i c 0 = Z.of_nat j;
  pf_prov : forall i, (i < nr)%nat ->
      nth i c 0 = c4r st i
      \/ exists j, (j < nc)%nat /\ nth i c 0 = Z.of_nat j /\ inSC s j
                   /\ path_at s j = Z.of_nat i;
  pf_unmatched : forall j, (j < nc)%nat -> nth j r 0 = -1 ->
      r4c st j = -1 /\ j <> snk
}.

Lemma sink_structure :
  (snk < nc)%nat /\ inSC s snk /\ r4c st snk = -1 /\ inSR s m.
Proof. exact (ti_front _ _ _ _ HSk). Qed.

Lemma PInv_init : PInv snk (l_row4col st) (l_col4row st).
Proof.
  destruct sink_structure as (Hsnk & HSC & Er & _).
  constructor.
  - apply (mt_len_r4c _ _ _ _ HM).
  - apply (mt_len_c4r _ _ _ _ HM).
  - split; auto.
  - apply (mt_rows _ _ _ _ HM).
  - apply (mt_rest _ _ _ _ HM).
  - intros j Hj _. apply (mt_cols _ _ _ _ HM); auto.
  - intros i Hi E.
    destruct (Nat.lt_ge_cases i m) as [Hlt|Hge].
    + destruct (mt_rows _ _ _ _ HM i Hlt Hi) as (j & _ & Ec & Erj).
      unfold c4r in Ec. assert (j = snk) by lia. subst j.
      unfold r4c in *. lia.
    + pose proof (mt_rest _ _ _ _ HM i Hge Hi) as E'. unfold c4r in E'. lia.
  - intros i Hi. left. reflexivity.
  - intros i Hi Hne. exfalso. apply Hne. reflexivity.
  - intros j Hj E. exact E.
  - left. reflexivity.
Qed.

Lemma augment_structure (fuel : nat) :
  forall jn r c,
    PInv jn r c -> (rk jn < fuel)%nat ->
    exists r'' c'',
      augment fuel (Z.of_nat m) (s_path s) (Z.of_nat jn) r c
      = Some (r'', c'')
      /\ PFinal r'' c''.
Proof.
  induction fuel as [|fuel IH]; intros jn r c HA Hfuel; [lia|].
  destruct (pi_jn _ _ _ HA) as [Hjn HSCjn].
  pose proof (pi_len_r _ _ _ HA) as Hlr.
  pose proof (pi_len_c _ _ _ HA) as Hlc.
  pose proof (ti_SC_reached _ _ _ _ HSk jn Hjn HSCjn) as Hreached.
  destruct (ti_path _ _ _ _ HSk jn Hjn Hreached) as (i & Hi & Ep & HSR).
  cbn [augment]. rewrite zth_nat.
  change (nth jn (s_path s) 0) with (path_at s jn).
  rewrite Ep, zth_nat, !zset_nat.
  set (r2 := upd jn (Z.of_nat i) r).
  set (c2 := upd i (Z.of_nat jn) c).
  assert (Hr2jn : nth jn r2 0 = Z.of_nat i)
    by (subst r2; apply nth_upd_eq; lia).
  assert (Hr2 : forall j, j <> jn -> nth j r2 0 = nth j r 0)
    by (intros j Hne; subst r2; apply nth_upd_neq; auto).
  assert (Hc2i : nth i c2 0 = Z.of_nat jn)
    by (subst c2; apply nth_upd_eq; lia).
  assert (Hc2 : forall i', i' <> i -> nth i' c2 0 = nth i' c 0)
    by (intros i' Hne; subst c2; apply nth_upd_neq; auto).
  assert (Hprov2 : forall i', (i' < nr)%nat ->
            nth i' c2 0 = c4r st i'
            \/ exists j, (j < nc)%nat /\ nth i' c2 0 = Z.of_nat j
                         /\ inSC s j /\ path_at s j = Z.of_nat i').
  { intros i' Hi'. destruct (Nat.eq_dec i' i) as [->|Hne].
    - right. exists jn. repeat split; auto.
    - rewrite Hc2 by auto. apply (pi_prov _ _ _ HA); auto. }
  assert (Hrows2 : forall i', (i' < m)%nat -> (i' < nr)%nat -> i' <> i ->
            exists j, (j < nc)%nat /\ nth i' c2 0 = Z.of_nat j
                      /\ nth j r2 0 = Z.of_nat i').
  { intros i' Him' Hi' Hne.
    destruct (pi_rows _ _ _ HA i' Him' Hi') as (j & Hj & Ec & Er).
    exists j. rewrite Hc2 by auto. repeat split; auto.
    rewrite Hr2; auto. intros ->.
    apply (pi_free _ _ _ HA i' Hi'). exact Ec. }
  assert (Hunm2 : forall j, (j < nc)%nat -> nth j r2 0 = -1 ->
                            j <> jn /\ r4c st j = -1).
  { intros j Hj E. destruct (Nat.eq_dec j jn) as [->|Hne].
    - rewrite Hr2jn in E. lia.
    - split; auto. rewrite Hr2 in E by auto.
      apply (pi_unmatched _ _ _ HA); auto. }
  assert (Hsnk2 : nth snk r2 0 <> -1).
  { destruct (Nat.eq_dec snk jn) as [->|Hne].
    - rewrite Hr2jn. lia.
    - rewrite Hr2 by auto.
      destruct (pi_sink _ _ _ HA) as [E|E]; [congruence|exact E]. }
  destruct (Z.eqb_spec (Z.of_nat i) (Z.of_nat m)) as [Eim|Hnim].
  - (* the path has reached [curRow] *)
    assert (i = m) by lia. subst i. clear Eim.
    exists r2, c2. split; [reflexivity|].
    constructor.
    + subst r2. now rewrite upd_length.
    + subst c2. now rewrite upd_length.
    + intros i' Him' Hi'. destruct (Nat.eq_dec i' m) as [->|Hne].
      * exists jn. repeat split; auto.
      * apply Hrows2; auto. lia.
    + intros i' Hge Hi'. rewrite Hc2 by lia.
      apply (pi_rest _ _ _ HA); auto. lia.
    + intros j Hj. destruct (Nat.eq_dec j jn) as [->|Hne].
      * right. exists m. repeat split; auto.
      * rewrite Hr2 by auto.
        destruct (pi_cols _ _ _ HA j Hj Hne)
          as [E|(i' & Him' & Hi' & Er & Ec)]; [left; exact E|].
        right. exists i'. repeat split; auto.
        rewrite Hc2 by lia. exact Ec.
    + exact Hprov2.
    + intros j Hj E. destruct (Hunm2 j Hj E) as [Hne Er].
      split; auto. intros ->. contradiction.
  - (* one more edge *)
    assert (Hne : i <> m) by lia.
    destruct (ti_rank_dec _ _ _ _ HSk jn i Hjn HSCjn Ep Hne)
      as (j' & Hj' & Ec & HSC' & Hrk).
    assert (Eci : nth i c 0 = Z.of_nat j').
    { destruct (Z.eq_dec (nth i c 0) (c4r st i)) as [E|E];
        [congruence|].
      destruct (pi_untouched _ _ _ HA i Hi E) as (j0 & _ & Ec0 & Hle).
      assert (j0 = j') by lia. subst j0. lia. }
    assert (Him : (i < m)%nat).
    { destruct (Nat.lt_ge_cases i m) as [|Hge]; auto.
      pose proof (pi_rest _ _ _ HA i Hge Hi). lia. }
    assert (Hjj' : jn <> j').
    { intros <-. apply (pi_free _ _ _ HA i Hi). exact Eci. }
    rewrite Eci.
    apply IH; [|lia].
    constructor.
    + subst r2. now rewrite upd_length.
    + subst c2. now rewrite upd_length.
    + split; auto.
    + intros i' Him' Hi'. destruct (Nat.eq_dec i' i) as [->|Hne'].
      * exists jn. repeat split; auto.
      * apply Hrows2; auto.
    + intros i' Hge Hi'. rewrite Hc2 by lia.
      apply (pi_rest _ _ _ HA); auto.
    + intros j Hj Hnej. destruct (Nat.eq_dec j jn) as [->|Hnejn].
      * right. exists i. repeat split; auto.
      * rewrite Hr2 by auto.
        destruct (pi_cols _ _ _ HA j Hj Hnejn)
          as [E|(i' & Him' & Hi' & Er & Ec')]; [left; exact E|].
        right. exists i'. repeat split; auto.
        rewrite Hc2; auto. intros ->. lia.
    + intros i' Hi' E. destruct (Nat.eq_dec i' i) as [->|Hne'].
      * rewrite Hc2i in E. lia.
      * rewrite Hc2 in E by auto.
        assert (Him' : (i' < m)%nat).
        { destruct (Nat.lt_ge_cases i' m) as [|Hge]; auto.
          pose proof (pi_rest _ _ _ HA i' Hge Hi'). lia. }
        destruct (pi_rows _ _ _ HA i' Him' Hi') as (j1 & _ & E1 & R1).
        destruct (pi_rows _ _ _ HA i Him Hi) as (j2 & _ & E2 & R2).
        assert (j1 = j') by lia. assert (j2 = j') by lia.
        subst j1 j2. lia.
    + exact Hprov2.
    + intros i' Hi' E. destruct (Nat.eq_dec i' i) as [->|Hne'].
      * exists j'. repeat split; auto.
      * rewrite Hc2 in E by auto.
        destruct (pi_untouched _ _ _ HA i' Hi' E) as (j0 & Hj0 & E0 & Hle).
        exists j0. repeat split; auto. lia.
    + intros j Hj E. apply (Hunm2 j Hj E).
    + right. exact Hsnk2.
Qed.
End Augmentation.

(** One iteration of the main loop returns: it fails as infeasible when
    the search finds no sink, and otherwise matches one more row, frees
    no column and matches the sink. *)
Lemma solve_row_structure :
  exists sink mv s,
    augmenting_path cost (l_u st) (l_v st) (l_row4col st) nc
                    (l_path st) (l_spc st) (Z.of_nat m)
                    (l_SR st) (l_SC st) (l_remaining st)
    = Some (sink, mv, s)
    /\ ((sink = -1 /\ mv = INFINITY
         /\ solve_row cost nr nc st m = Fail RECTANGULAR_LSAP_INFEASIBLE)
        \/ (exists snk,
              sink = Z.of_nat snk /\ (snk < nc)%nat /\ r4c st snk = -1
              /\ mv = spc_at s snk /\ mv <> PInf
              /\ exists st',
                  solve_row cost nr nc st m = Ok st'
                  /\ shaped st' /\ matching nr nc (S m) st'
                  /\ r4c st' snk <> -1
                  /\ forall j, (j < nc)%nat -> r4c st' j = -1 ->
                               r4c st j = -1)).
Proof.
  unfold solve_row.
  destruct augmenting_path_structure
    as (sink & mv' & s & -> & [[-> ->]|(jn & num & rk & -> & HSk & Emv & Hmv)]).
  - exists (-1), INFINITY, s. split; [reflexivity|]. left.
    repeat split; reflexivity.
  - exists (Z.of_nat jn), mv', s. split; [reflexivity|]. right.
    replace (Z.of_nat jn <? 0) with false
      by (symmetry; apply Z.ltb_ge; lia).
    destruct (ti_front _ _ _ _ HSk) as (Hjn & HSCjn & Erjn & _).
    pose proof (ti_rank _ _ _ _ HSk jn Hjn HSCjn) as Hrk.
    destruct (augment_structure num s jn rk HSk (S nc) jn
                                (l_row4col st) (l_col4row st)
                                (PInv_init num s jn rk HSk)
                                ltac:(lia))
      as (r'' & c'' & -> & HF).
    exists jn. split; [reflexivity|]. split; [exact Hjn|].
    split; [exact Erjn|]. split; [exact Emv|]. split; [exact Hmv|].
    eexists. split; [reflexivity|].
    destruct (update_u_any nr m mv' (s_spc s) (l_col4row st)
                           (s_SR s) (l_u st)) as [Hlu _].
    destruct (update_v_any nc mv' (s_spc s) (s_SC s) (l_v st))
      as [Hlv _].
    split; [|split; [|split]].
    + constructor; simpl.
      * rewrite Hlu. apply (sh_len_u _ Hshape).
      * rewrite Hlv. apply (sh_len_v _ Hshape).
      * apply (ti_len_path _ _ _ _ HSk).
      * apply (ti_len_spc _ _ _ _ HSk).
      * apply (ti_len_SR _ _ _ _ HSk).
      * apply (ti_len_SC _ _ _ _ HSk).
      * apply (ti_len_rem _ _ _ _ HSk).
    + constructor; unfold c4r, r4c; simpl.
      * apply (pf_len_c _ _ _ _ HF).
      * apply (pf_len_r _ _ _ _ HF).
      * apply (pf_rows _ _ _ _ HF).
      * apply (pf_rest _ _ _ _ HF).
      * apply (pf_cols _ _ _ _ HF).
    + unfold r4c; simpl. intros E.
      destruct (pf_unmatched _ _ _ _ HF jn Hjn E) as [_ Hne]. now apply Hne.
    + unfold r4c at 1; simpl. intros j Hj E.
      exact (proj1 (pf_unmatched _ _ _ _ HF j Hj E)).
Qed.
(** The dual update leaves alone the rows not yet processed and the
    columns that stay unmatched. *)
Lemma solve_row_duals (st' : lsap) :
  solve_row cost nr nc st m = Ok st' ->
  (forall i, (m < i)%nat -> nth i (l_u st') NaN = nth i (l_u st) NaN)
  /\ (forall j, (j < nc)%nat -> r4c st' j = -1 ->
                nth j (l_v st') NaN = nth j (l_v st) NaN).
Proof.
  unfold solve_row.
  destruct augmenting_path_structure
    as (sink & mv' & s & -> & [[-> ->]|(jn & num & rk & -> & HSk & Emv & Hmv)]);
    [discriminate|].
  replace (Z.of_nat jn <? 0) with false
    by (symmetry; apply Z.ltb_ge; lia).
  destruct (ti_front _ _ _ _ HSk) as (Hjn & HSCjn & Erjn & _).
  pose proof (ti_rank _ _ _ _ HSk jn Hjn HSCjn) as Hrk.
  destruct (augment_structure num s jn rk HSk (S nc) jn
                              (l_row4col st) (l_col4row st)
                              (PInv_init num s jn rk HSk)
                              ltac:(lia))
    as (r'' & c'' & -> & HF).
  intros E. inversion E; subst st'. clear E. cbn [l_u l_v].
  destruct (update_u_any nr m mv' (s_spc s) (l_col4row st)
                         (s_SR s) (l_u st)) as [_ Hu].
  destruct (update_v_any nc mv' (s_spc s) (s_SC s) (l_v st)) as [_ Hv].
  split.
  - intros i Hi. rewrite Hu.
    replace (i =? m)%nat with false by (symmetry; apply Nat.eqb_neq; lia).
    destruct (nth i (s_SR s) false) eqn:ESR; [|reflexivity].
    destruct (Nat.ltb_spec i nr) as [Hlt|Hge]; [|reflexivity].
    exfalso.
    destruct (ti_SR _ _ _ _ HSk i Hlt ESR) as [->|[Hlt' _]]; lia.
  - unfold r4c at 1. cbn [l_row4col]. intros j Hj Efree. rewrite Hv.
    destruct (nth j (s_SC s) false) eqn:ESC; [|reflexivity].
    exfalso.
    destruct (pf_unmatched _ _ _ _ HF j Hj Efree) as [Erj Hne].
    destruct (ti_SC _ _ _ _ HSk j Hj ESC)
      as [[Efr _]|(i & _ & _ & Er & _)].
    + inversion Efr. congruence.
    + rewrite Erj in Er. lia.
Qed.
End Search.

(** *** The main loop *)

Lemma solve_rows_structure (k : nat) :
  forall m st,
    shaped st -> matching nr nc m st -> (m + k <= nr)%nat ->
    solve_rows cost nr nc (seq m k) st = Fail RECTANGULAR_LSAP_INFEASIBLE
    \/ exists st', solve_rows cost nr nc (seq m k) st = Ok st'
                   /\ shaped st' /\ matching nr nc (m + k) st'
                   /\ forall j, (j < nc)%nat -> r4c st' j = -1 ->
                                r4c st j = -1.
Proof.
  induction k as [|k IH]; intros m st Hsh HM Hk.
  - right. exists st. split; [reflexivity|]. rewrite Nat.add_0_r.
    split; [exact Hsh|]. split; [exact HM|]. auto.
  - cbn [seq solve_rows].
    destruct (solve_row_structure m st Hsh HM ltac:(lia))
      as (sink & mv & s & _
          & [(_ & _ & ->)
            |(snk & _ & _ & _ & _ & _ & st' & -> & Hsh' & HM' & _ & Hun)]).
    + left. reflexivity.
    + simpl. replace (m + S k)%nat with (S m + k)%nat by lia.
      destruct (IH (S m) st' Hsh' HM' ltac:(lia))
        as [E|(st'' & E & Hsh'' & HM'' & Hun')]; [left; exact E|].
      right. exists st''. split; [exact E|]. split; [exact Hsh''|].
      split; [exact HM''|].
      intros j Hj Ej. apply Hun; auto.
Qed.

Lemma solve_rows_prefix (k : nat) (st : lsap) :
  (k <= nr)%nat ->
  solve_rows cost nr nc (seq 0 k) (lsap_init nr nc) = Ok st ->
  shaped st /\ matching nr nc k st.
Proof.
  intros Hk E.
  destruct (solve_rows_structure k 0 (lsap_init nr nc) shaped_init
                                 matching_init ltac:(lia))
    as [E'|(st' & E' & Hsh & HM & _)]; rewrite E' in E; [discriminate|].
  inversion E; subst. auto.
Qed.

(** *** A cost view that can always be crossed *)

(** Before iteration [m] the rows from [m] on and the unmatched columns
    still have the dual zero they started with. *)
Record fresh (m : nat) (st : lsap) : Prop := {
  fr_u : forall i, (m <= i < nr)%nat -> nth i (l_u st) NaN = Fin 0;
  fr_v : forall j, (j < nc)%nat -> r4c st j = -1 ->
                   nth j (l_v st) NaN = Fin 0
}.

Lemma fresh_init : fresh 0 (lsap_init nr nc).
Proof.
  unfold lsap_init. constructor; simpl.
  - intros i Hi. apply nth_repeat_any. lia.
  - intros j Hj _. now apply nth_repeat_any.
Qed.

Lemma unmatched_or_all_matched (st : lsap) (n : nat) :
  (exists j, (j < n)%nat /\ r4c st j = -1)
  \/ (forall j, (j < n)%nat -> r4c st j <> -1).
Proof.
  induction n as [|n [(j & Hj & E)|IH]].
  - right. intros j Hj. lia.
  - left. exists j. split; [lia|exact E].
  - destruct (Z.eq_dec (r4c st n) (-1)) as [E|Hne].
    + left. exists n. split; [lia|exact E].
    + right. intros j Hj.
      destruct (Nat.eq_dec j n) as [->|Hjn]; [exact Hne|apply IH; lia].
Qed.

(** With fewer matched rows than columns, a column is unmatched. *)
Lemma unmatched_column_exists (m : nat) (st : lsap) :
  matching nr nc m st -> (m <= nr)%nat -> (m < nc)%nat ->
  exists j, (j < nc)%nat /\ r4c st j = -1.
Proof.
  intros HM Hm Hlt.
  destruct (unmatched_or_all_matched st nc) as [Hex|Hall]; [exact Hex|].
  exfalso.
  set (cols := map (fun i => Z.to_nat (c4r st i)) (seq 0 m)).
  assert (Hincl : incl (seq 0 nc) cols).
  { intros j Hj. apply in_seq in Hj.
    destruct (mt_cols _ _ _ _ HM j ltac:(lia)) as [E|(i & Hi & _ & _ & Ec)].
    - exfalso. apply (Hall j); [lia|exact E].
    - unfold cols. apply in_map_iff. exists i.
      split; [rewrite Ec; apply Nat2Z.id|]. apply in_seq. lia. }
  pose proof (NoDup_incl_length (seq_NoDup nc 0) Hincl) as Hlen.
  unfold cols in Hlen. rewrite length_map, !length_seq in Hlen. lia.
Qed.

Section Crossing.
Hypothesis Hcross : forall i j, (i < nr)%nat -> (j < nc)%nat ->
  below_inf (first_distance elem_format (view cost i j)).

Lemma solve_row_crosses (m : nat) (st : lsap) :
  shaped st -> matching nr nc m st -> fresh m st ->
  (m < nr)%nat -> (m < nc)%nat ->
  exists st', solve_row cost nr nc st m = Ok st'
              /\ shaped st' /\ matching nr nc (S m) st' /\ fresh (S m) st'.
Proof.
  intros Hsh HM Hfr Hm Hmc.
  destruct (unmatched_column_exists m st HM ltac:(lia) Hmc)
    as (j1 & Hj1 & Efree).
  assert (Hopen : below_inf (scan_r cost (l_u st) (l_v st) (Z.of_nat m)
                                    (Fin 0) (Z.of_nat j1))).
  { unfold scan_r. rewrite !zth_nat.
    rewrite (fr_u _ _ Hfr m ltac:(lia)), (fr_v _ _ Hfr j1 Hj1 Efree).
    apply (Hcross m j1 Hm Hj1). }
  destruct (solve_row_structure m st Hsh HM Hm)
    as (sink & mv & s & Epath
        & [(-> & _ & _)
          |(snk & _ & _ & _ & _ & _ & st' & Eok & Hsh' & HM' & _ & Hun)]).
  - exfalso.
    exact (augmenting_path_reaches m st Hsh HM Hm j1 Hj1 Efree Hopen
                                   _ _ _ Epath eq_refl).
  - exists st'. split; [exact Eok|]. split; [exact Hsh'|].
    split; [exact HM'|].
    destruct (solve_row_duals m st Hsh HM Hm st' Eok) as [Hu Hv].
    constructor.
    + intros i Hi. rewrite Hu by lia. apply (fr_u _ _ Hfr). lia.
    + intros j Hj E. rewrite (Hv j Hj E).
      apply (fr_v _ _ Hfr j Hj). apply (Hun j Hj E).
Qed.

Lemma solve_rows_cross (k : nat) :
  forall m st,
    shaped st -> matching nr nc m st -> fresh m st ->
    (m + k <= nr)%nat -> (m + k <= nc)%nat ->
    exists st', solve_rows cost nr nc (seq m k) st = Ok st'.
Proof.
  induction k as [|k IH]; intros m st Hsh HM Hfr Hk Hkc.
  - exists st. reflexivity.
  - cbn [seq solve_rows].
    destruct (solve_row_crosses m st Hsh HM Hfr ltac:(lia) ltac:(lia))
      as (st' & -> & Hsh' & HM' & Hfr').
    simpl. apply (IH (S m) st' Hsh' HM' Hfr'); lia.
Qed.

(** On a cost view with no more rows than columns whose entries all have
    a first distance below [+inf], the main loop runs to its end. *)
Lemma solve_rows_crosses :
  (nr <= nc)%nat ->
  exists st, solve_rows cost nr nc (seq 0 nr) (lsap_init nr nc) = Ok st.
Proof.
  intros Hle.
  apply (solve_rows_cross nr 0 (lsap_init nr nc) shaped_init matching_init
                          fresh_init); lia.
Qed.
End Crossing.

(** The loops of the model never run out of fuel. *)
Lemma solve_rows_returns :
  solve_rows cost nr nc (seq 0 nr) (lsap_init nr nc) <> OutOfFuel.
Proof.
  destruct (solve_rows_structure nr 0 (lsap_init nr nc) shaped_init
                                 matching_init ltac:(lia))
    as [->|(st' & -> & _)]; discriminate.
Qed.
End Structure.

(** ** Feasibility of the duals *)

(** The invariant of the specification, read on the vectors of [solve]:
    [u[i] + v[j] <= C_view(i, j)] for every row [i < k] and every column,
    and [u[i] + v[col4row[i]] = C_view(i, col4row[i])] for every matched
    row. *)
Definition duals_feasible {T} `{Elem T} (cost : matrix2d T) (nr nc : nat)
           (k : nat) (st : lsap) : Prop :=
  (forall i j, (i < k)%nat -> (i < nr)%nat -> (j < nc)%nat ->
      dle (nth i (l_u st) NaN + nth j (l_v st) NaN)%D (view cost i j))
  /\ (forall i, (i < nr)%nat -> nth i (l_col4row st) 0 <> -1 ->
      deq (nth i (l_u st) NaN + zth (l_v st) (nth i (l_col4row st) 0) NaN)%D
          (cost_at cost (Z.of_nat i) (nth i (l_col4row st) 0))).

Lemma dual_feasible_duals {T} `{Elem T} (cost : matrix2d T) (nr nc : nat)
      (k m : nat) (st : lsap) :
  view_ok cost nr nc -> matching nr nc m st -> dual_feasible cost nr nc k st ->
  duals_feasible cost nr nc k st.
Proof.
  intros Hview HM HD. split.
  - intros i j Hk Hi Hj.
    rewrite (finite_qv _ (df_fin_u _ _ _ _ _ HD i Hi)).
    rewrite (finite_qv _ (df_fin_v _ _ _ _ _ HD j Hj)).
    destruct (Hview i j Hi Hj) as [E|[c E]]; rewrite E; simpl; auto.
    apply (df_le _ _ _ _ _ HD i j c); auto.
  - intros i Hi Hne.
    destruct (Nat.lt_ge_cases i m) as [Hlt|Hge].
    + destruct (mt_rows _ _ _ _ HM i Hlt Hi) as (j & Hj & Ec & _).
      unfold c4r in Ec. rewrite Ec, zth_nat.
      destruct (df_tight _ _ _ _ _ HD i j Hi Hj Ec) as (c & Ev & Hc).
      rewrite (finite_qv _ (df_fin_u _ _ _ _ _ HD i Hi)).
      rewrite (finite_qv _ (df_fin_v _ _ _ _ _ HD j Hj)).
      fold (view cost i j). rewrite Ev. simpl. exact Hc.
    + pose proof (mt_rest _ _ _ _ HM i Hge Hi) as E. unfold c4r in E.
      contradiction.
Qed.

(** C6.  In exact arithmetic, on a cost view without NaN and [-inf], every
    dual update of the main loop leaves the duals feasible: in iteration
    [k], right after the update (with the matching of the previous
    iterations) and again after the augmentation (with the new matching),
    [u[i] + v[j] <= C_view(i, j)] holds for every row [i <= k] and every
    column [j], and [u[i] + v[col4row[i]] = C_view(i, col4row[i])] holds
    for every matched row [i]. *)
Theorem dual_update_keeps_feasibility {T} `{Elem T}
        (cost : matrix2d T) (nr nc : nat) (k : nat) (st : lsap)
        (sink : Z) (minVal : double) (s : search) :
  view_ok cost nr nc ->
  (k < nr)%nat ->
  solve_rows (A := exact_arith) cost nr nc (seq 0 k) (lsap_init nr nc) = Ok st ->
  augmenting_path (A := exact_arith) cost (l_u st) (l_v st) (l_row4col st) nc
                  (l_path st) (l_spc st) (Z.of_nat k)
                  (l_SR st) (l_SC st) (l_remaining st)
  = Some (sink, minVal, s) ->
  0 <= sink ->
  duals_feasible cost nr nc (S k) (after_update nr nc k st minVal s)
  /\ exists st', solve_row (A := exact_arith) cost nr nc st k = Ok st'
                 /\ duals_feasible cost nr nc (S k) st'.
Proof.
  intros Hview Hk Hrows Hpath Hsink.
  pose proof (solve_rows_prefix_Inv cost nr nc Hview k st ltac:(lia) Hrows)
    as HInv.
  destruct (solve_row_sound cost nr nc Hview k st HInv Hk)
    as (sink' & mv & s' & E & [[-> _]|(_ & HD & st' & Erow & HInv')]);
    rewrite E in Hpath; inversion Hpath; subst; [lia|].
  split.
  - apply (dual_feasible_duals cost nr nc (S k) k); auto.
    pose proof (inv_matching _ _ _ _ _ HInv) as HM.
    constructor; try apply HM.
  - exists st'. split; auto.
    apply (dual_feasible_duals cost nr nc (S k) (S k)); auto.
    + apply (inv_matching _ _ _ _ _ HInv').
    + apply (inv_dual _ _ _ _ _ HInv').
Qed.

Lemma dual_update_keeps_feasibility_witness :
  exists (sink : Z) (minVal : double) (s : search),
    augmenting_path
      (Matrix2d [Fin 4; Fin 1; Fin 2; Fin 0] 2 2 false false None None)
      (l_u (lsap_init 2 2)) (l_v (lsap_init 2 2))
      (l_row4col (lsap_init 2 2)) 2
      (l_path (lsap_init 2 2)) (l_spc (lsap_init 2 2)) 0
      (l_SR (lsap_init 2 2)) (l_SC (lsap_init 2 2))
      (l_remaining (lsap_init 2 2))
    = Some (sink, minVal, s)
    /\ duals_feasible
         (Matrix2d [Fin 4; Fin 1; Fin 2; Fin 0] 2 2 false false None None)
         2 2 1 (after_update 2 2 0 (lsap_init 2 2) minVal s)
    /\ exists st',
        solve_row
          (Matrix2d [Fin 4; Fin 1; Fin 2; Fin 0] 2 2 false false None None)
          2 2 (lsap_init 2 2) 0 = Ok st'
        /\ duals_feasible
             (Matrix2d [Fin 4; Fin 1; Fin 2; Fin 0] 2 2 false false None None)
             2 2 1 st'.
Proof.
  eexists _, _, _. split.
  - vm_compute. reflexivity.
  - eapply (dual_update_keeps_feasibility
              (Matrix2d [Fin 4; Fin 1; Fin 2; Fin 0] 2 2 false false None None)
              2 2 0 (lsap_init 2 2)).
    + intros i j Hi Hj.
      destruct i as [|[|i]]; destruct j as [|[|j]]; try lia;
        right; eexists; vm_compute; reflexivity.
    + lia.
    + reflexivity.
    + vm_compute. reflexivity.
    + vm_compute. discriminate.
Defined.

(** ** One-sided subscripts *)

(** C3.  With a column subscript only ([n_subrows = 0], two in-bounds
    columns), [solve] sets the working number of rows to [n_subrows = 0]
    and returns success without writing any pair, where the specification
    promises [min(nr, n_subcols) = 2] pairs; no arithmetic is involved. *)
Lemma solve_column_subscript_only_is_empty :
  solve (A := ieee_arith) 2 2 [Fin 1; Fin 2; Fin 3; Fin 4] false
        None 0 (Some [0; 1]) 2
  = Ok ([], [])
  /\ solve (A := exact_arith) 2 2 [Fin 1; Fin 2; Fin 3; Fin 4] false
           None 0 (Some [0; 1]) 2
     = Ok ([], [])
  /\ orient 2 2 [Fin 1; Fin 2; Fin 3; Fin 4] false None 0 (Some [0; 1]) 2
     = (Matrix2d [Fin 1; Fin 2; Fin 3; Fin 4] 2 2 false false
                 None (Some [0; 1]), 0, 2, false).
Proof. split; [|split]; vm_compute; reflexivity. Qed.

(** The same with a row subscript only. *)
Lemma solve_row_subscript_only_is_empty :
  solve 2 2 [Fin 1; Fin 2; Fin 3; Fin 4] false (Some [0; 1]) 2 None 0
  = Ok ([], []).
Proof. vm_compute; reflexivity. Qed.

(** ** Constant cost matrices *)

Lemma rnd_zero_deq {A : Arith} `{!Regular A} (f : format) (q : Q) :
  (q == 0)%Q -> deq (rnd f (Fin q)) (Fin 0).
Proof.
  intros Hq. rewrite <- (rnd_zero f). apply rnd_deq. exact Hq.
Qed.

Section ConstantView.
Context {A : Arith} `{!Regular A} {T : Type} `{Elem T}.
Variable cost : matrix2d T.
Variable n : nat.
Variable kq : Q.
Hypothesis Hconst : forall i j, (i < n)%nat -> (j < n)%nat ->
                                view cost i j = Fin kq.

(** The arithmetic keeps the constant finite where it first meets it. *)
Variable r0 : Q.
Hypothesis Hkept : first_distance elem_format (Fin kq) = Fin r0.

(** After [m] iterations on a constant view, rows and columns [0 .. m) are
    matched along the diagonal, the rows not yet processed have the dual
    zero and [v] is still zero. *)
Record CInv (m : nat) (st : lsap) : Prop := {
  ci_len_u : length (l_u st) = n;
  ci_len_v : length (l_v st) = n;
  ci_len_path : length (l_path st) = n;
  ci_len_spc : length (l_spc st) = n;
  ci_len_c4r : length (l_col4row st) = n;
  ci_len_r4c : length (l_row4col st) = n;
  ci_len_SR : length (l_SR st) = n;
  ci_len_SC : length (l_SC st) = n;
  ci_len_rem : length (l_remaining st) = n;
  ci_c4r : forall i, (i < n)%nat ->
      nth i (l_col4row st) 0 = if (i <? m)%nat then Z.of_nat i else -1;
  ci_r4c : forall j, (j < n)%nat ->
      nth j (l_row4col st) 0 = if (j <? m)%nat then Z.of_nat j else -1;
  ci_u : forall i, (m <= i < n)%nat -> nth i (l_u st) NaN = Fin 0;
  ci_v : forall j, (j < n)%nat -> deq (nth j (l_v st) NaN) (Fin 0)
}.

Lemma CInv_init : CInv 0 (lsap_init n n).
Proof.
  unfold lsap_init. constructor; simpl; try apply repeat_length.
  - intros i Hi. now rewrite nth_repeat_any.
  - intros j Hj. now rewrite nth_repeat_any.
  - intros i Hi. now rewrite nth_repeat_any by lia.
  - intros j Hj. rewrite nth_repeat_any by auto. simpl. reflexivity.
Qed.

Lemma nth_falses_upd (l : list bool) (m k : nat) :
  (m < length l)%nat ->
  nth k (upd m true (map (fun _ => false) l)) false = (k =? m)%nat.
Proof.
  intros Hm. destruct (Nat.eqb_spec k m) as [->|Hne].
  - apply nth_upd_eq. now rewrite length_map.
  - rewrite nth_upd_neq by auto.
    destruct (Nat.lt_ge_cases k (length l)).
    + now rewrite nth_map_const.
    + apply nth_overflow. now rewrite length_map.
Qed.

(** On zero duals every column is at the distance of the constant. *)
Lemma constant_distance (y : Q) :
  (y == 0)%Q ->
  let f := elem_format in
  deq (narrow f (fsub f (fsub f (fadd f (Fin 0) (Fin kq)) (Fin 0)) (Fin y)))
      (Fin r0).
Proof.
  intros Hy f. rewrite <- Hkept. unfold first_distance. fold f.
  set (X := fsub f (fadd f (Fin 0) (Fin kq)) (Fin 0)).
  assert (HX : exists x, X = Fin x).
  { destruct X as [x| | |] eqn:EX; [now exists x| | |]; exfalso;
      unfold first_distance in Hkept; fold f in Hkept; fold X in Hkept;
      rewrite EX in Hkept; unfold fsub in Hkept; simpl in Hkept;
      rewrite rnd_special, narrow_special in Hkept by discriminate;
      discriminate. }
  destruct HX as [x ->]. unfold fsub. simpl.
  apply narrow_deq, rnd_deq. simpl. rewrite Hy. reflexivity.
Qed.

Lemma constant_row (m : nat) (st : lsap) :
  CInv m st -> (m < n)%nat ->
  exists st', solve_row cost n n st m = Ok st' /\ CInv (S m) st'.
Proof.
  intros HC Hm.
  pose proof (ci_u _ _ HC m ltac:(lia)) as Eum.
  unfold solve_row, augmenting_path. cbn [search_loop].
  set (rem0 := fold_left (fun rem it => zset rem (Z.of_nat it)
                                             (Z.of_nat n - Z.of_nat it - 1))
                         (seq 0 n) (l_remaining st)).
  set (spc0 := map (fun _ : double => INFINITY) (l_spc st)).
  cbn [s_remaining s_path s_spc s_SR s_SC].
  assert (Hrem0 : forall p, (p < n)%nat ->
                            nth p rem0 0 = Z.of_nat (n - 1 - p)).
  { intros p Hp. subst rem0.
    rewrite remaining_init_nth; auto; try lia. apply (ci_len_rem _ _ HC). }
  assert (Hlen : length (l_path st) = length spc0).
  { subst spc0. rewrite length_map, (ci_len_path _ _ HC), (ci_len_spc _ _ HC).
    reflexivity. }
  assert (Hls0 : length spc0 = n)
    by (subst spc0; rewrite length_map; apply (ci_len_spc _ _ HC)).
  assert (Hrem : forall it, (it < n)%nat ->
             0 <= nth it rem0 0 < Z.of_nat (length spc0)).
  { intros it Hit. rewrite Hrem0, Hls0 by auto. lia. }
  destruct (scan_upto_spec cost (l_u st) (l_v st) (l_row4col st) rem0
              (Z.of_nat m) (Fin 0) (l_path st) spc0 n Hlen Hrem n
              (Nat.le_refl _)) as (Hls & Hlp & Hvis & _ & Hsel).
  change (scan_upto cost (l_u st) (l_v st) (l_row4col st) rem0 (Z.of_nat m)
                    (Fin 0) (l_path st) spc0 n)
    with (scan_loop cost (l_u st) (l_v st) (l_row4col st) rem0 n (Z.of_nat m)
                    (Fin 0) (l_path st) spc0) in *.
  set (sc := scan_loop cost (l_u st) (l_v st) (l_row4col st) rem0 n
                       (Z.of_nat m) (Fin 0) (l_path st) spc0) in *.
  set (val := scan_val cost (l_u st) (l_v st) rem0 (Z.of_nat m) (Fin 0) spc0)
    in *.
  set (free := scan_free (l_row4col st) rem0) in *.
  (* every scanned column is relaxed to the same distance *)
  assert (Hr : forall j, (j < n)%nat ->
             exists x, scan_r cost (l_u st) (l_v st) (Z.of_nat m) (Fin 0)
                              (Z.of_nat j) = Fin x
                       /\ (x == r0)%Q).
  { intros j Hj. unfold scan_r. rewrite !zth_nat, Eum.
    destruct (deq_finite _ _ (ci_v _ _ HC j Hj)) as (y & -> & Hy).
    fold (view cost m j). rewrite (Hconst m j Hm Hj).
    apply deq_finite. apply (constant_distance y Hy). }
  assert (Hspc0 : forall j, (j < n)%nat -> zth spc0 (Z.of_nat j) NaN = PInf).
  { intros j Hj. rewrite zth_nat. subst spc0.
    apply nth_map_const. rewrite (ci_len_spc _ _ HC). exact Hj. }
  assert (Hrelax : forall j, (j < n)%nat ->
             exists x, relaxed cost (l_u st) (l_v st) (Z.of_nat m) (Fin 0)
                               spc0 (Z.of_nat j) = Fin x
                       /\ (x == r0)%Q
                       /\ relaxed_path cost (l_u st) (l_v st) (Z.of_nat m)
                                       (Fin 0) (l_path st) spc0 (Z.of_nat j)
                          = Z.of_nat m).
  { intros j Hj. unfold relaxed, relaxed_path.
    destruct (Hr j Hj) as (x & Ex & Hx). rewrite Ex, Hspc0 by auto. simpl.
    exists x. repeat split; auto. }
  assert (Hval : forall p, (p < n)%nat ->
                           exists x, val p = Fin x /\ (x == r0)%Q).
  { intros p Hp. subst val. unfold scan_val. rewrite Hrem0 by auto.
    destruct (Hrelax (n - 1 - p)%nat ltac:(lia)) as (x & Ex & Hx & _).
    exists x. split; auto. }
  assert (Hfree : forall p, (p < n)%nat ->
                            free p = (m <=? n - 1 - p)%nat).
  { intros p Hp. subst free. unfold scan_free. rewrite Hrem0, zth_nat by auto.
    rewrite (ci_r4c _ _ HC) by lia.
    destruct (Nat.ltb_spec (n - 1 - p) m), (Nat.leb_spec m (n - 1 - p));
      try lia; try reflexivity.
    apply Z.eqb_neq. lia. }
  set (ps := (n - 1 - m)%nat).
  assert (Hps : (ps < n)%nat) by (subst ps; lia).
  assert (Hselect : sc_index sc = Z.of_nat ps /\ sc_lowest sc = val ps).
  { destruct (Hval ps Hps) as (xs & Exs & Hxs).
    assert (Hlow : sc_lowest sc = fst (select_upto val free n))
      by (now rewrite <- Hsel).
    assert (Hidx : sc_index sc = snd (select_upto val free n))
      by (now rewrite <- Hsel).
    rewrite Hlow, Hidx.
    destruct (select_index val free n) as [[_ E]|(p0 & Hp0 & Es & Ef)].
    - pose proof (select_lowest val free n ps Hps) as Hc.
      rewrite E, Exs in Hc. discriminate.
    - destruct (Hval p0 Hp0) as (x0 & Ex0 & Hx0).
      assert (Htie : (val ps ==? fst (select_upto val free n))%D = true).
      { rewrite Ef, Exs, Ex0. simpl. apply Qeq_bool_iff. lra. }
      assert (Hfs : free ps = true).
      { rewrite Hfree by auto. apply Nat.leb_le. subst ps. lia. }
      destruct (select_last_free val free n ps Hps Htie Hfs)
        as (p & Ep & Hle & Hfp).
      rewrite Hfree in Hfp by lia. apply Nat.leb_le in Hfp.
      assert (p = ps) by (subst ps; lia). subst p.
      assert (p0 = ps) by lia. subst p0. split; auto. }
  destruct Hselect as [Eidx Elow].
  destruct (Hval ps Hps) as (lq & Elq & Hlq).
  destruct (Hvis ps Hps) as [Espc Epath].
  rewrite (Hrem0 ps Hps) in Espc, Epath.
  replace (n - 1 - ps)%nat with m in Espc, Epath by (subst ps; lia).
  destruct (Hrelax m Hm) as (x & Ex & _ & Ep). rewrite Ep in Epath.
  assert (Espc' : zth (sc_spc sc) (Z.of_nat m) NaN = Fin lq).
  { rewrite Espc. subst val. unfold scan_val in Elq.
    rewrite (Hrem0 ps Hps) in Elq.
    replace (n - 1 - ps)%nat with m in Elq by (subst ps; lia). exact Elq. }
  rewrite Elow, Elq, Eidx. simpl (Fin lq ==? INFINITY)%D. cbv iota.
  rewrite zth_nat, (Hrem0 ps Hps).
  replace (n - 1 - ps)%nat with m by (subst ps; lia).
  rewrite zth_nat, (ci_r4c _ _ HC m Hm), Nat.ltb_irrefl.
  simpl (-1 =? -1). cbv iota.
  replace (Z.of_nat m <? 0) with false by (symmetry; apply Z.ltb_ge; lia).
  cbn [s_path s_spc s_SR s_SC s_remaining augment].
  rewrite Epath, Z.eqb_refl.
  eexists. split; [reflexivity|].
  destruct (update_u_any n m (Fin lq) (sc_spc sc) (l_col4row st)
              (zset (map (fun _ : bool => false) (l_SR st)) (Z.of_nat m) true)
              (l_u st)) as [Hlu Hu].
  destruct (update_v_any n (Fin lq) (sc_spc sc)
              (zset (map (fun _ : bool => false) (l_SC st)) (Z.of_nat m) true)
              (l_v st)) as [Hlv Hv].
  constructor; cbn [l_u l_v l_path l_spc l_col4row l_row4col l_SR l_SC
                        l_remaining].
  - rewrite Hlu. apply (ci_len_u _ _ HC).
  - rewrite Hlv. apply (ci_len_v _ _ HC).
  - rewrite Hlp. apply (ci_len_path _ _ HC).
  - rewrite Hls. exact Hls0.
  - rewrite zset_length. apply (ci_len_c4r _ _ HC).
  - rewrite zset_length. apply (ci_len_r4c _ _ HC).
  - rewrite zset_length, length_map. apply (ci_len_SR _ _ HC).
  - rewrite zset_length, length_map. apply (ci_len_SC _ _ HC).
  - rewrite zset_length. subst rem0. rewrite remaining_init_length.
    apply (ci_len_rem _ _ HC).
  - intros i Hi. rewrite zset_nat.
    destruct (Nat.eq_dec i m) as [->|Hne].
    + rewrite nth_upd_eq by (rewrite (ci_len_c4r _ _ HC); lia).
      replace (m <? S m)%nat with true by (symmetry; apply Nat.ltb_lt; lia).
      reflexivity.
    + rewrite nth_upd_neq by auto. rewrite (ci_c4r _ _ HC i Hi).
      destruct (Nat.ltb_spec i m), (Nat.ltb_spec i (S m)); try lia;
        reflexivity.
  - intros j Hj. rewrite zset_nat.
    destruct (Nat.eq_dec j m) as [->|Hne].
    + rewrite nth_upd_eq by (rewrite (ci_len_r4c _ _ HC); lia).
      replace (m <? S m)%nat with true by (symmetry; apply Nat.ltb_lt; lia).
      reflexivity.
    + rewrite nth_upd_neq by auto. rewrite (ci_r4c _ _ HC j Hj).
      destruct (Nat.ltb_spec j m), (Nat.ltb_spec j (S m)); try lia;
        reflexivity.
  - intros i Hi. rewrite Hu, zset_nat, nth_falses_upd
      by (rewrite (ci_len_SR _ _ HC); lia).
    destruct (Nat.eqb_spec i m) as [->|Hne]; [lia|].
    simpl. apply (ci_u _ _ HC). lia.
  - intros j Hj. rewrite Hv, zset_nat, nth_falses_upd
      by (rewrite (ci_len_SC _ _ HC); lia).
    pose proof (ci_v _ _ HC j Hj) as Hvj.
    rewrite (ci_len_v _ _ HC).
    replace (j <? n)%nat with true by (symmetry; apply Nat.ltb_lt; lia).
    destruct (Nat.eqb_spec j m) as [->|Hne]; simpl; [|exact Hvj].
    rewrite zth_nat in Espc'. rewrite Espc'.
    destruct (deq_finite _ _ Hvj) as (y & -> & Hy).
    unfold fsub at 2. simpl.
    destruct (deq_finite _ _ (rnd_zero_deq F_double (lq + - lq) ltac:(lra)))
      as (z & -> & Hz).
    unfold fsub. simpl. apply rnd_zero_deq. lra.
Qed.

Lemma constant_rows (k : nat) :
  forall m st, CInv m st -> (m + k <= n)%nat ->
    exists st', solve_rows cost n n (seq m k) st = Ok st'
                /\ CInv (m + k) st'.
Proof.
  induction k as [|k IH]; intros m st HC Hk.
  - exists st. split; [reflexivity|]. now rewrite Nat.add_0_r.
  - cbn [seq solve_rows].
    destruct (constant_row m st HC ltac:(lia)) as (st' & -> & HC').
    simpl. replace (m + S k)%nat with (S m + k)%nat by lia.
    apply IH; auto. lia.
Qed.

Lemma constant_view_identity :
  exists st, solve_rows cost n n (seq 0 n) (lsap_init n n) = Ok st
             /\ emit false None None n (l_col4row st) = (iota n, iota n).
Proof.
  destruct (constant_rows n 0 (lsap_init n n) CInv_init ltac:(lia))
    as (st & E & HC).
  exists st. split; [exact E|].
  unfold emit, is_subscript, iota. f_equal.
  apply map_ext_in. intros i Hi. apply in_seq in Hi.
  rewrite (ci_c4r _ _ HC i ltac:(lia)).
  replace (i <? 0 + n)%nat with true by (symmetry; apply Nat.ltb_lt; lia).
  reflexivity.
Qed.
End ConstantView.

(** ** [solve] without subscript *)

(** The cost view [solve] builds when no subscript is given. *)
Definition plain_view {T} (nr nc : Z) (cost : list T) (maximize : bool)
  : matrix2d T :=
  Matrix2d cost nr nc (nc <? nr) maximize None None.

(** The working shape: the smaller dimension counts the rows. *)
Definition work_rows (nr nc : Z) : nat := Z.to_nat (if nc <? nr then nc else nr).
Definition work_cols (nr nc : Z) : nat := Z.to_nat (if nc <? nr then nr else nc).

Lemma solve_plain_eq {A : Arith} {T} `{Elem T} (nr nc : Z) (cost : list T)
      (maximize : bool) (subrows subcols : option (list Z)) :
  0 < nr -> 0 < nc ->
  existsb (fun i => invalid_entry maximize (nth i cost elem_default))
          (seq 0 (Z.to_nat (nr * nc))) = false ->
  solve nr nc cost maximize subrows 0 subcols 0
  = (st <- solve_rows (plain_view nr nc cost maximize)
                      (work_rows nr nc) (work_cols nr nc)
                      (seq 0 (work_rows nr nc))
                      (lsap_init (work_rows nr nc) (work_cols nr nc)) ;;
     Ok (emit (nc <? nr) None None (work_rows nr nc) (l_col4row st))).
Proof.
  intros Hnr Hnc Hscan. unfold solve.
  replace ((nr =? 0) || (nc =? 0))%bool with false
    by (symmetry; apply orb_false_iff; split; apply Z.eqb_neq; lia).
  rewrite Hscan. unfold check_subscript, orient, plain_view, work_rows,
                 work_cols. simpl.
  destruct (nc <? nr), maximize; reflexivity.
Qed.

Lemma plain_view_get {T} `{Elem T} (nr nc : Z) (cost : list T)
      (maximize : bool) (i j : nat) :
  (i < work_rows nr nc)%nat -> (j < work_cols nr nc)%nat ->
  exists k, 0 <= k < nr * nc
    /\ k = (if nc <? nr then Z.of_nat j * nc + Z.of_nat i
            else Z.of_nat i * nc + Z.of_nat j)
    /\ get (plain_view nr nc cost maximize) (Z.of_nat i) (Z.of_nat j)
       = if maximize then elem_neg (zth cost k elem_default)
         else zth cost k elem_default.
Proof.
  unfold work_rows, work_cols, plain_view, get. simpl.
  destruct (Z.ltb_spec nc nr) as [Hlt|Hge]; intros Hi Hj.
  - exists (Z.of_nat j * nc + Z.of_nat i). split; [nia|]. split; reflexivity.
  - exists (Z.of_nat i * nc + Z.of_nat j). split; [nia|]. split; reflexivity.
Qed.

Lemma not_ill_valued_false (x : double) :
  ~ ill_valued false x -> x = PInf \/ finite x.
Proof.
  unfold ill_valued. intros Hx. destruct x as [q| | |].
  - right. now exists q.
  - now left.
  - exfalso. apply Hx. right. left. auto.
  - exfalso. apply Hx. left. auto.
Qed.

(** Negation in the element type keeps the validated entries of a matrix
    away from NaN and [-inf], where it matters: when they are negated. *)
Definition neg_keeps_valid_on {T} `{Elem T} (n : Z) (cost : list T)
           (maximize : bool) : Prop :=
  maximize = true ->
  forall k, 0 <= k < n ->
    ~ ill_valued true (to_double (zth cost k elem_default)) ->
    ~ ill_valued false (to_double (elem_neg (zth cost k elem_default))).

Lemma plain_view_ok_on {T} `{Elem T} (nr nc : Z) (cost : list T)
      (maximize : bool) :
  neg_keeps_valid_on (nr * nc) cost maximize ->
  existsb (fun i => invalid_entry maximize (nth i cost elem_default))
          (seq 0 (Z.to_nat (nr * nc))) = false ->
  view_ok (plain_view nr nc cost maximize) (work_rows nr nc) (work_cols nr nc).
Proof.
  intros Hneg Hscan i j Hi Hj. unfold view, cost_at.
  destruct (plain_view_get nr nc cost maximize i j Hi Hj) as (k & Hk & _ & ->).
  assert (Hv : ~ ill_valued maximize (to_double (zth cost k elem_default))).
  { intros Hbad.
    assert (Hex : existsb (fun i => invalid_entry maximize
                                      (nth i cost elem_default))
                          (seq 0 (Z.to_nat (nr * nc))) = true).
    { apply existsb_seq_iff. exists (Z.to_nat k). split; [lia|].
      apply invalid_entry_iff. exact Hbad. }
    congruence. }
  apply not_ill_valued_false.
  destruct maximize; [exact (Hneg eq_refl k Hk Hv) | exact Hv].
Qed.

(** C7.  On a square [n] x [n] matrix whose entries all equal the same
    finite constant [c] of the element type, [solve] without subscript
    returns status 0 and the identity assignment [a[i] = i], [b[i] = i],
    in every regular arithmetic, provided the distance that the first scan
    computes from the constant (the constant as the solver views it, negated
    when maximizing, carried through line 136 on zero duals and narrowed to
    [double]) is finite. *)
Theorem constant_matrix_identity {A : Arith} `{!Regular A} {T} `{Elem T}
        (n : nat) (c : T) (maximize : bool) (subrows subcols : option (list Z)) :
  finite (to_double c) ->
  finite (first_distance elem_format
            (to_double (if maximize then elem_neg c else c))) ->
  solve (Z.of_nat n) (Z.of_nat n) (repeat c (n * n)) maximize
        subrows 0 subcols 0
  = Ok (iota n, iota n).
Proof.
  intros [q Hq] [r0 Hr0].
  destruct n as [|n']; [reflexivity|].
  set (n := S n').
  assert (Hview : exists k, to_double (if maximize then elem_neg c else c)
                            = Fin k).
  { destruct (to_double (if maximize then elem_neg c else c)) as [k| | |] eqn:E;
      [now exists k| | |]; exfalso;
      (eapply first_distance_special; [|exact Hr0]; discriminate). }
  destruct Hview as [k Hk].
  assert (Hscan : existsb (fun i => invalid_entry maximize
                     (nth i (repeat c (n * n)) elem_default))
                     (seq 0 (Z.to_nat (Z.of_nat n * Z.of_nat n))) = false).
  { match goal with |- ?x = false => destruct x eqn:E; auto end.
    apply existsb_seq_iff in E. destruct E as (i & Hi & Hbad).
    rewrite nth_repeat_any in Hbad by nia.
    apply invalid_entry_iff in Hbad. rewrite Hq in Hbad.
    destruct Hbad as [E|[[E _]|[E _]]]; discriminate. }
  rewrite solve_plain_eq by (auto; lia).
  assert (Hwr : work_rows (Z.of_nat n) (Z.of_nat n) = n).
  { unfold work_rows. rewrite Z.ltb_irrefl. apply Nat2Z.id. }
  assert (Hwc : work_cols (Z.of_nat n) (Z.of_nat n) = n).
  { unfold work_cols. rewrite Z.ltb_irrefl. apply Nat2Z.id. }
  rewrite Hwr, Hwc, Z.ltb_irrefl.
  rewrite Hk in Hr0.
  destruct (constant_view_identity
              (plain_view (Z.of_nat n) (Z.of_nat n)
                          (repeat c (n * n)) maximize)
              n k) with (r0 := r0) as (st & E1 & E2);
    [|exact Hr0|rewrite E1; simpl; rewrite E2; reflexivity].
  intros i j Hi Hj. unfold view, cost_at.
  destruct (plain_view_get (Z.of_nat n) (Z.of_nat n)
                           (repeat c (n * n)) maximize i j)
    as (x & Hx & _ & ->); [rewrite Hwr; auto | rewrite Hwc; auto |].
  unfold zth. rewrite nth_repeat_any by nia.
  exact Hk.
Qed.

Lemma constant_matrix_identity_witness :
  solve_rectangular_linear_sum_assignment (H := ieee_arith)
    3 3 [Fin 7; Fin 7; Fin 7; Fin 7; Fin 7; Fin 7; Fin 7; Fin 7; Fin 7] true
  = Ok ([0; 1; 2], [0; 1; 2]).
Proof.
  apply (constant_matrix_identity (A := ieee_arith) 3 (Fin 7) true None None).
  - exists 7%Q. reflexivity.
  - exists (- 7)%Q. vm_compute. reflexivity.
Defined.

(** A [long double] constant beyond the range of [double] is finite, yet
    the distance computed from it overflows when line 136 stores it in a
    [double]: the search sees no reachable column and the solver reports
    the problem infeasible. *)
Lemma constant_beyond_double_range_is_infeasible :
  let c := Fin (inject_Z (2 ^ 2000)) in
  finite (to_double (Elem := Elem_long_double) c)
  /\ solve (A := ieee_arith) (H := Elem_long_double)
           2 2 [c; c; c; c] false None 0 None 0
     = Fail RECTANGULAR_LSAP_INFEASIBLE
  /\ solve_rectangular_linear_sum_assignment_dtype (H := ieee_arith)
       2 2 LSAP_LONGDOUBLE [c; c; c; c] false None 0 None 0
     = Fail RECTANGULAR_LSAP_INFEASIBLE.
Proof.
  intros c. split; [now exists (inject_Z (2 ^ 2000))|].
  split; vm_compute; reflexivity.
Qed.

(** ** Sums over assignments *)

Definition qsum {A : Type} (f : A -> Q) (l : list A) : Q :=
  fold_right (fun x acc => (f x + acc)%Q) 0%Q l.

Lemma qsum_app {A} (f : A -> Q) (l l' : list A) :
  (qsum f (l ++ l') == qsum f l + qsum f l')%Q.
Proof.
  induction l as [|x l IH]; simpl; [lra|]. rewrite IH. lra.
Qed.

Lemma qsum_perm {A} (f : A -> Q) (l l' : list A) :
  Permutation l l' -> (qsum f l == qsum f l')%Q.
Proof.
  induction 1 as [|x l l' _ IH|x y l|l l' l'' _ IH1 _ IH2]; simpl;
    try lra.
Qed.

Lemma qsum_map {A B} (f : B -> Q) (g : A -> B) (l : list A) :
  qsum f (map g l) = qsum (fun x => f (g x)) l.
Proof.
  induction l as [|x l IH]; simpl; [reflexivity|]. now rewrite IH.
Qed.

Lemma qsum_le {A} (f g : A -> Q) (l : list A) :
  (forall x, In x l -> (f x <= g x)%Q) -> (qsum f l <= qsum g l)%Q.
Proof.
  induction l as [|x l IH]; intros Hfg; simpl; [lra|].
  pose proof (Hfg x (or_introl eq_refl)).
  assert (qsum f l <= qsum g l)%Q by (apply IH; intros; apply Hfg; now right).
  lra.
Qed.

Lemma qsum_eq {A} (f g : A -> Q) (l : list A) :
  (forall x, In x l -> (f x == g x)%Q) -> (qsum f l == qsum g l)%Q.
Proof.
  induction l as [|x l IH]; intros Hfg; simpl; [lra|].
  pose proof (Hfg x (or_introl eq_refl)).
  assert (qsum f l == qsum g l)%Q by (apply IH; intros; apply Hfg; now right).
  lra.
Qed.

Lemma qsum_plus {A} (f g : A -> Q) (l : list A) :
  (qsum (fun x => f x + g x) l == qsum f l + qsum g l)%Q.
Proof.
  induction l as [|x l IH]; simpl; [lra|]. rewrite IH. lra.
Qed.

Lemma qsum_opp {A} (f : A -> Q) (l : list A) :
  (qsum (fun x => - f x) l == - qsum f l)%Q.
Proof.
  induction l as [|x l IH]; simpl; [lra|]. rewrite IH. lra.
Qed.

(** The columns a duplicate-free list leaves out. *)
Lemma complement_perm (l : list nat) (n : nat) :
  NoDup l -> (forall x, In x l -> (x < n)%nat) ->
  exists rest, Permutation (seq 0 n) (l ++ rest)
               /\ forall x, In x rest -> (x < n)%nat /\ ~ In x l.
Proof.
  intros Hnd Hrange.
  set (out := fun x => negb (existsb (Nat.eqb x) l)).
  assert (Hout : forall x, out x = true <-> ~ In x l).
  { intros x. unfold out. rewrite negb_true_iff. split.
    - intros E Hin. assert (existsb (Nat.eqb x) l = true); [|congruence].
      apply existsb_exists. exists x. split; auto. apply Nat.eqb_refl.
    - intros Hn. destruct (existsb (Nat.eqb x) l) eqn:E; auto.
      apply existsb_exists in E. destruct E as (y & Hy & Exy).
      apply Nat.eqb_eq in Exy. subst y. contradiction. }
  exists (filter out (seq 0 n)). split.
  - apply NoDup_Permutation.
    + apply seq_NoDup.
    + apply NoDup_app; auto.
      * apply NoDup_filter, seq_NoDup.
      * intros x Hx Hf. apply filter_In in Hf. destruct Hf as [_ Hf].
        apply Hout in Hf. contradiction.
    + intros x. rewrite in_app_iff, filter_In, in_seq, Hout. split.
      * intros Hx. destruct (in_dec Nat.eq_dec x l); [left|right]; auto.
      * intros [Hx|[Hx _]]; auto. specialize (Hrange x Hx). lia.
  - intros x Hx. apply filter_In in Hx. destruct Hx as [Hs Ho].
    apply in_seq in Hs. apply Hout in Ho. split; [lia|auto].
Qed.

(** Sums of costs in [double]. *)
Definition dsum (l : list double) : double := fold_right dadd (Fin 0) l.

Lemma dsum_pinf (l : list double) :
  Forall (fun x => x = PInf \/ finite x) l ->
  dsum l = PInf \/ (Forall finite l /\ dsum l = Fin (qsum qv l)).
Proof.
  induction 1 as [|x l Hx _ IH]; simpl.
  - right. split; [constructor|reflexivity].
  - destruct Hx as [->|[q ->]].
    + left. destruct IH as [->|[_ ->]]; reflexivity.
    + destruct IH as [->|[Hf ->]]; [left; reflexivity|].
      right. split; [constructor; auto; now exists q|reflexivity].
Qed.

Lemma dsum_ninf (l : list double) :
  Forall (fun x => x = NInf \/ finite x) l ->
  dsum l = NInf \/ (Forall finite l /\ dsum l = Fin (qsum qv l)).
Proof.
  induction 1 as [|x l Hx _ IH]; simpl.
  - right. split; [constructor|reflexivity].
  - destruct Hx as [->|[q ->]].
    + left. destruct IH as [->|[_ ->]]; reflexivity.
    + destruct IH as [->|[Hf ->]]; [left; reflexivity|].
      right. split; [constructor; auto; now exists q|reflexivity].
Qed.

Lemma dsum_fin (l : list double) :
  Forall finite l -> dsum l = Fin (qsum qv l).
Proof.
  induction 1 as [|x l [q ->] _ IH]; simpl; [reflexivity|].
  now rewrite IH.
Qed.

(** ** Optimality in the working orientation *)

Section WorkingOptimal.
Context {T : Type} `{Elem T}.
Variable cost : matrix2d T.
Variables nr nc : nat.
Variable st : lsap.
Hypothesis Hfinal : Inv cost nr nc nr st.

(** The column of row [i] in the final matching. *)
Definition sigma (i : nat) : nat := Z.to_nat (nth i (l_col4row st) 0).

Lemma sigma_spec (i : nat) :
  (i < nr)%nat ->
  (sigma i < nc)%nat /\ nth i (l_col4row st) 0 = Z.of_nat (sigma i)
  /\ nth (sigma i) (l_row4col st) 0 = Z.of_nat i.
Proof.
  intros Hi.
  destruct (mt_rows _ _ _ _ (inv_matching _ _ _ _ _ Hfinal) i Hi Hi)
    as (j & Hj & Ec & Er).
  unfold c4r, r4c in *. unfold sigma. rewrite Ec, Nat2Z.id. auto.
Qed.

Lemma sigma_inj (i i' : nat) :
  (i < nr)%nat -> (i' < nr)%nat -> sigma i = sigma i' -> i = i'.
Proof.
  intros Hi Hi' E.
  destruct (sigma_spec i Hi) as (_ & _ & E1).
  destruct (sigma_spec i' Hi') as (_ & _ & E2).
  rewrite E in E1. lia.
Qed.

Lemma sigma_NoDup (l : list nat) :
  NoDup l -> (forall x, In x l -> (x < nr)%nat) -> NoDup (map sigma l).
Proof.
  induction 1 as [|x l Hx Hnd IH]; intros Hr; simpl; constructor.
  - intros Hin. apply in_map_iff in Hin. destruct Hin as (y & E & Hy).
    apply sigma_inj in E; [subst y; contradiction| |];
      apply Hr; [now right|now left].
  - apply IH. intros y Hy. apply Hr. now right.
Qed.

Lemma sigma_tight (i : nat) :
  (i < nr)%nat ->
  exists c, view cost i (sigma i) = Fin c
            /\ (uq st i + vq st (sigma i) == c)%Q.
Proof.
  intros Hi. destruct (sigma_spec i Hi) as (Hj & Ec & _).
  apply (df_tight _ _ _ _ _ (inv_dual _ _ _ _ _ Hfinal)); auto.
Qed.

(** The value of the final matching is the value of the duals. *)
Lemma matching_value :
  (qsum (fun i => qv (view cost i (sigma i))) (seq 0 nr)
   == qsum (uq st) (seq 0 nr) + qsum (vq st) (seq 0 nc))%Q.
Proof.
  assert (E1 : (qsum (fun i => qv (view cost i (sigma i))) (seq 0 nr)
                == qsum (fun i => uq st i + vq st (sigma i)) (seq 0 nr))%Q).
  { apply qsum_eq. intros i Hi. apply in_seq in Hi.
    destruct (sigma_tight i ltac:(lia)) as (c & -> & Hc). simpl. lra. }
  rewrite E1, qsum_plus.
  assert (E2 : (qsum (fun i => vq st (sigma i)) (seq 0 nr)
                == qsum (vq st) (seq 0 nc))%Q).
  { rewrite <- (qsum_map (vq st) sigma).
    destruct (complement_perm (map sigma (seq 0 nr)) nc) as (rest & Hp & Hr).
    - apply sigma_NoDup; [apply seq_NoDup|].
      intros x Hx. apply in_seq in Hx. lia.
    - intros x Hx. apply in_map_iff in Hx. destruct Hx as (i & <- & Hi).
      apply in_seq in Hi. apply sigma_spec. lia.
    - rewrite (qsum_perm (vq st) _ _ Hp), qsum_app.
      assert (E0 : (qsum (vq st) rest == qsum (fun _ => 0%Q) rest)%Q).
      { apply qsum_eq. intros j Hj. destruct (Hr j Hj) as [Hlt Hnin].
        apply (inv_v_free _ _ _ _ _ Hfinal j Hlt).
        destruct (mt_cols _ _ _ _ (inv_matching _ _ _ _ _ Hfinal) j Hlt)
          as [E|(i & Hi & _ & Er & Ec)]; auto.
        exfalso. apply Hnin. apply in_map_iff. exists i. split.
        - unfold sigma. unfold c4r in Ec. rewrite Ec. apply Nat2Z.id.
        - apply in_seq. lia. }
      rewrite E0.
      assert (E00 : (qsum (fun _ : nat => 0%Q) rest == 0)%Q).
      { clear. induction rest as [|x r IH]; simpl; lra. }
      rewrite E00. lra. }
  rewrite E2. lra.
Qed.

(** Every other assignment of all the rows costs at least as much. *)
Lemma working_optimal (ps : list (nat * nat)) :
  NoDup (map fst ps) -> NoDup (map snd ps) -> length ps = nr ->
  (forall p, In p ps -> (fst p < nr)%nat /\ (snd p < nc)%nat) ->
  (forall p, In p ps -> finite (view cost (fst p) (snd p))) ->
  (qsum (fun i => qv (view cost i (sigma i))) (seq 0 nr)
   <= qsum (fun p => qv (view cost (fst p) (snd p))) ps)%Q.
Proof.
  intros Hnd1 Hnd2 Hlen Hrange Hfin.
  rewrite matching_value.
  assert (E1 : (qsum (fun p => uq st (fst p) + vq st (snd p)) ps
                <= qsum (fun p => qv (view cost (fst p) (snd p))) ps)%Q).
  { apply qsum_le. intros p Hp.
    destruct (Hrange p Hp) as [Hx Hy]. destruct (Hfin p Hp) as [c Ec].
    rewrite Ec. simpl.
    apply (df_le _ _ _ _ _ (inv_dual _ _ _ _ _ Hfinal)); auto. }
  rewrite qsum_plus in E1.
  assert (E2 : (qsum (fun p => uq st (fst p)) ps == qsum (uq st) (seq 0 nr))%Q).
  { rewrite <- (qsum_map (uq st) fst). apply qsum_perm.
    apply NoDup_Permutation_bis; auto.
    - rewrite length_seq, length_map. lia.
    - intros x Hx. apply in_map_iff in Hx. destruct Hx as (p & <- & Hp).
      apply in_seq. destruct (Hrange p Hp). lia. }
  assert (E3 : (qsum (vq st) (seq 0 nc) <= qsum (fun p => vq st (snd p)) ps)%Q).
  { rewrite <- (qsum_map (vq st) snd).
    destruct (complement_perm (map snd ps) nc Hnd2) as (rest & Hp & Hr).
    - intros x Hx. apply in_map_iff in Hx. destruct Hx as (p & <- & Hp).
      apply Hrange; auto.
    - rewrite (qsum_perm (vq st) _ _ Hp), qsum_app.
      assert (E0 : (qsum (vq st) rest <= qsum (fun _ => 0%Q) rest)%Q).
      { apply qsum_le. intros j Hj. destruct (Hr j Hj) as [Hlt _].
        apply (inv_v_nonpos _ _ _ _ _ Hfinal j Hlt). }
      assert (E00 : (qsum (fun _ : nat => 0%Q) rest == 0)%Q).
      { clear. induction rest as [|x r IH]; simpl; lra. }
      lra. }
  lra.
Qed.
End WorkingOptimal.

(** ** What [solve] emits *)

Lemma insert_by_perm (lt : Z -> Z -> bool) (x : Z) (l : list Z) :
  Permutation (insert_by lt x l) (x :: l).
Proof.
  induction l as [|y l IH]; simpl; auto.
  destruct (lt y x); auto.
  apply perm_trans with (y :: x :: l); [now apply perm_skip|apply perm_swap].
Qed.

Lemma sort_by_perm (lt : Z -> Z -> bool) (l : list Z) :
  Permutation (sort_by lt l) l.
Proof.
  induction l as [|x l IH]; simpl; auto.
  apply perm_trans with (x :: sort_by lt l); [apply insert_by_perm|].
  now apply perm_skip.
Qed.

Lemma argsort_iter_perm (v : list Z) :
  Permutation (argsort_iter v) (iota (length v)).
Proof. apply sort_by_perm. Qed.

Lemma iota_NoDup (n : nat) : NoDup (iota n).
Proof.
  unfold iota. apply Finite.Injective_map_NoDup; [|apply seq_NoDup].
  intros x y E. lia.
Qed.

Lemma in_iota (n : nat) (x : Z) : In x (iota n) <-> 0 <= x < Z.of_nat n.
Proof.
  unfold iota. rewrite in_map_iff. split.
  - intros (k & <- & Hk). apply in_seq in Hk. lia.
  - intros Hx. exists (Z.to_nat x). split; [lia|]. apply in_seq. lia.
Qed.

Lemma map_fst_combine_eq {A B} (l : list A) (l' : list B) :
  length l = length l' -> map fst (combine l l') = l.
Proof.
  revert l'. induction l as [|x l IH]; intros [|y l'] E; simpl in *;
    try lia; auto.
  f_equal. apply IH. lia.
Qed.

Lemma map_snd_combine_eq {A B} (l : list A) (l' : list B) :
  length l = length l' -> map snd (combine l l') = l'.
Proof.
  revert l'. induction l as [|x l IH]; intros [|y l'] E; simpl in *;
    try lia; auto.
  f_equal. apply IH. lia.
Qed.

Lemma combine_map_same {A B C} (f : A -> B) (g : A -> C) (l : list A) :
  combine (map f l) (map g l) = map (fun x => (f x, g x)) l.
Proof.
  induction l as [|x l IH]; simpl; auto. now rewrite IH.
Qed.

Lemma combine_map_self {A B} (f : A -> B) (l : list A) :
  combine (map f l) l = map (fun x => (f x, x)) l.
Proof.
  induction l as [|x l IH]; simpl; auto. now rewrite IH.
Qed.

Lemma NoDup_map_to_nat (l : list Z) :
  NoDup l -> (forall x, In x l -> 0 <= x) -> NoDup (map Z.to_nat l).
Proof.
  induction 1 as [|x l Hx Hnd IH]; intros Hpos; simpl; constructor.
  - intros Hin. apply in_map_iff in Hin. destruct Hin as (y & E & Hy).
    assert (0 <= x) by (apply Hpos; now left).
    assert (0 <= y) by (apply Hpos; now right).
    assert (x = y) by lia. subst y. contradiction.
  - apply IH. intros y Hy. apply Hpos. now right.
Qed.

(** The pairs of an assignment: [k] pairs, rows pairwise distinct, columns
    pairwise distinct, all inside the matrix. *)
Definition valid_assignment (nr nc : Z) (a b : list Z) : Prop :=
  length a = length b
  /\ Z.of_nat (length a) = Z.min nr nc
  /\ NoDup a /\ NoDup b
  /\ (forall x, In x a -> 0 <= x < nr)
  /\ (forall y, In y b -> 0 <= y < nc).

(** The sum over [k] of [C[a[k], b[k]]], in the matrix as it was passed. *)
Definition total_cost {T} `{Elem T} (nc : Z) (C : list T) (a b : list Z)
  : double :=
  dsum (map (fun xy => to_double (zth C (fst xy * nc + snd xy) elem_default))
            (combine a b)).

(** From the working orientation back to the pairs of the caller. *)
Definition unorient (tr : bool) (p : nat * nat) : Z * Z :=
  if tr then (Z.of_nat (snd p), Z.of_nat (fst p))
  else (Z.of_nat (fst p), Z.of_nat (snd p)).

Definition reorient (tr : bool) (xy : Z * Z) : nat * nat :=
  if tr then (Z.to_nat (snd xy), Z.to_nat (fst xy))
  else (Z.to_nat (fst xy), Z.to_nat (snd xy)).

(** The final matching, whatever the arithmetic that led to it. *)
Section FinalMatching.
Variables nr nc : nat.
Variable st : lsap.
Hypothesis HM : matching nr nc nr st.

Lemma matched_column (i : nat) :
  (i < nr)%nat ->
  (sigma st i < nc)%nat /\ nth i (l_col4row st) 0 = Z.of_nat (sigma st i)
  /\ nth (sigma st i) (l_row4col st) 0 = Z.of_nat i.
Proof.
  intros Hi.
  destruct (mt_rows _ _ _ _ HM i Hi Hi) as (j & Hj & Ec & Er).
  unfold c4r, r4c in *. unfold sigma. rewrite Ec, Nat2Z.id. auto.
Qed.

Lemma matched_column_inj (i i' : nat) :
  (i < nr)%nat -> (i' < nr)%nat -> sigma st i = sigma st i' -> i = i'.
Proof.
  intros Hi Hi' E.
  destruct (matched_column i Hi) as (_ & _ & E1).
  destruct (matched_column i' Hi') as (_ & _ & E2).
  rewrite E in E1. lia.
Qed.

Lemma matched_columns_NoDup (l : list nat) :
  NoDup l -> (forall x, In x l -> (x < nr)%nat) -> NoDup (map (sigma st) l).
Proof.
  induction 1 as [|x l Hx Hnd IH]; intros Hr; simpl; constructor.
  - intros Hin. apply in_map_iff in Hin. destruct Hin as (y & E & Hy).
    apply matched_column_inj in E; [subst y; contradiction| |];
      apply Hr; [now right|now left].
  - apply IH. intros y Hy. apply Hr. now right.
Qed.

(** Without subscript the emitted pairs are the final matching, listed
    along a permutation of the working rows. *)
Lemma emit_matching (tr : bool) :
  exists L, Permutation L (seq 0 nr)
    /\ combine (fst (emit tr None None nr (l_col4row st)))
               (snd (emit tr None None nr (l_col4row st)))
       = map (fun i => unorient tr (i, sigma st i)) L
    /\ length (fst (emit tr None None nr (l_col4row st))) = nr
    /\ length (snd (emit tr None None nr (l_col4row st))) = nr.
Proof.
  pose proof (mt_len_c4r _ _ _ _ HM) as Hlc.
  unfold emit, is_subscript. destruct tr; cbn [fst snd].
  - (* transposed: sorted by the original row *)
    pose proof (argsort_iter_perm (l_col4row st)) as Hp. rewrite Hlc in Hp.
    set (idx := argsort_iter (l_col4row st)) in *.
    assert (Hidx : forall v, In v idx -> 0 <= v < Z.of_nat nr).
    { intros v Hv. apply in_iota. eapply Permutation_in; eauto. }
    exists (map Z.to_nat idx).
    assert (Eidx : map Z.of_nat (map Z.to_nat idx) = idx).
    { rewrite map_map. rewrite <- (map_id idx) at 2.
      apply map_ext_in. intros v Hv. specialize (Hidx v Hv). lia. }
    split; [|split; [|split]].
    + unfold iota in Hp.
      apply (Permutation_map Z.to_nat) in Hp.
      rewrite (map_map Z.of_nat Z.to_nat) in Hp.
      rewrite (map_ext _ (fun x => x)) in Hp by (intros; apply Nat2Z.id).
      now rewrite map_id in Hp.
    + rewrite combine_map_self, map_map. apply map_ext_in.
      intros v Hv. specialize (Hidx v Hv). unfold unorient, sigma. simpl.
      unfold zth.
      destruct (matched_column (Z.to_nat v) ltac:(lia)) as (_ & Ec & _).
      unfold sigma in Ec. rewrite <- Ec. f_equal. lia.
    + rewrite length_map. apply Permutation_length in Hp.
      unfold iota in Hp. rewrite length_map, length_seq in Hp. exact Hp.
    + apply Permutation_length in Hp.
      unfold iota in Hp. rewrite length_map, length_seq in Hp. exact Hp.
  - exists (seq 0 nr). split; [apply Permutation_refl|].
    split; [|split].
    + unfold iota. rewrite combine_map_same. apply map_ext_in.
      intros i Hi. apply in_seq in Hi. unfold unorient. simpl.
      destruct (matched_column i ltac:(lia)) as (_ & Ec & _).
      now rewrite Ec.
    + unfold iota. now rewrite length_map, length_seq.
    + now rewrite length_map, length_seq.
Qed.
End FinalMatching.

Section EmitPlain.
Context {T : Type} `{Elem T}.
Variable cost : matrix2d T.
Variables nr nc : nat.
Variable st : lsap.
Hypothesis Hfinal : Inv cost nr nc nr st.

Lemma emit_plain (tr : bool) :
  exists L, Permutation L (seq 0 nr)
    /\ combine (fst (emit tr None None nr (l_col4row st)))
               (snd (emit tr None None nr (l_col4row st)))
       = map (fun i => unorient tr (i, sigma st i)) L
    /\ length (fst (emit tr None None nr (l_col4row st))) = nr
    /\ length (snd (emit tr None None nr (l_col4row st))) = nr.
Proof.
  exact (emit_matching nr nc st (inv_matching _ _ _ _ _ Hfinal) tr).
Qed.
End EmitPlain.

Lemma solve_plain_matching {A : Arith} {T} `{Elem T} (nr nc : Z)
      (cost : list T) (maximize : bool) (subrows subcols : option (list Z))
      (a b : list Z) :
  0 < nr -> 0 < nc ->
  solve nr nc cost maximize subrows 0 subcols 0 = Ok (a, b) ->
  existsb (fun i => invalid_entry maximize (nth i cost elem_default))
          (seq 0 (Z.to_nat (nr * nc))) = false
  /\ exists st L,
      solve_rows (plain_view nr nc cost maximize)
                 (work_rows nr nc) (work_cols nr nc)
                 (seq 0 (work_rows nr nc))
                 (lsap_init (work_rows nr nc) (work_cols nr nc)) = Ok st
      /\ matching (work_rows nr nc) (work_cols nr nc) (work_rows nr nc) st
      /\ Permutation L (seq 0 (work_rows nr nc))
      /\ combine a b = map (fun i => unorient (nc <? nr) (i, sigma st i)) L
      /\ length a = work_rows nr nc /\ length b = work_rows nr nc.
Proof.
  intros Hnr Hnc Hsolve.
  destruct (existsb (fun i => invalid_entry maximize (nth i cost elem_default))
                    (seq 0 (Z.to_nat (nr * nc)))) eqn:Hscan.
  - exfalso. unfold solve in Hsolve.
    replace ((nr =? 0) || (nc =? 0))%bool with false in Hsolve
      by (symmetry; apply orb_false_iff; split; apply Z.eqb_neq; lia).
    rewrite Hscan in Hsolve. discriminate.
  - split; [reflexivity|].
    rewrite solve_plain_eq in Hsolve by auto.
    destruct (solve_rows _ _ _ _ _) as [st|s|] eqn:Erows; simpl in Hsolve;
      try discriminate.
    destruct (solve_rows_prefix _ _ _ _ st (Nat.le_refl _) Erows)
      as [_ HM].
    destruct (emit_matching _ _ st HM (nc <? nr))
      as (L & HL & Ec & Hla & Hlb).
    exists st, L. inversion Hsolve as [Eab]. rewrite Eab in *.
    simpl in Ec, Hla, Hlb.
    split; [reflexivity|]. split; [exact HM|]. auto.
Qed.

Lemma solve_plain_inv {T} `{Elem T} (nr nc : Z) (cost : list T)
      (maximize : bool) (subrows subcols : option (list Z)) (a b : list Z) :
  neg_keeps_valid_on (nr * nc) cost maximize -> 0 < nr -> 0 < nc ->
  solve nr nc cost maximize subrows 0 subcols 0 = Ok (a, b) ->
  existsb (fun i => invalid_entry maximize (nth i cost elem_default))
          (seq 0 (Z.to_nat (nr * nc))) = false
  /\ exists st L,
      Inv (plain_view nr nc cost maximize) (work_rows nr nc) (work_cols nr nc)
          (work_rows nr nc) st
      /\ Permutation L (seq 0 (work_rows nr nc))
      /\ combine a b = map (fun i => unorient (nc <? nr) (i, sigma st i)) L
      /\ length a = work_rows nr nc /\ length b = work_rows nr nc.
Proof.
  intros Hneg Hnr Hnc Hsolve.
  destruct (existsb (fun i => invalid_entry maximize (nth i cost elem_default))
                    (seq 0 (Z.to_nat (nr * nc)))) eqn:Hscan.
  - exfalso. unfold solve in Hsolve.
    replace ((nr =? 0) || (nc =? 0))%bool with false in Hsolve
      by (symmetry; apply orb_false_iff; split; apply Z.eqb_neq; lia).
    rewrite Hscan in Hsolve. discriminate.
  - split; [reflexivity|].
    rewrite solve_plain_eq in Hsolve by auto.
    pose proof (plain_view_ok_on nr nc cost maximize Hneg Hscan) as Hview.
    destruct (solve_rows _ _ _ _ _) as [st|s|] eqn:Erows; simpl in Hsolve;
      try discriminate.
    pose proof (solve_rows_prefix_Inv _ _ _ Hview _ st (Nat.le_refl _) Erows)
      as HInv.
    destruct (emit_plain _ _ _ st HInv (nc <? nr)) as (L & HL & Ec & Hla & Hlb).
    exists st, L. inversion Hsolve as [Eab]. rewrite Eab in *.
    simpl in Ec, Hla, Hlb. auto.
Qed.

Lemma work_rows_min (nr nc : Z) :
  0 <= nr -> 0 <= nc -> Z.of_nat (work_rows nr nc) = Z.min nr nc.
Proof.
  intros Hnr Hnc. unfold work_rows. destruct (Z.ltb_spec nc nr); lia.
Qed.

Lemma work_shape (nr nc : Z) :
  0 <= nr -> 0 <= nc ->
  (if nc <? nr
   then Z.of_nat (work_rows nr nc) = nc /\ Z.of_nat (work_cols nr nc) = nr
   else Z.of_nat (work_rows nr nc) = nr /\ Z.of_nat (work_cols nr nc) = nc).
Proof.
  intros Hnr Hnc. unfold work_rows, work_cols.
  destruct (Z.ltb_spec nc nr); lia.
Qed.

(** An element of a list that hypothesis [E] describes as a [map]. *)
Ltac in_mapped E :=
  match goal with
  | Hin : In _ _ |- _ =>
    rewrite E in Hin; apply in_map_iff in Hin; destruct Hin as (i & <- & Hi)
  end.

(** The pairs emitted without subscript form an assignment of
    [min(nr, nc)] rows to distinct columns, whatever the arithmetic. *)
Lemma plain_valid_assignment {A : Arith} {T} `{Elem T} (nr nc : Z)
      (cost : list T) (maximize : bool) (subrows subcols : option (list Z))
      (a b : list Z) :
  0 <= nr -> 0 <= nc ->
  solve nr nc cost maximize subrows 0 subcols 0 = Ok (a, b) ->
  valid_assignment nr nc a b.
Proof.
  intros Hnr Hnc Hsolve.
  destruct (Z.eq_dec nr 0) as [->|Hnr0];
    [|destruct (Z.eq_dec nc 0) as [->|Hnc0]].
  - unfold solve in Hsolve. simpl in Hsolve.
    inversion Hsolve; subst. unfold valid_assignment; simpl.
    repeat split; try constructor; try lia; intros ? [].
  - unfold solve in Hsolve. rewrite Z.eqb_refl, orb_true_r in Hsolve.
    inversion Hsolve; subst. unfold valid_assignment; simpl.
    repeat split; try constructor; try lia; intros ? [].
  - destruct (solve_plain_matching nr nc cost maximize subrows subcols a b
                                   ltac:(lia) ltac:(lia) Hsolve)
      as (_ & st & L & _ & HM & HL & Ec & Hla & Hlb).
    assert (Ea : a = map (fun i => fst (unorient (nc <? nr) (i, sigma st i))) L).
    { rewrite <- (map_fst_combine_eq a b) by lia.
      rewrite Ec, map_map. reflexivity. }
    assert (Eb : b = map (fun i => snd (unorient (nc <? nr) (i, sigma st i))) L).
    { rewrite <- (map_snd_combine_eq a b) by lia.
      rewrite Ec, map_map. reflexivity. }
    assert (HLr : forall i, In i L -> (i < work_rows nr nc)%nat).
    { intros i Hi. apply (Permutation_in _ HL) in Hi. apply in_seq in Hi. lia. }
    assert (HLnd : NoDup L).
    { apply (Permutation_NoDup (Permutation_sym HL)). apply seq_NoDup. }
    pose proof (work_shape nr nc Hnr Hnc) as Hshape.
    pose proof (work_rows_min nr nc Hnr Hnc) as Hmin.
    assert (Hof : forall l : list nat, NoDup l -> NoDup (map Z.of_nat l)).
    { intros l Hl. apply Finite.Injective_map_NoDup; auto.
      intros x y E. lia. }
    unfold valid_assignment. split; [lia|]. split; [lia|].
    unfold unorient in Ea, Eb. destruct (nc <? nr); simpl in Ea, Eb;
      destruct Hshape as [Hwr Hwc].
    + repeat split.
      * rewrite Ea, <- (map_map (sigma st) Z.of_nat). apply Hof.
        apply (matched_columns_NoDup _ _ st HM); auto.
      * rewrite Eb. apply Hof; auto.
      * in_mapped Ea. lia.
      * in_mapped Ea.
        destruct (matched_column _ _ st HM i (HLr i Hi)) as (Hs & _). lia.
      * in_mapped Eb. lia.
      * in_mapped Eb. specialize (HLr i Hi). lia.
    + repeat split.
      * rewrite Ea. apply Hof; auto.
      * rewrite Eb, <- (map_map (sigma st) Z.of_nat). apply Hof.
        apply (matched_columns_NoDup _ _ st HM); auto.
      * in_mapped Ea. lia.
      * in_mapped Ea. specialize (HLr i Hi). lia.
      * in_mapped Eb. lia.
      * in_mapped Eb.
        destruct (matched_column _ _ st HM i (HLr i Hi)) as (Hs & _). lia.
Qed.

(** ** Optimality of the emitted assignment *)

Lemma not_ill_valued_true (x : double) :
  ~ ill_valued true x -> x = NInf \/ finite x.
Proof.
  unfold ill_valued. intros Hx. destruct x as [q| | |].
  - right. now exists q.
  - exfalso. apply Hx. right. right. auto.
  - now left.
  - exfalso. apply Hx. left. auto.
Qed.

Lemma qsum_map_qv (f : nat * nat -> double) (ps : list (nat * nat)) :
  qsum qv (map f ps) = qsum (fun p => qv (f p)) ps.
Proof. apply qsum_map. Qed.

(** Negation in the element type agrees with negation of the promoted
    value. *)
Definition neg_exact {T} `{Elem T} (x : T) : Prop :=
  to_double (elem_neg x) = dneg (to_double x).

Lemma neg_exact_double (x : double) : neg_exact x.
Proof. reflexivity. Qed.

Lemma view_value_exact {T} `{Elem T} (m : bool) (x : T) :
  (m = true -> neg_exact x) ->
  to_double (if m then elem_neg x else x)
  = if m then dneg (to_double x) else to_double x.
Proof. destruct m; [intros Hx; exact (Hx eq_refl) | reflexivity]. Qed.

Section PlainOptimal.
Context {T : Type} `{Elem T}.
Variables (nr nc : Z) (C : list T) (maximize : bool).
Hypothesis Hnr : 0 < nr.
Hypothesis Hnc : 0 < nc.
Hypothesis Hscan :
  existsb (fun i => invalid_entry maximize (nth i C elem_default))
          (seq 0 (Z.to_nat (nr * nc))) = false.
Hypothesis Hexact :
  maximize = true ->
  forall k, 0 <= k < nr * nc -> neg_exact (zth C k elem_default).

Let tr := nc <? nr.
Let wr := work_rows nr nc.
Let wc := work_cols nr nc.
Let pv := plain_view nr nc C maximize.

(** The entry of [C] under a pair of the working orientation. *)
Definition raw (p : nat * nat) : double :=
  to_double
    (zth C (fst (unorient tr p) * nc + snd (unorient tr p)) elem_default).

Lemma raw_view (p : nat * nat) :
  (fst p < wr)%nat -> (snd p < wc)%nat ->
  view pv (fst p) (snd p) = (if maximize then dneg (raw p) else raw p)
  /\ ~ ill_valued maximize (raw p).
Proof.
  intros Hx Hy. unfold view, cost_at, raw.
  destruct (plain_view_get nr nc C maximize (fst p) (snd p) Hx Hy)
    as (k & Hk & Ek & Eg).
  subst pv. rewrite Eg.
  assert (Eidx : fst (unorient tr p) * nc + snd (unorient tr p) = k).
  { rewrite Ek. unfold unorient. subst tr. destruct (nc <? nr); reflexivity. }
  rewrite Eidx. split.
  - apply view_value_exact. intros Hm. apply Hexact; auto.
  - intros Hbad.
    assert (Hex : existsb (fun i => invalid_entry maximize
                                      (nth i C elem_default))
                          (seq 0 (Z.to_nat (nr * nc))) = true).
    { apply existsb_seq_iff. exists (Z.to_nat k). split; [lia|].
      apply invalid_entry_iff. exact Hbad. }
    congruence.
Qed.

Lemma raw_reorient (xy : Z * Z) :
  0 <= fst xy -> 0 <= snd xy ->
  raw (reorient tr xy)
  = to_double (zth C (fst xy * nc + snd xy) elem_default).
Proof.
  intros Hx Hy. unfold raw, reorient, unorient. destruct xy as [x y].
  simpl in *. destruct tr; simpl; rewrite !Z2Nat.id by lia; reflexivity.
Qed.

Lemma raw_unorient (p : nat * nat) :
  to_double
    (zth C (fst (unorient tr p) * nc + snd (unorient tr p)) elem_default)
  = raw p.
Proof. reflexivity. Qed.

Variable st : lsap.
Hypothesis HInv : Inv pv wr wc wr st.

Lemma ours_finite (i : nat) :
  (i < wr)%nat ->
  finite (raw (i, sigma st i))
  /\ (qv (view pv i (sigma st i))
      == if maximize then - qv (raw (i, sigma st i))
         else qv (raw (i, sigma st i)))%Q.
Proof.
  intros Hi.
  destruct (sigma_spec pv wr wc st HInv i Hi) as (Hs & _).
  destruct (sigma_tight pv wr wc st HInv i Hi) as (c & Ev & _).
  destruct (raw_view (i, sigma st i) Hi Hs) as [Er _]. cbn [fst snd] in Er.
  rewrite Er in Ev. rewrite Er.
  destruct maximize; destruct (raw (i, sigma st i)) as [q| | |];
    simpl in *; try discriminate; split; try (now exists q); lra.
Qed.

(** The total of the emitted pairs. *)
Lemma ours_total (L : list nat) (a b : list Z) :
  Permutation L (seq 0 wr) ->
  combine a b = map (fun i => unorient tr (i, sigma st i)) L ->
  exists s, total_cost nc C a b = Fin s
    /\ (s == qsum (fun i => qv (raw (i, sigma st i))) (seq 0 wr))%Q.
Proof.
  intros HL Ec. unfold total_cost. rewrite Ec, map_map.
  rewrite (map_ext _ (fun i => raw (i, sigma st i)))
    by (intros; apply raw_unorient).
  rewrite dsum_fin.
  - eexists; split; [reflexivity|].
    rewrite (qsum_map qv). apply qsum_perm. exact HL.
  - apply Forall_forall. intros x Hx. apply in_map_iff in Hx.
    destruct Hx as (i & <- & Hi).
    apply (Permutation_in _ HL) in Hi. apply in_seq in Hi.
    apply ours_finite. lia.
Qed.

(** No emitted pair stands on an infinite entry. *)
Lemma ours_entries_finite (L : list nat) (a b : list Z) :
  Permutation L (seq 0 wr) ->
  combine a b = map (fun i => unorient tr (i, sigma st i)) L ->
  Forall (fun xy => finite (to_double
                              (zth C (fst xy * nc + snd xy) elem_default)))
         (combine a b).
Proof.
  intros HL Ec. rewrite Ec. apply Forall_forall. intros xy Hxy.
  apply in_map_iff in Hxy. destruct Hxy as (i & <- & Hi).
  rewrite raw_unorient.
  apply (Permutation_in _ HL) in Hi. apply in_seq in Hi.
  apply ours_finite. lia.
Qed.

(** Any other assignment, in the working orientation. *)
Lemma other_pairs (a' b' : list Z) :
  valid_assignment nr nc a' b' ->
  let ps := map (reorient tr) (combine a' b') in
  NoDup (map fst ps) /\ NoDup (map snd ps) /\ length ps = wr
  /\ (forall p, In p ps -> (fst p < wr)%nat /\ (snd p < wc)%nat)
  /\ total_cost nc C a' b' = dsum (map raw ps).
Proof.
  intros (Hlen & Hmin & Hnda & Hndb & Hra & Hrb) ps.
  pose proof (work_shape nr nc ltac:(lia) ltac:(lia)) as Hshape.
  pose proof (work_rows_min nr nc ltac:(lia) ltac:(lia)) as Hwmin.
  fold tr in Hshape. fold wr in Hshape, Hwmin. fold wc in Hshape.
  assert (Hfst : map fst ps = if tr then map Z.to_nat b' else map Z.to_nat a').
  { subst ps. rewrite map_map. unfold reorient. destruct tr; simpl.
    - rewrite <- (map_map snd Z.to_nat), map_snd_combine_eq; auto.
    - rewrite <- (map_map fst Z.to_nat), map_fst_combine_eq; auto. }
  assert (Hsnd : map snd ps = if tr then map Z.to_nat a' else map Z.to_nat b').
  { subst ps. rewrite map_map. unfold reorient. destruct tr; simpl.
    - rewrite <- (map_map fst Z.to_nat), map_fst_combine_eq; auto.
    - rewrite <- (map_map snd Z.to_nat), map_snd_combine_eq; auto. }
  assert (Hna : NoDup (map Z.to_nat a')).
  { apply NoDup_map_to_nat; auto. intros x Hx. apply Hra in Hx. lia. }
  assert (Hnb : NoDup (map Z.to_nat b')).
  { apply NoDup_map_to_nat; auto. intros x Hx. apply Hrb in Hx. lia. }
  split; [rewrite Hfst; destruct tr; auto|].
  split; [rewrite Hsnd; destruct tr; auto|].
  split; [subst ps; rewrite length_map, length_combine; lia|].
  split.
  - intros p Hp. subst ps. apply in_map_iff in Hp.
    destruct Hp as ([x y] & <- & Hxy).
    pose proof (in_combine_l _ _ _ _ Hxy) as Hx. apply Hra in Hx.
    pose proof (in_combine_r _ _ _ _ Hxy) as Hy. apply Hrb in Hy.
    unfold reorient. destruct tr; simpl; lia.
  - unfold total_cost. subst ps. rewrite map_map.
    f_equal. apply map_ext_in. intros [x y] Hxy.
    pose proof (in_combine_l _ _ _ _ Hxy) as Hx. apply Hra in Hx.
    pose proof (in_combine_r _ _ _ _ Hxy) as Hy. apply Hrb in Hy.
    symmetry. apply raw_reorient; simpl; lia.
Qed.

(** When the main loop gives up, every assignment has an infinite total
    cost. *)
Lemma plain_infeasible_infinite (a' b' : list Z) :
  view_ok pv wr wc ->
  solve_rows pv wr wc (seq 0 wr) (lsap_init wr wc)
  = Fail RECTANGULAR_LSAP_INFEASIBLE ->
  valid_assignment nr nc a' b' ->
  total_cost nc C a' b' = if maximize then NInf else PInf.
Proof.
  clear HInv st.
  intros Hview Hfail Hval.
  destruct (other_pairs a' b' Hval) as (Hnd1 & Hnd2 & Hlen & Hrange & Etot).
  rewrite Etot. clear Etot.
  set (ps := map (reorient tr) (combine a' b')) in Hnd1, Hnd2, Hlen, Hrange
                                                   |- *.
  assert (Hvalid : forall p, In p ps -> ~ ill_valued maximize (raw p)).
  { intros p Hp. destruct (Hrange p Hp) as [Hx Hy].
    apply (raw_view p Hx Hy). }
  assert (Hnofin : Forall finite (map raw ps) -> False).
  { intros Hfin.
    apply (solve_rows_infeasible_cover pv wr wc Hview ps Hfail Hnd1 Hnd2).
    - intros i Hi.
      apply (@NoDup_length_incl nat (map fst ps) (seq 0 wr)).
      + exact Hnd1.
      + rewrite length_seq, length_map. lia.
      + intros x Hx. apply in_map_iff in Hx. destruct Hx as (p & <- & Hp).
        apply in_seq. destruct (Hrange p Hp). lia.
      + apply in_seq. lia.
    - exact Hrange.
    - intros p Hp. destruct (Hrange p Hp) as [Hx Hy].
      destruct (raw_view p Hx Hy) as [-> _].
      rewrite Forall_forall in Hfin.
      destruct (Hfin (raw p) (in_map raw ps p Hp)) as [q ->].
      destruct maximize; eexists; reflexivity. }
  destruct maximize.
  - destruct (dsum_ninf (map raw ps)) as [->|[Hfin _]]; auto.
    + apply Forall_forall. intros x Hx. apply in_map_iff in Hx.
      destruct Hx as (p & <- & Hp). apply not_ill_valued_true. auto.
    + contradiction.
  - destruct (dsum_pinf (map raw ps)) as [->|[Hfin _]]; auto.
    + apply Forall_forall. intros x Hx. apply in_map_iff in Hx.
      destruct Hx as (p & <- & Hp). apply not_ill_valued_false. auto.
    + contradiction.
Qed.

Lemma plain_optimal (L : list nat) (a b a' b' : list Z) :
  Permutation L (seq 0 wr) ->
  combine a b = map (fun i => unorient tr (i, sigma st i)) L ->
  valid_assignment nr nc a' b' ->
  if maximize then dle (total_cost nc C a' b') (total_cost nc C a b)
  else dle (total_cost nc C a b) (total_cost nc C a' b').
Proof.
  intros HL Ec Hval.
  destruct (ours_total L a b HL Ec) as (so & Eso & Hso).
  rewrite Eso. clear Eso.
  destruct (other_pairs a' b' Hval) as (Hnd1 & Hnd2 & Hlen & Hrange & Etot).
  rewrite Etot. clear Etot.
  set (ps := map (reorient tr) (combine a' b')) in Hnd1, Hnd2, Hlen, Hrange
                                                   |- *.
  assert (Hvalid : forall p, In p ps -> ~ ill_valued maximize (raw p)).
  { intros p Hp. destruct (Hrange p Hp) as [Hx Hy].
    apply (raw_view p Hx Hy). }
  assert (Hwork : Forall finite (map raw ps) ->
            (qsum (fun i => qv (view pv i (sigma st i))) (seq 0 wr)
             <= qsum (fun p => qv (view pv (fst p) (snd p))) ps)%Q).
  { intros Hfin. apply (working_optimal pv wr wc st HInv ps); auto.
    intros p Hp. destruct (Hrange p Hp) as [Hx Hy].
    destruct (raw_view p Hx Hy) as [-> _].
    rewrite Forall_forall in Hfin.
    destruct (Hfin (raw p) (in_map raw ps p Hp)) as [q ->].
    destruct maximize; eexists; reflexivity. }
  assert (Eo : (qsum (fun i => qv (view pv i (sigma st i))) (seq 0 wr)
                == if maximize then - so else so)%Q).
  { assert (Hof : forall i, In i (seq 0 wr) ->
              (qv (view pv i (sigma st i))
               == if maximize then - qv (raw (i, sigma st i))
                  else qv (raw (i, sigma st i)))%Q).
    { intros i Hi. apply in_seq in Hi. apply (ours_finite i). lia. }
    destruct maximize.
    - rewrite Hso, <- qsum_opp. apply qsum_eq. exact Hof.
    - rewrite Hso. apply qsum_eq. exact Hof. }
  assert (Ep : Forall finite (map raw ps) ->
               (qsum (fun p => qv (view pv (fst p) (snd p))) ps
                == if maximize then - qsum qv (map raw ps)
                   else qsum qv (map raw ps))%Q).
  { intros Hfin. rewrite (qsum_map qv raw).
    assert (Epw : forall p, In p ps ->
              (qv (view pv (fst p) (snd p))
               == if maximize then - qv (raw p) else qv (raw p))%Q).
    { intros p Hp. destruct (Hrange p Hp) as [Hx Hy].
      destruct (raw_view p Hx Hy) as [-> _].
      rewrite Forall_forall in Hfin.
      destruct (Hfin (raw p) (in_map raw ps p Hp)) as [q ->].
      destruct maximize; simpl; lra. }
    destruct maximize.
    - rewrite <- qsum_opp. apply qsum_eq. exact Epw.
    - apply qsum_eq. exact Epw. }
  destruct maximize.
  - destruct (dsum_ninf (map raw ps)) as [->|[Hfin ->]].
    + apply Forall_forall. intros x Hx. apply in_map_iff in Hx.
      destruct Hx as (p & <- & Hp). apply not_ill_valued_true. auto.
    + simpl. exact I.
    + simpl. specialize (Hwork Hfin). specialize (Ep Hfin). lra.
  - destruct (dsum_pinf (map raw ps)) as [->|[Hfin ->]].
    + apply Forall_forall. intros x Hx. apply in_map_iff in Hx.
      destruct Hx as (p & <- & Hp). apply not_ill_valued_false. auto.
    + simpl. exact I.
    + simpl. specialize (Hwork Hfin). specialize (Ep Hfin). lra.
Qed.
End PlainOptimal.

Lemma neg_exact_keeps_valid {T} `{Elem T} (n : Z) (C : list T)
      (maximize : bool) :
  (maximize = true ->
   forall k, 0 <= k < n -> neg_exact (zth C k elem_default)) ->
  neg_keeps_valid_on n C maximize.
Proof.
  intros Hex Hm k Hk Hv. rewrite (Hex Hm k Hk).
  unfold ill_valued in *.
  destruct (to_double (zth C k elem_default)); simpl;
    intros [E|[[E _]|[_ E]]]; try discriminate; apply Hv; auto.
Qed.

(** Without subscript: the emitted pairs are an assignment of
    [min(nr, nc)] rows to distinct columns, of optimal total cost. *)
Lemma plain_solve_optimal {T} `{Elem T} (nr nc : Z) (C : list T)
      (maximize : bool) (subrows subcols : option (list Z)) (a b : list Z) :
  0 <= nr -> 0 <= nc ->
  (maximize = true ->
   forall k, 0 <= k < nr * nc -> neg_exact (zth C k elem_default)) ->
  solve nr nc C maximize subrows 0 subcols 0 = Ok (a, b) ->
  valid_assignment nr nc a b
  /\ forall a' b',
      valid_assignment nr nc a' b' ->
      if maximize then dle (total_cost nc C a' b') (total_cost nc C a b)
      else dle (total_cost nc C a b) (total_cost nc C a' b').
Proof.
  intros Hnr Hnc Hexact Hsolve.
  pose proof (neg_exact_keeps_valid (nr * nc) C maximize Hexact) as Hneg.
  split.
  - apply (plain_valid_assignment nr nc C maximize subrows subcols a b
                                   Hnr Hnc Hsolve).
  - intros a' b' Hval.
    destruct (Z.eq_dec (Z.min nr nc) 0) as [Hz|Hnz].
    + (* an empty problem *)
      assert (Hempty : a = [] /\ b = []).
      { unfold solve in Hsolve.
        replace ((nr =? 0) || (nc =? 0))%bool with true in Hsolve
          by (symmetry; apply orb_true_iff;
              destruct (Z.eq_dec nr 0); [left|right]; apply Z.eqb_eq; lia).
        inversion Hsolve. auto. }
      destruct Hempty as [-> ->].
      destruct Hval as (Hlen & Hmin & _).
      assert (a' = []) by (destruct a'; simpl in *; [reflexivity|lia]).
      subst a'. unfold total_cost. simpl.
      destruct maximize; simpl; lra.
    + destruct (solve_plain_inv nr nc C maximize subrows subcols a b
                  Hneg ltac:(lia) ltac:(lia) Hsolve)
        as (Hscan & st & L & HInv & HL & Ec & _).
      apply (plain_optimal nr nc C maximize ltac:(lia) ltac:(lia) Hscan
                           Hexact st HInv L a b a' b' HL Ec Hval).
Qed.

(** ** Feasibility *)

(** Without subscript and past the validation, [solve] either fails in
    its main loop or returns the pairs of the final matching. *)
Lemma plain_solve_cases {T} `{Elem T} (nr nc : Z) (C : list T)
      (maximize : bool) (subrows subcols : option (list Z)) :
  0 < nr -> 0 < nc ->
  existsb (fun i => invalid_entry maximize (nth i C elem_default))
          (seq 0 (Z.to_nat (nr * nc))) = false ->
  view_ok (plain_view nr nc C maximize) (work_rows nr nc) (work_cols nr nc) ->
  (solve nr nc C maximize subrows 0 subcols 0
   = Fail RECTANGULAR_LSAP_INFEASIBLE
   /\ solve_rows (plain_view nr nc C maximize) (work_rows nr nc)
                 (work_cols nr nc) (seq 0 (work_rows nr nc))
                 (lsap_init (work_rows nr nc) (work_cols nr nc))
      = Fail RECTANGULAR_LSAP_INFEASIBLE)
  \/ exists a b, solve nr nc C maximize subrows 0 subcols 0 = Ok (a, b).
Proof.
  intros Hnr Hnc Hscan Hview.
  rewrite solve_plain_eq by auto.
  destruct (solve_rows_sound _ _ _ Hview (work_rows nr nc) 0
                             (lsap_init _ _) (Inv_init _ _ _)
                             ltac:(lia)) as [E|(st & E & _)];
    rewrite E; simpl.
  - left. split; reflexivity.
  - right. destruct (emit _ _ _ _ _) as [a b]. now exists a, b.
Qed.

Lemma solve_scan_passed {A : Arith} {T} `{Elem T} (nr nc : Z) (C : list T)
      (maximize : bool) (subrows : option (list Z)) (n_subrows : Z)
      (subcols : option (list Z)) (n_subcols : Z) (s : status) :
  0 < nr -> 0 < nc -> s <> RECTANGULAR_LSAP_INVALID ->
  solve nr nc C maximize subrows n_subrows subcols n_subcols = Fail s ->
  existsb (fun i => invalid_entry maximize (nth i C elem_default))
          (seq 0 (Z.to_nat (nr * nc))) = false.
Proof.
  intros Hnr Hnc Hs. unfold solve.
  replace ((nr =? 0) || (nc =? 0))%bool with false
    by (symmetry; apply orb_false_iff; split; apply Z.eqb_neq; lia).
  destruct (existsb _ _); [|reflexivity].
  intros E. inversion E. congruence.
Qed.

(** In exact arithmetic, when [solve] without subscript returns
    [RECTANGULAR_LSAP_INFEASIBLE], every assignment of [min(nr, nc)] rows
    to distinct columns has an infinite total cost: the status is never
    returned for a matrix that has an assignment of finite cost. *)
Theorem infeasible_means_no_finite_assignment {T} `{Elem T}
        (nr nc : Z) (C : list T) (maximize : bool)
        (subrows subcols : option (list Z)) (a' b' : list Z) :
  0 <= nr -> 0 <= nc ->
  (maximize = true ->
   forall k, 0 <= k < nr * nc -> neg_exact (zth C k elem_default)) ->
  solve (A := exact_arith) nr nc C maximize subrows 0 subcols 0
  = Fail RECTANGULAR_LSAP_INFEASIBLE ->
  valid_assignment nr nc a' b' ->
  total_cost nc C a' b' = if maximize then NInf else PInf.
Proof.
  intros Hnr Hnc Hexact Hsolve Hval.
  assert (Hpos : 0 < nr /\ 0 < nc).
  { destruct (Z.eq_dec nr 0) as [->|]; [discriminate|].
    destruct (Z.eq_dec nc 0) as [->|]; [|lia].
    unfold solve in Hsolve. rewrite Z.eqb_refl, orb_true_r in Hsolve.
    discriminate. }
  destruct Hpos as [Hnr0 Hnc0].
  assert (Hs : RECTANGULAR_LSAP_INFEASIBLE <> RECTANGULAR_LSAP_INVALID)
    by discriminate.
  pose proof (solve_scan_passed nr nc C maximize subrows 0 subcols 0 _
                                Hnr0 Hnc0 Hs Hsolve) as Hscan.
  pose proof (plain_view_ok_on nr nc C maximize
                (neg_exact_keeps_valid _ _ _ Hexact) Hscan) as Hview.
  destruct (plain_solve_cases nr nc C maximize subrows subcols
                              Hnr0 Hnc0 Hscan Hview)
    as [[_ Hrows]|(a & b & E)]; [|congruence].
  exact (plain_infeasible_infinite nr nc C maximize Hnr0 Hnc0 Hscan Hexact
                                   a' b' Hview Hrows Hval).
Qed.

(** ** Distinctness of the emitted indices *)

(** A subscript argument as the caller passes it: absent ([n = 0]), or a
    vector of [n] entries.  [distinct] adds that no entry is repeated. *)
Definition subscript_wf (distinct : bool) (sub : option (list Z)) (n : Z)
  : Prop :=
  n = 0
  \/ exists P, sub = Some P /\ n = Z.of_nat (length P)
               /\ (distinct = true -> NoDup P).

(** C5, as the specification states it, with the row selector [0, 0]: the
    solve succeeds and emits row 0 twice, in machine arithmetic as in
    exact arithmetic. *)
Lemma repeated_subscript_repeats_row :
  let repeats (A : Arith) :=
    solve 2 2 [Fin 1; Fin 2; Fin 3; Fin 4] false
          (Some [0; 0]) 2 (Some [0; 1]) 2
    = Ok ([0; 0], [0; 1]) in
  repeats ieee_arith /\ repeats exact_arith
  /\ subscript_wf false (Some [0; 0]) 2
  /\ ~ NoDup [0; 0].
Proof.
  split; [vm_compute; reflexivity|].
  split; [vm_compute; reflexivity|]. split.
  - right. exists [0; 0]. repeat split. discriminate.
  - intros Hnd. inversion Hnd as [|x l Hin _]; subst. apply Hin. now left.
Qed.

Lemma subscript_bound_checked (sub : list Z) (bound : Z) :
  subscript_out_of_bound sub (Z.of_nat (length sub)) bound = false ->
  forall x, In x sub -> 0 <= x < bound.
Proof.
  intros Hchk x Hx.
  destruct (In_nth sub x 0 Hx) as (k & Hk & Ek).
  destruct ((x <? 0) || (x >=? bound))%bool eqn:E.
  - assert (Hex : subscript_out_of_bound sub (Z.of_nat (length sub)) bound
                  = true).
    { unfold subscript_out_of_bound. apply existsb_seq_iff.
      exists k. rewrite Nat2Z.id. split; auto. simpl. now rewrite Ek. }
    congruence.
  - apply orb_false_iff in E. destruct E as [E1 E2]. lia.
Qed.

Lemma NoDup_map_zth (P : list Z) (l : list Z) :
  NoDup P -> NoDup l ->
  (forall x, In x l -> 0 <= x < Z.of_nat (length P)) ->
  NoDup (map (fun x => zth P x 0) l).
Proof.
  intros HP. induction 1 as [|x l Hx Hnd IH]; intros Hr; simpl; constructor.
  - intros Hin. apply in_map_iff in Hin. destruct Hin as (y & E & Hy).
    pose proof (Hr x (or_introl eq_refl)) as Hxr.
    pose proof (Hr y (or_intror Hy)) as Hyr.
    unfold zth in E.
    apply (proj1 (NoDup_nth P 0) HP) in E; try lia.
    assert (x = y) by lia. subst y. contradiction.
  - apply IH. intros y Hy. apply Hr. now right.
Qed.

Lemma solve_rows_only {A : Arith} {T} `{Elem T} (nr nc : Z) (cost : list T)
      (maximize : bool) (P : list Z) (subcols : option (list Z))
      (a b : list Z) :
  P <> [] ->
  solve nr nc cost maximize (Some P) (Z.of_nat (length P)) subcols 0
  = Ok (a, b) ->
  a = [] /\ b = [].
Proof.
  intros HP. unfold solve, check_subscript.
  assert (HlP : (0 < length P)%nat) by (destruct P; simpl; [congruence|lia]).
  destruct ((nr =? 0) || (nc =? 0))%bool;
    [intros E; inversion E; auto|].
  destruct (existsb _ _); [discriminate|].
  replace (Z.of_nat (length P) =? 0) with false
    by (symmetry; apply Z.eqb_neq; lia).
  replace (Z.of_nat (length P) <? 0) with false
    by (symmetry; apply Z.ltb_ge; lia).
  destruct (subscript_out_of_bound _ _ _); [discriminate|].
  simpl. unfold orient. simpl.
  replace (0 <? Z.of_nat (length P)) with true
    by (symmetry; apply Z.ltb_lt; lia).
  destruct maximize; simpl; intros E; inversion E; auto.
Qed.

Lemma solve_cols_only {A : Arith} {T} `{Elem T} (nr nc : Z) (cost : list T)
      (maximize : bool) (subrows : option (list Z)) (Q : list Z)
      (a b : list Z) :
  Q <> [] ->
  solve nr nc cost maximize subrows 0 (Some Q) (Z.of_nat (length Q))
  = Ok (a, b) ->
  a = [] /\ b = [].
Proof.
  intros HQ. unfold solve, check_subscript.
  assert (HlQ : (0 < length Q)%nat) by (destruct Q; simpl; [congruence|lia]).
  destruct ((nr =? 0) || (nc =? 0))%bool;
    [intros E; inversion E; auto|].
  destruct (existsb _ _); [discriminate|].
  replace (Z.of_nat (length Q) =? 0) with false
    by (symmetry; apply Z.eqb_neq; lia).
  replace (Z.of_nat (length Q) <? 0) with false
    by (symmetry; apply Z.ltb_ge; lia).
  simpl.
  destruct (subscript_out_of_bound _ _ _); [discriminate|].
  simpl. unfold orient. simpl.
  replace (Z.of_nat (length Q) <? 0) with false
    by (symmetry; apply Z.ltb_ge; lia).
  destruct maximize; simpl; intros E; inversion E; auto.
Qed.

Lemma solve_both_checked {A : Arith} {T} `{Elem T} (nr nc : Z) (cost : list T)
      (maximize : bool) (P Q : list Z) (a b : list Z) :
  P <> [] -> Q <> [] -> nr <> 0 -> nc <> 0 ->
  solve nr nc cost maximize (Some P) (Z.of_nat (length P))
        (Some Q) (Z.of_nat (length Q)) = Ok (a, b) ->
  (forall p, In p P -> 0 <= p < nr)
  /\ (forall q, In q Q -> 0 <= q < nc)
  /\ (forall k, 0 <= k < nr * nc ->
                ~ ill_valued maximize (to_double (zth cost k elem_default))).
Proof.
  intros HP HQ Hnr Hnc. unfold solve, check_subscript.
  assert (HlP : (0 < length P)%nat) by (destruct P; simpl; [congruence|lia]).
  assert (HlQ : (0 < length Q)%nat) by (destruct Q; simpl; [congruence|lia]).
  replace ((nr =? 0) || (nc =? 0))%bool with false
    by (symmetry; apply orb_false_iff; split; apply Z.eqb_neq; lia).
  destruct (existsb _ _) eqn:Hscan; [discriminate|].
  replace (Z.of_nat (length P) =? 0) with false
    by (symmetry; apply Z.eqb_neq; lia).
  replace (Z.of_nat (length P) <? 0) with false
    by (symmetry; apply Z.ltb_ge; lia).
  replace (Z.of_nat (length Q) =? 0) with false
    by (symmetry; apply Z.eqb_neq; lia).
  replace (Z.of_nat (length Q) <? 0) with false
    by (symmetry; apply Z.ltb_ge; lia).
  destruct (subscript_out_of_bound P _ nr) eqn:EP; [discriminate|].
  simpl.
  destruct (subscript_out_of_bound Q _ nc) eqn:EQ; [discriminate|].
  intros _. split; [|split].
  - apply subscript_bound_checked; auto.
  - apply subscript_bound_checked; auto.
  - intros k Hk Hbad.
    assert (Hex : existsb (fun i => invalid_entry maximize
                                      (nth i cost elem_default))
                          (seq 0 (Z.to_nat (nr * nc))) = true).
    { apply existsb_seq_iff. exists (Z.to_nat k). split; [lia|].
      apply invalid_entry_iff. exact Hbad. }
    congruence.
Qed.

(** C5, amended.  When [solve] returns status 0 and no subscript selector
    repeats an index, the emitted [a] values are pairwise distinct and the
    emitted [b] values are pairwise distinct. *)
Theorem solve_pairwise_distinct {A : Arith} {T} `{Elem T}
        (nr nc : Z) (cost : list T) (maximize : bool)
        (subrows : option (list Z)) (n_subrows : Z)
        (subcols : option (list Z)) (n_subcols : Z) (a b : list Z) :
  0 <= nr -> 0 <= nc ->
  subscript_wf true subrows n_subrows ->
  subscript_wf true subcols n_subcols ->
  solve nr nc cost maximize subrows n_subrows subcols n_subcols = Ok (a, b) ->
  NoDup a /\ NoDup b.
Proof.
  intros Hnr Hnc Hwr Hwc Hsolve.
  assert (Hnil : forall P : list Z, Z.of_nat (length P) = 0 -> P = []).
  { intros [|x P] E; simpl in E; [reflexivity|lia]. }
  destruct Hwr as [->|(P & -> & -> & HndP)];
    destruct Hwc as [->|(Q & -> & -> & HndQ)].
  - destruct (plain_valid_assignment nr nc cost maximize subrows subcols a b
                                     Hnr Hnc Hsolve)
      as (_ & _ & Ha & Hb & _). auto.
  - destruct (Z.eq_dec (Z.of_nat (length Q)) 0) as [E|E].
    + rewrite E in Hsolve.
      destruct (plain_valid_assignment nr nc cost maximize subrows (Some Q)
                                       a b Hnr Hnc Hsolve)
        as (_ & _ & Ha & Hb & _). auto.
    + destruct (solve_cols_only nr nc cost maximize subrows Q a b) as [-> ->];
        auto; [intros ->; simpl in E; lia | split; constructor].
  - destruct (Z.eq_dec (Z.of_nat (length P)) 0) as [E|E].
    + rewrite E in Hsolve.
      destruct (plain_valid_assignment nr nc cost maximize (Some P) subcols
                                       a b Hnr Hnc Hsolve)
        as (_ & _ & Ha & Hb & _). auto.
    + destruct (solve_rows_only nr nc cost maximize P subcols a b) as [-> ->];
        auto; [intros ->; simpl in E; lia | split; constructor].
  - destruct (Z.eq_dec nr 0) as [->|Hnr0];
      [|destruct (Z.eq_dec nc 0) as [->|Hnc0]].
    + unfold solve in Hsolve. simpl in Hsolve. inversion Hsolve.
      split; constructor.
    + unfold solve in Hsolve. rewrite Z.eqb_refl, orb_true_r in Hsolve.
      inversion Hsolve. split; constructor.
    + destruct (Z.eq_dec (Z.of_nat (length P)) 0) as [EP|EP];
        [|destruct (Z.eq_dec (Z.of_nat (length Q)) 0) as [EQ|EQ]].
      * rewrite EP in Hsolve.
        destruct (Z.eq_dec (Z.of_nat (length Q)) 0) as [EQ|EQ].
        -- rewrite EQ in Hsolve.
           destruct (plain_valid_assignment nr nc cost maximize (Some P)
                       (Some Q) a b Hnr Hnc Hsolve)
             as (_ & _ & Ha & Hb & _). auto.
        -- destruct (solve_cols_only nr nc cost maximize (Some P) Q a b)
             as [-> ->]; auto;
             [intros ->; simpl in EQ; lia | split; constructor].
      * rewrite EQ in Hsolve.
        destruct (solve_rows_only nr nc cost maximize P (Some Q) a b)
          as [-> ->]; auto;
          [intros ->; simpl in EP; lia | split; constructor].
      * assert (HPne : P <> []) by (intros ->; simpl in EP; lia).
        assert (HQne : Q <> []) by (intros ->; simpl in EQ; lia).
        destruct (solve_both_checked nr nc cost maximize P Q a b HPne HQne
                                     Hnr0 Hnc0 Hsolve) as (HPr & HQr & Hval).
        rewrite (subscript_as_submatrix nr nc cost maximize P Q HPne HQne
                                        HPr HQr Hval) in Hsolve.
        destruct (solve (Z.of_nat (length P)) (Z.of_nat (length Q))
                        (submatrix nc cost P Q) maximize None 0 None 0)
          as [[a0 b0]|s|] eqn:Einner; simpl in Hsolve; try discriminate.
        inversion Hsolve; subst a b.
        destruct (plain_valid_assignment _ _ _ _ _ _ a0 b0
                    (Nat2Z.is_nonneg _) (Nat2Z.is_nonneg _) Einner)
          as (_ & _ & Ha & Hb & Hra & Hrb).
        split; apply NoDup_map_zth; auto.
Qed.

Lemma solve_pairwise_distinct_witness :
  let C := [Fin 4; Fin 1; Fin 3; Fin 2; Fin 0; Fin 5; Fin 3; Fin 2; Fin 2] in
  solve (A := ieee_arith) 3 3 C false (Some [0; 2]) 2 (Some [1; 2]) 2
  = Ok ([0; 2], [1; 2])
  /\ NoDup [0; 2] /\ NoDup [1; 2].
Proof.
  intros C. split; [vm_compute; reflexivity|].
  apply (solve_pairwise_distinct (A := ieee_arith)
           3 3 C false (Some [0; 2]) 2 (Some [1; 2]) 2 [0; 2] [1; 2]).
  - lia.
  - lia.
  - right. exists [0; 2]. split; [reflexivity|]. split; [reflexivity|].
    intros _. repeat constructor; simpl; intuition lia.
  - right. exists [1; 2]. split; [reflexivity|]. split; [reflexivity|].
    intros _. repeat constructor; simpl; intuition lia.
  - vm_compute. reflexivity.
Defined.

(** ** Optimality, with and without subscript *)

Lemma combine_map_both {A B A' B'} (f : A -> A') (g : B -> B')
      (l : list A) (l' : list B) :
  combine (map f l) (map g l')
  = map (fun xy => (f (fst xy), g (snd xy))) (combine l l').
Proof.
  revert l'. induction l as [|x l IH]; intros [|y l']; simpl; auto.
  now rewrite IH.
Qed.

(** Every entry of the materialized submatrix is an entry of the matrix. *)
Lemma submatrix_entry {T} `{Elem T} (nr nc : Z) (C : list T) (P Q : list Z)
      (k : nat) :
  (forall p, In p P -> 0 <= p < nr) ->
  (forall q, In q Q -> 0 <= q < nc) ->
  (k < length P * length Q)%nat ->
  exists c, 0 <= c < nr * nc
            /\ nth k (submatrix nc C P Q) elem_default
               = zth C c elem_default.
Proof.
  intros HP HQ Hk.
  assert (HQpos : (0 < length Q)%nat) by (destruct Q; simpl in *; lia).
  pose proof (Nat.div_mod_eq k (length Q)) as Hdm.
  assert (Hj : (k mod length Q < length Q)%nat)
    by (apply Nat.mod_upper_bound; lia).
  assert (Hi : (k / length Q < length P)%nat)
    by (apply Nat.Div0.div_lt_upper_bound; lia).
  remember (k / length Q)%nat as i eqn:Ei.
  remember (k mod length Q)%nat as j eqn:Ej.
  assert (Ek : k = (i * length Q + j)%nat) by lia.
  pose proof (HP _ (nth_In P 0 Hi)) as Hp.
  pose proof (HQ _ (nth_In Q 0 Hj)) as Hq.
  exists (nth i P 0 * nc + nth j Q 0). split; [nia|].
  rewrite Ek. apply submatrix_nth; auto.
Qed.

(** The total cost of positions of the submatrix is the total cost of the
    selected rows and columns in the matrix. *)
Lemma total_cost_submatrix {T} `{Elem T} (nc : Z) (C : list T)
      (P Q ia ib : list Z) :
  (forall x, In x ia -> 0 <= x < Z.of_nat (length P)) ->
  (forall y, In y ib -> 0 <= y < Z.of_nat (length Q)) ->
  total_cost (Z.of_nat (length Q)) (submatrix nc C P Q) ia ib
  = total_cost nc C (map (fun x => zth P x 0) ia)
                    (map (fun y => zth Q y 0) ib).
Proof.
  intros Hia Hib. unfold total_cost.
  rewrite combine_map_both, map_map. f_equal.
  apply map_ext_in. intros [x y] Hxy. cbn [fst snd].
  pose proof (in_combine_l _ _ _ _ Hxy) as Hx. apply Hia in Hx.
  pose proof (in_combine_r _ _ _ _ Hxy) as Hy. apply Hib in Hy.
  f_equal. unfold zth at 1.
  replace (Z.to_nat (x * Z.of_nat (length Q) + y))
    with (Z.to_nat x * length Q + Z.to_nat y)%nat by nia.
  rewrite submatrix_nth by lia. reflexivity.
Qed.

(** C1, as the specification states it, fails in three ways.  With the
    row selector [1, 1] the solve returns status 0 and assigns row 1
    twice.  On the [bool] matrix [false true] with [maximize] the solve
    returns status 0 and the pair [(0, 0)] of total cost 0, below the total
    cost 1 of the assignment [(0, 1)].  Both happen in machine arithmetic
    as in exact arithmetic.  And on the [double] matrix with rows
    [1e16, 1e16 + 2] and [1, 3.5] the additions of the machine round: the
    solve returns the diagonal, of total cost [1e16 + 3.5], above the total
    cost [1e16 + 3] of the other assignment. *)
Lemma status_zero_without_optimal_assignment :
  let repeats (A : Arith) :=
    solve 2 2 [Fin 7; Fin 3; Fin 5; Fin 1] false (Some [1; 1]) 2
          (Some [0; 1]) 2 = Ok ([1; 1], [1; 0]) in
  let bool_not_maximized (A : Arith) :=
    solve_rectangular_linear_sum_assignment_dtype
      1 2 LSAP_BOOL [false; true] true None 0 None 0 = Ok ([0], [0]) in
  let C := [Fin (inject_Z (10 ^ 16)); Fin (inject_Z (10 ^ 16 + 2));
            Fin 1; Fin (7 # 2)] in
  (repeats ieee_arith /\ repeats exact_arith
   /\ ~ valid_assignment 2 2 [1; 1] [1; 0])
  /\ (bool_not_maximized ieee_arith /\ bool_not_maximized exact_arith
      /\ valid_assignment 1 2 [0] [1]
      /\ ~ dle (total_cost 2 [false; true] [0] [1])
               (total_cost 2 [false; true] [0] [0]))
  /\ (solve (A := ieee_arith) 2 2 C false None 0 None 0
      = Ok ([0; 1], [0; 1])
      /\ (forall x, In x C -> round_to F_double x = x)
      /\ valid_assignment 2 2 [0; 1] [1; 0]
      /\ ~ dle (total_cost 2 C [0; 1] [0; 1])
               (total_cost 2 C [0; 1] [1; 0])).
Proof.
  assert (Hva : forall a0 a1 b0 b1 : Z,
             a0 <> a1 -> b0 <> b1 ->
             0 <= a0 < 2 -> 0 <= a1 < 2 -> 0 <= b0 < 2 -> 0 <= b1 < 2 ->
             valid_assignment 2 2 [a0; a1] [b0; b1]).
  { intros a0 a1 b0 b1 Ha Hb Ha0 Ha1 Hb0 Hb1. unfold valid_assignment.
    split; [reflexivity|]. split; [reflexivity|].
    split; [repeat constructor; simpl; intuition congruence|].
    split; [repeat constructor; simpl; intuition congruence|].
    split; intros z [<-|[<-|[]]]; assumption. }
  split; [split; [|split] | split; [split; [|split; [|split]]|]].
  - vm_compute. reflexivity.
  - vm_compute. reflexivity.
  - intros (_ & _ & Hnd & _). inversion Hnd as [|x l Hin _]; subst.
    apply Hin. left. reflexivity.
  - vm_compute. reflexivity.
  - vm_compute. reflexivity.
  - unfold valid_assignment. simpl.
    split; [reflexivity|]. split; [reflexivity|].
    split; [repeat constructor; intros []|].
    split; [repeat constructor; intros []|].
    split; intros z [<-|[]]; lia.
  - unfold total_cost. simpl. unfold Qle. simpl. lia.
  - split; [vm_compute; reflexivity|].
    split; [intros x [<-|[<-|[<-|[<-|[]]]]]; vm_compute; reflexivity|].
    split; [apply Hva; lia|].
    vm_compute. intros Hc. apply Hc. reflexivity.
Qed.

(** C1, amended.  In every arithmetic, when [solve] returns status 0:
    (1) without subscript the pairs [(a[k], b[k])] are an assignment of
    [min(nr, nc)] pairwise distinct rows to pairwise distinct columns;
    (2) with row and column selectors [P] and [Q] the pairs are
    [(P[ia[k]], Q[ib[k]])] for such an assignment [(ia, ib)] of
    [min(|P|, |Q|)] positions of [P] to positions of [Q].
    In exact arithmetic, that is as long as no operation of the run rounds
    or overflows, and with a negation in the element type that is exact on
    the entries when maximizing (as it is for [double]): (3) without
    subscript the total cost of the pairs in the matrix as passed is at
    most the total cost of every assignment of that size when minimizing,
    and at least that when maximizing; (4) with selectors the total cost
    of the pairs is optimal among the assignments of positions. *)
Theorem solve_optimal {T} `{Elem T} (nr nc : Z) (C : list T)
        (maximize : bool) :
  0 <= nr -> 0 <= nc ->
  (forall (A : Arith) subrows subcols a b,
      solve (A := A) nr nc C maximize subrows 0 subcols 0 = Ok (a, b) ->
      valid_assignment nr nc a b)
  /\ (forall (A : Arith) P Q a b,
         P <> [] -> Q <> [] -> 0 < nr -> 0 < nc ->
         solve (A := A) nr nc C maximize (Some P) (Z.of_nat (length P))
               (Some Q) (Z.of_nat (length Q)) = Ok (a, b) ->
         exists ia ib,
           valid_assignment (Z.of_nat (length P)) (Z.of_nat (length Q)) ia ib
           /\ a = map (fun x => zth P x 0) ia
           /\ b = map (fun y => zth Q y 0) ib)
  /\ ((maximize = true ->
       forall k, 0 <= k < nr * nc -> neg_exact (zth C k elem_default)) ->
      (forall subrows subcols a b,
          solve (A := exact_arith) nr nc C maximize subrows 0 subcols 0
          = Ok (a, b) ->
          forall a' b',
            valid_assignment nr nc a' b' ->
            if maximize
            then dle (total_cost nc C a' b') (total_cost nc C a b)
            else dle (total_cost nc C a b) (total_cost nc C a' b'))
      /\ (forall P Q a b,
             P <> [] -> Q <> [] -> 0 < nr -> 0 < nc ->
             solve (A := exact_arith) nr nc C maximize
                   (Some P) (Z.of_nat (length P))
                   (Some Q) (Z.of_nat (length Q)) = Ok (a, b) ->
             forall ia' ib',
               valid_assignment (Z.of_nat (length P)) (Z.of_nat (length Q))
                                ia' ib' ->
               let a' := map (fun x => zth P x 0) ia' in
               let b' := map (fun y => zth Q y 0) ib' in
               if maximize
               then dle (total_cost nc C a' b') (total_cost nc C a b)
               else dle (total_cost nc C a b) (total_cost nc C a' b'))).
Proof.
  intros Hnr Hnc.
  assert (Hsel : forall (A : Arith) P Q a b,
             P <> [] -> Q <> [] -> 0 < nr -> 0 < nc ->
             solve (A := A) nr nc C maximize (Some P) (Z.of_nat (length P))
                   (Some Q) (Z.of_nat (length Q)) = Ok (a, b) ->
             (forall p, In p P -> 0 <= p < nr)
             /\ (forall q, In q Q -> 0 <= q < nc)
             /\ exists ia ib,
                 solve (A := A) (Z.of_nat (length P)) (Z.of_nat (length Q))
                       (submatrix nc C P Q) maximize None 0 None 0
                 = Ok (ia, ib)
                 /\ a = map (fun x => zth P x 0) ia
                 /\ b = map (fun y => zth Q y 0) ib).
  { intros A P Q a b HPne HQne Hnr0 Hnc0 Hsolve.
    destruct (solve_both_checked nr nc C maximize P Q a b HPne HQne
                ltac:(lia) ltac:(lia) Hsolve) as (HP & HQ & Hvalid).
    rewrite (subscript_as_submatrix nr nc C maximize P Q HPne HQne HP HQ
                                    Hvalid) in Hsolve.
    destruct (solve (Z.of_nat (length P)) (Z.of_nat (length Q))
                    (submatrix nc C P Q) maximize None 0 None 0)
      as [[ia ib]|s|] eqn:Hsub; simpl in Hsolve; try discriminate.
    inversion Hsolve as [[Ea Eb]].
    split; [exact HP|]. split; [exact HQ|].
    exists ia, ib. repeat split; reflexivity. }
  split; [|split].
  - intros A subrows subcols a b Hsolve.
    exact (plain_valid_assignment nr nc C maximize subrows subcols a b
                                  Hnr Hnc Hsolve).
  - intros A P Q a b HPne HQne Hnr0 Hnc0 Hsolve.
    destruct (Hsel A P Q a b HPne HQne Hnr0 Hnc0 Hsolve)
      as (_ & _ & ia & ib & Hsub & Ea & Eb).
    exists ia, ib. split; [|split; assumption].
    exact (plain_valid_assignment _ _ _ maximize None None ia ib
             (Nat2Z.is_nonneg _) (Nat2Z.is_nonneg _) Hsub).
  - intros Hexact. split.
    + intros subrows subcols a b Hsolve.
      exact (proj2 (plain_solve_optimal nr nc C maximize subrows subcols a b
                                        Hnr Hnc Hexact Hsolve)).
    + intros P Q a b HPne HQne Hnr0 Hnc0 Hsolve.
      destruct (Hsel exact_arith P Q a b HPne HQne Hnr0 Hnc0 Hsolve)
        as (HP & HQ & ia & ib & Hsub & Ea & Eb).
      assert (Hexact' : maximize = true ->
                forall k,
                  0 <= k < Z.of_nat (length P) * Z.of_nat (length Q) ->
                  neg_exact (zth (submatrix nc C P Q) k elem_default)).
      { intros Hm k Hk. unfold zth.
        destruct (submatrix_entry nr nc C P Q (Z.to_nat k) HP HQ ltac:(nia))
          as (c & Hc & ->).
        apply Hexact; auto. }
      destruct (plain_solve_optimal _ _ _ maximize None None ia ib
                  (Nat2Z.is_nonneg _) (Nat2Z.is_nonneg _) Hexact' Hsub)
        as [Hval Hopt].
      intros ia' ib' Hval' a' b'. subst a' b' a b.
      specialize (Hopt ia' ib' Hval').
      destruct Hval as (_ & _ & _ & _ & Hra & Hrb).
      destruct Hval' as (_ & _ & _ & _ & Hra' & Hrb').
      rewrite !total_cost_submatrix in Hopt by auto.
      exact Hopt.
Qed.

Lemma solve_optimal_witness :
  let C := [Fin 4; Fin 1; Fin 3; Fin 2; Fin 0; Fin 5; Fin 3; Fin 2; Fin 2] in
  (solve (A := ieee_arith) 3 3 C true None 0 None 0
   = Ok ([0; 1; 2], [0; 2; 1])
   /\ valid_assignment 3 3 [0; 1; 2] [0; 2; 1])
  /\ (solve (A := ieee_arith) 3 3 C true (Some [0; 2]) 2 (Some [2; 1; 0]) 3
      = Ok ([0; 2], [0; 1])
      /\ exists ia ib,
          valid_assignment 2 3 ia ib
          /\ [0; 2] = map (fun x => zth [0; 2] x 0) ia
          /\ [0; 1] = map (fun y => zth [2; 1; 0] y 0) ib)
  /\ (solve (A := exact_arith) 3 3 C true None 0 None 0
      = Ok ([0; 1; 2], [0; 2; 1])
      /\ forall a' b',
          valid_assignment 3 3 a' b' ->
          dle (total_cost 3 C a' b') (total_cost 3 C [0; 1; 2] [0; 2; 1]))
  /\ (solve (A := exact_arith) 3 3 C true (Some [0; 2]) 2 (Some [2; 1; 0]) 3
      = Ok ([0; 2], [0; 1])
      /\ forall ia' ib',
          valid_assignment 2 3 ia' ib' ->
          dle (total_cost 3 C (map (fun x => zth [0; 2] x 0) ia')
                          (map (fun y => zth [2; 1; 0] y 0) ib'))
              (total_cost 3 C [0; 2] [0; 1])).
Proof.
  intros C.
  destruct (solve_optimal 3 3 C true) as (Hplain & Hsub & Hopt);
    [lia | lia |].
  destruct Hopt as [Hoptp Hopts]; [intros _ k _; reflexivity|].
  split; [|split; [|split]].
  - split; [vm_compute; reflexivity|].
    apply (Hplain ieee_arith None None). vm_compute. reflexivity.
  - split; [vm_compute; reflexivity|].
    apply (Hsub ieee_arith [0; 2] [2; 1; 0]);
      [discriminate | discriminate | lia | lia | vm_compute; reflexivity].
  - split; [vm_compute; reflexivity|].
    apply (Hoptp None None). vm_compute. reflexivity.
  - split; [vm_compute; reflexivity|].
    apply (Hopts [0; 2] [2; 1; 0] [0; 2] [0; 1]);
      [discriminate | discriminate | lia | lia | vm_compute; reflexivity].
Defined.

Lemma finite_not_ill_valued (maximize : bool) (x : double) :
  finite x -> ~ ill_valued maximize x.
Proof.
  intros [q ->] [E|[[E _]|[E _]]]; discriminate.
Qed.

Lemma finite_entries_scan {T} `{Elem T} (n : Z) (C : list T)
      (maximize : bool) :
  (forall k, 0 <= k < n -> finite (to_double (zth C k elem_default))) ->
  existsb (fun i => invalid_entry maximize (nth i C elem_default))
          (seq 0 (Z.to_nat n)) = false.
Proof.
  intros Hfin.
  match goal with |- ?x = false => destruct x eqn:E; auto end.
  apply existsb_seq_iff in E. destruct E as (k & Hk & Hbad).
  apply invalid_entry_iff in Hbad. exfalso.
  apply (finite_not_ill_valued maximize _ (Hfin (Z.of_nat k) ltac:(lia))).
  rewrite zth_nat. exact Hbad.
Qed.

(** A matrix of finite entries is solved, without subscript, when the
    arithmetic of line 136 keeps the entries the solver views finite. *)
Lemma plain_finite_solved {A : Arith} {T} `{Elem T} (nr nc : Z)
      (C : list T) (maximize : bool) (subrows subcols : option (list Z)) :
  0 <= nr -> 0 <= nc ->
  (forall k, 0 <= k < nr * nc -> finite (to_double (zth C k elem_default))) ->
  (forall k, 0 <= k < nr * nc ->
     finite (first_distance elem_format
               (to_double (if maximize then elem_neg (zth C k elem_default)
                           else zth C k elem_default)))) ->
  exists a b, solve nr nc C maximize subrows 0 subcols 0 = Ok (a, b).
Proof.
  intros Hnr Hnc Hfin Hkept.
  destruct (Z.eq_dec nr 0) as [->|Hnr0];
    [exists [], []; reflexivity|].
  destruct (Z.eq_dec nc 0) as [->|Hnc0].
  { exists [], []. unfold solve. now rewrite Z.eqb_refl, orb_true_r. }
  pose proof (finite_entries_scan (nr * nc) C maximize Hfin) as Hscan.
  rewrite solve_plain_eq by (auto; lia).
  pose proof (work_shape nr nc Hnr Hnc) as Hshape.
  assert (Hle : (work_rows nr nc <= work_cols nr nc)%nat).
  { destruct (Z.ltb_spec nc nr); lia. }
  destruct (solve_rows_crosses (plain_view nr nc C maximize)
                               (work_rows nr nc) (work_cols nr nc))
    as [st ->]; [|exact Hle|].
  - intros i j Hi Hj. apply finite_below. unfold view, cost_at.
    destruct (plain_view_get nr nc C maximize i j Hi Hj) as (k & Hk & _ & ->).
    apply Hkept. exact Hk.
  - cbn [bind].
    destruct (emit (nc <? nr) None None (work_rows nr nc) (l_col4row st))
      as [a b].
    exists a, b. reflexivity.
Qed.

(** In exact arithmetic, the entries under the pairs [solve] returns are
    finite: an infinite entry, which forbids a pair, is never part of the
    assignment.  With selectors [P] and [Q] the pairs are read through
    them. *)
Theorem solve_assigns_finite_entries {T} `{Elem T}
        (nr nc : Z) (C : list T) (maximize : bool) :
  0 <= nr -> 0 <= nc ->
  (maximize = true ->
   forall k, 0 <= k < nr * nc -> neg_exact (zth C k elem_default)) ->
  (forall subrows subcols a b,
      solve (A := exact_arith) nr nc C maximize subrows 0 subcols 0 = Ok (a, b) ->
      forall x y, In (x, y) (combine a b) ->
                  finite (to_double (zth C (x * nc + y) elem_default)))
  /\ (forall P Q a b,
         P <> [] -> Q <> [] -> 0 < nr -> 0 < nc ->
         solve (A := exact_arith) nr nc C maximize (Some P) (Z.of_nat (length P))
               (Some Q) (Z.of_nat (length Q)) = Ok (a, b) ->
         forall x y, In (x, y) (combine a b) ->
                     finite (to_double (zth C (x * nc + y) elem_default))).
Proof.
  intros Hnr Hnc Hexact.
  assert (Hplain : forall (nr nc : Z) (C : list T) subrows subcols a b,
             0 <= nr -> 0 <= nc ->
             (maximize = true ->
              forall k, 0 <= k < nr * nc ->
                        neg_exact (zth C k elem_default)) ->
             solve nr nc C maximize subrows 0 subcols 0 = Ok (a, b) ->
             forall x y, In (x, y) (combine a b) ->
               finite (to_double (zth C (x * nc + y) elem_default))).
  { clear. intros nr nc C subrows subcols a b Hnr Hnc Hexact Hsolve x y Hxy.
    destruct (Z.eq_dec (Z.min nr nc) 0) as [Hz|Hnz].
    - exfalso. unfold solve in Hsolve.
      replace ((nr =? 0) || (nc =? 0))%bool with true in Hsolve
        by (symmetry; apply orb_true_iff;
            destruct (Z.eq_dec nr 0); [left|right]; apply Z.eqb_eq; lia).
      inversion Hsolve; subst. destruct Hxy.
    - destruct (solve_plain_inv nr nc C maximize subrows subcols a b
                  (neg_exact_keeps_valid _ _ _ Hexact)
                  ltac:(lia) ltac:(lia) Hsolve)
        as (Hscan & st & L & HInv & HL & Ec & _).
      pose proof (ours_entries_finite nr nc C maximize ltac:(lia) ltac:(lia)
                    Hscan Hexact st HInv L a b HL Ec) as Hall.
      rewrite Forall_forall in Hall. exact (Hall (x, y) Hxy). }
  split.
  - intros subrows subcols a b Hsolve.
    exact (Hplain nr nc C subrows subcols a b Hnr Hnc Hexact Hsolve).
  - intros P Q a b HPne HQne Hnr0 Hnc0 Hsolve x y Hxy.
    destruct (solve_both_checked nr nc C maximize P Q a b HPne HQne
                ltac:(lia) ltac:(lia) Hsolve) as (HP & HQ & Hvalid).
    rewrite (subscript_as_submatrix nr nc C maximize P Q HPne HQne HP HQ
                                    Hvalid) in Hsolve.
    destruct (solve (Z.of_nat (length P)) (Z.of_nat (length Q))
                    (submatrix nc C P Q) maximize None 0 None 0)
      as [[ia ib]|s|] eqn:Hsub; simpl in Hsolve; try discriminate.
    inversion Hsolve as [[Ea Eb]]. subst a b. clear Hsolve.
    assert (Hexact' : maximize = true ->
              forall k, 0 <= k < Z.of_nat (length P) * Z.of_nat (length Q) ->
                        neg_exact (zth (submatrix nc C P Q) k elem_default)).
    { intros Hm k Hk. unfold zth.
      destruct (submatrix_entry nr nc C P Q (Z.to_nat k) HP HQ ltac:(nia))
        as (c & Hc & ->).
      apply Hexact; auto. }
    pose proof (plain_valid_assignment _ _ _ maximize None None ia ib
                  (Nat2Z.is_nonneg _) (Nat2Z.is_nonneg _) Hsub)
      as (_ & _ & _ & _ & Hra & Hrb).
    rewrite combine_map_both in Hxy. apply in_map_iff in Hxy.
    destruct Hxy as ([i j] & Exy & Hij). cbn [fst snd] in Exy.
    inversion Exy; subst x y. clear Exy.
    pose proof (Hplain _ _ _ None None ia ib (Nat2Z.is_nonneg _)
                       (Nat2Z.is_nonneg _) Hexact' Hsub i j Hij) as Hf.
    pose proof (in_combine_l _ _ _ _ Hij) as Hi. apply Hra in Hi.
    pose proof (in_combine_r _ _ _ _ Hij) as Hj. apply Hrb in Hj.
    unfold zth at 1 in Hf.
    replace (Z.to_nat (i * Z.of_nat (length Q) + j))
      with (Z.to_nat i * length Q + Z.to_nat j)%nat in Hf by nia.
    rewrite (submatrix_nth nc C P Q) in Hf by lia.
    exact Hf.
Qed.

(** A matrix all of whose entries are finite is always solved, in every
    arithmetic in which line 136 keeps each entry finite: what the first
    scan of a row computes from the entry as the solver views it (negated
    when maximizing) on zero duals, narrowed to [double], is finite, as it
    is for every finite [double].  Neither the validation nor the search
    rejects the matrix, without subscript or with in-bounds selectors on
    both axes. *)
Theorem finite_matrix_is_solved {A : Arith} {T} `{Elem T}
        (nr nc : Z) (C : list T) (maximize : bool) :
  0 <= nr -> 0 <= nc ->
  (forall k, 0 <= k < nr * nc -> finite (to_double (zth C k elem_default))) ->
  (forall k, 0 <= k < nr * nc ->
     finite (first_distance elem_format
               (to_double (if maximize then elem_neg (zth C k elem_default)
                           else zth C k elem_default)))) ->
  (forall subrows subcols,
      exists a b, solve nr nc C maximize subrows 0 subcols 0 = Ok (a, b))
  /\ (forall P Q,
         P <> [] -> Q <> [] ->
         (forall p, In p P -> 0 <= p < nr) ->
         (forall q, In q Q -> 0 <= q < nc) ->
         exists a b,
           solve nr nc C maximize (Some P) (Z.of_nat (length P))
                 (Some Q) (Z.of_nat (length Q)) = Ok (a, b)).
Proof.
  intros Hnr Hnc Hfin Hkept. split.
  - intros subrows subcols.
    apply plain_finite_solved; auto.
  - intros P Q HPne HQne HP HQ.
    rewrite (subscript_as_submatrix nr nc C maximize P Q HPne HQne HP HQ)
      by (intros k Hk; apply finite_not_ill_valued; auto).
    destruct (plain_finite_solved (Z.of_nat (length P))
                (Z.of_nat (length Q)) (submatrix nc C P Q) maximize
                None None (Nat2Z.is_nonneg _) (Nat2Z.is_nonneg _))
      as (ia & ib & ->).
    + intros k Hk. unfold zth.
      destruct (submatrix_entry nr nc C P Q (Z.to_nat k) HP HQ ltac:(nia))
        as (c & Hc & ->).
      apply Hfin; auto.
    + intros k Hk. unfold zth.
      destruct (submatrix_entry nr nc C P Q (Z.to_nat k) HP HQ ltac:(nia))
        as (c & Hc & ->).
      apply Hkept; auto.
    + simpl. eexists _, _. reflexivity.
Qed.

(** ** Infeasible problems *)

Lemma solve_rows_app {A : Arith} {T} `{Elem T} (cost : matrix2d T) (nr nc : nat)
      (rows rows' : list nat) (st : lsap) :
  solve_rows cost nr nc (rows ++ rows') st
  = (st' <- solve_rows cost nr nc rows st ;; solve_rows cost nr nc rows' st').
Proof.
  revert st. induction rows as [|r rows IH]; intros st; simpl; auto.
  destruct (solve_row cost nr nc st r); simpl; auto.
Qed.

(** [minVal = INFINITY] is returned with the sink [-1] only. *)
Lemma search_loop_infinite {A : Arith} {T} `{Elem T} (cost : matrix2d T)
      (u v : list double) (row4col : list Z) (fuel : nat) :
  forall num i minVal s sink mv s',
    search_loop cost u v row4col fuel num i minVal s = Some (sink, mv, s') ->
    mv = INFINITY -> sink = -1.
Proof.
  induction fuel as [|fuel IH]; intros num i minVal s sink mv s';
    simpl; [discriminate|].
  destruct (deqb _ INFINITY) eqn:Einf.
  - intros E _. inversion E. reflexivity.
  - destruct (zth row4col _ 0 =? -1).
    + intros E Emv. inversion E as [[E1 E2 E3]].
      rewrite <- E2 in Emv. rewrite Emv in Einf. discriminate.
    + apply IH.
Qed.

(** A scan that ends with [lowest = INFINITY] ends the search with [-1]. *)
Lemma search_loop_lowest_infinite {A : Arith} {T} `{Elem T} (cost : matrix2d T)
      (u v : list double) (row4col : list Z) (fuel num : nat) (i : Z)
      (minVal : double) (s : search) :
  sc_lowest (scan_loop cost u v row4col (s_remaining s) num i minVal
                       (s_path s) (s_spc s)) = INFINITY ->
  exists s', search_loop cost u v row4col (S fuel) num i minVal s
             = Some (-1, INFINITY, s').
Proof.
  intros E. simpl. rewrite E. simpl. eexists. reflexivity.
Qed.

(** A search that returns [-1] in iteration [k] makes the main loop
    return [RECTANGULAR_LSAP_INFEASIBLE]. *)
Lemma solve_rows_infeasible {A : Arith} {T} `{Elem T} (cost : matrix2d T) (nr nc : nat)
      (k : nat) (st : lsap) (mv : double) (s : search) :
  (k < nr)%nat ->
  solve_rows cost nr nc (seq 0 k) (lsap_init nr nc) = Ok st ->
  augmenting_path cost (l_u st) (l_v st) (l_row4col st) nc
                  (l_path st) (l_spc st) (Z.of_nat k)
                  (l_SR st) (l_SC st) (l_remaining st) = Some (-1, mv, s) ->
  solve_rows cost nr nc (seq 0 nr) (lsap_init nr nc)
  = Fail RECTANGULAR_LSAP_INFEASIBLE.
Proof.
  intros Hk Hrows Hpath.
  replace nr with (k + S (nr - S k))%nat at 2 by lia.
  rewrite seq_app, solve_rows_app, Hrows. simpl.
  unfold solve_row at 1. rewrite Hpath. reflexivity.
Qed.

(** A row of [+inf] entries, in every regular arithmetic and whatever the
    duals hold: the distance computed from an entry [+inf] is [+inf] or
    NaN, and neither is below the initial [+inf] of
    [shortestPathCosts]. *)
Definition unreached (x : double) : Prop := x = PInf \/ x = NaN.

Lemma unreached_sub {A : Arith} `{!Regular A} (f : format) (x y : double) :
  unreached x -> unreached (fsub f x y).
Proof.
  intros [->| ->]; unfold fsub, unreached; destruct y; simpl;
    rewrite rnd_special by (intros; discriminate); auto.
Qed.

Lemma unreached_narrow {A : Arith} `{!Regular A} (f : format) (x : double) :
  unreached x -> unreached (narrow f x).
Proof.
  intros [->| ->]; unfold unreached;
    rewrite narrow_special by (intros; discriminate); auto.
Qed.

Lemma unreached_not_below (x : double) :
  unreached x -> (x <? PInf)%D = false.
Proof. intros [->| ->]; reflexivity. Qed.

Section InfiniteRowAny.
Context {A : Arith} `{!Regular A} {T : Type} `{Elem T}.
Variable cost : matrix2d T.
Variables nr nc : nat.
Variable m : nat.
Variable st : lsap.
Hypothesis Hshape : shaped nr nc st.
Hypothesis Hrow : forall j, (j < nc)%nat -> view cost m j = PInf.

Lemma infinite_row_search_any :
  exists s,
    augmenting_path cost (l_u st) (l_v st) (l_row4col st) nc
                    (l_path st) (l_spc st) (Z.of_nat m)
                    (l_SR st) (l_SC st) (l_remaining st)
    = Some (-1, INFINITY, s).
Proof.
  unfold augmenting_path.
  set (rem0 := fold_left (fun rem it => zset rem (Z.of_nat it)
                                             (Z.of_nat nc - Z.of_nat it - 1))
                         (seq 0 nc) (l_remaining st)).
  set (spc0 := map (fun _ : double => INFINITY) (l_spc st)).
  set (s0 := Search (l_path st) spc0 (map (fun _ => false) (l_SR st))
                    (map (fun _ => false) (l_SC st)) rem0).
  apply (search_loop_lowest_infinite cost (l_u st) (l_v st) (l_row4col st)
           nc nc (Z.of_nat m) (Fin 0) s0).
  cbn [s0 s_remaining s_path s_spc].
  assert (Hrem0 : forall p, (p < nc)%nat ->
                            nth p rem0 0 = Z.of_nat (nc - 1 - p)).
  { intros p Hp. subst rem0.
    rewrite remaining_init_nth; auto; try lia. apply (sh_len_rem _ _ _ Hshape). }
  assert (Hls0 : length spc0 = nc)
    by (subst spc0; rewrite length_map; apply (sh_len_spc _ _ _ Hshape)).
  assert (Hlen : length (l_path st) = length spc0)
    by (rewrite Hls0; apply (sh_len_path _ _ _ Hshape)).
  assert (Hrem : forall it, (it < nc)%nat ->
             0 <= nth it rem0 0 < Z.of_nat (length spc0)).
  { intros it Hit. rewrite Hrem0, Hls0 by auto. lia. }
  destruct (scan_upto_spec cost (l_u st) (l_v st) (l_row4col st) rem0
              (Z.of_nat m) (Fin 0) (l_path st) spc0 nc Hlen Hrem nc
              (Nat.le_refl _)) as (_ & _ & _ & _ & Hsel).
  change (scan_upto cost (l_u st) (l_v st) (l_row4col st) rem0 (Z.of_nat m)
                    (Fin 0) (l_path st) spc0 nc)
    with (scan_loop cost (l_u st) (l_v st) (l_row4col st) rem0 nc (Z.of_nat m)
                    (Fin 0) (l_path st) spc0) in *.
  set (sc := scan_loop cost (l_u st) (l_v st) (l_row4col st) rem0 nc
                       (Z.of_nat m) (Fin 0) (l_path st) spc0) in *.
  set (val := scan_val cost (l_u st) (l_v st) rem0 (Z.of_nat m) (Fin 0) spc0)
    in *.
  set (free := scan_free (l_row4col st) rem0) in *.
  assert (Hval : forall p, (p < nc)%nat -> val p = PInf).
  { intros p Hp. subst val. unfold scan_val, relaxed.
    rewrite Hrem0 by exact Hp.
    assert (Hj : (nc - 1 - p < nc)%nat) by lia.
    assert (Es : zth spc0 (Z.of_nat (nc - 1 - p)) NaN = PInf).
    { rewrite zth_nat. subst spc0. apply nth_map_const.
      rewrite (sh_len_spc _ _ _ Hshape). exact Hj. }
    rewrite Es.
    assert (Hr : unreached (scan_r cost (l_u st) (l_v st) (Z.of_nat m)
                                   (Fin 0) (Z.of_nat (nc - 1 - p)))).
    { unfold scan_r. fold (view cost m (nc - 1 - p)).
      rewrite (Hrow _ Hj).
      apply unreached_narrow, unreached_sub, unreached_sub.
      unfold fadd. simpl. rewrite rnd_special by (intros; discriminate).
      left. reflexivity. }
    rewrite (unreached_not_below _ Hr). reflexivity. }
  assert (Hlow : sc_lowest sc = fst (select_upto val free nc))
    by (now rewrite <- Hsel).
  rewrite Hlow.
  destruct (select_index val free nc) as [[_ E]|(p0 & Hp0 & _ & Ef)];
    [exact E|].
  rewrite Ef. apply Hval. exact Hp0.
Qed.
End InfiniteRowAny.

Lemma solve_reaches_rows {A : Arith} {T} `{Elem T} (nr nc : Z) (cost : list T)
      (maximize : bool) (subrows : option (list Z)) (n_subrows : Z)
      (subcols : option (list Z)) (n_subcols : Z)
      (sr sc : option (list Z)) (costmat : matrix2d T) (nr' nc' : Z)
      (tr : bool) :
  ((nr =? 0) || (nc =? 0))%bool = false ->
  existsb (fun i => invalid_entry maximize (nth i cost elem_default))
          (seq 0 (Z.to_nat (nr * nc))) = false ->
  check_subscript subrows n_subrows nr = Ok sr ->
  check_subscript subcols n_subcols nc = Ok sc ->
  orient nr nc cost maximize sr n_subrows sc n_subcols
  = (costmat, nr', nc', tr) ->
  solve nr nc cost maximize subrows n_subrows subcols n_subcols
  = (st <- solve_rows costmat (Z.to_nat nr') (Z.to_nat nc')
                      (seq 0 (Z.to_nat nr'))
                      (lsap_init (Z.to_nat nr') (Z.to_nat nc')) ;;
     Ok (emit tr sr sc (Z.to_nat nr') (l_col4row st))).
Proof.
  intros Htriv Hscan Hsr Hsc Hor. unfold solve.
  rewrite Htriv, Hscan, Hsr. simpl. rewrite Hsc. simpl. rewrite Hor.
  reflexivity.
Qed.

(** C9, as the specification states it, on the tall matrix with rows [1]
    and [+inf]: the matrix is transposed, row 0 takes the only column,
    the row of [+inf] stays unassigned and the solve succeeds, in machine
    arithmetic as in exact arithmetic. *)
Lemma tall_matrix_with_infinite_row_succeeds :
  let C := [Fin 1; PInf] in
  (forall j, 0 <= j < 1 -> zth C (1 * 1 + j) elem_default = PInf)
  /\ solve_rectangular_linear_sum_assignment (H := ieee_arith) 2 1 C false
     = Ok ([0], [0])
  /\ solve_rectangular_linear_sum_assignment (H := exact_arith) 2 1 C false
     = Ok ([0], [0]).
Proof.
  split; [|split].
  - intros j Hj. assert (j = 0) by lia. subst j. reflexivity.
  - vm_compute. reflexivity.
  - vm_compute. reflexivity.
Qed.

(** C9, amended.  In every regular arithmetic: (1) a scan of the search
    that ends with [lowest = +inf] makes the search return [-1], and a
    search of the main loop of [solve] that returns with [minVal = +inf]
    makes [solve] return [RECTANGULAR_LSAP_INFEASIBLE].  (2) A minimizing
    problem without subscript and with [nr <= nc], free of NaN and [-inf],
    that contains a row whose entries are all [+inf], passes the validation
    and returns [RECTANGULAR_LSAP_INFEASIBLE]. *)
Theorem infeasible_search_infeasible_solve {A : Arith} `{!Regular A}
        {T} `{Elem T} :
  (forall (cost : matrix2d T) (u v : list double) (row4col : list Z)
          (fuel num : nat) (i : Z) (minVal : double) (s : search),
      sc_lowest (scan_loop cost u v row4col (s_remaining s) num i minVal
                           (s_path s) (s_spc s)) = INFINITY ->
      exists s', search_loop cost u v row4col (S fuel) num i minVal s
                 = Some (-1, INFINITY, s'))
  /\ (forall (nr nc : Z) (cost : list T) (maximize : bool)
             (subrows : option (list Z)) (n_subrows : Z)
             (subcols : option (list Z)) (n_subcols : Z)
             (sr sc : option (list Z)) (costmat : matrix2d T)
             (nr' nc' : Z) (tr : bool) (k : nat) (st : lsap) (sink : Z)
             (s : search),
         ((nr =? 0) || (nc =? 0))%bool = false ->
         existsb (fun i => invalid_entry maximize (nth i cost elem_default))
                 (seq 0 (Z.to_nat (nr * nc))) = false ->
         check_subscript subrows n_subrows nr = Ok sr ->
         check_subscript subcols n_subcols nc = Ok sc ->
         orient nr nc cost maximize sr n_subrows sc n_subcols
         = (costmat, nr', nc', tr) ->
         (k < Z.to_nat nr')%nat ->
         solve_rows costmat (Z.to_nat nr') (Z.to_nat nc') (seq 0 k)
                    (lsap_init (Z.to_nat nr') (Z.to_nat nc')) = Ok st ->
         augmenting_path costmat (l_u st) (l_v st) (l_row4col st)
                         (Z.to_nat nc') (l_path st) (l_spc st) (Z.of_nat k)
                         (l_SR st) (l_SC st) (l_remaining st)
         = Some (sink, INFINITY, s) ->
         solve nr nc cost maximize subrows n_subrows subcols n_subcols
         = Fail RECTANGULAR_LSAP_INFEASIBLE)
  /\ (forall (nr nc : Z) (C : list T) (i0 : Z),
         0 < nr <= nc -> 0 <= i0 < nr ->
         (forall k, 0 <= k < nr * nc ->
                    ~ ill_valued false (to_double (zth C k elem_default))) ->
         (forall j, 0 <= j < nc ->
                    to_double (zth C (i0 * nc + j) elem_default) = PInf) ->
         solve nr nc C false None 0 None 0
         = Fail RECTANGULAR_LSAP_INFEASIBLE).
Proof.
  split; [|split].
  - intros cost u v row4col fuel num i minVal s E.
    apply (search_loop_lowest_infinite cost u v row4col fuel num i minVal s E).
  - intros nr nc cost maximize subrows n_subrows subcols n_subcols sr sc
           costmat nr' nc' tr k st sink s Htriv Hscan Hsr Hsc Hor Hk Hrows
           Hpath.
    rewrite (solve_reaches_rows nr nc cost maximize subrows n_subrows subcols
               n_subcols sr sc costmat nr' nc' tr Htriv Hscan Hsr Hsc Hor).
    assert (Hsink : sink = -1).
    { pose proof Hpath as Hloop. unfold augmenting_path in Hloop.
      exact (search_loop_infinite _ _ _ _ _ _ _ _ _ _ _ _ Hloop eq_refl). }
    subst sink.
    rewrite (solve_rows_infeasible costmat _ _ k st INFINITY s Hk Hrows Hpath).
    reflexivity.
  - intros nr nc C i0 Hshape Hi0 Hvalid Hrow.
    assert (Hscan : existsb (fun i => invalid_entry false
                                        (nth i C elem_default))
                            (seq 0 (Z.to_nat (nr * nc))) = false).
    { match goal with |- ?x = false => destruct x eqn:E; auto end.
      apply existsb_seq_iff in E. destruct E as (k & Hk & Hbad).
      exfalso. apply (Hvalid (Z.of_nat k)); [lia|].
      rewrite zth_nat. apply invalid_entry_iff in Hbad. exact Hbad. }
    rewrite solve_plain_eq by (auto; lia).
    assert (Htr : (nc <? nr) = false) by (apply Z.ltb_ge; lia).
    assert (Hwr : work_rows nr nc = Z.to_nat nr)
      by (unfold work_rows; now rewrite Htr).
    assert (Hwc : work_cols nr nc = Z.to_nat nc)
      by (unfold work_cols; now rewrite Htr).
    set (pv := plain_view nr nc C false) in *.
    set (wr := work_rows nr nc) in *. set (wc := work_cols nr nc) in *.
    set (m := Z.to_nat i0).
    assert (Hm : (m < wr)%nat) by (subst m; lia).
    assert (Hfail : solve_rows pv wr wc (seq 0 wr) (lsap_init wr wc)
                    = Fail RECTANGULAR_LSAP_INFEASIBLE).
    { destruct (solve_rows_structure pv wr wc m 0 (lsap_init wr wc)
                                     (shaped_init wr wc)
                                     (matching_init wr wc) ltac:(lia))
        as [Ef|(st & Eok & Hsh & _)].
      - replace wr with (m + (wr - m))%nat at 2 by lia.
        rewrite seq_app, solve_rows_app, Ef. reflexivity.
      - destruct (infinite_row_search_any pv wr wc m st Hsh)
          as (s & Epath).
        + intros j Hj. unfold view, cost_at.
          destruct (plain_view_get nr nc C false m j Hm Hj)
            as (k & Hk & Ek & Eg).
          subst pv. rewrite Eg, Ek, Htr. simpl.
          replace (Z.of_nat m) with i0 by (subst m; lia).
          apply Hrow. lia.
        + apply (solve_rows_infeasible pv wr wc m st INFINITY s Hm Eok
                                       Epath). }
    rewrite Hfail. reflexivity.
Qed.

Lemma infeasible_search_infeasible_solve_witness :
  solve_rectangular_linear_sum_assignment (H := ieee_arith)
    2 2 [Fin 5; PInf; PInf; PInf] false
  = Fail RECTANGULAR_LSAP_INFEASIBLE.
Proof.
  apply (proj2 (proj2 (@infeasible_search_infeasible_solve
                         ieee_arith ieee_regular double _))
               2 2 [Fin 5; PInf; PInf; PInf] 1).
  - lia.
  - lia.
  - intros k Hk.
    assert (Hcase : k = 0 \/ k = 1 \/ k = 2 \/ k = 3) by lia.
    unfold ill_valued.
    repeat (destruct Hcase as [->|Hcase]); try subst k;
      simpl; intros [E|[[E _]|[_ E]]]; discriminate.
  - intros j Hj.
    assert (Hcase : j = 0 \/ j = 1) by lia.
    destruct Hcase as [->| ->]; reflexivity.
Defined.

(** ** The model never runs out of fuel *)

Lemma check_subscript_returns (sub : option (list Z)) (n bound : Z) :
  check_subscript sub n bound <> OutOfFuel.
Proof.
  unfold check_subscript.
  destruct (n =? 0); [discriminate|].
  destruct (n <? 0); [discriminate|].
  destruct (subscript_out_of_bound _ _ _); discriminate.
Qed.

(** On every well-formed input [solve] returns a status, whatever the
    arithmetic: the fuel of the two [while] loops of the model is never
    exhausted. *)
Theorem solve_total {A : Arith} {T} `{Elem T}
        (nr nc : Z) (cost : list T) (maximize : bool)
        (subrows : option (list Z)) (n_subrows : Z)
        (subcols : option (list Z)) (n_subcols : Z) :
  0 <= nr -> 0 <= nc ->
  subscript_wf false subrows n_subrows ->
  subscript_wf false subcols n_subcols ->
  solve nr nc cost maximize subrows n_subrows subcols n_subcols <> OutOfFuel.
Proof.
  intros _ _ _ _. unfold solve.
  destruct ((nr =? 0) || (nc =? 0))%bool; [discriminate|].
  destruct (existsb _ _); [discriminate|].
  pose proof (check_subscript_returns subrows n_subrows nr) as Hr.
  destruct (check_subscript subrows n_subrows nr) as [sr|e|];
    [|discriminate|congruence].
  pose proof (check_subscript_returns subcols n_subcols nc) as Hc.
  destruct (check_subscript subcols n_subcols nc) as [sc|e|];
    [|discriminate|congruence].
  cbn [bind].
  destruct (orient nr nc cost maximize sr n_subrows sc n_subcols)
    as [[[costmat nr'] nc'] tr].
  pose proof (solve_rows_returns costmat (Z.to_nat nr') (Z.to_nat nc'))
    as Hrows.
  destruct (solve_rows _ _ _ _ _); cbn [bind]; [discriminate|discriminate|].
  congruence.
Qed.

(** ** Which status is returned *)

(** A selector of announced length [n] is rejected when [n] is negative or
    one of its first [n] entries is outside [0, bound). *)
Definition bad_subscript (sub : list Z) (n bound : Z) : Prop :=
  n < 0 \/ exists i, 0 <= i < n /\ (zth sub i 0 < 0 \/ bound <= zth sub i 0).

Lemma check_subscript_fail (sub : list Z) (n bound : Z) :
  (exists s, check_subscript (Some sub) n bound = Fail s)
  <-> bad_subscript sub n bound.
Proof.
  unfold check_subscript, bad_subscript.
  destruct (Z.eqb_spec n 0) as [->|Hn0].
  - split; [intros [s E]; discriminate|].
    intros [Hn|(i & Hi & _)]; lia.
  - destruct (Z.ltb_spec n 0) as [Hneg|Hpos].
    + split; [left; lia | intros _; eexists; reflexivity].
    + destruct (subscript_out_of_bound sub n bound) eqn:E.
      * split; [intros _ | intros _; eexists; reflexivity].
        right. unfold subscript_out_of_bound in E.
        apply existsb_seq_iff in E. destruct E as (k & Hk & Hbad).
        exists (Z.of_nat k). split; [lia|]. rewrite zth_nat.
        simpl in Hbad. apply orb_true_iff in Hbad.
        destruct Hbad as [Hb|Hb]; lia.
      * split; [intros [s Es]; discriminate|].
        intros [Hn|(i & Hi & Hbad)]; [lia|]. exfalso.
        assert (Hex : subscript_out_of_bound sub n bound = true).
        { unfold subscript_out_of_bound. apply existsb_seq_iff.
          exists (Z.to_nat i). split; [lia|]. simpl.
          fold (zth sub i 0). apply orb_true_iff.
          destruct Hbad; [left|right]; lia. }
        congruence.
Qed.

Lemma check_subscript_status (sub : option (list Z)) (n bound : Z)
      (s : status) :
  check_subscript sub n bound = Fail s ->
  s = RECTANGULAR_LSAP_SUBSCRIPT_INVALID.
Proof.
  unfold check_subscript.
  destruct (n =? 0); [discriminate|].
  destruct (n <? 0); [congruence|].
  destruct (subscript_out_of_bound _ _ _); [congruence|discriminate].
Qed.

(** For a non-empty matrix, [solve] returns
    [RECTANGULAR_LSAP_SUBSCRIPT_INVALID] exactly when the matrix passes
    the validation and a selector has a negative length or an entry out
    of bounds among those announced (the vectors hold at least as many
    entries as announced); the search never returns this status. *)
Theorem solve_subscript_invalid_iff {A : Arith} {T} `{Elem T}
        (nr nc : Z) (C : list T) (maximize : bool)
        (P : list Z) (n_subrows : Z) (Q : list Z) (n_subcols : Z) :
  0 < nr -> 0 < nc ->
  n_subrows <= Z.of_nat (length P) -> n_subcols <= Z.of_nat (length Q) ->
  (solve nr nc C maximize (Some P) n_subrows (Some Q) n_subcols
   = Fail RECTANGULAR_LSAP_SUBSCRIPT_INVALID
   <-> (forall k, 0 <= k < nr * nc ->
                  ~ ill_valued maximize (to_double (zth C k elem_default)))
       /\ (bad_subscript P n_subrows nr \/ bad_subscript Q n_subcols nc)).
Proof.
  intros Hnr Hnc _ _.
  assert (Hscan_iff :
    existsb (fun i => invalid_entry maximize (nth i C elem_default))
            (seq 0 (Z.to_nat (nr * nc))) = false
    <-> forall k, 0 <= k < nr * nc ->
          ~ ill_valued maximize (to_double (zth C k elem_default))).
  { split.
    - intros Hscan k Hk Hbad.
      assert (Hex : existsb (fun i => invalid_entry maximize
                                        (nth i C elem_default))
                            (seq 0 (Z.to_nat (nr * nc))) = true).
      { apply existsb_seq_iff. exists (Z.to_nat k). split; [lia|].
        apply invalid_entry_iff. exact Hbad. }
      congruence.
    - intros Hval.
      match goal with |- ?x = false => destruct x eqn:E; auto end.
      apply existsb_seq_iff in E. destruct E as (k & Hk & Hbad).
      exfalso. apply (Hval (Z.of_nat k)); [lia|].
      rewrite zth_nat. now apply invalid_entry_iff. }
  unfold solve.
  replace ((nr =? 0) || (nc =? 0))%bool with false
    by (symmetry; apply orb_false_iff; split; apply Z.eqb_neq; lia).
  destruct (existsb _ _) eqn:Hscan.
  - split; [discriminate|]. intros [Hval _].
    apply Hscan_iff in Hval. congruence.
  - pose proof (proj1 Hscan_iff eq_refl) as Hval.
    pose proof (check_subscript_fail P n_subrows nr) as HP.
    pose proof (check_subscript_fail Q n_subcols nc) as HQ.
    destruct (check_subscript (Some P) n_subrows nr) as [sr|s|] eqn:Er.
    + cbn [bind].
      destruct (check_subscript (Some Q) n_subcols nc) as [sc|s|] eqn:Ec.
      * cbn [bind]. split.
        -- intros E. exfalso.
           destruct (orient _ _ _ _ _ _ _ _) as [[[m r] c] t].
           destruct (solve_rows _ _ _ _ _) as [st|s|] eqn:Erows;
             simpl in E; try discriminate.
           inversion E; subst s.
           apply solve_rows_fail in Erows. discriminate.
        -- intros [_ [Hb|Hb]]; exfalso.
           ++ apply HP in Hb. destruct Hb as [s Es]. discriminate.
           ++ apply HQ in Hb. destruct Hb as [s Es]. discriminate.
      * cbn [bind]. rewrite (check_subscript_status _ _ _ _ Ec).
        split; [intros _|reflexivity].
        split; [exact Hval|]. right. apply HQ. eexists; reflexivity.
      * unfold check_subscript in Ec.
        destruct (n_subcols =? 0); [discriminate|].
        destruct (n_subcols <? 0); [discriminate|].
        destruct (subscript_out_of_bound _ _ _); discriminate.
    + cbn [bind]. rewrite (check_subscript_status _ _ _ _ Er).
      split; [intros _|reflexivity].
      split; [exact Hval|]. left. apply HP. eexists; reflexivity.
    + unfold check_subscript in Er.
      destruct (n_subrows =? 0); [discriminate|].
      destruct (n_subrows <? 0); [discriminate|].
      destruct (subscript_out_of_bound _ _ _); discriminate.
Qed.

Lemma solve_subscript_invalid_iff_witness :
  solve (A := ieee_arith) 2 2 [Fin 1; Fin 2; Fin 3; Fin 4] false (Some [0; 2]) 2
        (Some [0; 1]) 2
  = Fail RECTANGULAR_LSAP_SUBSCRIPT_INVALID
  <-> (forall k, 0 <= k < 2 * 2 ->
                 ~ ill_valued false
                     (to_double (zth [Fin 1; Fin 2; Fin 3; Fin 4] k
                                     elem_default)))
      /\ (bad_subscript [0; 2] 2 2 \/ bad_subscript [0; 1] 2 2).
Proof.
  apply (solve_subscript_invalid_iff (A := ieee_arith) 2 2 [Fin 1; Fin 2; Fin 3; Fin 4] false
                                     [0; 2] 2 [0; 1] 2); simpl; lia.
Defined.

(** [solve] fails with one of three statuses only. *)
Lemma solve_fail_status {A : Arith} {T} `{Elem T}
      (nr nc : Z) (C : list T) (maximize : bool)
      (subrows : option (list Z)) (n_subrows : Z)
      (subcols : option (list Z)) (n_subcols : Z) (s : status) :
  solve nr nc C maximize subrows n_subrows subcols n_subcols = Fail s ->
  s = RECTANGULAR_LSAP_INVALID
  \/ s = RECTANGULAR_LSAP_SUBSCRIPT_INVALID
  \/ s = RECTANGULAR_LSAP_INFEASIBLE.
Proof.
  unfold solve.
  destruct ((nr =? 0) || (nc =? 0))%bool; [discriminate|].
  destruct (existsb _ _); [intros E; inversion E; auto|].
  destruct (check_subscript subrows n_subrows nr) as [sr|s'|] eqn:Er;
    cbn [bind]; [| |discriminate].
  - destruct (check_subscript subcols n_subcols nc) as [sc|s'|] eqn:Ec;
      cbn [bind]; [| |discriminate].
    + destruct (orient _ _ _ _ _ _ _ _) as [[[m r] c] t].
      destruct (solve_rows _ _ _ _ _) as [st|s'|] eqn:Erows; simpl;
        try discriminate.
      intros E. inversion E; subst s'.
      apply solve_rows_fail in Erows. auto.
    + intros E. inversion E; subst s'.
      apply check_subscript_status in Ec. auto.
  - intros E. inversion E; subst s'.
    apply check_subscript_status in Er. auto.
Qed.

(** [solve_rectangular_linear_sum_assignment_dtype] returns
    [RECTANGULAR_LSAP_DTYPE_INVALID] for a tag outside the enumeration,
    whatever the other arguments, and for no tag of the enumeration. *)
Theorem dtype_invalid_iff {A : Arith} (nr nc : Z) (dt : dtype)
        (input_cost : list (elem_of dt)) (maximize : bool)
        (subrows : option (list Z)) (n_subrows : Z)
        (subcols : option (list Z)) (n_subcols : Z) :
  solve_rectangular_linear_sum_assignment_dtype
    nr nc dt input_cost maximize subrows n_subrows subcols n_subcols
  = Fail RECTANGULAR_LSAP_DTYPE_INVALID
  <-> exists tag, dt = LSAP_OTHER tag.
Proof.
  split.
  - destruct dt; try (intros E; apply solve_fail_status in E;
                      destruct E as [E|[E|E]]; discriminate).
    intros _. eexists; reflexivity.
  - intros [tag ->]. reflexivity.
Qed.

(** ** Maximizing is minimizing the negated matrix *)

Lemma existsb_ext_in {A} (f g : A -> bool) (l : list A) :
  (forall x, In x l -> f x = g x) -> existsb f l = existsb g l.
Proof.
  induction l as [|a l IH]; intros Hfg; simpl; auto.
  rewrite (Hfg a) by (left; reflexivity).
  rewrite IH; auto. intros x Hx. apply Hfg. now right.
Qed.

Lemma zth_map_dneg (C : list double) (k : Z) :
  zth (map dneg C) k (Fin 0) = dneg (zth C k (Fin 0)).
Proof.
  unfold zth. change (Fin 0) with (dneg (Fin 0)) at 1. apply map_nth.
Qed.

Lemma invalid_entry_dneg (x : double) :
  invalid_entry false (dneg x) = invalid_entry true x.
Proof.
  destruct x as [q| | |]; try reflexivity.
  unfold invalid_entry. simpl.
  assert (Hq : forall r, Qeq_bool r r = true)
    by (intros r; apply Qeq_bool_iff; reflexivity).
  now rewrite !Hq.
Qed.

(** On a [double] matrix, [solve] with [maximize] returns the status and
    the pairs that [solve] without [maximize] returns on the matrix of the
    negated entries, whatever the selectors. *)
Theorem maximize_is_minimize_negated {A : Arith}
        (nr nc : Z) (C : list double)
        (subrows : option (list Z)) (n_subrows : Z)
        (subcols : option (list Z)) (n_subcols : Z) :
  solve nr nc C true subrows n_subrows subcols n_subcols
  = solve nr nc (map dneg C) false subrows n_subrows subcols n_subcols.
Proof.
  unfold solve.
  destruct ((nr =? 0) || (nc =? 0))%bool; [reflexivity|].
  rewrite (existsb_ext_in
             (fun i => invalid_entry false (nth i (map dneg C) elem_default))
             (fun i => invalid_entry true (nth i C elem_default))).
  2:{ intros i _. change (@elem_default double _) with (Fin 0).
      change (Fin 0) with (dneg (Fin 0)) at 1.
      rewrite map_nth. apply invalid_entry_dneg. }
  destruct (existsb _ _); [reflexivity|].
  destruct (check_subscript subrows n_subrows nr) as [sr| |]; cbn [bind];
    try reflexivity.
  destruct (check_subscript subcols n_subcols nc) as [sc| |]; cbn [bind];
    try reflexivity.
  unfold orient.
  destruct (is_subscript sr sc);
    match goal with
    | |- context [if ?b then (transpose _, _, _) else _] => destruct b
    end; cbn iota beta zeta;
    match goal with
    | |- bind (solve_rows ?m1 ?r ?c _ _) _
         = bind (solve_rows ?m2 ?r ?c _ _) _ =>
      rewrite (solve_rows_seq_ext r c m1 m2); [reflexivity|]
    end;
    intros i j _ _; unfold cost_at, get, negative, transpose, subscript,
                    matrix2d_new; simpl;
    rewrite zth_map_dneg; reflexivity.
Qed.

(** ** The order of the emitted pairs *)

Lemma insert_by_sorted (key : Z -> Z) (x : Z) (l : list Z) :
  StronglySorted (fun i j => key i <= key j) l ->
  StronglySorted (fun i j => key i <= key j)
                 (insert_by (fun i j => key i <? key j) x l).
Proof.
  induction l as [|y l IH]; intros Hs; simpl.
  - constructor; constructor.
  - apply StronglySorted_inv in Hs. destruct Hs as [Hs Hy].
    destruct (Z.ltb_spec (key y) (key x)) as [Hlt|Hge].
    + constructor; [apply IH; exact Hs|].
      apply Forall_forall. intros z Hz.
      apply (Permutation_in _ (insert_by_perm _ x l)) in Hz.
      destruct Hz as [<-|Hz]; [lia|].
      rewrite Forall_forall in Hy. now apply Hy.
    + constructor; [constructor; auto|].
      constructor; [exact Hge|].
      apply Forall_forall. intros z Hz.
      rewrite Forall_forall in Hy. specialize (Hy z Hz). lia.
Qed.

Lemma sort_by_sorted (key : Z -> Z) (l : list Z) :
  StronglySorted (fun i j => key i <= key j)
                 (sort_by (fun i j => key i <? key j) l).
Proof.
  induction l as [|x l IH]; simpl; [constructor|].
  now apply insert_by_sorted.
Qed.

(** [argsort_iter v] lists the indices [0 .. |v|), each once, by ascending
    value of [v]. *)
Theorem argsort_iter_sorts (v : list Z) :
  Permutation (argsort_iter v) (iota (length v))
  /\ StronglySorted (fun i j => zth v i 0 <= zth v j 0) (argsort_iter v).
Proof.
  split; [apply sort_by_perm|].
  unfold argsort_iter. apply (sort_by_sorted (fun i => zth v i 0)).
Qed.

Lemma StronglySorted_map_le (key : Z -> Z) (l : list Z) :
  StronglySorted (fun i j => key i <= key j) l ->
  StronglySorted Z.le (map key l).
Proof.
  induction 1 as [|a l _ IH Ha]; simpl; constructor; auto.
  apply Forall_forall. intros z Hz. apply in_map_iff in Hz.
  destruct Hz as (y & <- & Hy). rewrite Forall_forall in Ha. now apply Ha.
Qed.

Lemma StronglySorted_strict (l : list Z) :
  StronglySorted Z.le l -> NoDup l -> StronglySorted Z.lt l.
Proof.
  induction 1 as [|a l _ IH Ha]; intros Hnd; constructor;
    inversion Hnd as [|a0 l0 Hnin Hnd']; subst; auto.
  apply Forall_forall. intros z Hz. rewrite Forall_forall in Ha.
  specialize (Ha z Hz).
  assert (z <> a) by (intros ->; contradiction). lia.
Qed.

Lemma iota_sorted (n : nat) : StronglySorted Z.lt (iota n).
Proof.
  unfold iota. generalize 0%nat as s.
  induction n as [|n IH]; intros s; simpl; constructor; auto.
  apply Forall_forall. intros z Hz. apply in_map_iff in Hz.
  destruct Hz as (k & <- & Hk). apply in_seq in Hk. lia.
Qed.

Lemma plain_rows_ascending {A : Arith} {T} `{Elem T} (nr nc : Z) (C : list T)
      (maximize : bool) (subrows subcols : option (list Z)) (a b : list Z) :
  0 <= nr -> 0 <= nc ->
  solve nr nc C maximize subrows 0 subcols 0 = Ok (a, b) ->
  StronglySorted Z.lt a.
Proof.
  intros Hnr Hnc Hsolve.
  pose proof (plain_valid_assignment nr nc C maximize subrows subcols a b
                                     Hnr Hnc Hsolve)
    as (_ & _ & Hnd & _).
  destruct (Z.eq_dec nr 0) as [->|Hnr0].
  { unfold solve in Hsolve. simpl in Hsolve. inversion Hsolve. constructor. }
  destruct (Z.eq_dec nc 0) as [->|Hnc0].
  { unfold solve in Hsolve. rewrite Z.eqb_refl, orb_true_r in Hsolve.
    inversion Hsolve. constructor. }
  destruct (existsb (fun i => invalid_entry maximize (nth i C elem_default))
                    (seq 0 (Z.to_nat (nr * nc)))) eqn:Hscan.
  { unfold solve in Hsolve.
    replace ((nr =? 0) || (nc =? 0))%bool with false in Hsolve
      by (symmetry; apply orb_false_iff; split; apply Z.eqb_neq; lia).
    rewrite Hscan in Hsolve. discriminate. }
  rewrite solve_plain_eq in Hsolve by (auto; lia).
  destruct (solve_rows _ _ _ _ _) as [st|s|]; simpl in Hsolve;
    try discriminate.
  unfold emit in Hsolve. cbn [is_subscript] in Hsolve.
  destruct (nc <? nr); inversion Hsolve as [[Ea Eb]].
  - apply StronglySorted_strict; [|rewrite Ea; exact Hnd].
    apply (StronglySorted_map_le (fun i => zth (l_col4row st) i 0)).
    apply (sort_by_sorted (fun i => zth (l_col4row st) i 0)).
  - apply iota_sorted.
Qed.

(** The pairs are emitted by strictly ascending row: without subscript
    [a] is strictly increasing, and with selectors [P] and [Q] the emitted
    rows are [P] read at strictly increasing positions. *)
Theorem solve_rows_ascending {A : Arith} {T} `{Elem T}
        (nr nc : Z) (C : list T) (maximize : bool) :
  0 <= nr -> 0 <= nc ->
  (forall subrows subcols a b,
      solve nr nc C maximize subrows 0 subcols 0 = Ok (a, b) ->
      StronglySorted Z.lt a)
  /\ (forall P Q a b,
         P <> [] -> Q <> [] -> 0 < nr -> 0 < nc ->
         solve nr nc C maximize (Some P) (Z.of_nat (length P))
               (Some Q) (Z.of_nat (length Q)) = Ok (a, b) ->
         exists ia, StronglySorted Z.lt ia
                    /\ a = map (fun x => zth P x 0) ia).
Proof.
  intros Hnr Hnc. split.
  - intros subrows subcols a b Hsolve.
    exact (plain_rows_ascending nr nc C maximize subrows subcols a b
                                Hnr Hnc Hsolve).
  - intros P Q a b HPne HQne Hnr0 Hnc0 Hsolve.
    destruct (solve_both_checked nr nc C maximize P Q a b HPne HQne
                ltac:(lia) ltac:(lia) Hsolve) as (HP & HQ & Hvalid).
    rewrite (subscript_as_submatrix nr nc C maximize P Q HPne HQne HP HQ
                                    Hvalid) in Hsolve.
    destruct (solve (Z.of_nat (length P)) (Z.of_nat (length Q))
                    (submatrix nc C P Q) maximize None 0 None 0)
      as [[ia ib]|s|] eqn:Hsub; simpl in Hsolve; try discriminate.
    inversion Hsolve as [[Ea Eb]].
    exists ia. split; [|reflexivity].
    exact (plain_rows_ascending _ _ _ maximize None None ia ib
             (Nat2Z.is_nonneg _) (Nat2Z.is_nonneg _) Hsub).
Qed.

(** ** Invariants of the main loop, in plain terms *)

(** After [k] iterations of the main loop of [solve], whatever the cost
    view and the arithmetic, [col4row] matches the rows [0 .. k) to
    pairwise distinct columns, the other rows are unmatched, and [row4col]
    is the inverse of [col4row]. *)
Theorem main_loop_keeps_matching {A : Arith} {T} `{Elem T}
        (cost : matrix2d T) (nr nc : nat) (k : nat) (st : lsap) :
  (k <= nr)%nat ->
  solve_rows cost nr nc (seq 0 k) (lsap_init nr nc) = Ok st ->
  (forall i, (i < k)%nat ->
     exists j, (j < nc)%nat /\ nth i (l_col4row st) 0 = Z.of_nat j
               /\ nth j (l_row4col st) 0 = Z.of_nat i)
  /\ (forall i i', (i < k)%nat -> (i' < k)%nat ->
        nth i (l_col4row st) 0 = nth i' (l_col4row st) 0 -> i = i')
  /\ (forall i, (k <= i < nr)%nat -> nth i (l_col4row st) 0 = -1)
  /\ (forall j, (j < nc)%nat ->
        nth j (l_row4col st) 0 = -1
        \/ exists i, (i < k)%nat /\ nth j (l_row4col st) 0 = Z.of_nat i
                     /\ nth i (l_col4row st) 0 = Z.of_nat j).
Proof.
  intros Hk Hrows.
  destruct (solve_rows_prefix cost nr nc k st Hk Hrows) as [_ HM].
  split; [|split; [|split]].
  - intros i Hi. apply (mt_rows _ _ _ _ HM i Hi). lia.
  - intros i i' Hi Hi' E.
    destruct (mt_rows _ _ _ _ HM i Hi ltac:(lia)) as (j & Hj & Ec & Er).
    destruct (mt_rows _ _ _ _ HM i' Hi' ltac:(lia))
      as (j' & Hj' & Ec' & Er').
    unfold c4r, r4c in *.
    assert (j = j') by lia. subst j'. lia.
  - intros i Hi. apply (mt_rest _ _ _ _ HM i); lia.
  - intros j Hj.
    destruct (mt_cols _ _ _ _ HM j Hj) as [E|(i & Hi & _ & Er & Ec)].
    + left. exact E.
    + right. exists i. auto.
Qed.

Lemma main_loop_keeps_matching_witness :
  let cost := Matrix2d [Fin 4; Fin 1; Fin 2; Fin 0] 2 2 false false
                       None None in
  let st := Lsap [Fin 1; Fin 0] [Fin 0; Fin 0] [Fin 4; Fin 1] [0; 0]
                 [1; -1] [-1; 0] [true; false] [false; true] [0; 0] in
  solve_rows (A := ieee_arith) cost 2 2 (seq 0 1) (lsap_init 2 2) = Ok st
  /\ nth 1 (l_col4row st) 0 = -1.
Proof.
  intros cost st. split; [vm_compute; reflexivity|].
  destruct (main_loop_keeps_matching (A := ieee_arith) cost 2 2 1 st)
    as (_ & _ & Hrest & _).
  - lia.
  - vm_compute. reflexivity.
  - apply Hrest. lia.
Defined.

(** In exact arithmetic, when the main loop of [solve] has run to its
    end, the duals are finite, the column duals are nonpositive and zero
    on the unmatched columns, and the sum of all duals is the cost of the
    matching in the cost view: with their feasibility they certify that
    the matching is optimal. *)
Theorem final_duals_certify {T} `{Elem T}
        (cost : matrix2d T) (nr nc : nat) (st : lsap) :
  view_ok cost nr nc ->
  solve_rows (A := exact_arith) cost nr nc (seq 0 nr) (lsap_init nr nc) = Ok st ->
  (forall i, (i < nr)%nat -> finite (nth i (l_u st) NaN))
  /\ (forall j, (j < nc)%nat ->
        exists q, nth j (l_v st) NaN = Fin q /\ (q <= 0)%Q
                  /\ (nth j (l_row4col st) 0 = -1 -> (q == 0)%Q))
  /\ (qsum (fun i => qv (nth i (l_u st) NaN)) (seq 0 nr)
      + qsum (fun j => qv (nth j (l_v st) NaN)) (seq 0 nc)
      == qsum (fun i => qv (view cost i (Z.to_nat (nth i (l_col4row st) 0%Z))))
              (seq 0 nr))%Q.
Proof.
  intros Hview Hrows.
  pose proof (solve_rows_prefix_Inv cost nr nc Hview nr st (Nat.le_refl _)
                                    Hrows) as HInv.
  split; [|split].
  - exact (df_fin_u _ _ _ _ _ (inv_dual _ _ _ _ _ HInv)).
  - intros j Hj.
    destruct (df_fin_v _ _ _ _ _ (inv_dual _ _ _ _ _ HInv) j Hj) as [q Eq].
    exists q. split; [exact Eq|].
    pose proof (inv_v_nonpos _ _ _ _ _ HInv j Hj) as Hle.
    pose proof (inv_v_free _ _ _ _ _ HInv j Hj) as Hfree.
    unfold vq, r4c in *. rewrite Eq in *. simpl in *. auto.
  - symmetry. exact (matching_value cost nr nc st HInv).
Qed.

Lemma final_duals_certify_witness :
  (qsum (fun i => qv (nth i [Fin 3; Fin 2] NaN)) (seq 0 2)
   + qsum (fun j => qv (nth j [Fin 0; Fin (-2)] NaN)) (seq 0 2)
   == qsum (fun i => qv (view (Matrix2d [Fin 4; Fin 1; Fin 2; Fin 0] 2 2
                                        false false None None)
                              i (Z.to_nat (nth i [1; 0]%Z 0%Z))))
           (seq 0 2))%Q.
Proof.
  apply (final_duals_certify
           (Matrix2d [Fin 4; Fin 1; Fin 2; Fin 0] 2 2 false false None None)
           2 2
           (Lsap [Fin 3; Fin 2] [Fin 0; Fin (-2)] [Fin 2; Fin 0] [1; 1]
                 [1; 0] [1; 0] [true; true] [true; true] [0; 0])).
  - intros i j Hi Hj.
    destruct i as [|[|i]]; destruct j as [|[|j]]; try lia;
      right; eexists; vm_compute; reflexivity.
  - vm_compute. reflexivity.
Defined.

(** In the main loop of [solve], whatever the arithmetic,
    [augmenting_path] returns [-1] with [minVal = +inf], or a column of the
    working shape that is unmatched; [minVal] is then not [+inf] and is
    the [shortestPathCosts] of that column, the column is marked in [SC]
    and the current row in [SR]. *)
Theorem search_returns_unmatched_column {A : Arith} {T} `{Elem T}
        (cost : matrix2d T) (nr nc : nat) (k : nat) (st : lsap)
        (sink : Z) (minVal : double) (s : search) :
  (k < nr)%nat ->
  solve_rows cost nr nc (seq 0 k) (lsap_init nr nc) = Ok st ->
  augmenting_path cost (l_u st) (l_v st) (l_row4col st) nc
                  (l_path st) (l_spc st) (Z.of_nat k)
                  (l_SR st) (l_SC st) (l_remaining st)
  = Some (sink, minVal, s) ->
  (sink = -1 /\ minVal = INFINITY)
  \/ (0 <= sink < Z.of_nat nc
      /\ zth (l_row4col st) sink 0 = -1
      /\ minVal <> INFINITY
      /\ zth (s_spc s) sink NaN = minVal
      /\ zth (s_SC s) sink false = true
      /\ nth k (s_SR s) false = true).
Proof.
  intros Hk Hrows Hpath.
  destruct (solve_rows_prefix cost nr nc k st ltac:(lia) Hrows) as [Hsh HM].
  destruct (augmenting_path_structure cost nr nc k st Hsh HM Hk)
    as (sink' & mv' & s' & E
        & [[-> ->]|(jn & num & rk & -> & HSk & Emv & Hfin)]);
    rewrite E in Hpath; inversion Hpath; subst; [left; auto|].
  right.
  pose proof (ti_front _ _ _ _ _ _ _ _ HSk) as HF. simpl in HF.
  destruct HF as (Hjn & HSC & Er & HSR).
  unfold inSC, inSR, r4c, spc_at in *. rewrite !zth_nat.
  split; [lia|]. split; [exact Er|]. split; [exact Hfin|].
  split; [reflexivity|]. split; assumption.
Qed.

Lemma search_returns_unmatched_column_witness :
  let cost := Matrix2d [Fin 4; Fin 1; Fin 2; Fin 0] 2 2 false false
                       None None in
  augmenting_path (A := ieee_arith) cost [Fin 0; Fin 0] [Fin 0; Fin 0]
                  [-1; -1] 2 [-1; -1] [Fin 0; Fin 0] 0
                  [false; false] [false; false] [0; 0]
  = Some (1, Fin 1, Search [0; 0] [Fin 4; Fin 1] [true; false]
                           [false; true] [0; 0])
  /\ ((1 = -1 /\ Fin 1 = INFINITY)
      \/ (0 <= 1 < Z.of_nat 2
          /\ zth [-1; -1] 1 0 = -1
          /\ Fin 1 <> INFINITY
          /\ zth [Fin 4; Fin 1] 1 NaN = Fin 1
          /\ zth [false; true] 1 false = true
          /\ nth 0 [true; false] false = true)).
Proof.
  intros cost. split; [vm_compute; reflexivity|].
  apply (search_returns_unmatched_column (A := ieee_arith)
           cost 2 2 0 (lsap_init 2 2) 1 (Fin 1)
           (Search [0; 0] [Fin 4; Fin 1] [true; false] [false; true]
                   [0; 0])).
  - lia.
  - reflexivity.
  - vm_compute. reflexivity.
Defined.

(** A column that is matched after [k] iterations of the main loop is
    matched after every later iteration: the augmentation reassigns
    columns to other rows, it never frees one. *)
Theorem matched_columns_stay_matched {A : Arith} {T} `{Elem T}
        (cost : matrix2d T) (nr nc : nat) (k k' : nat) (st st' : lsap)
        (j : nat) :
  (k <= k' <= nr)%nat -> (j < nc)%nat ->
  solve_rows cost nr nc (seq 0 k) (lsap_init nr nc) = Ok st ->
  solve_rows cost nr nc (seq 0 k') (lsap_init nr nc) = Ok st' ->
  nth j (l_row4col st) 0 <> -1 ->
  nth j (l_row4col st') 0 <> -1.
Proof.
  intros Hk Hj Hrows. revert st'.
  destruct Hk as [Hkk' Hk'].
  induction Hkk' as [|n Hle IH]; intros st' Hrows' Hm.
  - rewrite Hrows in Hrows'. inversion Hrows'; subst. exact Hm.
  - rewrite seq_S, solve_rows_app in Hrows'. simpl in Hrows'.
    destruct (solve_rows cost nr nc (seq 0 n) (lsap_init nr nc))
      as [stn|s|] eqn:En; simpl in Hrows'; try discriminate.
    destruct (solve_row cost nr nc stn n) as [stn'|s|] eqn:Er;
      simpl in Hrows'; try discriminate.
    inversion Hrows'; subst stn'.
    destruct (solve_rows_prefix cost nr nc n stn ltac:(lia) En)
      as [Hsh HM].
    intros Efree.
    destruct (solve_row_structure cost nr nc n stn Hsh HM ltac:(lia))
      as (sink & mv & s & _
          & [(_ & _ & Ef)
            |(snk & _ & _ & _ & _ & _ & st'' & Eok & _ & _ & _ & Hun)]);
      rewrite Er in *; [discriminate|].
    inversion Eok; subst st''.
    apply (IH ltac:(lia) stn eq_refl Hm).
    apply (Hun j Hj). exact Efree.
Qed.

Lemma matched_columns_stay_matched_witness :
  let cost := Matrix2d [Fin 4; Fin 1; Fin 2; Fin 0] 2 2 false false
                       None None in
  let st := Lsap [Fin 1; Fin 0] [Fin 0; Fin 0] [Fin 4; Fin 1] [0; 0]
                 [1; -1] [-1; 0] [true; false] [false; true] [0; 0] in
  let st' := Lsap [Fin 3; Fin 2] [Fin 0; Fin (-2)] [Fin 2; Fin 0] [1; 1]
                  [1; 0] [1; 0] [true; true] [true; true] [0; 0] in
  solve_rows (A := ieee_arith) cost 2 2 (seq 0 1) (lsap_init 2 2) = Ok st
  /\ solve_rows (A := ieee_arith) cost 2 2 (seq 0 2) (lsap_init 2 2)
     = Ok st'
  /\ nth 1 (l_row4col st') 0 <> -1.
Proof.
  intros cost st st'.
  split; [vm_compute; reflexivity|]. split; [vm_compute; reflexivity|].
  apply (matched_columns_stay_matched (A := ieee_arith) cost 2 2 1 2 st).
  - lia.
  - lia.
  - vm_compute. reflexivity.
  - vm_compute. reflexivity.
  - simpl. lia.
Defined.

(** ** What is written to the output buffers *)

(** The number of pairs [solve] writes on success: the smaller of the two
    working dimensions, which are the announced lengths of the selectors
    as soon as one selector is given. *)
Definition pairs_written (nr nc n_subrows n_subcols : Z) : Z :=
  if ((nr =? 0) || (nc =? 0))%bool then 0
  else if ((n_subrows =? 0) && (n_subcols =? 0))%bool then Z.min nr nc
       else Z.min n_subrows n_subcols.

(** On success [solve] writes [pairs_written] pairs, and every emitted
    row and column is an index of the matrix as passed.  With selectors
    longer than the matrix this is more than [min(nr, nc)] pairs. *)
Theorem solve_output_in_range {A : Arith} {T} `{Elem T}
        (nr nc : Z) (cost : list T) (maximize : bool)
        (subrows : option (list Z)) (n_subrows : Z)
        (subcols : option (list Z)) (n_subcols : Z) (a b : list Z) :
  0 <= nr -> 0 <= nc ->
  subscript_wf false subrows n_subrows ->
  subscript_wf false subcols n_subcols ->
  solve nr nc cost maximize subrows n_subrows subcols n_subcols = Ok (a, b) ->
  length a = length b
  /\ Z.of_nat (length a) = pairs_written nr nc n_subrows n_subcols
  /\ (forall x, In x a -> 0 <= x < nr)
  /\ (forall y, In y b -> 0 <= y < nc).
Proof.
  intros Hnr Hnc Hwr Hwc Hsolve.
  assert (Hempty : a = [] /\ b = [] ->
            pairs_written nr nc n_subrows n_subcols = 0 ->
            length a = length b
            /\ Z.of_nat (length a) = pairs_written nr nc n_subrows n_subcols
            /\ (forall x, In x a -> 0 <= x < nr)
            /\ (forall y, In y b -> 0 <= y < nc)).
  { intros [-> ->] ->. simpl.
    split; [reflexivity|]. split; [reflexivity|]. split; intros ? []. }
  assert (Hplain : n_subrows = 0 -> n_subcols = 0 ->
            length a = length b
            /\ Z.of_nat (length a) = pairs_written nr nc n_subrows n_subcols
            /\ (forall x, In x a -> 0 <= x < nr)
            /\ (forall y, In y b -> 0 <= y < nc)).
  { intros -> ->.
    destruct (plain_valid_assignment nr nc cost maximize subrows subcols a b
                                     Hnr Hnc Hsolve)
      as (Hl & Hmin & _ & _ & Ha & Hb).
    split; [exact Hl|]. split; [|split; auto].
    rewrite Hmin. unfold pairs_written. simpl.
    destruct (Z.eqb_spec nr 0); destruct (Z.eqb_spec nc 0); simpl; lia. }
  destruct (Z.eq_dec nr 0) as [Hnr0|Hnr0].
  { apply Hempty.
    - subst nr. unfold solve in Hsolve. simpl in Hsolve.
      inversion Hsolve. auto.
    - unfold pairs_written. subst nr. reflexivity. }
  destruct (Z.eq_dec nc 0) as [Hnc0|Hnc0].
  { apply Hempty.
    - subst nc. unfold solve in Hsolve.
      rewrite Z.eqb_refl, orb_true_r in Hsolve. inversion Hsolve. auto.
    - unfold pairs_written. subst nc. now rewrite Z.eqb_refl, orb_true_r. }
  assert (Hpw : pairs_written nr nc n_subrows n_subcols
                = if ((n_subrows =? 0) && (n_subcols =? 0))%bool
                  then Z.min nr nc else Z.min n_subrows n_subcols).
  { unfold pairs_written.
    replace ((nr =? 0) || (nc =? 0))%bool with false
      by (symmetry; apply orb_false_iff; split; apply Z.eqb_neq; lia).
    reflexivity. }
  destruct (Z.eq_dec n_subrows 0) as [Er|Er];
    destruct (Z.eq_dec n_subcols 0) as [Ec|Ec].
  - apply Hplain; auto.
  - destruct Hwc as [->|(Q & -> & -> & _)]; [contradiction|].
    subst n_subrows. apply Hempty.
    + apply (solve_cols_only nr nc cost maximize subrows Q a b); auto.
      intros ->. simpl in Ec. lia.
    + rewrite Hpw. simpl.
      replace (Z.of_nat (length Q) =? 0) with false
        by (symmetry; apply Z.eqb_neq; lia). lia.
  - destruct Hwr as [->|(P & -> & -> & _)]; [contradiction|].
    subst n_subcols. apply Hempty.
    + apply (solve_rows_only nr nc cost maximize P subcols a b); auto.
      intros ->. simpl in Er. lia.
    + rewrite Hpw.
      replace (Z.of_nat (length P) =? 0) with false
        by (symmetry; apply Z.eqb_neq; lia). simpl. lia.
  - destruct Hwr as [->|(P & -> & -> & _)]; [contradiction|].
    destruct Hwc as [->|(Q & -> & -> & _)]; [contradiction|].
    assert (HPne : P <> []) by (intros ->; simpl in Er; lia).
    assert (HQne : Q <> []) by (intros ->; simpl in Ec; lia).
    destruct (solve_both_checked nr nc cost maximize P Q a b HPne HQne
                                 Hnr0 Hnc0 Hsolve) as (HPr & HQr & Hval).
    rewrite (subscript_as_submatrix nr nc cost maximize P Q HPne HQne
                                    HPr HQr Hval) in Hsolve.
    destruct (solve (Z.of_nat (length P)) (Z.of_nat (length Q))
                    (submatrix nc cost P Q) maximize None 0 None 0)
      as [[a0 b0]|s|] eqn:Einner; simpl in Hsolve; try discriminate.
    inversion Hsolve; subst a b.
    destruct (plain_valid_assignment _ _ _ _ _ _ a0 b0
                (Nat2Z.is_nonneg _) (Nat2Z.is_nonneg _) Einner)
      as (Hl & Hmin & _ & _ & Hra & Hrb).
    rewrite !length_map. split; [exact Hl|]. split.
    + rewrite Hpw, Hmin.
      replace (Z.of_nat (length P) =? 0) with false
        by (symmetry; apply Z.eqb_neq; lia). reflexivity.
    + split; intros z Hz; apply in_map_iff in Hz;
        destruct Hz as (x & <- & Hx).
      * apply HPr. unfold zth. apply nth_In. apply Hra in Hx. lia.
      * apply HQr. unfold zth. apply nth_In. apply Hrb in Hx. lia.
Qed.

Lemma solve_output_in_range_witness :
  let C := [Fin 4; Fin 1; Fin 3; Fin 2; Fin 0; Fin 5] in
  solve (A := ieee_arith) 2 3 C false (Some [0; 0; 1]) 3 (Some [0; 1; 2]) 3
  = Ok ([0; 0; 1], [1; 2; 0])
  /\ length [0; 0; 1] = length [1; 2; 0]
  /\ Z.of_nat (length [0; 0; 1]) = pairs_written 2 3 3 3
  /\ (forall x, In x [0; 0; 1] -> 0 <= x < 2)
  /\ (forall y, In y [1; 2; 0] -> 0 <= y < 3).
Proof.
  intros C. split; [vm_compute; reflexivity|].
  apply (solve_output_in_range (A := ieee_arith)
           2 3 C false (Some [0; 0; 1]) 3 (Some [0; 1; 2]) 3).
  - lia.
  - lia.
  - right. exists [0; 0; 1]. repeat split; discriminate.
  - right. exists [0; 1; 2]. repeat split; discriminate.
  - vm_compute. reflexivity.
Defined.

(** ** Selectors that select everything *)

Lemma iota_length (n : nat) : length (iota n) = n.
Proof. unfold iota. now rewrite length_map, length_seq. Qed.

Lemma zth_iota (n : nat) (x : Z) :
  0 <= x < Z.of_nat n -> zth (iota n) x 0 = x.
Proof.
  intros Hx. unfold zth, iota.
  rewrite (nth_indep _ 0 (Z.of_nat 0))
    by (rewrite length_map, length_seq; lia).
  rewrite map_nth, seq_nth by lia. lia.
Qed.

Lemma map_zth_iota (n : nat) (l : list Z) :
  (forall x, In x l -> 0 <= x < Z.of_nat n) ->
  map (fun x => zth (iota n) x 0) l = l.
Proof.
  intros Hl. rewrite <- (map_id l) at 2. apply map_ext_in.
  intros x Hx. apply zth_iota. auto.
Qed.

Lemma submatrix_iota {T} `{Elem T} (n m : nat) (C : list T) :
  length C = (n * m)%nat ->
  submatrix (Z.of_nat m) C (iota n) (iota m) = C.
Proof.
  intros Hlen.
  assert (Hl : length (submatrix (Z.of_nat m) C (iota n) (iota m))
               = (n * m)%nat).
  { unfold submatrix. now rewrite flat_map_rows_length, !iota_length. }
  apply (nth_ext _ _ elem_default elem_default); [lia|].
  intros k Hk. rewrite Hl in Hk.
  assert (Hm : (0 < m)%nat) by (destruct m; [lia|lia]).
  pose proof (Nat.div_mod_eq k m) as Hdm.
  assert (Hj : (k mod m < m)%nat) by (apply Nat.mod_upper_bound; lia).
  assert (Hi : (k / m < n)%nat)
    by (apply Nat.Div0.div_lt_upper_bound; lia).
  remember (k / m)%nat as i eqn:Ei.
  remember (k mod m)%nat as j eqn:Ej.
  assert (Ek : k = (i * length (iota m) + j)%nat)
    by (rewrite iota_length; lia).
  rewrite Ek at 1.
  rewrite submatrix_nth by (rewrite iota_length; lia).
  rewrite <- !(zth_nat (iota _)), !zth_iota by lia.
  unfold zth. f_equal. lia.
Qed.

(** Selectors that list every row and every column in order change
    nothing: the status and the pairs are those of the solve without
    subscript. *)
Theorem identity_selectors_are_neutral {A : Arith} {T} `{Elem T}
        (n m : nat) (C : list T) (maximize : bool) :
  (0 < n)%nat -> (0 < m)%nat ->
  length C = (n * m)%nat ->
  solve (Z.of_nat n) (Z.of_nat m) C maximize
        (Some (iota n)) (Z.of_nat n) (Some (iota m)) (Z.of_nat m)
  = solve (Z.of_nat n) (Z.of_nat m) C maximize None 0 None 0.
Proof.
  intros Hn Hm Hlen.
  destruct (existsb (fun i => invalid_entry maximize (nth i C elem_default))
                    (seq 0 (Z.to_nat (Z.of_nat n * Z.of_nat m)))) eqn:Hscan.
  - unfold solve. rewrite Hscan.
    destruct ((Z.of_nat n =? 0) || (Z.of_nat m =? 0))%bool; reflexivity.
  - assert (HPne : iota n <> []).
    { intros E. apply (f_equal (@length Z)) in E.
      rewrite iota_length in E. simpl in E. lia. }
    assert (HQne : iota m <> []).
    { intros E. apply (f_equal (@length Z)) in E.
      rewrite iota_length in E. simpl in E. lia. }
    pose proof (subscript_as_submatrix (Z.of_nat n) (Z.of_nat m) C maximize
                  (iota n) (iota m) HPne HQne) as Hsub.
    rewrite !iota_length in Hsub. rewrite Hsub; clear Hsub.
    + rewrite submatrix_iota by exact Hlen.
      destruct (solve (Z.of_nat n) (Z.of_nat m) C maximize None 0 None 0)
        as [[a b]|s|] eqn:Hsolve; simpl; try reflexivity.
      destruct (plain_valid_assignment _ _ _ _ _ _ a b
                  (Nat2Z.is_nonneg _) (Nat2Z.is_nonneg _) Hsolve)
        as (_ & _ & _ & _ & Ha & Hb).
      now rewrite !map_zth_iota.
    + intros p Hp. now apply in_iota.
    + intros q Hq. now apply in_iota.
    + intros k Hk Hbad.
      assert (Hex : existsb (fun i => invalid_entry maximize
                                        (nth i C elem_default))
                            (seq 0 (Z.to_nat (Z.of_nat n * Z.of_nat m)))
                    = true).
      { apply existsb_seq_iff. exists (Z.to_nat k). split; [lia|].
        apply invalid_entry_iff. exact Hbad. }
      congruence.
Qed.

Lemma identity_selectors_are_neutral_witness :
  solve (A := ieee_arith) 2 2 [Fin 4; Fin 1; Fin 2; Fin 0] false
        (Some [0; 1]) 2 (Some [0; 1]) 2
  = solve (A := ieee_arith) 2 2 [Fin 4; Fin 1; Fin 2; Fin 0] false
          None 0 None 0.
Proof.
  apply (identity_selectors_are_neutral (A := ieee_arith)
           2 2 [Fin 4; Fin 1; Fin 2; Fin 0] false).
  - lia.
  - lia.
  - reflexivity.
Defined.

(** ** The scratch vectors of the search *)

Lemma map_const_length {A B C} (c : C) (l : list A) (l' : list B) :
  length l = length l' -> map (fun _ => c) l = map (fun _ => c) l'.
Proof.
  revert l'. induction l as [|x l IH]; intros [|y l'] E; simpl in *;
    try lia; auto.
  f_equal. apply IH. lia.
Qed.

(** [augmenting_path] starts from fresh [SR], [SC], [shortestPathCosts]
    and [remaining]: what these vectors held before the call has no
    effect on what it returns (only [path] is carried over). *)
Theorem search_ignores_scratch {A : Arith} {T} `{Elem T}
        (cost : matrix2d T) (u v : list double) (row4col : list Z)
        (nc : nat) (path : list Z) (i : Z)
        (spc spc' : list double) (SR SR' SC SC' : list bool)
        (remaining remaining' : list Z) :
  length spc = length spc' -> length SR = length SR' ->
  length SC = length SC' ->
  length remaining = nc -> length remaining' = nc ->
  augmenting_path cost u v row4col nc path spc i SR SC remaining
  = augmenting_path cost u v row4col nc path spc' i SR' SC' remaining'.
Proof.
  intros Hspc HSR HSC Hrem Hrem'. unfold augmenting_path.
  rewrite (map_const_length INFINITY spc spc' Hspc).
  rewrite (map_const_length false SR SR' HSR).
  rewrite (map_const_length false SC SC' HSC).
  f_equal. f_equal.
  apply (nth_ext _ _ 0 0).
  - rewrite !remaining_init_length. lia.
  - intros k Hk. rewrite remaining_init_length in Hk.
    rewrite (remaining_init_nth nc remaining nc k Hrem (Nat.le_refl _))
      by lia.
    rewrite (remaining_init_nth nc remaining' nc k Hrem' (Nat.le_refl _))
      by lia.
    reflexivity.
Qed.

Lemma search_ignores_scratch_witness :
  augmenting_path (A := ieee_arith) (Matrix2d [Fin 4; Fin 1; Fin 2; Fin 0] 2 2 false false
                            None None)
                  [Fin 0; Fin 0] [Fin 0; Fin 0] [-1; -1] 2 [-1; -1]
                  [Fin 0; Fin 0] 0 [false; false] [false; false] [0; 0]
  = augmenting_path (A := ieee_arith) (Matrix2d [Fin 4; Fin 1; Fin 2; Fin 0] 2 2 false false
                              None None)
                    [Fin 0; Fin 0] [Fin 0; Fin 0] [-1; -1] 2 [-1; -1]
                    [Fin 7; NaN] 0 [true; true] [true; false] [5; 9].
Proof.
  apply (search_ignores_scratch (A := ieee_arith)); reflexivity.
Defined.

(** ** A matrix of one row *)

Section SingleRow.
Context {A : Arith} {T : Type} `{Elem T}.
Variable nc : nat.
Variable C : list T.
Hypothesis Hnc : (0 < nc)%nat.

(** The entries of the row, promoted. *)
Definition entry (k : nat) : double := to_double (nth k C elem_default).

Hypothesis Hvalid :
  forall k, (k < nc)%nat -> entry k = PInf \/ finite (entry k).

(** The arithmetic of line 136 returns every entry as it is. *)
Hypothesis Hkeep :
  forall k, (k < nc)%nat -> deq (first_distance elem_format (entry k))
                                (entry k).

Let pv := plain_view 1 (Z.of_nat nc) C false.
Let st0 := lsap_init 1 nc.
Let rem0 :=
  fold_left (fun rem it => zset rem (Z.of_nat it)
                                (Z.of_nat nc - Z.of_nat it - 1))
            (seq 0 nc) (l_remaining st0).
Let spc0 := map (fun _ : double => INFINITY) (l_spc st0).

(** The candidate distance of column [j] in the first scan. *)
Let cand (j : nat) : double := first_distance elem_format (entry j).

Lemma rem0_nth (it : nat) :
  (it < nc)%nat -> nth it rem0 0 = Z.of_nat (nc - 1 - it).
Proof.
  intros Hit. unfold rem0.
  rewrite remaining_init_nth; try lia.
  simpl. apply repeat_length.
Qed.

Lemma single_scan_r (j : nat) :
  (j < nc)%nat ->
  scan_r pv (l_u st0) (l_v st0) 0 (Fin 0) (Z.of_nat j) = cand j.
Proof.
  intros Hj. unfold scan_r, cand.
  assert (Ec : cost_at pv 0 (Z.of_nat j) = entry j).
  { unfold cost_at, get, pv, plain_view. cbn.
    replace (Z.of_nat nc <? 1) with false
      by (symmetry; apply Z.ltb_ge; lia).
    cbn. unfold entry, zth. now rewrite Nat2Z.id. }
  assert (Ev : zth (l_v st0) (Z.of_nat j) NaN = Fin 0).
  { rewrite zth_nat. simpl. now apply nth_repeat_any. }
  rewrite Ec, Ev. reflexivity.
Qed.

Lemma cand_cases (j : nat) :
  (j < nc)%nat ->
  (entry j = PInf /\ cand j = PInf)
  \/ exists q q', entry j = Fin q /\ cand j = Fin q' /\ (q' == q)%Q.
Proof.
  intros Hj. pose proof (Hkeep j Hj) as Hk. fold (cand j) in Hk.
  destruct (Hvalid j Hj) as [E|[q E]]; rewrite E in Hk.
  - left. split; [exact E|]. destruct (cand j); simpl in Hk; tauto.
  - right. exists q. destruct (cand j) as [q'| | |]; simpl in Hk; try tauto.
    exists q'. split; [exact E|]. split; [reflexivity|exact Hk].
Qed.

Lemma single_relaxed (j : nat) :
  (j < nc)%nat ->
  relaxed pv (l_u st0) (l_v st0) 0 (Fin 0) spc0 (Z.of_nat j) = cand j
  /\ (finite (entry j) ->
      relaxed_path pv (l_u st0) (l_v st0) 0 (Fin 0) (l_path st0) spc0
                   (Z.of_nat j) = 0).
Proof.
  intros Hj. unfold relaxed, relaxed_path.
  rewrite single_scan_r by exact Hj.
  assert (Es : zth spc0 (Z.of_nat j) NaN = INFINITY).
  { rewrite zth_nat. unfold spc0. apply nth_map_const.
    simpl. rewrite repeat_length. exact Hj. }
  rewrite Es.
  destruct (cand_cases j Hj) as [[Ee ->]|(q & q' & Ee & -> & _)].
  - split; [reflexivity|]. rewrite Ee. intros [x Ex]. discriminate.
  - split; reflexivity.
Qed.

(** The value the selection sees at position [it] of [remaining]. *)
Lemma single_scan_val (it : nat) :
  (it < nc)%nat ->
  scan_val pv (l_u st0) (l_v st0) rem0 0 (Fin 0) spc0 it
  = cand (nc - 1 - it).
Proof.
  intros Hit. unfold scan_val. rewrite rem0_nth by exact Hit.
  apply single_relaxed. lia.
Qed.

Lemma single_scan_free (it : nat) :
  (it < nc)%nat -> scan_free (l_row4col st0) rem0 it = true.
Proof.
  intros Hit. unfold scan_free. rewrite rem0_nth by exact Hit.
  rewrite zth_nat. simpl. rewrite nth_repeat_any by lia. reflexivity.
Qed.

Hypothesis Hsome : exists k, (k < nc)%nat /\ finite (entry k).

Let sc0 :=
  scan_loop pv (l_u st0) (l_v st0) (l_row4col st0) rem0 nc 0 (Fin 0)
            (l_path st0) spc0.

(** The first scan selects the position of the least column among those
    of least entry. *)
Lemma single_row_select :
  exists j q,
    (j < nc)%nat
    /\ sc_index sc0 = Z.of_nat (nc - 1 - j)
    /\ sc_lowest sc0 = Fin q
    /\ zth (sc_path sc0) (Z.of_nat j) 0 = 0
    /\ finite (entry j)
    /\ (forall k, (k < nc)%nat -> dle (entry j) (entry k))
    /\ (forall k, (k < j)%nat -> ~ dle (entry k) (entry j)).
Proof.
  unfold sc0. rewrite scan_loop_upto.
  assert (Hlen : length (l_path st0) = length spc0).
  { unfold spc0. simpl. now rewrite length_map, !repeat_length. }
  assert (Hls : length spc0 = nc).
  { unfold spc0. simpl. now rewrite length_map, repeat_length. }
  assert (Hrem : forall it, (it < nc)%nat ->
                   0 <= nth it rem0 0 < Z.of_nat (length spc0)).
  { intros it Hit. rewrite rem0_nth by exact Hit. lia. }
  destruct (scan_upto_spec pv (l_u st0) (l_v st0) (l_row4col st0) rem0 0
                           (Fin 0) (l_path st0) spc0 nc Hlen Hrem nc
                           (Nat.le_refl _))
    as (_ & _ & Hvis & _ & Hsel).
  set (sc := scan_upto pv (l_u st0) (l_v st0) (l_row4col st0) rem0 0
                       (Fin 0) (l_path st0) spc0 nc) in *.
  set (val := scan_val pv (l_u st0) (l_v st0) rem0 0 (Fin 0) spc0) in *.
  set (free := scan_free (l_row4col st0) rem0) in *.
  assert (El : sc_lowest sc = fst (select_upto val free nc))
    by (rewrite <- Hsel; reflexivity).
  assert (Ei : sc_index sc = snd (select_upto val free nc))
    by (rewrite <- Hsel; reflexivity).
  assert (Hval : forall it, (it < nc)%nat -> val it = cand (nc - 1 - it)).
  { intros it Hit. apply single_scan_val. exact Hit. }
  assert (Hlow : forall k, (k < nc)%nat ->
                   (cand k <? sc_lowest sc)%D = false).
  { intros k Hk. rewrite El.
    replace k with (nc - 1 - (nc - 1 - k))%nat at 1 by lia.
    rewrite <- Hval by lia. apply select_lowest. lia. }
  destruct Hsome as (k0 & Hk0 & [q0 Eq0]).
  assert (Hnotinf : sc_lowest sc <> PInf).
  { intros E. specialize (Hlow k0 Hk0). rewrite E in Hlow.
    destruct (cand_cases k0 Hk0) as [[Ee _]|(q & q' & _ & Ec & _)].
    - congruence.
    - rewrite Ec in Hlow. discriminate. }
  destruct (select_index val free nc) as [[_ E]|(p & Hp & Ep & Ev)].
  { rewrite <- El in E. contradiction. }
  rewrite <- El in Ev. rewrite <- Ei in Ep. rewrite Hval in Ev by exact Hp.
  set (j := (nc - 1 - p)%nat) in *.
  assert (Hj : (j < nc)%nat) by (unfold j; lia).
  destruct (cand_cases j Hj) as [[_ Ec]|(q & q' & Ee & Ec & Hqq)].
  { rewrite Ec in Ev. contradiction. }
  exists j, q'.
  split; [exact Hj|].
  split; [rewrite Ep; f_equal; unfold j; lia|].
  split; [rewrite Ev; exact Ec|].
  split.
  { specialize (Hvis p Hp). rewrite rem0_nth in Hvis by exact Hp.
    fold j in Hvis. destruct Hvis as [_ ->].
    apply single_relaxed; auto. now exists q. }
  split; [now exists q|].
  assert (Hmin : forall k, (k < nc)%nat -> dle (entry j) (entry k)).
  { intros k Hk. specialize (Hlow k Hk). rewrite Ev, Ec in Hlow.
    rewrite Ee.
    destruct (cand_cases k Hk) as [[-> _]|(qk & qk' & -> & Eck & Hk')];
      [exact I|].
    rewrite Eck in Hlow. simpl in Hlow.
    apply Qlt_bool_false_iff in Hlow. simpl. lra. }
  split; [exact Hmin|].
  intros k Hk Hle.
  assert (Hkn : (k < nc)%nat) by lia.
  pose proof (Hmin k Hkn) as Hge. rewrite Ee in Hle, Hge.
  destruct (cand_cases k Hkn) as [[Ek _]|(qk & qk' & Ek & Eck & Hk')];
    rewrite Ek in Hle, Hge; simpl in Hle, Hge; [contradiction|].
  destruct (select_last_free val free nc (nc - 1 - k)%nat ltac:(lia))
    as (p' & Ep' & Hp' & _).
  - rewrite Hval by lia. replace (nc - 1 - (nc - 1 - k))%nat with k by lia.
    rewrite <- El, Ev, Ec, Eck. simpl. apply Qeq_bool_iff. lra.
  - apply single_scan_free. lia.
  - rewrite <- Ei, Ep in Ep'. assert (p' = p) by lia. subst p'.
    unfold j in Hk. lia.
Qed.

Lemma single_row_scan_valid :
  existsb (fun i => invalid_entry false (nth i C elem_default))
          (seq 0 (Z.to_nat (1 * Z.of_nat nc))) = false.
Proof.
  match goal with |- ?x = false => destruct x eqn:E; auto end.
  apply existsb_seq_iff in E. destruct E as (k & Hk & Hbad).
  apply invalid_entry_iff in Hbad. fold (entry k) in Hbad.
  destruct (Hvalid k ltac:(lia)) as [E|[q E]]; rewrite E in Hbad;
    destruct Hbad as [B|[[B _]|[_ B]]]; discriminate.
Qed.

Lemma single_row_rows :
  exists j st,
    (j < nc)%nat
    /\ solve_rows pv 1 nc (seq 0 1) (lsap_init 1 nc) = Ok st
    /\ l_col4row st = [Z.of_nat j]
    /\ finite (entry j)
    /\ (forall k, (k < nc)%nat -> dle (entry j) (entry k))
    /\ (forall k, (k < j)%nat -> ~ dle (entry k) (entry j)).
Proof.
  destruct single_row_select
    as (j & q & Hj & Eidx & Elow & Epath & Hfin & Hmin & Hfirst).
  exists j.
  cbn [seq solve_rows]. unfold solve_row, augmenting_path.
  change (Z.of_nat 0) with 0.
  fold st0. fold rem0. fold spc0.
  cbn [search_loop s_remaining s_path s_spc s_SR s_SC].
  fold sc0. rewrite Elow, Eidx.
  cbn [deqb INFINITY]. rewrite zth_nat, rem0_nth by lia.
  replace (nc - 1 - (nc - 1 - j))%nat with j by lia.
  assert (Er : zth (l_row4col st0) (Z.of_nat j) 0 = -1).
  { rewrite zth_nat. simpl. now apply nth_repeat_any. }
  rewrite Er. cbn [Z.eqb Pos.eqb].
  replace (Z.of_nat j <? 0) with false by (symmetry; apply Z.ltb_ge; lia).
  cbn [s_path s_spc s_SR s_SC s_remaining augment].
  rewrite Epath. cbn [Z.of_nat Z.eqb bind].
  eexists. split; [exact Hj|]. split; [reflexivity|].
  split; [reflexivity|]. auto.
Qed.

Lemma single_row_solve (subrows subcols : option (list Z)) :
  exists j,
    (j < nc)%nat
    /\ solve 1 (Z.of_nat nc) C false subrows 0 subcols 0
       = Ok ([0], [Z.of_nat j])
    /\ finite (entry j)
    /\ (forall k, (k < nc)%nat -> dle (entry j) (entry k))
    /\ (forall k, (k < j)%nat -> ~ dle (entry k) (entry j)).
Proof.
  destruct single_row_rows
    as (j & st & Hj & Erows & Ec & Hfin & Hmin & Hfirst).
  exists j. split; [exact Hj|]. split; [|auto].
  rewrite solve_plain_eq by (try lia; apply single_row_scan_valid).
  assert (Htr : (Z.of_nat nc <? 1) = false) by (apply Z.ltb_ge; lia).
  unfold work_rows, work_cols. rewrite Htr.
  change (Z.to_nat 1) with 1%nat. rewrite Nat2Z.id.
  fold pv. rewrite Erows. cbn [bind].
  unfold emit. cbn [is_subscript]. rewrite Ec. reflexivity.
Qed.

(** The same search runs on a matrix of one column, which is
    transposed. *)
Lemma single_column_solve (subrows subcols : option (list Z)) :
  (1 < nc)%nat ->
  exists j,
    (j < nc)%nat
    /\ solve (Z.of_nat nc) 1 C false subrows 0 subcols 0
       = Ok ([Z.of_nat j], [0])
    /\ finite (entry j)
    /\ (forall k, (k < nc)%nat -> dle (entry j) (entry k))
    /\ (forall k, (k < j)%nat -> ~ dle (entry k) (entry j)).
Proof.
  intros Htall.
  destruct single_row_rows
    as (j & st & Hj & Erows & Ec & Hfin & Hmin & Hfirst).
  exists j. split; [exact Hj|]. split; [|auto].
  rewrite solve_plain_eq; try lia.
  2:{ rewrite Z.mul_1_r, <- (Z.mul_1_l (Z.of_nat nc)).
      apply single_row_scan_valid. }
  assert (Htr : (1 <? Z.of_nat nc) = true) by (apply Z.ltb_lt; lia).
  unfold work_rows, work_cols. rewrite Htr.
  change (Z.to_nat 1) with 1%nat. rewrite Nat2Z.id.
  rewrite (solve_rows_seq_ext 1 nc (plain_view (Z.of_nat nc) 1 C false) pv).
  - rewrite Erows. cbn [bind].
    unfold emit. cbn [is_subscript]. rewrite Ec. reflexivity.
  - intros i k Hi Hk. assert (i = 0) by lia. subst i.
    unfold cost_at, get, pv, plain_view. cbn.
    rewrite Htr.
    replace (Z.of_nat nc <? 1) with false
      by (symmetry; apply Z.ltb_ge; lia).
    cbn. do 2 f_equal. lia.
Qed.
End SingleRow.

(** On a matrix of one row without NaN and [-inf] that has a finite
    entry, the minimizing [solve] returns the pair of row 0 and of the
    first column among those of least entry, in every arithmetic in which
    line 136 returns each entry as it is (as the machine does with every
    [double]).  The entries are compared as the solver reads them,
    converted to [double]. *)
Theorem single_row_picks_first_minimum {A : Arith} {T} `{Elem T}
        (nc : nat) (C : list T) :
  (0 < nc)%nat ->
  (forall k, (k < nc)%nat -> entry C k = PInf \/ finite (entry C k)) ->
  (forall k, (k < nc)%nat ->
             deq (first_distance elem_format (entry C k)) (entry C k)) ->
  (exists k, (k < nc)%nat /\ finite (entry C k)) ->
  exists j,
    (j < nc)%nat
    /\ solve 1 (Z.of_nat nc) C false None 0 None 0 = Ok ([0], [Z.of_nat j])
    /\ finite (entry C j)
    /\ (forall k, (k < nc)%nat -> dle (entry C j) (entry C k))
    /\ (forall k, (k < j)%nat -> ~ dle (entry C k) (entry C j)).
Proof.
  intros Hnc Hvalid Hkeep Hsome.
  exact (single_row_solve nc C Hnc Hvalid Hkeep Hsome None None).
Qed.

Lemma single_row_picks_first_minimum_witness :
  exists j,
    (j < 4)%nat
    /\ solve (A := ieee_arith) 1 4 [Fin 3; Fin 1; PInf; Fin 1] false
             None 0 None 0
       = Ok ([0], [Z.of_nat j])
    /\ finite (entry [Fin 3; Fin 1; PInf; Fin 1] j)
    /\ (forall k, (k < 4)%nat ->
          dle (entry [Fin 3; Fin 1; PInf; Fin 1] j)
              (entry [Fin 3; Fin 1; PInf; Fin 1] k))
    /\ (forall k, (k < j)%nat ->
          ~ dle (entry [Fin 3; Fin 1; PInf; Fin 1] k)
                (entry [Fin 3; Fin 1; PInf; Fin 1] j)).
Proof.
  apply (single_row_picks_first_minimum (A := ieee_arith)
           4 [Fin 3; Fin 1; PInf; Fin 1]).
  - lia.
  - intros k Hk.
    destruct k as [|[|[|[|k]]]]; try lia;
      try (right; eexists; reflexivity); left; reflexivity.
  - intros k Hk.
    destruct k as [|[|[|[|k]]]]; try lia; vm_compute; reflexivity.
  - exists 0%nat. split; [lia|]. eexists. reflexivity.
Defined.

(** On a matrix of one column (and at least two rows) without NaN and
    [-inf] that has a finite entry, the minimizing [solve] returns the
    pair of the first row among those of least entry and of column 0, in
    every arithmetic in which line 136 returns each entry as it is.  The
    entries are compared as the solver reads them, converted to
    [double]. *)
Theorem single_column_picks_first_minimum {A : Arith} {T} `{Elem T}
        (nr : nat) (C : list T) :
  (1 < nr)%nat ->
  (forall k, (k < nr)%nat -> entry C k = PInf \/ finite (entry C k)) ->
  (forall k, (k < nr)%nat ->
             deq (first_distance elem_format (entry C k)) (entry C k)) ->
  (exists k, (k < nr)%nat /\ finite (entry C k)) ->
  exists i,
    (i < nr)%nat
    /\ solve (Z.of_nat nr) 1 C false None 0 None 0 = Ok ([Z.of_nat i], [0])
    /\ finite (entry C i)
    /\ (forall k, (k < nr)%nat -> dle (entry C i) (entry C k))
    /\ (forall k, (k < i)%nat -> ~ dle (entry C k) (entry C i)).
Proof.
  intros Hnr Hvalid Hkeep Hsome.
  exact (single_column_solve nr C ltac:(lia) Hvalid Hkeep Hsome None None
                             Hnr).
Qed.

Lemma single_column_picks_first_minimum_witness :
  exists i,
    (i < 3)%nat
    /\ solve (A := ieee_arith) 3 1 [Fin 3; Fin 1; Fin 1] false None 0 None 0
       = Ok ([Z.of_nat i], [0])
    /\ finite (entry [Fin 3; Fin 1; Fin 1] i)
    /\ (forall k, (k < 3)%nat ->
          dle (entry [Fin 3; Fin 1; Fin 1] i)
              (entry [Fin 3; Fin 1; Fin 1] k))
    /\ (forall k, (k < i)%nat ->
          ~ dle (entry [Fin 3; Fin 1; Fin 1] k)
                (entry [Fin 3; Fin 1; Fin 1] i)).
Proof.
  apply (single_column_picks_first_minimum (A := ieee_arith)
           3 [Fin 3; Fin 1; Fin 1]).
  - lia.
  - intros k Hk.
    destruct k as [|[|[|k]]]; try lia; right; eexists; reflexivity.
  - intros k Hk.
    destruct k as [|[|[|k]]]; try lia; vm_compute; reflexivity.
  - exists 0%nat. split; [lia|]. eexists. reflexivity.
Defined.

(** ** The transposed matrix *)

(** The [nc] x [nr] matrix with the entry [C[i, j]] at [(j, i)]. *)
Definition transposed {T} `{Elem T} (nr nc : nat) (C : list T) : list T :=
  flat_map (fun j => map (fun i => nth (i * nc + j) C elem_default)
                         (seq 0 nr))
           (seq 0 nc).

Lemma transposed_nth {T} `{Elem T} (nr nc : nat) (C : list T) (i j : nat) :
  (i < nr)%nat -> (j < nc)%nat ->
  nth (j * nr + i) (transposed nr nc C) elem_default
  = nth (i * nc + j) C elem_default.
Proof.
  intros Hi Hj. unfold transposed.
  pose proof (flat_map_rows_nth
                (fun j i => nth (i * nc + j) C elem_default)
                (seq 0 nc) (seq 0 nr) j i 0%nat 0%nat elem_default) as E.
  rewrite !length_seq in E. rewrite E by lia.
  now rewrite !seq_nth by lia.
Qed.

Lemma transposed_entry {T} `{Elem T} (nr nc : nat) (C : list T) (k : nat) :
  (k < nc * nr)%nat ->
  exists c, (c < nr * nc)%nat
            /\ nth k (transposed nr nc C) elem_default
               = nth c C elem_default.
Proof.
  intros Hk.
  assert (Hnr : (0 < nr)%nat) by (destruct nr; lia).
  pose proof (Nat.div_mod_eq k nr) as Hdm.
  assert (Hi : (k mod nr < nr)%nat) by (apply Nat.mod_upper_bound; lia).
  assert (Hj : (k / nr < nc)%nat)
    by (apply Nat.Div0.div_lt_upper_bound; lia).
  remember (k / nr)%nat as j eqn:Ej.
  remember (k mod nr)%nat as i eqn:Ei.
  exists (i * nc + j)%nat. split; [nia|].
  replace k with (j * nr + i)%nat by lia.
  now apply transposed_nth.
Qed.

Lemma combine_swap {A B} (l : list A) (l' : list B) :
  combine l' l = map (fun xy => (snd xy, fst xy)) (combine l l').
Proof.
  revert l'. induction l as [|x l IH]; intros [|y l']; simpl; auto.
  now rewrite IH.
Qed.

Lemma total_cost_transposed {T} `{Elem T} (nr nc : nat) (C : list T)
      (a b : list Z) :
  (forall x, In x a -> 0 <= x < Z.of_nat nr) ->
  (forall y, In y b -> 0 <= y < Z.of_nat nc) ->
  total_cost (Z.of_nat nr) (transposed nr nc C) b a
  = total_cost (Z.of_nat nc) C a b.
Proof.
  intros Ha Hb. unfold total_cost.
  rewrite combine_swap, map_map. f_equal.
  apply map_ext_in. intros [x y] Hxy. cbn [fst snd].
  pose proof (in_combine_l _ _ _ _ Hxy) as Hx. apply Ha in Hx.
  pose proof (in_combine_r _ _ _ _ Hxy) as Hy. apply Hb in Hy.
  f_equal. unfold zth.
  replace (Z.to_nat (y * Z.of_nat nr + x))
    with (Z.to_nat y * nr + Z.to_nat x)%nat by nia.
  replace (Z.to_nat (x * Z.of_nat nc + y))
    with (Z.to_nat x * nc + Z.to_nat y)%nat by nia.
  apply transposed_nth; lia.
Qed.

Lemma valid_assignment_swap (nr nc : Z) (a b : list Z) :
  valid_assignment nr nc a b -> valid_assignment nc nr b a.
Proof.
  intros (Hl & Hm & Hna & Hnb & Ha & Hb).
  unfold valid_assignment. rewrite Z.min_comm.
  split; [lia|]. split; [lia|]. split; [exact Hnb|]. split; [exact Hna|].
  split; [exact Hb | exact Ha].
Qed.

Lemma dle_antisym (x y : double) : dle x y -> dle y x -> deq x y.
Proof.
  destruct x as [p| | |], y as [q| | |]; simpl; try tauto.
  intros. lra.
Qed.

Lemma deq_sym (x y : double) : deq x y -> deq y x.
Proof.
  destruct x as [p| | |], y as [q| | |]; simpl; try tauto.
  intros. lra.
Qed.

(** In exact arithmetic, solving the transposed matrix gives an
    assignment of the same total cost: when both solves succeed, the total
    cost of the pairs returned for [C] equals the total cost of the pairs
    returned for its transpose. *)
Theorem transposed_same_total_cost {T} `{Elem T}
        (nr nc : nat) (C : list T) (maximize : bool)
        (a b a' b' : list Z) :
  (maximize = true ->
   forall k, 0 <= k < Z.of_nat nr * Z.of_nat nc ->
             neg_exact (zth C k elem_default)) ->
  solve (A := exact_arith) (Z.of_nat nr) (Z.of_nat nc) C maximize None 0 None 0 = Ok (a, b) ->
  solve (A := exact_arith) (Z.of_nat nc) (Z.of_nat nr) (transposed nr nc C) maximize
        None 0 None 0 = Ok (a', b') ->
  deq (total_cost (Z.of_nat nc) C a b)
      (total_cost (Z.of_nat nr) (transposed nr nc C) a' b').
Proof.
  intros Hexact Hs Hs'.
  assert (Hexact' : maximize = true ->
            forall k, 0 <= k < Z.of_nat nc * Z.of_nat nr ->
                      neg_exact (zth (transposed nr nc C) k elem_default)).
  { intros Hm k Hk. unfold zth.
    destruct (transposed_entry nr nc C (Z.to_nat k) ltac:(nia))
      as (c & Hc & ->).
    rewrite <- zth_nat. apply Hexact; auto. nia. }
  destruct (plain_solve_optimal _ _ C maximize None None a b
              (Nat2Z.is_nonneg _) (Nat2Z.is_nonneg _) Hexact Hs)
    as [Hv Hopt].
  destruct (plain_solve_optimal _ _ (transposed nr nc C) maximize None None
              a' b' (Nat2Z.is_nonneg _) (Nat2Z.is_nonneg _) Hexact' Hs')
    as [Hv' Hopt'].
  pose proof (Hopt b' a' (valid_assignment_swap _ _ _ _ Hv')) as H1.
  pose proof (Hopt' b a (valid_assignment_swap _ _ _ _ Hv)) as H2.
  destruct Hv as (_ & _ & _ & _ & Ha & Hb).
  destruct Hv' as (_ & _ & _ & _ & Ha' & Hb').
  rewrite <- (total_cost_transposed nr nc C b' a' Hb' Ha') in H1.
  rewrite (total_cost_transposed nr nc C a b Ha Hb) in H2.
  destruct maximize.
  - apply dle_antisym; auto.
  - apply dle_antisym; auto.
Qed.

Lemma transposed_same_total_cost_witness :
  deq (total_cost 3 [Fin 4; Fin 1; Fin 3; Fin 2; Fin 0; Fin 5]
                  [0; 1] [1; 0])
      (total_cost 2 (transposed 2 3 [Fin 4; Fin 1; Fin 3;
                                     Fin 2; Fin 0; Fin 5])
                  [0; 1] [1; 0]).
Proof.
  apply (transposed_same_total_cost 2 3
           [Fin 4; Fin 1; Fin 3; Fin 2; Fin 0; Fin 5] false).
  - discriminate.
  - vm_compute. reflexivity.
  - vm_compute. reflexivity.
Defined.

(** ** Integer element types *)

(** Negation of a signed [w]-bit integer is exact, the most negative
    value apart. *)
Lemma neg_exact_signed (w x : Z) :
  0 < w -> - 2 ^ (w - 1) < x < 2 ^ (w - 1) ->
  @neg_exact Z (Elem_int true w) x.
Proof.
  intros Hw Hx. unfold neg_exact. simpl. unfold wrap.
  assert (E2 : 2 ^ w = 2 * 2 ^ (w - 1)).
  { replace w with (Z.succ (w - 1)) at 1 by lia.
    apply Z.pow_succ_r. lia. }
  rewrite Z.mod_small by lia.
  replace (- x + 2 ^ (w - 1) - 2 ^ (w - 1)) with (- x) by lia.
  reflexivity.
Qed.

(** In exact arithmetic (the conversion of the entries to [double]
    included), on a matrix of signed [w]-bit integers none of which is the
    most negative value, the maximizing [solve] without subscript returns
    an assignment of [min(nr, nc)] rows to distinct columns whose total is
    at least the total of every other such assignment. *)
Theorem maximize_signed_integers (w nr nc : Z) (C : list Z)
        (subrows subcols : option (list Z)) (a b : list Z) :
  0 < w -> 0 <= nr -> 0 <= nc ->
  (forall k, 0 <= k < nr * nc ->
             - 2 ^ (w - 1) < zth C k 0 < 2 ^ (w - 1)) ->
  @solve exact_arith Z (Elem_int true w) nr nc C true subrows 0 subcols 0
  = Ok (a, b) ->
  valid_assignment nr nc a b
  /\ forall a' b',
      valid_assignment nr nc a' b' ->
      dle (@total_cost Z (Elem_int true w) nc C a' b')
          (@total_cost Z (Elem_int true w) nc C a b).
Proof.
  intros Hw Hnr Hnc Hrange Hsolve.
  apply (@plain_solve_optimal Z (Elem_int true w) nr nc C true
                              subrows subcols a b Hnr Hnc); auto.
  intros _ k Hk. apply neg_exact_signed; [exact Hw|].
  apply Hrange. exact Hk.
Qed.

Lemma maximize_signed_integers_witness :
  valid_assignment 2 2 [0; 1] [0; 1]
  /\ forall a' b',
      valid_assignment 2 2 a' b' ->
      dle (@total_cost Z (Elem_int true 8) 2 [100; -127; 3; 50] a' b')
          (@total_cost Z (Elem_int true 8) 2 [100; -127; 3; 50]
                       [0; 1] [0; 1]).
Proof.
  apply (maximize_signed_integers 8 2 2 [100; -127; 3; 50] None None).
  - lia.
  - lia.
  - lia.
  - intros k Hk.
    assert (Hcase : k = 0 \/ k = 1 \/ k = 2 \/ k = 3) by lia.
    destruct Hcase as [->|[->|[->| ->]]]; vm_compute; split; reflexivity.
  - vm_compute. reflexivity.
Defined.

(** ** Witnesses of the properties above *)

Lemma solve_total_witness :
  let C := [Fin 4; Fin 1; Fin 3; Fin 2; Fin 0; Fin 5; Fin 3; Fin 2; Fin 2] in
  solve (A := ieee_arith) 3 3 C false (Some [2; 0; 1]) 3 (Some [1; 2]) 2
  = Ok ([2; 1], [2; 1])
  /\ solve (A := ieee_arith) 3 3 C false (Some [2; 0; 1]) 3 (Some [1; 2]) 2
     <> OutOfFuel.
Proof.
  intros C. split; [vm_compute; reflexivity|].
  apply (solve_total (A := ieee_arith)).
  - lia.
  - lia.
  - right. exists [2; 0; 1]. repeat split; discriminate.
  - right. exists [1; 2]. repeat split; discriminate.
Defined.

Lemma infeasible_means_no_finite_assignment_witness :
  total_cost 2 [Fin 1; PInf; Fin 2; PInf] [0; 1] [1; 0] = PInf.
Proof.
  apply (infeasible_means_no_finite_assignment
           2 2 [Fin 1; PInf; Fin 2; PInf] false None None [0; 1] [1; 0]).
  - lia.
  - lia.
  - discriminate.
  - vm_compute. reflexivity.
  - unfold valid_assignment. simpl.
    split; [reflexivity|]. split; [reflexivity|].
    split; [repeat constructor; simpl; intuition lia|].
    split; [repeat constructor; simpl; intuition lia|].
    split; intros z Hz; simpl in Hz; intuition lia.
Defined.

Lemma solve_assigns_finite_entries_witness :
  finite (to_double (zth [Fin 4; Fin 1; Fin 2; PInf] (1 * 2 + 0)
                         elem_default)).
Proof.
  destruct (solve_assigns_finite_entries 2 2 [Fin 4; Fin 1; Fin 2; PInf]
                                         false)
    as [Hplain _]; [lia | lia | discriminate |].
  apply (Hplain None None [0; 1] [1; 0]).
  - vm_compute. reflexivity.
  - simpl. right. left. reflexivity.
Defined.

Lemma finite_matrix_is_solved_witness :
  exists a b,
    solve (A := ieee_arith) 2 2 [Fin 4; Fin 1; Fin 2; Fin 0] true
          None 0 None 0
    = Ok (a, b).
Proof.
  destruct (finite_matrix_is_solved (A := ieee_arith)
              2 2 [Fin 4; Fin 1; Fin 2; Fin 0] true)
    as [Hplain _].
  - lia.
  - lia.
  - intros k Hk.
    assert (Hcase : k = 0 \/ k = 1 \/ k = 2 \/ k = 3) by lia.
    destruct Hcase as [->|[->|[->| ->]]]; eexists; reflexivity.
  - intros k Hk.
    assert (Hcase : k = 0 \/ k = 1 \/ k = 2 \/ k = 3) by lia.
    destruct Hcase as [->|[->|[->| ->]]]; eexists; vm_compute; reflexivity.
  - apply (Hplain None None).
Defined.

Lemma solve_rows_ascending_witness :
  let C := [Fin 4; Fin 2; Fin 1; Fin 0; Fin 3; Fin 5] in
  solve (A := ieee_arith) 3 2 C false None 0 None 0 = Ok ([0; 1], [1; 0])
  /\ StronglySorted Z.lt [0; 1].
Proof.
  intros C. split; [vm_compute; reflexivity|].
  destruct (solve_rows_ascending (A := ieee_arith) 3 2 C false)
    as [Hplain _].
  - lia.
  - lia.
  - apply (Hplain None None [0; 1] [1; 0]). vm_compute. reflexivity.
Defined.

(** ** Status 0 and feasibility *)

Lemma valid_entries_scan {T} `{Elem T} (n : Z) (C : list T)
      (maximize : bool) :
  (forall k, 0 <= k < n ->
             ~ ill_valued maximize (to_double (zth C k elem_default))) ->
  existsb (fun i => invalid_entry maximize (nth i C elem_default))
          (seq 0 (Z.to_nat n)) = false.
Proof.
  intros Hval.
  match goal with |- ?x = false => destruct x eqn:E; auto end.
  apply existsb_seq_iff in E. destruct E as (k & Hk & Hbad).
  exfalso. apply (Hval (Z.of_nat k)); [lia|].
  rewrite zth_nat. now apply invalid_entry_iff.
Qed.

(** In exact arithmetic, on a matrix that passes the validation, [solve]
    without subscript returns status 0 exactly when the matrix has an
    assignment of [min(nr, nc)] rows to distinct columns of finite total
    cost. *)
Theorem solve_succeeds_iff_feasible {T} `{Elem T}
        (nr nc : Z) (C : list T) (maximize : bool)
        (subrows subcols : option (list Z)) :
  0 <= nr -> 0 <= nc ->
  (forall k, 0 <= k < nr * nc ->
             ~ ill_valued maximize (to_double (zth C k elem_default))) ->
  (maximize = true ->
   forall k, 0 <= k < nr * nc -> neg_exact (zth C k elem_default)) ->
  ((exists a b, solve (A := exact_arith) nr nc C maximize subrows 0 subcols 0 = Ok (a, b))
   <-> exists a' b', valid_assignment nr nc a' b'
                     /\ finite (total_cost nc C a' b')).
Proof.
  intros Hnr Hnc Hval Hexact.
  pose proof (valid_entries_scan (nr * nc) C maximize Hval) as Hscan.
  split.
  - intros (a & b & Hsolve). exists a, b.
    destruct (plain_solve_optimal nr nc C maximize subrows subcols a b
                                  Hnr Hnc Hexact Hsolve) as [Hv _].
    split; [exact Hv|].
    destruct (Z.eq_dec (Z.min nr nc) 0) as [Hz|Hnz].
    + unfold solve in Hsolve.
      replace ((nr =? 0) || (nc =? 0))%bool with true in Hsolve
        by (symmetry; apply orb_true_iff;
            destruct (Z.eq_dec nr 0); [left|right]; apply Z.eqb_eq; lia).
      inversion Hsolve; subst. now exists 0%Q.
    + destruct (solve_plain_inv nr nc C maximize subrows subcols a b
                  (neg_exact_keeps_valid _ _ _ Hexact)
                  ltac:(lia) ltac:(lia) Hsolve)
        as (_ & st & L & HInv & HL & Ec & _).
      destruct (ours_total nr nc C maximize ltac:(lia) ltac:(lia) Hscan
                           Hexact st HInv L a b HL Ec) as (q & Eq & _).
      now exists q.
  - intros (a' & b' & Hv & [q Eq]).
    destruct (Z.eq_dec nr 0) as [->|Hnr0];
      [exists [], []; reflexivity|].
    destruct (Z.eq_dec nc 0) as [->|Hnc0].
    { exists [], []. unfold solve. now rewrite Z.eqb_refl, orb_true_r. }
    pose proof (plain_view_ok_on nr nc C maximize
                  (neg_exact_keeps_valid _ _ _ Hexact) Hscan) as Hview.
    destruct (plain_solve_cases nr nc C maximize subrows subcols
                                ltac:(lia) ltac:(lia) Hscan Hview)
      as [[_ Hrows]|Hok]; [exfalso|exact Hok].
    pose proof (plain_infeasible_infinite nr nc C maximize ltac:(lia)
                  ltac:(lia) Hscan Hexact a' b' Hview Hrows Hv) as Einf.
    rewrite Eq in Einf. destruct maximize; discriminate.
Qed.

Lemma solve_succeeds_iff_feasible_witness :
  (exists a b,
      solve 2 2 [Fin 4; PInf; Fin 2; Fin 0] false None 0 None 0 = Ok (a, b))
  <-> exists a' b', valid_assignment 2 2 a' b'
                    /\ finite (total_cost 2 [Fin 4; PInf; Fin 2; Fin 0]
                                          a' b').
Proof.
  apply (solve_succeeds_iff_feasible 2 2 [Fin 4; PInf; Fin 2; Fin 0] false
                                     None None).
  - lia.
  - lia.
  - intros k Hk.
    assert (Hcase : k = 0 \/ k = 1 \/ k = 2 \/ k = 3) by lia.
    unfold ill_valued.
    destruct Hcase as [->|[->|[->| ->]]]; simpl;
      intros [E|[[E _]|[_ E]]]; discriminate.
  - discriminate.
Defined.

(** ** Where the machine departs from exact arithmetic *)

(** [double] rounds to the nearest value, to even on a tie, and overflows
    to [+inf]; [long double] reaches further. *)
Lemma double_rounds_and_overflows :
  round_to F_double (Fin (inject_Z (2 ^ 53 + 1))) = Fin (inject_Z (2 ^ 53))
  /\ round_to F_double (Fin (inject_Z (2 ^ 53 + 3)))
     = Fin (inject_Z (2 ^ 53 + 4))
  /\ round_to F_double (Fin (1 # 3))
     = Fin (6004799503160661 # 18014398509481984)
  /\ round_to F_double (Fin (inject_Z (2 ^ 1024))) = PInf
  /\ round_to F_long_double (Fin (inject_Z (2 ^ 1024)))
     = Fin (inject_Z (2 ^ 1024))
  /\ round_to F_long_double (Fin (inject_Z (2 ^ 64 + 1)))
     = Fin (inject_Z (2 ^ 64)).
Proof. repeat split; vm_compute; reflexivity. Qed.

(** Rounding: the solver and the exact algorithm part on a matrix of
    four [double]s, and the machine returns for the matrix and for its
    transpose assignments of different total cost. *)
Lemma rounding_changes_the_assignment :
  let C := [Fin (inject_Z (10 ^ 16)); Fin (inject_Z (10 ^ 16 + 2));
            Fin 1; Fin (7 # 2)] in
  (forall x, In x C -> round_to F_double x = x)
  /\ solve (A := ieee_arith) 2 2 C false None 0 None 0 = Ok ([0; 1], [0; 1])
  /\ solve (A := exact_arith) 2 2 C false None 0 None 0
     = Ok ([0; 1], [1; 0])
  /\ solve (A := ieee_arith) 2 2 (transposed 2 2 C) false None 0 None 0
     = Ok ([0; 1], [1; 0])
  /\ ~ deq (total_cost 2 C [0; 1] [0; 1])
           (total_cost 2 (transposed 2 2 C) [0; 1] [1; 0]).
Proof.
  intros C.
  split; [intros x [<-|[<-|[<-|[<-|[]]]]]; vm_compute; reflexivity|].
  split; [vm_compute; reflexivity|]. split; [vm_compute; reflexivity|].
  split; [vm_compute; reflexivity|].
  vm_compute. discriminate.
Qed.

(** Overflow: on a matrix of [double]s that has an assignment of finite
    total cost, a sum of the search exceeds the range of [double], every
    distance becomes [+inf] and the machine reports the problem
    infeasible; the exact algorithm solves it. *)
Lemma overflow_reports_infeasible :
  let M := inject_Z (5 * 2 ^ 1020) in
  let C := [Fin 0; Fin M; Fin M;
            Fin (- M); Fin M; PInf;
            Fin M; PInf; PInf] in
  (forall x, In x C -> round_to F_double x = x)
  /\ solve (A := ieee_arith) 3 3 C false None 0 None 0
     = Fail RECTANGULAR_LSAP_INFEASIBLE
  /\ solve (A := exact_arith) 3 3 C false None 0 None 0
     = Ok ([0; 1; 2], [2; 1; 0])
  /\ finite (total_cost 3 C [0; 1; 2] [2; 1; 0]).
Proof.
  intros M C.
  split; [intros x [<-|[<-|[<-|[<-|[<-|[<-|[<-|[<-|[<-|[]]]]]]]]]];
          vm_compute; reflexivity|].
  split; [vm_compute; reflexivity|]. split; [vm_compute; reflexivity|].
  eexists. vm_compute. reflexivity.
Qed.

(** Overflow: the search of the second row returns [minVal = -inf], and
    the dual update that follows leaves infinities and a NaN in the
    duals. *)
Lemma overflow_makes_minVal_infinite :
  let C := [Fin (inject_Z (- (11 * 2 ^ 1020)));
            Fin (inject_Z (- (9 * 2 ^ 1020)));
            Fin (inject_Z (- (15 * 2 ^ 1020))); Fin 0] in
  let cost := Matrix2d C 2 2 false false None None in
  (forall x, In x C -> round_to F_double x = x)
  /\ exists st s,
      solve_rows (A := ieee_arith) cost 2 2 (seq 0 1) (lsap_init 2 2) = Ok st
      /\ augmenting_path (A := ieee_arith) cost (l_u st) (l_v st)
                         (l_row4col st) 2 (l_path st) (l_spc st) 1
                         (l_SR st) (l_SC st) (l_remaining st)
         = Some (1, NInf, s)
      /\ exists st',
          solve_rows (A := ieee_arith) cost 2 2 (seq 0 2) (lsap_init 2 2)
          = Ok st'
          /\ l_u st' = [NInf; NInf] /\ l_v st' = [PInf; NaN].
Proof.
  intros C cost.
  split; [intros x [<-|[<-|[<-|[<-|[]]]]]; vm_compute; reflexivity|].
  eexists. eexists. split; [vm_compute; reflexivity|].
  split; [vm_compute; reflexivity|].
  eexists. split; [vm_compute; reflexivity|]. split; reflexivity.
Qed.

(** Conversion: 64-bit integers beyond [2^53] are rounded when they are
    read as [double]; entries that differ are then tied, and the solver
    takes the first column where the exact algorithm takes the smaller
    (or, maximizing, the larger) entry. *)
Lemma long_entries_round_on_conversion :
  @solve ieee_arith Z (Elem_int true 64) 1 2 [2 ^ 53 + 1; 2 ^ 53] false
         None 0 None 0 = Ok ([0], [0])
  /\ @solve exact_arith Z (Elem_int true 64) 1 2 [2 ^ 53 + 1; 2 ^ 53] false
            None 0 None 0 = Ok ([0], [1])
  /\ @solve ieee_arith Z (Elem_int true 64) 2 1 [2 ^ 53 + 1; 2 ^ 53] false
            None 0 None 0 = Ok ([0], [0])
  /\ @solve exact_arith Z (Elem_int true 64) 2 1 [2 ^ 53 + 1; 2 ^ 53] false
            None 0 None 0 = Ok ([1], [0])
  /\ @solve ieee_arith Z (Elem_int true 64) 1 2 [2 ^ 53; 2 ^ 53 + 1] true
            None 0 None 0 = Ok ([0], [0])
  /\ @solve exact_arith Z (Elem_int true 64) 1 2 [2 ^ 53; 2 ^ 53 + 1] true
            None 0 None 0 = Ok ([0], [1]).
Proof. repeat split; vm_compute; reflexivity. Qed.
